(** * neuro_draw: the physics engine and the growth engine

    A shallow embedding of [src/utils/physicsSimulation.ts] (class
    [PhysicsSimulation]) and of the growth algorithm ([generateBranches],
    [animateBranches]) together with the properties stated about them.
    The particles of the canvas, the special effects, the gesture
    recognizer (class [GestureRecognizer]) and the pattern completion
    ([src/utils/patternCompletion.ts]) follow, each with its properties.

    Numbers.  A JavaScript [number] is modelled by a real number of the
    Standard Library: arithmetic is exact, there is no rounding, no NaN and
    no infinity.  Array indices and the integer results of [Math.floor] and
    [Date.now] are integers ([Z]).  In the gesture recognizer, a number
    that the code can compute as zero divided by zero is an [option], and
    [None] is [NaN].

    Objects.  The points of the physics engine live in one dense array and
    are mutated through their index, so the array is a [list] updated by
    index.  The branches of the growth engine are objects that several arrays
    refer to and that are mutated in place; they live in a store (a list
    indexed by address) and a branch array is a list of addresses. *)

From Stdlib Require Import Reals Lra Lia ZArith String Bool Arith List Sorted.
Import ListNotations.

Local Open Scope R_scope.

(** ** JavaScript primitives *)

Module JS.

(** Comparison operators of [number], as booleans. *)
Definition lt (a b : R) : bool := if Rlt_dec a b then true else false.
Definition gt (a b : R) : bool := lt b a.
Definition le (a b : R) : bool := if Rle_dec a b then true else false.
Definition ge (a b : R) : bool := le b a.
(** [a !== b] *)
Definition neq (a b : R) : bool := if Req_dec_T a b then false else true.

(** [Math.floor] *)
Definition floor (a : R) : Z := Int_part a.

(** Truncation toward zero, as used by the remainder operator. *)
Definition trunc (a : R) : Z :=
  if Rle_dec 0 a then Int_part a else (- Int_part (- a))%Z.

(** [a % b] on numbers: the remainder has the sign of the dividend. *)
Definition rem (a b : R) : R := a - b * IZR (trunc (a / b)).

(** [Math.atan2(y, x)] *)
Definition atan2 (y x : R) : R :=
  if Rlt_dec 0 x then atan (y / x)
  else if Rlt_dec x 0 then
         if Rle_dec 0 y then atan (y / x) + PI else atan (y / x) - PI
       else if Rlt_dec 0 y then PI / 2
            else if Rlt_dec y 0 then - (PI / 2) else 0.

(** What a failing property access raises. *)
Inductive Exception : Type :=
| TypeError.

(** The result of running a method: it returns, or it throws and leaves the
    object in the state reached so far. *)
Inductive Outcome (A : Type) : Type :=
| Returned (a : A)
| Threw (e : Exception) (a : A).

Arguments Returned {A} a.
Arguments Threw {A} e a.

(** [arr[k]] for an integer [k]: [undefined] outside [0 .. length-1]. *)
Definition index {A : Type} (arr : list A) (k : Z) : option A :=
  if (k <? 0)%Z then None else nth_error arr (Z.to_nat k).

(** In-place mutation of the object stored at position [k]. *)
Fixpoint modify {A : Type} (k : nat) (f : A -> A) (arr : list A) : list A :=
  match arr, k with
  | [], _ => []
  | a :: rest, O => f a :: rest
  | a :: rest, S k' => a :: modify k' f rest
  end.

(** A loop over an array whose body may throw: the first throw ends it. *)
Fixpoint forEach {A S : Type} (body : A -> S -> Outcome S) (arr : list A) (s : S)
  : Outcome S :=
  match arr with
  | [] => Returned s
  | a :: rest =>
      match body a s with
      | Returned s' => forEach body rest s'
      | Threw e s' => Threw e s'
      end
  end.

End JS.

(** Array methods that build a new array. *)

Module JSArray.

(** [arr.splice(k, 1)], for an integer [0 <= k]: the array without its
    element at position [k]. *)
Definition splice1 {A : Type} (k : nat) (arr : list A) : list A :=
  firstn k arr ++ skipn (S k) arr.

(** [arr.slice(-n)]: the last [n] elements, all of them if there are fewer. *)
Definition slice_last {A : Type} (n : nat) (arr : list A) : list A :=
  skipn (List.length arr - n) arr.

End JSArray.

(** ** Physics engine: records *)

Module PhysicsPoint.

Record t : Type := mk {
  x : R;
  y : R;
  vx : R;
  vy : R;
  ax : R;
  ay : R;
  mass : R;
  fixed : bool
}.

Definition set_pos (nx ny : R) (p : t) : t :=
  mk nx ny (vx p) (vy p) (ax p) (ay p) (mass p) (fixed p).
Definition set_vel (nvx nvy : R) (p : t) : t :=
  mk (x p) (y p) nvx nvy (ax p) (ay p) (mass p) (fixed p).
Definition set_acc (nax nay : R) (p : t) : t :=
  mk (x p) (y p) (vx p) (vy p) nax nay (mass p) (fixed p).

(** [p.ax += dax; p.ay += day] *)
Definition add_acc (dax day : R) (p : t) : t :=
  set_acc (ax p + dax) (ay p + day) p.
(** [p.ax -= dax; p.ay -= day] *)
Definition sub_acc (dax day : R) (p : t) : t :=
  set_acc (ax p - dax) (ay p - day) p.
(** [p.x += ddx; p.y += ddy] *)
Definition add_pos (ddx ddy : R) (p : t) : t :=
  set_pos (x p + ddx) (y p + ddy) p.
(** [p.x -= ddx; p.y -= ddy] *)
Definition sub_pos (ddx ddy : R) (p : t) : t :=
  set_pos (x p - ddx) (y p - ddy) p.

End PhysicsPoint.

Module PhysicsSpring.

Record t : Type := mk {
  point1 : Z;
  point2 : Z;
  restLength : R;
  stiffness : R;
  damping : R
}.

End PhysicsSpring.

Module PhysicsConstraint.

Inductive kind : Type :=
| distance
| angle.

Record t : Type := mk {
  type : kind;
  points : list Z;
  targetValue : R;
  strength : R
}.

End PhysicsConstraint.

(** ** Physics engine: the class [PhysicsSimulation] *)

Module PhysicsSimulation.

Import JS.

Record t : Type := mk {
  points : list PhysicsPoint.t;
  springs : list PhysicsSpring.t;
  constraints : list PhysicsConstraint.t;
  wind : R * R;
  gravity : R;
  canvasWidth : R;
  canvasHeight : R
}.

(** The field initialisers of the class. *)
Definition new : t := mk [] [] [] (0, 0) 0 800 600.

Definition set_points (pts : list PhysicsPoint.t) (s : t) : t :=
  mk pts (springs s) (constraints s) (wind s) (gravity s)
     (canvasWidth s) (canvasHeight s).

Definition setCanvasSize (width height : R) (s : t) : t :=
  mk (points s) (springs s) (constraints s) (wind s) (gravity s) width height.

Definition setGravity (g : R) (s : t) : t :=
  mk (points s) (springs s) (constraints s) (wind s) g
     (canvasWidth s) (canvasHeight s).

Definition setWind (windX windY : R) (s : t) : t :=
  mk (points s) (springs s) (constraints s) (windX, windY) (gravity s)
     (canvasWidth s) (canvasHeight s).

(** [addPoint(x, y, mass, fixed)]: returns the new index with the engine. *)
Definition addPoint (x y mass : R) (fixed : bool) (s : t) : Z * t :=
  (Z.of_nat (length (points s)),
   set_points (points s ++ [PhysicsPoint.mk x y 0 0 0 0 mass fixed]) s).

(** Euclidean distance as the code writes it: [Math.sqrt(dx*dx + dy*dy)]. *)
Definition dist (dx dy : R) : R := sqrt (dx * dx + dy * dy).

(** [addSpring(point1, point2, stiffness, damping)].  The guard only looks at
    the upper bound; an index that passes it and names no point makes the
    read of [p2.x] or [p1.x] throw. *)
Definition addSpring (point1 point2 : Z) (stiffness damping : R) (s : t)
  : Outcome t :=
  let n := Z.of_nat (length (points s)) in
  if ((point1 >=? n) || (point2 >=? n))%Z then Returned s
  else
    match index (points s) point1, index (points s) point2 with
    | Some p1, Some p2 =>
        let restLength :=
          sqrt (pow (PhysicsPoint.x p2 - PhysicsPoint.x p1) 2
                + pow (PhysicsPoint.y p2 - PhysicsPoint.y p1) 2) in
        Returned
          (mk (points s)
              (springs s
               ++ [PhysicsSpring.mk point1 point2 restLength stiffness damping])
              (constraints s) (wind s) (gravity s)
              (canvasWidth s) (canvasHeight s))
    | _, _ => Threw TypeError s
    end.

(** [addDistanceConstraint(point1, point2, distance, strength)]: no guard. *)
Definition addDistanceConstraint (point1 point2 : Z) (distance strength : R)
  (s : t) : t :=
  mk (points s) (springs s)
     (constraints s
      ++ [PhysicsConstraint.mk PhysicsConstraint.distance [point1; point2]
            distance strength])
     (wind s) (gravity s) (canvasWidth s) (canvasHeight s).

(** *** The passes of [update] *)

(** Reset accelerations. *)
Definition resetAcceleration (p : PhysicsPoint.t) : PhysicsPoint.t :=
  PhysicsPoint.set_acc 0 0 p.

(** Gravity, for one point. *)
Definition applyGravity (g : R) (p : PhysicsPoint.t) : PhysicsPoint.t :=
  if PhysicsPoint.fixed p then p
  else PhysicsPoint.set_acc (PhysicsPoint.ax p)
         (PhysicsPoint.ay p + g * PhysicsPoint.mass p) p.

(** Wind, for one point. *)
Definition applyWind (w : R * R) (p : PhysicsPoint.t) : PhysicsPoint.t :=
  if PhysicsPoint.fixed p then p
  else
    let relativeVx := fst w - PhysicsPoint.vx p in
    let relativeVy := snd w - PhysicsPoint.vy p in
    let windForce := 0.1 in
    PhysicsPoint.add_acc (relativeVx * windForce) (relativeVy * windForce) p.

(** The body of the loop over springs. *)
Definition applySpring (spring : PhysicsSpring.t) (pts : list PhysicsPoint.t)
  : Outcome (list PhysicsPoint.t) :=
  match index pts (PhysicsSpring.point1 spring),
        index pts (PhysicsSpring.point2 spring) with
  | Some p1, Some p2 =>
      let i := Z.to_nat (PhysicsSpring.point1 spring) in
      let j := Z.to_nat (PhysicsSpring.point2 spring) in
      let dx := PhysicsPoint.x p2 - PhysicsPoint.x p1 in
      let dy := PhysicsPoint.y p2 - PhysicsPoint.y p1 in
      let distance := dist dx dy in
      if gt distance 0 then
        let force :=
          (distance - PhysicsSpring.restLength spring)
          * PhysicsSpring.stiffness spring in
        let fx := (dx / distance) * force in
        let fy := (dy / distance) * force in
        let pts :=
          if PhysicsPoint.fixed p1 then pts
          else modify i (PhysicsPoint.add_acc (fx / PhysicsPoint.mass p1)
                                              (fy / PhysicsPoint.mass p1)) pts in
        let pts :=
          if PhysicsPoint.fixed p2 then pts
          else modify j (PhysicsPoint.sub_acc (fx / PhysicsPoint.mass p2)
                                              (fy / PhysicsPoint.mass p2)) pts in
        let dvx := PhysicsPoint.vx p2 - PhysicsPoint.vx p1 in
        let dvy := PhysicsPoint.vy p2 - PhysicsPoint.vy p1 in
        let dampingForce := 0.05 in
        let pts :=
          if PhysicsPoint.fixed p1 then pts
          else modify i (PhysicsPoint.add_acc (dvx * dampingForce)
                                              (dvy * dampingForce)) pts in
        let pts :=
          if PhysicsPoint.fixed p2 then pts
          else modify j (PhysicsPoint.sub_acc (dvx * dampingForce)
                                              (dvy * dampingForce)) pts in
        Returned pts
      else Returned pts
  | _, _ => Threw TypeError pts
  end.

(** The body of the collision loops, for the pair [i < j]. *)
Definition resolvePair (i j : nat) (pts : list PhysicsPoint.t)
  : list PhysicsPoint.t :=
  match nth_error pts i, nth_error pts j with
  | Some p1, Some p2 =>
      let dx := PhysicsPoint.x p2 - PhysicsPoint.x p1 in
      let dy := PhysicsPoint.y p2 - PhysicsPoint.y p1 in
      let distance := dist dx dy in
      let minDistance := 10 in
      if lt distance minDistance && gt distance 0 then
        let overlap := minDistance - distance in
        let separation := overlap / 2 in
        let fx := (dx / distance) * separation in
        let fy := (dy / distance) * separation in
        let pts :=
          if PhysicsPoint.fixed p1 then pts
          else modify i (PhysicsPoint.sub_pos fx fy) pts in
        let pts :=
          if PhysicsPoint.fixed p2 then pts
          else modify j (PhysicsPoint.add_pos fx fy) pts in
        pts
      else pts
  | _, _ => pts
  end.

(** [for (i = 0; i < n; i++) for (j = i + 1; j < n; j++)] *)
Definition collisionPass (pts : list PhysicsPoint.t) : list PhysicsPoint.t :=
  let n := length pts in
  fold_left
    (fun acc i =>
       fold_left (fun acc' j => resolvePair i j acc') (seq (S i) (n - S i)) acc)
    (seq 0 n) pts.

(** The body of the loop over constraints. *)
Definition applyConstraint (constraint : PhysicsConstraint.t)
  (pts : list PhysicsPoint.t) : Outcome (list PhysicsPoint.t) :=
  match PhysicsConstraint.type constraint, PhysicsConstraint.points constraint with
  | PhysicsConstraint.distance, [c0; c1] =>
      match index pts c0, index pts c1 with
      | Some p1, Some p2 =>
          let dx := PhysicsPoint.x p2 - PhysicsPoint.x p1 in
          let dy := PhysicsPoint.y p2 - PhysicsPoint.y p1 in
          let distance := dist dx dy in
          if gt distance 0 then
            let difference := PhysicsConstraint.targetValue constraint - distance in
            let correction := difference * PhysicsConstraint.strength constraint in
            let correctionX := (dx / distance) * correction * 0.5 in
            let correctionY := (dy / distance) * correction * 0.5 in
            let pts :=
              if PhysicsPoint.fixed p1 then pts
              else modify (Z.to_nat c0)
                     (PhysicsPoint.sub_pos correctionX correctionY) pts in
            let pts :=
              if PhysicsPoint.fixed p2 then pts
              else modify (Z.to_nat c1)
                     (PhysicsPoint.add_pos correctionX correctionY) pts in
            Returned pts
          else Returned pts
      | _, _ => Threw TypeError pts
      end
  | _, _ => Returned pts
  end.

(** One axis of the boundary handling: the two [if]s in sequence. *)
Definition bounce (size : R) (pos vel : R) : R * R :=
  let margin := 5 in
  let '(pos, vel) :=
    if lt pos margin then (margin, vel * -0.3) else (pos, vel) in
  if gt pos (size - margin) then (size - margin, vel * -0.3) else (pos, vel).

(** The body of the integration loop. *)
Definition integratePoint (deltaTime width height : R) (p : PhysicsPoint.t)
  : PhysicsPoint.t :=
  if PhysicsPoint.fixed p then p
  else
    let vx := PhysicsPoint.vx p + PhysicsPoint.ax p * deltaTime in
    let vy := PhysicsPoint.vy p + PhysicsPoint.ay p * deltaTime in
    let airResistance := 0.999 in
    let vx := vx * airResistance in
    let vy := vy * airResistance in
    let x := PhysicsPoint.x p + vx * deltaTime in
    let y := PhysicsPoint.y p + vy * deltaTime in
    let '(x, vx) := bounce width x vx in
    let '(y, vy) := bounce height y vy in
    PhysicsPoint.set_pos x y (PhysicsPoint.set_vel vx vy p).

(** The passes that run before the first loop that can throw. *)
Definition forcePass (s : t) : list PhysicsPoint.t :=
  let pts := map resetAcceleration (points s) in
  let pts := if gt (gravity s) 0 then map (applyGravity (gravity s)) pts else pts in
  if neq (fst (wind s)) 0 || neq (snd (wind s)) 0
  then map (applyWind (wind s)) pts else pts.

(** [update(deltaTime)]; the default argument is [1]. *)
Definition update (deltaTime : R) (s : t) : Outcome t :=
  match forEach applySpring (springs s) (forcePass s) with
  | Threw e pts => Threw e (set_points pts s)
  | Returned pts =>
      match forEach applyConstraint (constraints s) (collisionPass pts) with
      | Threw e pts => Threw e (set_points pts s)
      | Returned pts =>
          Returned
            (set_points
               (map (integratePoint deltaTime (canvasWidth s) (canvasHeight s)) pts)
               s)
      end
  end.

(** *** The other methods of the class *)

(** [createBranchFromPoints(points, mass)], first loop: [i] is the loop
    counter, and only the point added at [i = 0] is fixed.  An element of
    [points], an object [{x, y}], is a pair. *)
Fixpoint addBranchPoints (i : nat) (pts : list (R * R)) (mass : R)
  (indices : list Z) (s : t) : list Z * t :=
  match pts with
  | [] => (indices, s)
  | p :: rest =>
      let fixed := (i =? 0)%nat in
      let '(k, s) := addPoint (fst p) (snd p) mass fixed s in
      addBranchPoints (S i) rest mass (indices ++ [k]) s
  end.

(** Second loop: [addSpring(indices[i], indices[i + 1], 0.2, 0.98)] for
    every [i < indices.length - 1]. *)
Fixpoint connectBranch (indices : list Z) (s : t) : Outcome t :=
  match indices with
  | [] => Returned s
  | a :: rest =>
      match rest with
      | [] => Returned s
      | b :: _ =>
          match addSpring a b 0.2 0.98 s with
          | Returned s => connectBranch rest s
          | Threw e s => Threw e s
          end
      end
  end.

Definition createBranchFromPoints (pts : list (R * R)) (mass : R) (s : t)
  : Outcome (list Z * t) :=
  let '(indices, s) := addBranchPoints 0 pts mass [] s in
  match connectBranch indices s with
  | Returned s => Returned (indices, s)
  | Threw e s => Threw e (indices, s)
  end.

Definition getPoints (s : t) : list PhysicsPoint.t := points s.

Definition getSprings (s : t) : list PhysicsSpring.t := springs s.

(** [clear()]: the three arrays are emptied; wind, gravity and the size of
    the canvas stay. *)
Definition clear (s : t) : t :=
  mk [] [] [] (wind s) (gravity s) (canvasWidth s) (canvasHeight s).

(** [if (k > index) k--], applied to a stored index. *)
Definition shiftIndex (removed k : Z) : Z :=
  if (k >? removed)%Z then (k - 1)%Z else k.

(** [removePoint(index)] *)
Definition removePoint (removed : Z) (s : t) : t :=
  if ((removed >=? 0) && (removed <? Z.of_nat (length (points s))))%Z then
    let springs :=
      filter (fun spring =>
                negb (PhysicsSpring.point1 spring =? removed)%Z
                && negb (PhysicsSpring.point2 spring =? removed)%Z)
             (springs s) in
    let constraints :=
      filter (fun constraint =>
                negb (existsb (Z.eqb removed)
                        (PhysicsConstraint.points constraint)))
             (constraints s) in
    let points := JSArray.splice1 (Z.to_nat removed) (points s) in
    let springs :=
      map (fun spring =>
             PhysicsSpring.mk
               (shiftIndex removed (PhysicsSpring.point1 spring))
               (shiftIndex removed (PhysicsSpring.point2 spring))
               (PhysicsSpring.restLength spring)
               (PhysicsSpring.stiffness spring)
               (PhysicsSpring.damping spring))
          springs in
    let constraints :=
      map (fun constraint =>
             PhysicsConstraint.mk
               (PhysicsConstraint.type constraint)
               (map (shiftIndex removed) (PhysicsConstraint.points constraint))
               (PhysicsConstraint.targetValue constraint)
               (PhysicsConstraint.strength constraint))
          constraints in
    mk points springs constraints (wind s) (gravity s)
       (canvasWidth s) (canvasHeight s)
  else s.

(** [applyForceToPoint(index, fx, fy)] *)
Definition applyForceToPoint (k : Z) (fx fy : R) (s : t) : t :=
  if ((k >=? 0) && (k <? Z.of_nat (length (points s))))%Z then
    match index (points s) k with
    | Some p =>
        if PhysicsPoint.fixed p then s
        else
          set_points
            (modify (Z.to_nat k)
               (PhysicsPoint.add_acc (fx / PhysicsPoint.mass p)
                                     (fy / PhysicsPoint.mass p))
               (points s))
            s
    | None => s
    end
  else s.

(** [getPointsNear(x, y, radius)] *)
Definition getPointsNear (x y radius : R) (s : t) : list Z :=
  fold_left
    (fun nearbyPoints i =>
       match nth_error (points s) i with
       | Some point =>
           let distance :=
             sqrt (pow (PhysicsPoint.x point - x) 2
                   + pow (PhysicsPoint.y point - y) 2) in
           if le distance radius then nearbyPoints ++ [Z.of_nat i]
           else nearbyPoints
       | None => nearbyPoints
       end)
    (seq 0 (length (points s))) [].

End PhysicsSimulation.

(** ** The outside world of the growth engine *)

Module World.

(** [Math.random] and [Date.now] read the world: the values they will return,
    and how many have been handed out. *)
Record t : Type := mk {
  random : nat -> R;
  drawn : nat;
  clock : nat -> Z;
  elapsed : nat
}.

(** [Math.random()] *)
Definition Math_random (w : t) : R * t :=
  (random w (drawn w), mk (random w) (S (drawn w)) (clock w) (elapsed w)).

(** [Date.now()] *)
Definition Date_now (w : t) : Z * t :=
  (clock w (elapsed w), mk (random w) (drawn w) (clock w) (S (elapsed w))).

End World.

(** ** Growth engine: records *)

Inductive DrawingMode : Type :=
| neural
| electric
| organic.

Module GrowthSettings.

(** The fields of [GrowthSettings] that the growth algorithm reads. *)
Record t : Type := mk {
  growthSpeed : R;
  branchComplexity : R;
  selectedColor : string;
  drawingMode : DrawingMode;
  particleEffects : bool
}.

End GrowthSettings.

Module Point.

Record t : Type := mk {
  x : R;
  y : R
}.

End Point.

Module Branch.

Record t : Type := mk {
  startX : R;
  startY : R;
  endX : R;
  endY : R;
  angle : R;
  length : R;
  generation : Z;
  progress : R;
  maxProgress : R;
  color : string;
  opacity : R;
  lastGrowth : R
}.

Definition set_progress (v : R) (b : t) : t :=
  mk (startX b) (startY b) (endX b) (endY b) (angle b) (length b)
     (generation b) v (maxProgress b) (color b) (opacity b) (lastGrowth b).
Definition set_lastGrowth (v : R) (b : t) : t :=
  mk (startX b) (startY b) (endX b) (endY b) (angle b) (length b)
     (generation b) (progress b) (maxProgress b) (color b) (opacity b) v.
Definition set_opacity (v : R) (b : t) : t :=
  mk (startX b) (startY b) (endX b) (endY b) (angle b) (length b)
     (generation b) (progress b) (maxProgress b) (color b) v (lastGrowth b).

End Branch.

(** ** Growth engine: [generateBranches] and [animateBranches] *)

Module GrowthAlgorithm.

Import JS.

(** The store of branch objects; an address is a position in it. *)
Definition Heap : Type := list Branch.t.
Definition addr : Type := nat.

(** [arr[Math.floor(Math.random() * arr.length)]]; a read outside the array
    gives [undefined]. *)
Definition pick (arr : list string) (r : R) : string :=
  match index arr (floor (r * INR (List.length arr))) with
  | Some c => c
  | None => "undefined"%string
  end.

Definition colors : list string :=
  ["#00E0FF"; "#FF2CFB"; "#A020F0"; "#00FFAA"; "#FF6B35"]%string.
Definition electricColors : list string :=
  ["#00E0FF"; "#4F46E5"; "#8B5CF6"; "#06B6D4"]%string.
Definition organicColors : list string :=
  ["#00FFAA"; "#10B981"; "#34D399"; "#6EE7B7"]%string.

Definition getRandomColor (generation : Z) (settings : GrowthSettings.t)
  (w : World.t) : string * World.t :=
  match GrowthSettings.drawingMode settings with
  | electric =>
      let '(r, w) := World.Math_random w in (pick electricColors r, w)
  | organic =>
      let '(r, w) := World.Math_random w in (pick organicColors r, w)
  | neural =>
      if (generation =? 0)%Z then (GrowthSettings.selectedColor settings, w)
      else if (generation =? 1)%Z then ("#FF2CFB"%string, w)
      else let '(r, w) := World.Math_random w in (pick colors r, w)
  end.

(** One call [onParticleGeneration(x, y, color)], recorded with the address
    of the branch whose visit made it. *)
Definition Call : Type := (addr * (R * R * string))%type.

(** What the loops of both functions carry: the store, the array being
    built, the calls made to [onParticleGeneration] so far, the world. *)
Record Loop : Type := mkLoop {
  heap : Heap;
  newBranches : list addr;
  calls : list Call;
  world : World.t
}.

Definition set_world (w : World.t) (st : Loop) : Loop :=
  mkLoop (heap st) (newBranches st) (calls st) w.

(** [arr.push({...})]: a new object is allocated and its address appended. *)
Definition push_new (b : Branch.t) (w : World.t) (st : Loop) : Loop :=
  mkLoop (heap st ++ [b]) (newBranches st ++ [List.length (heap st)])
         (calls st) w.

(** The body of the inner loop of [generateBranches]: a branch at [point]. *)
Definition seedOne (settings : GrowthSettings.t)
  (point : Point.t) (strokeAngle angleVariation branchLengthMultiplier : R)
  (st : Loop) : Loop :=
  let w := world st in
  let '(r, w) := World.Math_random w in
  let angleOffset := (r - 0.5) * PI * angleVariation in
  let angle := strokeAngle + angleOffset in
  let '(r, w) := World.Math_random w in
  let length := (30 + r * 50) * branchLengthMultiplier in
  let '(r, w) := World.Math_random w in
  let maxProgress := 60 + r * 40 in
  let '(color, w) := getRandomColor 0 settings w in
  let '(r, w) := World.Math_random w in
  let opacity := 0.8 + r * 0.2 in
  let '(now, w) := World.Date_now w in
  let '(r, w) := World.Math_random w in
  let lastGrowth := IZR now + r * 2000 in
  push_new
    (Branch.mk (Point.x point) (Point.y point)
       (Point.x point + cos angle * length)
       (Point.y point + sin angle * length)
       angle length 0 0 maxProgress color opacity lastGrowth)
    w st.

(** [for (let j = 0; j < numInitialBranches; j++)] *)
Fixpoint seedBranches (n : nat) (settings : GrowthSettings.t)
  (point : Point.t) (strokeAngle angleVariation branchLengthMultiplier : R)
  (st : Loop) : Loop :=
  match n with
  | O => st
  | S n' =>
      seedBranches n' settings point strokeAngle angleVariation
        branchLengthMultiplier
        (seedOne settings point strokeAngle angleVariation
           branchLengthMultiplier st)
  end.

(** The mode table of [generateBranches]:
    density factor, [branchLengthMultiplier], [angleVariation]. *)
Definition seedParams (m : DrawingMode) : R * R * R :=
  match m with
  | electric => (0.08, 1.5, 1.2)
  | organic => (0.03, 0.8, 0.6)
  | neural => (0.05, 1.0, 0.8)
  end.

Definition numBranches (strokePoints : list Point.t) (settings : GrowthSettings.t)
  : Z :=
  let complexity := Rmin (GrowthSettings.branchComplexity settings / 100) 0.25 in
  let '(factor, _, _) := seedParams (GrowthSettings.drawingMode settings) in
  Z.max 1 (floor (INR (List.length strokePoints) * complexity * factor)).

(** The body of the outer loop of [generateBranches], for index [i]. *)
Definition seedAt (strokePoints : list Point.t) (settings : GrowthSettings.t)
  (i : nat) (st : Loop) : Loop :=
  let n := numBranches strokePoints settings in
  let '(_, branchLengthMultiplier, angleVariation) :=
    seedParams (GrowthSettings.drawingMode settings) in
  let len := Z.of_nat (List.length strokePoints) in
  let pointIndex := floor (IZR (len - 1) * (INR i / IZR n)) in
  match index strokePoints pointIndex with
  | None => st (* not reached: 0 <= pointIndex < length *)
  | Some point =>
      let strokeAngle :=
        if (pointIndex <? len - 1)%Z then
          match index strokePoints (pointIndex + 1) with
          | Some nextPoint =>
              atan2 (Point.y nextPoint - Point.y point)
                    (Point.x nextPoint - Point.x point)
          | None => 0 (* not reached: pointIndex + 1 < length *)
          end
        else 0 in
      let '(r, w) := World.Math_random (world st) in
      let numInitialBranches :=
        match GrowthSettings.drawingMode settings with
        | electric => (floor (r * 3) + 1)%Z
        | _ => (floor (r * 2) + 1)%Z
        end in
      seedBranches (Z.to_nat numInitialBranches) settings point strokeAngle
        angleVariation branchLengthMultiplier (set_world w st)
  end.

(** What both functions hand back: the store after the call, the returned
    array, the calls made to the callback, the world after the call. *)
Definition Result : Type := Loop.

(** [generateBranches(strokePoints, settings)] *)
Definition generateBranches (strokePoints : list Point.t)
  (settings : GrowthSettings.t) (h : Heap) (w : World.t) : Result :=
  if (List.length strokePoints <? 2)%nat then mkLoop h [] [] w
  else
    fold_left (fun st i => seedAt strokePoints settings i st)
      (seq 0 (Z.to_nat (numBranches strokePoints settings)))
      (mkLoop h [] [] w).

(** The callback [onParticleGeneration]: it gets [(x, y, color)] and may act
    on the world (the one of the canvas draws random numbers). *)
Definition Callback : Type := R -> R -> string -> World.t -> World.t.

Definition maxBranches : nat := 500.

Arguments maxBranches : simpl never.

(** The mode table of [animateBranches]:
    [branchProbability], [maxGenerations], [growthDelay]. *)
Definition growthParams (m : DrawingMode) : R * Z * R :=
  match m with
  | electric => (0.015, 4%Z, 800)
  | organic => (0.008, 5%Z, 1500)
  | neural => (0.01, 3%Z, 1000)
  end.

(** The end of a branch as [animateBranches] computes it. *)
Definition endpoint (b : Branch.t) : R * R :=
  (Branch.startX b + cos (Branch.angle b) * Branch.length b,
   Branch.startY b + sin (Branch.angle b) * Branch.length b).

(** The body of the loop that creates the children of [branch]. *)
Definition spawnOne (now : Z) (settings : GrowthSettings.t)
  (branch : Branch.t) (st : Loop) : Loop :=
  let w := world st in
  let '(r, w) := World.Math_random w in
  let angleDeviation :=
    match GrowthSettings.drawingMode settings with
    | organic => (r - 0.5) * PI * 0.4
    | _ => (r - 0.5) * PI * 0.6
    end in
  let newAngle := Branch.angle branch + angleDeviation in
  let '(r, w) := World.Math_random w in
  let newLength := Branch.length branch * (0.6 + r * 0.3) in
  let startX := fst (endpoint branch) in
  let startY := snd (endpoint branch) in
  if (List.length (newBranches st) <? maxBranches)%nat then
    let '(r, w) := World.Math_random w in
    let maxProgress := 40 + r * 30 in
    let '(color, w) :=
      getRandomColor (Branch.generation branch + 1) settings w in
    let opacity :=
      Rmax 0.3 (Branch.opacity branch
                - IZR (Branch.generation branch) * 0.15) in
    let '(r, w) := World.Math_random w in
    let lastGrowth := IZR now + r * 1000 in
    push_new
      (Branch.mk startX startY
         (startX + cos newAngle * newLength)
         (startY + sin newAngle * newLength)
         newAngle newLength (Branch.generation branch + 1) 0
         maxProgress color opacity lastGrowth)
      w st
  else set_world w st.

(** [for (let i = 0; i < numNewBranches; i++)] *)
Fixpoint spawn (n : nat) (now : Z) (settings : GrowthSettings.t)
  (branch : Branch.t) (st : Loop) : Loop :=
  match n with
  | O => st
  | S n' => spawn n' now settings branch (spawnOne now settings branch st)
  end.

(** The growth tick of one branch: the new state of the object, and whether
    the callback is called. *)
Definition grow (now : Z) (speedMultiplier : R) (settings : GrowthSettings.t)
  (hasCallback : bool) (branch : Branch.t) : Branch.t * bool :=
  let prevProgress := Branch.progress branch in
  if lt (Branch.progress branch) (Branch.maxProgress branch)
     && gt (IZR now - Branch.lastGrowth branch) 16
  then
    let branch :=
      Branch.set_progress
        (Rmin (Branch.maxProgress branch)
              (Branch.progress branch + speedMultiplier)) branch in
    let branch := Branch.set_lastGrowth (IZR now) branch in
    (branch,
     GrowthSettings.particleEffects settings && hasCallback
     && ge (Branch.progress branch) (Branch.maxProgress branch)
     && lt prevProgress (Branch.maxProgress branch))
  else (branch, false).

(** The first [if] of the body of [activeBranches.forEach]: the growth tick
    of the branch at address [a], written to the store, with the call of
    the callback.  Returns the object as it is after the tick. *)
Definition tick (now : Z) (speedMultiplier : R) (settings : GrowthSettings.t)
  (onParticleGeneration : option Callback) (a : addr) (branch : Branch.t)
  (st : Loop) : Branch.t * Loop :=
  let '(branch, fire) :=
    grow now speedMultiplier settings
      (match onParticleGeneration with Some _ => true | None => false end)
      branch in
  let '(endX, endY) := endpoint branch in
  match fire, onParticleGeneration with
  | true, Some callback =>
      (branch,
       mkLoop (modify a (fun _ => branch) (heap st)) (newBranches st)
         (calls st ++ [(a, (endX, endY, Branch.color branch))])
         (callback endX endY (Branch.color branch) (world st)))
  | _, _ =>
      (branch,
       mkLoop (modify a (fun _ => branch) (heap st)) (newBranches st)
         (calls st) (world st))
  end.

(** The second [if] of the body: the branch at address [a], whose fields
    are [branch], may get children. *)
Definition branching (now : Z) (speedMultiplier : R)
  (settings : GrowthSettings.t) (a : addr) (branch : Branch.t) (st : Loop)
  : Loop :=
  let '(branchProbability, maxGenerations, growthDelay) :=
    growthParams (GrowthSettings.drawingMode settings) in
  if ge (Branch.progress branch) (Branch.maxProgress branch)
     && (Branch.generation branch <? maxGenerations)%Z
  then
    let '(r, w) := World.Math_random (world st) in
    let st := set_world w st in
    if lt r (branchProbability * speedMultiplier)
       && gt (IZR now - Branch.lastGrowth branch) growthDelay
       && (List.length (newBranches st) <? maxBranches)%nat
    then
      let '(numNewBranches, w) :=
        match GrowthSettings.drawingMode settings with
        | electric =>
            let '(r, w) := World.Math_random w in ((floor (r * 2) + 1)%Z, w)
        | _ => (1%Z, w)
        end in
      let st :=
        spawn (Z.to_nat numNewBranches) now settings branch
          (set_world w st) in
      mkLoop (modify a (Branch.set_lastGrowth (IZR now)) (heap st))
             (newBranches st) (calls st) (world st)
    else st
  else st.

(** The body of [activeBranches.forEach], for the branch at address [a]:
    the tick, [newBranches.push(branch)], the children. *)
Definition visit (now : Z) (speedMultiplier : R) (settings : GrowthSettings.t)
  (onParticleGeneration : option Callback) (a : addr) (st : Loop) : Loop :=
  match nth_error (heap st) a with
  | None => st (* an array only holds addresses of the store *)
  | Some branch =>
      let '(branch, st) :=
        tick now speedMultiplier settings onParticleGeneration a branch st in
      let st :=
        mkLoop (heap st) (newBranches st ++ [a]) (calls st) (world st) in
      branching now speedMultiplier settings a branch st
  end.

(** The body of the final [newBranches.map]: the opacity pulse. *)
Definition pulse (now : Z) (settings : GrowthSettings.t) (h : Heap) (a : addr)
  : Heap :=
  match nth_error h a with
  | None => h
  | Some branch =>
      if ge (Branch.progress branch) (Branch.maxProgress branch)
         && (Z.rem now 100 <? 16)%Z
      then
        let pulseIntensity :=
          match GrowthSettings.drawingMode settings with
          | electric => 0.1 | _ => 0.05 end in
        let pulseSpeed :=
          match GrowthSettings.drawingMode settings with
          | electric => 0.002 | _ => 0.001 end in
        let pulsePhase :=
          rem (IZR now * pulseSpeed + Branch.startX branch * 0.01) (PI * 2) in
        modify a
          (Branch.set_opacity
             (Rmax 0.3 (Branch.opacity branch + sin pulsePhase * pulseIntensity)))
          h
      else h
  end.

(** [animateBranches(branches, growthSpeed, settings, onParticleGeneration)] *)
Definition animateBranches (branches : list addr) (growthSpeed : R)
  (settings : GrowthSettings.t) (onParticleGeneration : option Callback)
  (h : Heap) (w : World.t) : Result :=
  let '(now, w) := World.Date_now w in
  let speedMultiplier := growthSpeed / 50 in
  let activeBranches := firstn maxBranches branches in
  let st :=
    fold_left
      (fun st a => visit now speedMultiplier settings onParticleGeneration a st)
      activeBranches (mkLoop h [] [] w) in
  mkLoop (fold_left (pulse now settings) (newBranches st) (heap st))
         (newBranches st) (calls st) (world st).

End GrowthAlgorithm.

(** ** The canvas: how the growth engine is driven *)

Module Canvas.

Import GrowthAlgorithm.

(** The [branches] state of the component with the store its addresses point
    into, the world, and the log of all callback calls. *)
Record t : Type := mk {
  heap : Heap;
  branches : list addr;
  world : World.t;
  log : list Call
}.

Definition init (w : World.t) : t := mk [] [] w [].

(** [stopDrawing]:
    [setBranches(prev => [...prev, ...generateBranches(currentStroke, settings)])] *)
Definition stopDrawing (currentStroke : list Point.t)
  (settings : GrowthSettings.t) (c : t) : t :=
  let r := generateBranches currentStroke settings (heap c) (world c) in
  mk (GrowthAlgorithm.heap r) (branches c ++ newBranches r)
     (GrowthAlgorithm.world r) (log c).

(** One frame of [animate]:
    [setBranches(prev => animateBranches(prev, growthSpeed, settings, callback))];
    the component passes [settings.growthSpeed] and [generateParticles]. *)
Definition animate (growthSpeed : R) (settings : GrowthSettings.t)
  (onParticleGeneration : option Callback) (c : t) : t :=
  let r :=
    animateBranches (branches c) growthSpeed settings onParticleGeneration
      (heap c) (world c) in
  mk (GrowthAlgorithm.heap r) (newBranches r) (GrowthAlgorithm.world r)
     (log c ++ calls r).

(** What happens to the engine over time. *)
Inductive Op : Type :=
| Seed (stroke : list Point.t) (settings : GrowthSettings.t)
| Step (growthSpeed : R) (settings : GrowthSettings.t)
       (onParticleGeneration : option Callback).

Definition apply (c : t) (op : Op) : t :=
  match op with
  | Seed stroke settings => stopDrawing stroke settings c
  | Step growthSpeed settings cb => animate growthSpeed settings cb c
  end.

Definition run (ops : list Op) (c : t) : t := fold_left apply ops c.

End Canvas.

(** ** Particles of the canvas *)

Module Particle.

Record t : Type := mk {
  x : R;
  y : R;
  vx : R;
  vy : R;
  life : R;
  maxLife : R;
  color : string;
  size : R
}.

End Particle.

(** The [particles] state of the canvas component and the two callbacks
    that write it. *)

Module Particles.

Import JS.

(** The object literal that the loop of [generateParticles] pushes; its
    random fields are drawn in the order in which they are written. *)
Definition newParticle (x y : R) (color : string) (w : World.t)
  : Particle.t * World.t :=
  let '(r, w) := World.Math_random w in
  let px := x + (r - 0.5) * 10 in
  let '(r, w) := World.Math_random w in
  let py := y + (r - 0.5) * 10 in
  let '(r, w) := World.Math_random w in
  let vx := (r - 0.5) * 2 in
  let '(r, w) := World.Math_random w in
  let vy := (r - 0.5) * 2 in
  let '(r, w) := World.Math_random w in
  let maxLife := 60 + r * 40 in
  let '(r, w) := World.Math_random w in
  let size := 1 + r * 2 in
  (Particle.mk px py vx vy 0 maxLife color size, w).

(** [for (let i = 0; i < particleCount; i++)], whose bound is not an
    integer; [fuel] bounds the number of iterations. *)
Fixpoint pushParticles (fuel i : nat) (particleCount x y : R) (color : string)
  (newParticles : list Particle.t) (w : World.t)
  : list Particle.t * World.t :=
  match fuel with
  | O => (newParticles, w)
  | S fuel' =>
      if lt (INR i) particleCount then
        let '(p, w) := newParticle x y color w in
        pushParticles fuel' (S i) particleCount x y color
          (newParticles ++ [p]) w
      else (newParticles, w)
  end.

(** [generateParticles(x, y, color)], on the state [prev]; the loop is given
    as many iterations as the first integer above its bound. *)
Definition generateParticles (settings : GrowthSettings.t) (x y : R)
  (color : string) (prev : list Particle.t) (w : World.t)
  : list Particle.t * World.t :=
  if negb (GrowthSettings.particleEffects settings) then (prev, w)
  else
    let '(r, w) := World.Math_random w in
    let particleCount := 3 + r * 5 in
    let '(newParticles, w) :=
      pushParticles (Z.to_nat (up particleCount)) 0 particleCount x y color
        [] w in
    (JSArray.slice_last 200 (prev ++ newParticles), w).

(** The body of the [map] of [updateParticles]. *)
Definition age (particle : Particle.t) : Particle.t :=
  Particle.mk
    (Particle.x particle + Particle.vx particle)
    (Particle.y particle + Particle.vy particle)
    (Particle.vx particle * 0.98)
    (Particle.vy particle * 0.98)
    (Particle.life particle + 1)
    (Particle.maxLife particle)
    (Particle.color particle)
    (Particle.size particle).

(** [updateParticles()] *)
Definition updateParticles (prev : list Particle.t) : list Particle.t :=
  filter (fun particle => lt (Particle.life particle) (Particle.maxLife particle))
         (map age prev).

(** The opacity a particle is drawn with. *)
Definition alpha (particle : Particle.t) : R :=
  1 - Particle.life particle / Particle.maxLife particle.

(** What the growth engine is handed as [onParticleGeneration]: the effect
    of [generateParticles] on the world. *)
Definition callback (settings : GrowthSettings.t) : GrowthAlgorithm.Callback :=
  fun x y color w => snd (generateParticles settings x y color [] w).

End Particles.

(** ** Special effects *)

Module SpecialEffect.

Inductive kind : Type :=
| explosion
| ripple
| lightning
| sparkle
| pulse
| spiral_burst
| star_burst.

Record t : Type := mk {
  type : kind;
  center : Point.t;
  intensity : R;
  color : string;
  duration : R;
  timestamp : Z
}.

End SpecialEffect.

Module EffectParticle.

Record t : Type := mk {
  x : R;
  y : R;
  vx : R;
  vy : R;
  life : R;
  maxLife : R;
  size : R;
  color : string;
  alpha : R;
  effectType : SpecialEffect.kind
}.

End EffectParticle.

(** The class [SpecialEffectsManager]. *)

Module SpecialEffectsManager.

Import JS.

Record t : Type := mk {
  effects : list SpecialEffect.t;
  effectParticles : list EffectParticle.t
}.

Definition new : t := mk [] [].

(** [createEffectForShape(shapeType, center, color)]; [None] is [null]. *)
Definition createEffectForShape (shapeType : string) (center : Point.t)
  (color : string) (w : World.t) : option SpecialEffect.t * World.t :=
  let '(timestamp, w) := World.Date_now w in
  let effect type intensity duration :=
    Some (SpecialEffect.mk type center intensity color duration timestamp) in
  (if String.eqb shapeType "circle" then effect SpecialEffect.ripple 1.0 2000
   else if String.eqb shapeType "line" then
     effect SpecialEffect.lightning 0.8 1500
   else if String.eqb shapeType "triangle" then
     effect SpecialEffect.explosion 1.2 1800
   else if String.eqb shapeType "square" then
     effect SpecialEffect.pulse 0.9 2500
   else if String.eqb shapeType "spiral" then
     effect SpecialEffect.spiral_burst 1.5 3000
   else if String.eqb shapeType "star" then
     effect SpecialEffect.star_burst 1.8 2200
   else if String.eqb shapeType "wave" then
     effect SpecialEffect.sparkle 1.1 2800
   else None,
   w).

(** The [switch] of [createParticleForEffect]: the velocity, the size and
    the life span it leaves, from the ones computed before it. *)
Definition customize (effect : SpecialEffect.t) (angle vx vy size maxLife : R)
  (w : World.t) : R * R * R * R * World.t :=
  let intensity := SpecialEffect.intensity effect in
  match SpecialEffect.type effect with
  | SpecialEffect.explosion =>
      let '(r, w) := World.Math_random w in
      let explosionSpeed := (5 + r * 10) * intensity in
      let vx := cos angle * explosionSpeed in
      let vy := sin angle * explosionSpeed in
      let '(r, w) := World.Math_random w in
      let size := (2 + r * 4) * intensity in
      (vx, vy, size, maxLife, w)
  | SpecialEffect.ripple =>
      let '(r, w) := World.Math_random w in
      let rippleAngle := angle + (r - 0.5) * 0.5 in
      let '(r, w) := World.Math_random w in
      let rippleSpeed := (1 + r * 3) * intensity in
      let vx := cos rippleAngle * rippleSpeed in
      let vy := sin rippleAngle * rippleSpeed in
      let '(r, w) := World.Math_random w in
      let size := (0.5 + r * 1.5) * intensity in
      (vx, vy, size, maxLife * 1.5, w)
  | SpecialEffect.lightning =>
      let '(r, w) := World.Math_random w in
      let vx := (r - 0.5) * 8 * intensity in
      let '(r, w) := World.Math_random w in
      let vy := (r - 0.5) * 8 * intensity in
      let '(r, w) := World.Math_random w in
      let size := (0.8 + r * 2) * intensity in
      (vx, vy, size, maxLife * 0.7, w)
  | SpecialEffect.sparkle =>
      let '(r, w) := World.Math_random w in
      let vx := (r - 0.5) * 3 * intensity in
      let '(r, w) := World.Math_random w in
      let vy := (r - 0.5) * 3 * intensity in
      let '(r, w) := World.Math_random w in
      let size := (1.5 + r * 2.5) * intensity in
      (vx, vy, size, maxLife * 1.8, w)
  | SpecialEffect.spiral_burst =>
      let '(r, w) := World.Math_random w in
      let spiralRadius := r * 100 * intensity in
      let spiralAngle := angle + sin (angle * 3) * 0.5 in
      let vx := cos spiralAngle * (spiralRadius / 50) in
      let vy := sin spiralAngle * (spiralRadius / 50) in
      let '(r, w) := World.Math_random w in
      let size := (1 + r * 3) * intensity in
      (vx, vy, size, maxLife * 2, w)
  | SpecialEffect.star_burst =>
      let starPoints := 5 in
      let starAngle :=
        (PI * 2 / starPoints) * IZR (floor (angle / (PI * 2 / starPoints))) in
      let '(r, w) := World.Math_random w in
      let starSpeed := (3 + r * 6) * intensity in
      let vx := cos starAngle * starSpeed in
      let vy := sin starAngle * starSpeed in
      let '(r, w) := World.Math_random w in
      let size := (1.5 + r * 3.5) * intensity in
      (vx, vy, size, maxLife, w)
  | SpecialEffect.pulse =>
      let '(r, w) := World.Math_random w in
      let pulseSpeed := (1 + r * 2) * intensity in
      let vx := cos angle * pulseSpeed in
      let vy := sin angle * pulseSpeed in
      let '(r, w) := World.Math_random w in
      let size := (2 + r * 4) * intensity in
      (vx, vy, size, maxLife * 1.2, w)
  end.

(** [createParticleForEffect(effect)] *)
Definition createParticleForEffect (effect : SpecialEffect.t) (w : World.t)
  : EffectParticle.t * World.t :=
  let intensity := SpecialEffect.intensity effect in
  let '(r, w) := World.Math_random w in
  let angle := PI * 2 * r in
  let '(r, w) := World.Math_random w in
  let speed := (2 + r * 4) * intensity in
  let vx := cos angle * speed in
  let vy := sin angle * speed in
  let '(r, w) := World.Math_random w in
  let size := (1 + r * 3) * intensity in
  let '(r, w) := World.Math_random w in
  let maxLife := SpecialEffect.duration effect / 20 + r * 20 in
  let '(vx, vy, size, maxLife, w) :=
    customize effect angle vx vy size maxLife w in
  let '(r, w) := World.Math_random w in
  let x := Point.x (SpecialEffect.center effect) + (r - 0.5) * 10 in
  let '(r, w) := World.Math_random w in
  let y := Point.y (SpecialEffect.center effect) + (r - 0.5) * 10 in
  (EffectParticle.mk x y vx vy 0 maxLife size (SpecialEffect.color effect) 1
     (SpecialEffect.type effect),
   w).

(** The loop of [generateEffectParticles], for [n] iterations. *)
Fixpoint pushEffectParticles (n : nat) (effect : SpecialEffect.t)
  (particles : list EffectParticle.t) (w : World.t)
  : list EffectParticle.t * World.t :=
  match n with
  | O => (particles, w)
  | S n' =>
      let '(particle, w) := createParticleForEffect effect w in
      pushEffectParticles n' effect (particles ++ [particle]) w
  end.

(** [generateEffectParticles(effect)]: the bound of the loop is an integer. *)
Definition generateEffectParticles (effect : SpecialEffect.t) (m : t)
  (w : World.t) : t * World.t :=
  let particleCount := floor (20 * SpecialEffect.intensity effect) in
  let '(particles, w) :=
    pushEffectParticles (Z.to_nat particleCount) effect (effectParticles m) w in
  (mk (effects m) particles, w).

(** [triggerShapeEffect(shapeType, center, color)] *)
Definition triggerShapeEffect (shapeType : string) (center : Point.t)
  (color : string) (m : t) (w : World.t) : t * World.t :=
  let '(effect, w) := createEffectForShape shapeType center color w in
  match effect with
  | Some effect =>
      generateEffectParticles effect
        (mk (effects m ++ [effect]) (effectParticles m)) w
  | None => (m, w)
  end.

(** The body of the [map] of [updateEffects]: [alpha] is computed from the
    life the particle had before the frame. *)
Definition age (particle : EffectParticle.t) : EffectParticle.t :=
  EffectParticle.mk
    (EffectParticle.x particle + EffectParticle.vx particle)
    (EffectParticle.y particle + EffectParticle.vy particle)
    (EffectParticle.vx particle * 0.98)
    (EffectParticle.vy particle * 0.98)
    (EffectParticle.life particle + 1)
    (EffectParticle.maxLife particle)
    (EffectParticle.size particle)
    (EffectParticle.color particle)
    (1 - EffectParticle.life particle / EffectParticle.maxLife particle)
    (EffectParticle.effectType particle).

(** [updateEffects()] *)
Definition updateEffects (m : t) (w : World.t) : t * World.t :=
  let '(now, w) := World.Date_now w in
  (mk (filter (fun effect =>
                 lt (IZR (now - SpecialEffect.timestamp effect))
                    (SpecialEffect.duration effect))
              (effects m))
      (filter (fun particle =>
                 lt (EffectParticle.life particle)
                    (EffectParticle.maxLife particle))
              (map age (effectParticles m))),
   w).

Definition getEffectParticles (m : t) : list EffectParticle.t :=
  effectParticles m.

Definition clearEffects (m : t) : t := mk [] [].

End SpecialEffectsManager.

(** ** Gesture recognition: the class [GestureRecognizer] *)

Module Gesture.

Inductive kind : Type :=
| circle
| line
| triangle
| square
| spiral
| zigzag
| wave
| star
| unknown.

Record BoundingBox : Type := mkBox {
  minX : R;
  minY : R;
  maxX : R;
  maxY : R
}.

(** The optional [properties] of a result. *)
Record Properties : Type := mkProperties {
  length : option R;
  angle : option R;
  turns : option Z;
  corners : option nat
}.

(** [GestureResult]; a [confidence] of [None] is the number [NaN], which
    the detectors compute when they divide zero by zero. *)
Record Result : Type := mkResult {
  type : kind;
  confidence : option R;
  center : option Point.t;
  radius : option R;
  boundingBox : option BoundingBox;
  properties : option Properties
}.

End Gesture.

Module GestureRecognizer.

Import JS.

Definition minPoints : nat := 5.
Definition circleThreshold : R := 0.75.
Definition lineThreshold : R := 0.85.

(** [Math.min(...xs)] and [Math.max(...xs)] of an array that is not empty,
    given by its first element and the others. *)
Definition Math_min (x : R) (xs : list R) : R := fold_left Rmin xs x.
Definition Math_max (x : R) (xs : list R) : R := fold_left Rmax xs x.

(** [distance(p1, p2)] *)
Definition distance (p1 p2 : Point.t) : R :=
  let dx := Point.x p1 - Point.x p2 in
  let dy := Point.y p1 - Point.y p2 in
  sqrt (dx * dx + dy * dy).

(** The loop of [simplifyPoints] over the points between the first and the
    last: [kept] is the last point pushed; it returns what it pushes. *)
Fixpoint simplifyLoop (tolerance : R) (kept : Point.t) (middle : list Point.t)
  : list Point.t :=
  match middle with
  | [] => []
  | p :: rest =>
      if gt (distance p kept) tolerance
      then p :: simplifyLoop tolerance p rest
      else simplifyLoop tolerance kept rest
  end.

(** [simplifyPoints(points, tolerance)]; the default tolerance is 5. *)
Definition simplifyPoints (points : list Point.t) (tolerance : R)
  : list Point.t :=
  match points with
  | first :: (_ :: _ :: _) as others =>
      first :: simplifyLoop tolerance first (removelast others)
      ++ [last others first]
  | _ => points
  end.

(** [getBoundingBox(points)], whose callers pass at least two points. *)
Definition getBoundingBox (points : list Point.t) : Gesture.BoundingBox :=
  match points with
  | [] => Gesture.mkBox 0 0 0 0 (* not reached *)
  | p :: rest =>
      Gesture.mkBox
        (Math_min (Point.x p) (map Point.x rest))
        (Math_min (Point.y p) (map Point.y rest))
        (Math_max (Point.x p) (map Point.x rest))
        (Math_max (Point.y p) (map Point.y rest))
  end.

(** [pointToLineDistance(point, lineStart, lineEnd)] *)
Definition pointToLineDistance (point lineStart lineEnd : Point.t) : R :=
  let A := Point.x point - Point.x lineStart in
  let B := Point.y point - Point.y lineStart in
  let C := Point.x lineEnd - Point.x lineStart in
  let D := Point.y lineEnd - Point.y lineStart in
  let dot := A * C + B * D in
  let lenSq := C * C + D * D in
  if neq lenSq 0 then
    let param := dot / lenSq in
    let closestPoint :=
      if lt param 0 then lineStart
      else if gt param 1 then lineEnd
      else Point.mk (Point.x lineStart + param * C)
                    (Point.y lineStart + param * D) in
    distance point closestPoint
  else distance point lineStart.

(** A result that carries a type and a confidence only. *)
Definition bare (type : Gesture.kind) (confidence : R) : Gesture.Result :=
  Gesture.mkResult type (Some confidence) None None None None.

(** [detectLine(points)] *)
Definition detectLine (points : list Point.t) : Gesture.Result :=
  match points with
  | start :: _ :: _ =>
      let finish := last points start in
      let lineLength := distance start finish in
      let totalDeviation :=
        fold_left
          (fun total point => total + pointToLineDistance point start finish)
          points 0 in
      let avgDeviation := totalDeviation / INR (List.length points) in
      let confidence := Rmax 0 (1 - avgDeviation / 20) in
      let angle :=
        atan2 (Point.y finish - Point.y start) (Point.x finish - Point.x start)
        * 180 / PI in
      Gesture.mkResult Gesture.line (Some confidence) None None
        (Some (getBoundingBox points))
        (Some (Gesture.mkProperties (Some lineLength) (Some angle) None None))
  | _ => bare Gesture.line 0
  end.

(** The test of the loop of [findCorners] at [curr], between [prev] and
    [next]. *)
Definition isCorner (prev curr next : Point.t) : bool :=
  let angleThreshold := 30 in
  let angle1 :=
    atan2 (Point.y curr - Point.y prev) (Point.x curr - Point.x prev) in
  let angle2 :=
    atan2 (Point.y next - Point.y curr) (Point.x next - Point.x curr) in
  let angleDiff := Rabs (angle2 - angle1) * 180 / PI in
  let angleDiff := if gt angleDiff 180 then 360 - angleDiff else angleDiff in
  gt angleDiff angleThreshold.

(** The loop of [findCorners]: [for (i = 1; i < points.length - 1; i++)]. *)
Fixpoint cornersFrom (points : list Point.t) : list Point.t :=
  match points with
  | [] => []
  | prev :: rest =>
      match rest with
      | curr :: next :: _ =>
          if isCorner prev curr next then curr :: cornersFrom rest
          else cornersFrom rest
      | _ => []
      end
  end.

(** [findCorners(points)] *)
Definition findCorners (points : list Point.t) : list Point.t :=
  if (List.length points <? 3)%nat then [] else cornersFrom points.

(** [getAngle(p1, vertex, p2)], in degrees; [None] is [NaN], the result
    when one of the two vectors is zero. *)
Definition getAngle (p1 vertex p2 : Point.t) : option R :=
  let v1x := Point.x p1 - Point.x vertex in
  let v1y := Point.y p1 - Point.y vertex in
  let v2x := Point.x p2 - Point.x vertex in
  let v2y := Point.y p2 - Point.y vertex in
  let dot := v1x * v2x + v1y * v2y in
  let mag1 := sqrt (v1x * v1x + v1y * v1y) in
  let mag2 := sqrt (v2x * v2x + v2y * v2y) in
  if neq (mag1 * mag2) 0 then
    let cosAngle := dot / (mag1 * mag2) in
    Some (acos (Rmax (-1) (Rmin 1 cosAngle)) * 180 / PI)
  else None.

(** [getCentroid(points)], whose callers pass an array that is not empty. *)
Definition getCentroid (points : list Point.t) : Point.t :=
  let sum :=
    fold_left
      (fun acc point =>
         Point.mk (Point.x acc + Point.x point) (Point.y acc + Point.y point))
      points (Point.mk 0 0) in
  Point.mk (Point.x sum / INR (List.length points))
           (Point.y sum / INR (List.length points)).

(** [getTriangleAngles(corners)] *)
Definition getTriangleAngles (corners : list Point.t) : list (option R) :=
  match corners with
  | c0 :: c1 :: c2 :: _ =>
      [getAngle c0 c1 c2; getAngle c1 c2 c0; getAngle c2 c0 c1]
  | _ => []
  end.

(** [angles.reduce((sum, angle) => sum + angle, 0)]: [NaN] is absorbing. *)
Definition sumAngles (angles : list (option R)) : option R :=
  fold_left
    (fun sum angle =>
       match sum, angle with
       | Some s, Some a => Some (s + a)
       | _, _ => None
       end)
    angles (Some 0).

(** [detectTriangle(points)] *)
Definition detectTriangle (points : list Point.t) : Gesture.Result :=
  let corners := findCorners points in
  if (List.length corners <? 3)%nat then bare Gesture.triangle 0
  else
    let topCorners := firstn 3 corners in
    let angles := getTriangleAngles topCorners in
    let confidence :=
      match sumAngles angles with
      | Some angleSum =>
          let angleConfidence := 1 - Rabs (angleSum - 180) / 180 in
          Some (Rmax 0 (angleConfidence * 0.8))
      | None => None
      end in
    Gesture.mkResult Gesture.triangle confidence None None
      (Some (getBoundingBox points))
      (Some (Gesture.mkProperties None None None (Some 3%nat))).

(** [Math.min(width, height) / Math.max(width, height)]; [None] is [NaN],
    the quotient of zero by zero.  (A quotient by zero of a number that is
    not zero is an infinity, which the model does not have; the only use of
    the ratio before it is returned is a test [ratio < 0.7] or
    [ratio < 0.8], and the test has the same result with the value the
    model gives, since [width] and [height] do not have opposite signs
    then.) *)
Definition aspectRatioOf (width height : R) : option R :=
  if neq (Rmin width height) 0 || neq (Rmax width height) 0
  then Some (Rmin width height / Rmax width height)
  else None.

(** [ratio < bound], which is false of [NaN]. *)
Definition below (ratio : option R) (bound : R) : bool :=
  match ratio with
  | Some r => lt r bound
  | None => false
  end.

(** The number of elements of an array that pass a test. *)
Definition count {A : Type} (test : A -> bool) (arr : list A) : nat :=
  List.length (filter test arr).

(** [checkPerimeterDistribution(points, boundingBox)]; [None] is [NaN],
    the result when no point is near a side. *)
Definition checkPerimeterDistribution (points : list Point.t)
  (boundingBox : Gesture.BoundingBox) : option R :=
  let width := Gesture.maxX boundingBox - Gesture.minX boundingBox in
  let height := Gesture.maxY boundingBox - Gesture.minY boundingBox in
  let tolerance := Rmin width height * 0.1 in
  let near (coordinate : Point.t -> R) (side : R) :=
    count (fun point => lt (Rabs (coordinate point - side)) tolerance) points in
  let topPoints := near Point.y (Gesture.minY boundingBox) in
  let bottomPoints := near Point.y (Gesture.maxY boundingBox) in
  let leftPoints := near Point.x (Gesture.minX boundingBox) in
  let rightPoints := near Point.x (Gesture.maxX boundingBox) in
  let totalSidePoints :=
    (topPoints + bottomPoints + leftPoints + rightPoints)%nat in
  let expectedPerSide := INR totalSidePoints / 4 in
  let variance :=
    fold_left Rplus
      (map (fun n => Rabs (INR n - expectedPerSide))
           [topPoints; bottomPoints; leftPoints; rightPoints]) 0 in
  if (totalSidePoints =? 0)%nat then None
  else Some (Rmax 0 (1 - variance / INR totalSidePoints)).

(** The element [arr[k % arr.length]] of an array of points. *)
Definition cyclic (arr : list Point.t) (k : nat) : option Point.t :=
  nth_error arr (k mod List.length arr).

(** The loop that counts right angles in [detectSquare]. *)
Definition countRightAngles (corners : list Point.t) : nat :=
  count
    (fun i =>
       match nth_error corners i, cyclic corners (i + 1), cyclic corners (i + 2)
       with
       | Some prev, Some curr, Some next =>
           match getAngle prev curr next with
           | Some angle => lt (Rabs (angle - 90)) 25
           | None => false
           end
       | _, _, _ => false
       end)
    (seq 0 (Nat.min 4 (List.length corners))).

(** [detectSquare(points, boundingBox)] *)
Definition detectSquare (points : list Point.t)
  (boundingBox : Gesture.BoundingBox) : Gesture.Result :=
  let width := Gesture.maxX boundingBox - Gesture.minX boundingBox in
  let height := Gesture.maxY boundingBox - Gesture.minY boundingBox in
  let aspectRatio := aspectRatioOf width height in
  if below aspectRatio 0.7 then bare Gesture.square 0
  else
    let corners := findCorners points in
    if (List.length corners <? 3)%nat || (6 <? List.length corners)%nat
    then bare Gesture.square 0
    else
      let rightAngles :=
        if (4 <=? List.length corners)%nat then countRightAngles corners
        else 0%nat in
      let perimeterDistribution :=
        checkPerimeterDistribution points boundingBox in
      let cornerScore :=
        if (4 <=? List.length corners)%nat
        then Rmin (INR (List.length corners) / 4) 1
        else INR (List.length corners) / 4 in
      let angleScore := INR rightAngles / 4 in
      let aspectScore := aspectRatio in
      let confidence :=
        match aspectScore, perimeterDistribution with
        | Some aspectScore, Some distributionScore =>
            Some (Rmin (cornerScore * 0.4 + angleScore * 0.3
                        + aspectScore * 0.2 + distributionScore * 0.1) 0.95)
        | _, _ => None
        end in
      Gesture.mkResult Gesture.square confidence None None
        (Some boundingBox)
        (Some (Gesture.mkProperties None None None
                 (Some (List.length corners)))).

(** [detectCircle(points, boundingBox)] *)
Definition detectCircle (points : list Point.t)
  (boundingBox : Gesture.BoundingBox) : Gesture.Result :=
  let centerX := (Gesture.minX boundingBox + Gesture.maxX boundingBox) / 2 in
  let centerY := (Gesture.minY boundingBox + Gesture.maxY boundingBox) / 2 in
  let center := Point.mk centerX centerY in
  let width := Gesture.maxX boundingBox - Gesture.minX boundingBox in
  let height := Gesture.maxY boundingBox - Gesture.minY boundingBox in
  let aspectRatio := aspectRatioOf width height in
  if below aspectRatio 0.8 then bare Gesture.circle 0
  else
    let expectedRadius := Rmin width height / 2 in
    let '(totalDeviation, validPoints) :=
      fold_left
        (fun '(total, valid) point =>
           let actualRadius := distance point center in
           let deviation := Rabs (actualRadius - expectedRadius) in
           if lt deviation (expectedRadius * 0.3)
           then (total + deviation, S valid)
           else (total, valid))
        points (0, 0%nat) in
    if lt (INR validPoints) (INR (List.length points) * 0.7)
    then bare Gesture.circle 0
    else
      let avgDeviation := totalDeviation / INR validPoints in
      let deviationScore := Rmax 0 (1 - avgDeviation / (expectedRadius * 0.2)) in
      let aspectScore := aspectRatio in
      let coverageScore := INR validPoints / INR (List.length points) in
      let corners := findCorners points in
      let cornerPenalty :=
        if (2 <? List.length corners)%nat
        then (INR (List.length corners) - 2) * 0.1 else 0 in
      let confidence :=
        match aspectScore, validPoints with
        | Some aspectScore, S _ =>
            Some (Rmax 0
                    (Rmin (deviationScore * 0.5 + aspectScore * 0.3
                           + coverageScore * 0.2 - cornerPenalty) 0.95))
        | _, _ => None (* [avgDeviation] is zero by zero without a valid point *)
        end in
      Gesture.mkResult Gesture.circle confidence
        (Some center) (Some expectedRadius) (Some boundingBox) None.

(** [Math.round] *)
Definition round (a : R) : Z := floor (a + 0.5).

(** [detectSpiral(points)] *)
Definition detectSpiral (points : list Point.t) : Gesture.Result :=
  if (List.length points <? 10)%nat then bare Gesture.spiral 0
  else
    let center := getCentroid points in
    let '(totalAngleChange, _) :=
      fold_left
        (fun '(total, previousAngle) point =>
           let angle :=
             atan2 (Point.y point - Point.y center)
                   (Point.x point - Point.x center) in
           let angleDiff := angle - previousAngle in
           let normalizedDiff :=
             if gt angleDiff PI then angleDiff - 2 * PI else angleDiff in
           let normalizedDiff :=
             if lt normalizedDiff (- PI) then normalizedDiff + 2 * PI
             else normalizedDiff in
           (total + Rabs normalizedDiff, angle))
        (tl points) (0, 0) in
    let turns := totalAngleChange / (2 * PI) in
    let confidence := Rmin 1 (if gt turns 1.5 then turns / 3 else 0) in
    Gesture.mkResult Gesture.spiral (Some confidence) (Some center) None
      (Some (getBoundingBox points))
      (Some (Gesture.mkProperties None None (Some (round turns)) None)).

(** The loop of [detectWave]: the numbers of peaks and of valleys. *)
Fixpoint peaksAndValleys (points : list Point.t) : nat * nat :=
  match points with
  | [] => (0, 0)%nat
  | prev :: rest =>
      match rest with
      | curr :: next :: _ =>
          let '(peaks, valleys) := peaksAndValleys rest in
          let valleys :=
            if lt (Point.y curr) (Point.y prev)
               && lt (Point.y curr) (Point.y next)
            then S valleys else valleys in
          let peaks :=
            if gt (Point.y curr) (Point.y prev)
               && gt (Point.y curr) (Point.y next)
            then S peaks else peaks in
          (peaks, valleys)
      | _ => (0, 0)%nat
      end
  end.

(** [detectWave(points)] *)
Definition detectWave (points : list Point.t) : Gesture.Result :=
  if (List.length points <? 8)%nat then bare Gesture.wave 0
  else
    let '(peaks, valleys) := peaksAndValleys points in
    let oscillations := (peaks + valleys)%nat in
    let confidence :=
      Rmin 1 (if (3 <=? oscillations)%nat then INR oscillations / 6 else 0) in
    Gesture.mkResult Gesture.wave (Some confidence) None None
      (Some (getBoundingBox points))
      (Some (Gesture.mkProperties None None (Some (Z.of_nat oscillations))
               None)).

(** [[...distances].sort((a, b) => a - b)] *)
Fixpoint insertSorted (a : R) (sorted : list R) : list R :=
  match sorted with
  | [] => [a]
  | b :: rest => if le a b then a :: sorted else b :: insertSorted a rest
  end.

Definition sortNumbers (arr : list R) : list R :=
  fold_right insertSorted [] arr.

(** [detectStar(points)] *)
Definition detectStar (points : list Point.t) : Gesture.Result :=
  let corners := findCorners points in
  if (List.length corners <? 5)%nat then bare Gesture.star 0
  else
    let center := getCentroid points in
    let distances := map (fun corner => distance corner center) corners in
    let sortedDistances := sortNumbers distances in
    let median :=
      nth (List.length sortedDistances / 2) sortedDistances 0 in
    let alternating :=
      count
        (fun i =>
           let isLong := gt (nth i distances 0) median in
           let nextIsShort :=
             le (nth ((i + 1) mod List.length distances) distances 0) median in
           isLong && nextIsShort)
        (seq 0 (List.length distances)) in
    let confidence :=
      Rmin 1 (if (3 <=? alternating)%nat then INR alternating / 5 else 0) in
    Gesture.mkResult Gesture.star (Some confidence) (Some center) None
      (Some (getBoundingBox points))
      (Some (Gesture.mkProperties None None None
               (Some (List.length corners)))).

(** [result.confidence > threshold], which is false of [NaN]. *)
Definition above (threshold : R) (result : Gesture.Result) : bool :=
  match Gesture.confidence result with
  | Some confidence => gt confidence threshold
  | None => false
  end.

(** [recognizeGesture(points)] *)
Definition recognizeGesture (points : list Point.t) : Gesture.Result :=
  if (List.length points <? minPoints)%nat then bare Gesture.unknown 0
  else
    let simplified := simplifyPoints points 5 in
    let boundingBox := getBoundingBox simplified in
    let lineResult := detectLine simplified in
    if above lineThreshold lineResult then lineResult
    else
      let squareResult := detectSquare simplified boundingBox in
      if above 0.7 squareResult then squareResult
      else
        let triangleResult := detectTriangle simplified in
        if above 0.7 triangleResult then triangleResult
        else
          let circleResult := detectCircle simplified boundingBox in
          if above circleThreshold circleResult then circleResult
          else
            let spiralResult := detectSpiral simplified in
            if above 0.6 spiralResult then spiralResult
            else
              let waveResult := detectWave simplified in
              if above 0.6 waveResult then waveResult
              else
                let starResult := detectStar simplified in
                if above 0.6 starResult then starResult
                else
                  Gesture.mkResult Gesture.unknown (Some 0) None None
                    (Some boundingBox) None.

End GestureRecognizer.

(** ** Pattern completion ([src/utils/patternCompletion.ts]) *)

Module PatternTemplate.

Inductive kind : Type :=
| neural
| geometric
| organic.

Definition kind_eqb (a b : kind) : bool :=
  match a, b with
  | neural, neural | geometric, geometric | organic, organic => true
  | _, _ => false
  end.

Record t : Type := mk {
  name : string;
  type : kind;
  points : list Point.t;
  completion : list Point.t
}.

End PatternTemplate.

Module PatternCompleter.

Import JS.

(** The field [templates] of a new [PatternCompleter]. *)
Definition templates : list PatternTemplate.t :=
  [ PatternTemplate.mk "neural_branch" PatternTemplate.neural
      [Point.mk 0 0; Point.mk 50 0; Point.mk 75 (-25); Point.mk 100 (-50)]
      [Point.mk 75 25; Point.mk 100 50; Point.mk 125 25; Point.mk 150 0];
    PatternTemplate.mk "neural_dendrite" PatternTemplate.neural
      [Point.mk 0 0; Point.mk 30 10; Point.mk 60 (-5)]
      [Point.mk 90 15; Point.mk 120 5; Point.mk 150 20; Point.mk 180 10];
    PatternTemplate.mk "spiral_completion" PatternTemplate.geometric
      [Point.mk 50 50; Point.mk 60 50; Point.mk 65 45; Point.mk 65 40]
      [Point.mk 60 35; Point.mk 50 35; Point.mk 40 40; Point.mk 35 50;
       Point.mk 35 65; Point.mk 45 75];
    PatternTemplate.mk "growth_pattern" PatternTemplate.organic
      [Point.mk 0 0; Point.mk 20 5; Point.mk 40 15]
      [Point.mk 60 30; Point.mk 80 50; Point.mk 100 75; Point.mk 120 105] ].

(** [getBounds(points)]: the width and the height. *)
Definition getBounds (points : list Point.t) : R * R :=
  match points with
  | [] => (0, 0)
  | p :: rest =>
      let minX := GestureRecognizer.Math_min (Point.x p) (map Point.x rest) in
      let minY := GestureRecognizer.Math_min (Point.y p) (map Point.y rest) in
      let maxX := GestureRecognizer.Math_max (Point.x p) (map Point.x rest) in
      let maxY := GestureRecognizer.Math_max (Point.y p) (map Point.y rest) in
      (maxX - minX, maxY - minY)
  end.

(** [normalizeStroke(points)] *)
Definition normalizeStroke (points : list Point.t) : list Point.t :=
  match points with
  | [] => []
  | p :: rest =>
      let minX := GestureRecognizer.Math_min (Point.x p) (map Point.x rest) in
      let minY := GestureRecognizer.Math_min (Point.y p) (map Point.y rest) in
      let maxX := GestureRecognizer.Math_max (Point.x p) (map Point.x rest) in
      let maxY := GestureRecognizer.Math_max (Point.y p) (map Point.y rest) in
      let width := maxX - minX in
      let height := maxY - minY in
      let scale := Rmax width height in
      if neq scale 0 then
        map (fun point => Point.mk ((Point.x point - minX) / scale)
                                   ((Point.y point - minY) / scale))
            points
      else points
  end.

(** The loop of [getDirectionVectors], from [points[i - 1] = prev] on: it
    returns what it pushes. *)
Fixpoint directionsFrom (prev : Point.t) (rest : list Point.t)
  : list Point.t :=
  match rest with
  | [] => []
  | curr :: rest' =>
      let dx := Point.x curr - Point.x prev in
      let dy := Point.y curr - Point.y prev in
      let length := sqrt (dx * dx + dy * dy) in
      if gt length 0
      then Point.mk (dx / length) (dy / length) :: directionsFrom curr rest'
      else directionsFrom curr rest'
  end.

(** [getDirectionVectors(points)] *)
Definition getDirectionVectors (points : list Point.t) : list Point.t :=
  match points with
  | [] => []
  | p :: rest => directionsFrom p rest
  end.

(** [vectorSimilarity(v1, v2)] *)
Definition vectorSimilarity (v1 v2 : Point.t) : R :=
  let dotProduct := Point.x v1 * Point.x v2 + Point.y v1 * Point.y v2 in
  Rmax 0 dotProduct.

(** The loop of [calculateMatchScore] over [i < minLength], the smaller of
    the two lengths: it adds to [totalSimilarity]. *)
Fixpoint addSimilarities (userVectors templateVectors : list Point.t)
  (totalSimilarity : R) : R :=
  match userVectors, templateVectors with
  | u :: userVectors', t :: templateVectors' =>
      addSimilarities userVectors' templateVectors'
        (totalSimilarity + vectorSimilarity u t)
  | _, _ => totalSimilarity
  end.

(** [calculateMatchScore(userStroke, templatePoints)] *)
Definition calculateMatchScore (userStroke templatePoints : list Point.t)
  : R :=
  let normalizedUser := normalizeStroke userStroke in
  let normalizedTemplate := normalizeStroke templatePoints in
  if (List.length normalizedUser <? 2)%nat
     || (List.length normalizedTemplate <? 2)%nat
  then 0
  else
    let userVectors := getDirectionVectors normalizedUser in
    let templateVectors := getDirectionVectors normalizedTemplate in
    let minLength :=
      Nat.min (List.length userVectors) (List.length templateVectors) in
    let totalSimilarity := addSimilarities userVectors templateVectors 0 in
    if (0 <? minLength)%nat then totalSimilarity / INR minLength else 0.

(** The test of the three [continue] statements of [findBestMatch]. *)
Definition filteredOut (drawingMode : string) (type : PatternTemplate.kind)
  : bool :=
  (String.eqb drawingMode "neural"
   && negb (PatternTemplate.kind_eqb type PatternTemplate.neural))
  || (String.eqb drawingMode "electric"
      && negb (PatternTemplate.kind_eqb type PatternTemplate.geometric))
  || (String.eqb drawingMode "organic"
      && negb (PatternTemplate.kind_eqb type PatternTemplate.organic)).

(** The body of the loop of [findBestMatch], on [bestMatch] and
    [bestScore]. *)
Definition consider (userStroke : list Point.t) (drawingMode : string)
  (best : option PatternTemplate.t * R) (template : PatternTemplate.t)
  : option PatternTemplate.t * R :=
  if filteredOut drawingMode (PatternTemplate.type template) then best
  else
    let score :=
      calculateMatchScore userStroke (PatternTemplate.points template) in
    if gt score (snd best) && gt score 0.6 then (Some template, score)
    else best.

(** [findBestMatch(userStroke, drawingMode)] of a completer whose field
    [templates] is [self]; [None] is [null]. *)
Definition findBestMatch (self : list PatternTemplate.t)
  (userStroke : list Point.t) (drawingMode : string)
  : option PatternTemplate.t :=
  if (List.length userStroke <? 3)%nat then None
  else fst (fold_left (consider userStroke drawingMode) self (None, 0)).

(** [calculateScale(userStroke, templatePoints)] *)
Definition calculateScale (userStroke templatePoints : list Point.t) : R :=
  let userBounds := getBounds userStroke in
  let templateBounds := getBounds templatePoints in
  let userSize := Rmax (fst userBounds) (snd userBounds) in
  let templateSize := Rmax (fst templateBounds) (snd templateBounds) in
  if gt templateSize 0 then userSize / templateSize else 1.

(** [generateCompletion(userStroke, template)]: it returns an array, or it
    throws when the template has no point, since [templateEnd] is
    [undefined] then and its field [x] is read. *)
Definition generateCompletion (userStroke : list Point.t)
  (template : PatternTemplate.t) : Exception + list Point.t :=
  match userStroke with
  | [] => inr []
  | first :: _ =>
      let lastPoint := last userStroke first in
      match PatternTemplate.points template with
      | [] => inl TypeError
      | templateFirst :: _ =>
          let templateEnd :=
            last (PatternTemplate.points template) templateFirst in
          let scale :=
            calculateScale userStroke (PatternTemplate.points template) in
          let offset :=
            Point.mk (Point.x lastPoint - Point.x templateEnd * scale)
                     (Point.y lastPoint - Point.y templateEnd * scale) in
          inr (map (fun point =>
                      Point.mk (Point.x point * scale + Point.x offset)
                               (Point.y point * scale + Point.y offset))
                   (PatternTemplate.completion template))
      end
  end.

(** The exported [patternCompleter]. *)
Definition patternCompleter : list PatternTemplate.t := templates.

End PatternCompleter.

(** ** Notions used to state the properties of the physics engine *)

Module PhysicsNotions.

Import JS PhysicsSimulation.

(** Two spring records that differ at most in their [damping] field. *)
Definition sameButDamping (a b : PhysicsSpring.t) : Prop :=
  PhysicsSpring.point1 a = PhysicsSpring.point1 b
  /\ PhysicsSpring.point2 a = PhysicsSpring.point2 b
  /\ PhysicsSpring.restLength a = PhysicsSpring.restLength b
  /\ PhysicsSpring.stiffness a = PhysicsSpring.stiffness b.

(** Two engines that differ at most in the [damping] fields of their springs. *)
Definition sameButSpringDamping (s1 s2 : t) : Prop :=
  points s1 = points s2
  /\ Forall2 sameButDamping (springs s1) (springs s2)
  /\ constraints s1 = constraints s2
  /\ wind s1 = wind s2
  /\ gravity s1 = gravity s2
  /\ canvasWidth s1 = canvasWidth s2
  /\ canvasHeight s1 = canvasHeight s2.

(** The point array an outcome leaves behind. *)
Definition pointsOf (o : Outcome t) : Outcome (list PhysicsPoint.t) :=
  match o with
  | Returned s => Returned (points s)
  | Threw e s => Threw e (points s)
  end.

(** Every stored spring and constraint names two existing points. *)
Definition validIndex (s : t) (k : Z) : Prop :=
  (0 <= k < Z.of_nat (List.length (points s)))%Z.

Definition validSpring (s : t) (spring : PhysicsSpring.t) : Prop :=
  validIndex s (PhysicsSpring.point1 spring)
  /\ validIndex s (PhysicsSpring.point2 spring).

Definition validConstraint (s : t) (c : PhysicsConstraint.t) : Prop :=
  Forall (validIndex s) (PhysicsConstraint.points c).

Definition wellFormed (s : t) : Prop :=
  Forall (validSpring s) (springs s)
  /\ Forall (validConstraint s) (constraints s).


(** The magnitude of the velocity of a point. *)
Definition speed (p : PhysicsPoint.t) : R :=
  dist (PhysicsPoint.vx p) (PhysicsPoint.vy p).

(** The separation of two points. *)
Definition separation (p q : PhysicsPoint.t) : R :=
  dist (PhysicsPoint.x q - PhysicsPoint.x p) (PhysicsPoint.y q - PhysicsPoint.y p).

(** What the sentence "a force of magnitude (currentLength - restLength) *
    stiffness along the normalized separation vector, divided by the mass,
    plus a damping force proportional (0.05) to the relative velocity
    component along the spring" adds to the acceleration of the first
    endpoint [p1] of a spring: the damping term is the projection of the
    relative velocity on the direction of the spring. *)
Definition statedSpringAcceleration (spring : PhysicsSpring.t)
  (p1 p2 : PhysicsPoint.t) : R * R :=
  let dx := PhysicsPoint.x p2 - PhysicsPoint.x p1 in
  let dy := PhysicsPoint.y p2 - PhysicsPoint.y p1 in
  let distance := dist dx dy in
  let ux := dx / distance in
  let uy := dy / distance in
  let force :=
    (distance - PhysicsSpring.restLength spring)
    * PhysicsSpring.stiffness spring in
  let dvx := PhysicsPoint.vx p2 - PhysicsPoint.vx p1 in
  let dvy := PhysicsPoint.vy p2 - PhysicsPoint.vy p1 in
  let along := dvx * ux + dvy * uy in
  (ux * force / PhysicsPoint.mass p1 + 0.05 * along * ux,
   uy * force / PhysicsPoint.mass p1 + 0.05 * along * uy).


(** No two points of the array are within reach of the collision pass:
    every pair is at least 10 apart, or at distance 0. *)
Definition allApart (pts : list PhysicsPoint.t) : Prop :=
  forall i j p q,
    nth_error pts i = Some p -> nth_error pts j = Some q ->
    separation p q = 0 \/ 10 <= separation p q.


(** An engine with one free point and a distance constraint whose second
    index names no point. *)
Definition danglingConstraint : t :=
  addDistanceConstraint 0 1 10 0.5 (snd (addPoint 0 0 1 false new)).

(** The engine an outcome leaves behind. *)
Definition engineOf (o : Outcome t) : t :=
  match o with
  | Returned s => s
  | Threw _ s => s
  end.

(** What a step may do to a point: the mass and the [fixed] flag stay, and
    a fixed point keeps its position and its velocity. *)
Definition stays (p q : PhysicsPoint.t) : Prop :=
  PhysicsPoint.mass q = PhysicsPoint.mass p
  /\ PhysicsPoint.fixed q = PhysicsPoint.fixed p
  /\ (PhysicsPoint.fixed p = true ->
      PhysicsPoint.x q = PhysicsPoint.x p
      /\ PhysicsPoint.y q = PhysicsPoint.y p
      /\ PhysicsPoint.vx q = PhysicsPoint.vx p
      /\ PhysicsPoint.vy q = PhysicsPoint.vy p).

(** A spring or a constraint names the point at index [k]. *)
Definition touchesSpring (k : Z) (spring : PhysicsSpring.t) : bool :=
  (PhysicsSpring.point1 spring =? k)%Z || (PhysicsSpring.point2 spring =? k)%Z.

Definition touchesConstraint (k : Z) (c : PhysicsConstraint.t) : bool :=
  existsb (Z.eqb k) (PhysicsConstraint.points c).

(** The spring [b] of the engine [s'] joins the same two point objects as
    the spring [a] of the engine [s], with the same parameters. *)
Definition sameSpring (s s' : t) (a b : PhysicsSpring.t) : Prop :=
  index (points s') (PhysicsSpring.point1 b)
  = index (points s) (PhysicsSpring.point1 a)
  /\ index (points s') (PhysicsSpring.point2 b)
     = index (points s) (PhysicsSpring.point2 a)
  /\ PhysicsSpring.restLength b = PhysicsSpring.restLength a
  /\ PhysicsSpring.stiffness b = PhysicsSpring.stiffness a
  /\ PhysicsSpring.damping b = PhysicsSpring.damping a.

(** The same for a constraint. *)
Definition sameConstraint (s s' : t) (a b : PhysicsConstraint.t) : Prop :=
  map (index (points s')) (PhysicsConstraint.points b)
  = map (index (points s)) (PhysicsConstraint.points a)
  /\ PhysicsConstraint.type b = PhysicsConstraint.type a
  /\ PhysicsConstraint.targetValue b = PhysicsConstraint.targetValue a
  /\ PhysicsConstraint.strength b = PhysicsConstraint.strength a.

(** The points that [createBranchFromPoints] adds for the coordinates
    [pts]: at rest, of the given mass, the first one fixed. *)
Definition restingPoint (mass : R) (fixed : bool) (p : R * R) : PhysicsPoint.t :=
  PhysicsPoint.mk (fst p) (snd p) 0 0 0 0 mass fixed.

Definition chainPoints (pts : list (R * R)) (mass : R) : list PhysicsPoint.t :=
  match pts with
  | [] => []
  | p :: rest => restingPoint mass true p :: map (restingPoint mass false) rest
  end.

(** The springs of a chain whose first point has index [k]: one between
    every two neighbours, as long as they are apart. *)
Fixpoint chainSprings (k : nat) (pts : list (R * R)) : list PhysicsSpring.t :=
  match pts with
  | [] => []
  | p :: rest =>
      match rest with
      | [] => []
      | q :: _ =>
          PhysicsSpring.mk (Z.of_nat k) (Z.of_nat (S k))
            (sqrt (pow (fst q - fst p) 2 + pow (snd q - snd p) 2)) 0.2 0.98
          :: chainSprings (S k) rest
      end
  end.

(** A free point lies within the margins of the canvas. *)
Definition withinMargins (s : t) (p : PhysicsPoint.t) : Prop :=
  PhysicsPoint.fixed p = false ->
  5 <= PhysicsPoint.x p <= canvasWidth s - 5
  /\ 5 <= PhysicsPoint.y p <= canvasHeight s - 5.

(** A point without velocity and acceleration. *)
Definition still (p : PhysicsPoint.t) : Prop :=
  PhysicsPoint.vx p = 0 /\ PhysicsPoint.vy p = 0
  /\ PhysicsPoint.ax p = 0 /\ PhysicsPoint.ay p = 0.

(** A spring at its rest length between two existing points. *)
Definition relaxedSpring (pts : list PhysicsPoint.t) (spring : PhysicsSpring.t)
  : Prop :=
  exists p1 p2,
    index pts (PhysicsSpring.point1 spring) = Some p1
    /\ index pts (PhysicsSpring.point2 spring) = Some p2
    /\ PhysicsSpring.restLength spring = separation p1 p2.

(** A distance constraint that is met, between two existing points; the
    loop of [update] skips every constraint of another shape. *)
Definition relaxedConstraint (pts : list PhysicsPoint.t)
  (c : PhysicsConstraint.t) : Prop :=
  match PhysicsConstraint.type c, PhysicsConstraint.points c with
  | PhysicsConstraint.distance, [c0; c1] =>
      exists p1 p2,
        index pts c0 = Some p1 /\ index pts c1 = Some p2
        /\ PhysicsConstraint.targetValue c = separation p1 p2
  | _, _ => True
  end.

(** An engine in equilibrium: no gravity that counts, no wind, every point
    still, free points within the margins and out of each other's reach,
    springs at rest length, distance constraints met. *)
Definition atRest (s : t) : Prop :=
  gravity s <= 0 /\ wind s = (0, 0)
  /\ Forall still (points s)
  /\ Forall (withinMargins s) (points s)
  /\ allApart (points s)
  /\ Forall (relaxedSpring (points s)) (springs s)
  /\ Forall (relaxedConstraint (points s)) (constraints s).

(** The calls a client can make on the engine, [addDistanceConstraint]
    apart. *)
Inductive Method : Type :=
| SetCanvasSize (width height : R)
| SetGravity (g : R)
| SetWind (windX windY : R)
| AddPoint (x y mass : R) (fixed : bool)
| AddSpring (point1 point2 : Z) (stiffness damping : R)
| CreateBranchFromPoints (pts : list (R * R)) (mass : R)
| Update (deltaTime : R)
| Clear
| RemovePoint (k : Z)
| ApplyForceToPoint (k : Z) (fx fy : R).

Definition call (m : Method) (s : t) : Outcome t :=
  match m with
  | SetCanvasSize width height => Returned (setCanvasSize width height s)
  | SetGravity g => Returned (setGravity g s)
  | SetWind windX windY => Returned (setWind windX windY s)
  | AddPoint x y mass fixed => Returned (snd (addPoint x y mass fixed s))
  | AddSpring point1 point2 stiffness damping =>
      addSpring point1 point2 stiffness damping s
  | CreateBranchFromPoints pts mass =>
      match createBranchFromPoints pts mass s with
      | Returned (_, s') => Returned s'
      | Threw e (_, s') => Threw e s'
      end
  | Update deltaTime => update deltaTime s
  | Clear => Returned (clear s)
  | RemovePoint k => Returned (removePoint k s)
  | ApplyForceToPoint k fx fy => Returned (applyForceToPoint k fx fy s)
  end.

(** A sequence of calls; the first throw ends it. *)
Definition session (ms : list Method) (s : t) : Outcome t :=
  forEach call ms s.

(** The only way to make [addSpring] throw is a negative index. *)
Definition okMethod (m : Method) : Prop :=
  match m with
  | AddSpring point1 point2 _ _ => (0 <= point1)%Z /\ (0 <= point2)%Z
  | _ => True
  end.

(** The coordinates of a point, as [createBranchFromPoints] was given them. *)
Definition coordinates (p : PhysicsPoint.t) : R * R :=
  (PhysicsPoint.x p, PhysicsPoint.y p).

(** The default engine after [createBranchFromPoints] has been given two
    places 20 apart. *)
Definition restingChain : t :=
  mk [PhysicsPoint.mk 100 100 0 0 0 0 1 true;
      PhysicsPoint.mk 120 100 0 0 0 0 1 false]
     [PhysicsSpring.mk 0 1 20 0.2 0.98] [] (0, 0) 0 800 600.

(** A session on the default engine. *)
Definition sampleSession : list Method :=
  [AddPoint 10 10 1 false; AddSpring 0 7 0.1 0.99;
   CreateBranchFromPoints [(100, 100); (120, 100); (140, 100)] 1;
   SetGravity 0.1; Update 1; RemovePoint 1; ApplyForceToPoint 0 1 1;
   Update 1; Clear; Update 1].

End PhysicsNotions.

(** ** Notions used to state the properties of the growth engine *)

Module GrowthNotions.

Import JS GrowthAlgorithm.

(** [Math.random()] returns a number in [[0, 1)]. *)
Definition sane (w : World.t) : Prop :=
  forall n, 0 <= World.random w n < 1.

(** A callback may read the world (draw numbers, read the clock) as long as
    [Math.random] remains what it is. *)
Definition saneCallback (cb : option Callback) : Prop :=
  forall f, cb = Some f -> forall x y c w, sane w -> sane (f x y c w).

(** A branch is fully grown. *)
Definition grown (b : Branch.t) : Prop :=
  Branch.maxProgress b <= Branch.progress b.

(** The invariant of a branch. *)
Definition inv (b : Branch.t) : Prop :=
  0 <= Branch.progress b <= Branch.maxProgress b
  /\ (0 <= Branch.generation b)%Z.

(** Every address of an array names a branch of the store. *)
Definition validArray (h : Heap) (arr : list addr) : Prop :=
  Forall (fun a => (a < List.length h)%nat) arr.

(** What the loops keep true of their state. *)
Definition loopOK (st : Loop) : Prop :=
  Forall inv (heap st) /\ sane (world st)
  /\ validArray (heap st) (newBranches st).

(** [child] is a branch that [animateBranches], called at time [now], may
    create from the branch [parent]: it starts at the end of the parent, one
    generation further, with angle, length, growth target and growth time
    drawn from four random numbers. *)
Definition childOf (now : Z) (settings : GrowthSettings.t)
  (parent child : Branch.t) : Prop :=
  exists r1 r2 r3 r4 : R,
    (0 <= r1 < 1 /\ 0 <= r2 < 1 /\ 0 <= r3 < 1 /\ 0 <= r4 < 1)
    /\ Branch.startX child = fst (endpoint parent)
    /\ Branch.startY child = snd (endpoint parent)
    /\ (Branch.endX child, Branch.endY child) = endpoint child
    /\ Branch.generation child = (Branch.generation parent + 1)%Z
    /\ Branch.angle child
       = Branch.angle parent
         + (r1 - 0.5) * PI
           * match GrowthSettings.drawingMode settings with
             | organic => 0.4
             | _ => 0.6
             end
    /\ Branch.length child = Branch.length parent * (0.6 + r2 * 0.3)
    /\ Branch.opacity child
       = Rmax 0.3 (Branch.opacity parent
                   - IZR (Branch.generation parent) * 0.15)
    /\ Branch.progress child = 0
    /\ Branch.maxProgress child = 40 + r3 * 30
    /\ Branch.lastGrowth child = IZR now + r4 * 1000.

(** The arguments of the callback for a branch. *)
Definition payload (b : Branch.t) : R * R * string :=
  (fst (endpoint b), snd (endpoint b), Branch.color b).

(** Whether a callback is given. *)
Definition given (cb : option Callback) : bool :=
  match cb with Some _ => true | None => false end.

(** The fields of a branch that are written once, at creation. *)
Definition frozen (b b' : Branch.t) : Prop :=
  Branch.startX b' = Branch.startX b
  /\ Branch.startY b' = Branch.startY b
  /\ Branch.endX b' = Branch.endX b
  /\ Branch.endY b' = Branch.endY b
  /\ Branch.angle b' = Branch.angle b
  /\ Branch.length b' = Branch.length b
  /\ Branch.generation b' = Branch.generation b
  /\ Branch.maxProgress b' = Branch.maxProgress b
  /\ Branch.color b' = Branch.color b.

(** How a branch object may change while the loop of [animateBranches]
    runs: [progress] and [lastGrowth] only, and not even [progress] once the
    branch is fully grown. *)
Definition growsTo (b b' : Branch.t) : Prop :=
  frozen b b'
  /\ Branch.opacity b' = Branch.opacity b
  /\ (grown b -> Branch.progress b' = Branch.progress b).

(** How a branch object may change over whole calls: as above, and the
    opacity pulse. *)
Definition evolvesTo (b b' : Branch.t) : Prop :=
  frozen b b' /\ (grown b -> Branch.progress b' = Branch.progress b).

(** A store grows at its end and its objects change as [R] allows. *)
Definition heapRel (R : Branch.t -> Branch.t -> Prop) (h h' : Heap) : Prop :=
  (List.length h <= List.length h')%nat
  /\ forall a b, nth_error h a = Some b ->
     exists b', nth_error h' a = Some b' /\ R b b'.

(** The branch at an address is fully grown. *)
Definition grownAt (h : Heap) (a : addr) : Prop :=
  exists b, nth_error h a = Some b /\ grown b.

(** What the loop of [animateBranches] keeps true of its log of calls,
    [h0] being the store the call started from: a branch is logged at most
    once; a logged branch is fully grown and was not when the call started;
    a branch that has become fully grown is logged, if calls are made at
    all; the arguments logged are the end and the color of the branch. *)
Definition callsInv (canCall : bool) (h0 : Heap) (st : Loop) : Prop :=
  heapRel growsTo h0 (heap st)
  /\ NoDup (map fst (calls st))
  /\ (forall a, In a (map fst (calls st)) ->
      grownAt (heap st) a /\ ~ grownAt h0 a)
  /\ (canCall = true ->
      forall a b, nth_error h0 a = Some b -> grownAt (heap st) a ->
      grown b \/ In a (map fst (calls st)))
  /\ (forall a pl, In (a, pl) (calls st) ->
      exists b, nth_error (heap st) a = Some b /\ pl = payload b)
  /\ (canCall = false -> calls st = []).

(** What the loop of [animateBranches] keeps true of the store and of the
    array it builds, [h0] being the store the call started from and [done]
    the addresses visited so far: the objects of [h0] change as [growsTo]
    allows; the array holds addresses of the store; every object beyond
    [h0] is the child of a visited branch and is in the array, at an index
    below 500; the addresses of [h0] in the array are the visited ones. *)
Definition structInv (now : Z) (settings : GrowthSettings.t)
  (speedMultiplier : R) (h0 : Heap) (done : list addr) (st : Loop) : Prop :=
  heapRel growsTo h0 (heap st)
  /\ sane (world st)
  /\ validArray (heap st) (newBranches st)
  /\ (0 <= speedMultiplier -> Forall inv h0 -> Forall inv (heap st))
  /\ (forall c, (List.length h0 <= c < List.length (heap st))%nat ->
      exists p P C,
        In p done /\ nth_error h0 p = Some P
        /\ nth_error (heap st) c = Some C
        /\ In c (newBranches st)
        /\ childOf now settings P C)
  /\ (forall i c, nth_error (newBranches st) i = Some c ->
      (List.length h0 <= c)%nat -> (i < maxBranches)%nat)
  /\ filter (fun a => a <? List.length h0)%nat (newBranches st) = done.

(** The pulse writes the opacity only. *)
Definition pulsesTo (b b' : Branch.t) : Prop :=
  frozen b b'
  /\ Branch.progress b' = Branch.progress b
  /\ Branch.lastGrowth b' = Branch.lastGrowth b.

(** The callback can be called: particle effects are on and a callback is
    given. *)
Definition gate (settings : GrowthSettings.t) (cb : option Callback) : bool :=
  GrowthSettings.particleEffects settings && given cb.

(** What a step may be given over a run of the engine: a growth speed that
    is not negative (the slider gives 10 to 100) and a callback that leaves
    [Math.random] alone. *)
Definition okOp (op : Canvas.Op) : Prop :=
  match op with
  | Canvas.Seed _ _ => True
  | Canvas.Step growthSpeed _ cb => 0 <= growthSpeed /\ saneCallback cb
  end.

(** A fully grown branch of generation 0, last touched at time 0, in a world
    where the clock reads 5050 and every random number is 0. *)
Definition ripeBranch : Branch.t :=
  Branch.mk 0 0 30 0 0 30 0 60 60 "#00E0FF" 1 0.

Definition ripeWorld : World.t :=
  World.mk (fun _ => 0) 0 (fun _ => 5050%Z) 0.

Definition neuralSettings : GrowthSettings.t :=
  GrowthSettings.mk 50 15 "#00E0FF" neural true.

(** A two-point stroke, and a run of the engine: the stroke is seeded, then
    three frames are animated at the default growth speed. *)
Definition shortStroke : list Point.t := [Point.mk 0 0; Point.mk 100 0].

Definition shortRun : list Canvas.Op :=
  [Canvas.Seed shortStroke neuralSettings;
   Canvas.Step 50 neuralSettings None;
   Canvas.Step 50 neuralSettings None;
   Canvas.Step 50 neuralSettings None].

(** A branch that has just had its tick: neither growing nor fully grown
    at time 5050. *)
Definition idleBranch : Branch.t :=
  Branch.mk 0 0 30 0 0 30 0 0 60 "#00E0FF" 1 5050.

(** A store of 500 branches, the ripe one first, and the array of all its
    addresses. *)
Definition crowd : Heap := ripeBranch :: repeat idleBranch 499.

Definition crowdArray : list addr := seq 0 500.

(** A stroke of 8375 points on a line, the electric mode at the highest
    complexity of the slider, and a world whose random numbers are all 0.9. *)
Definition longStroke : list Point.t :=
  map (fun k => Point.mk (INR k) 0) (seq 0 (167 * 50 + 25)).

Definition electricSettings : GrowthSettings.t :=
  GrowthSettings.mk 50 25 "#00E0FF" electric true.

Definition greedyWorld : World.t :=
  World.mk (fun _ => 0.9) 0 (fun _ => 0%Z) 0.

(** The colours [getRandomColor] chooses from, for a generation in a mode. *)
Definition palette (generation : Z) (settings : GrowthSettings.t)
  : list string :=
  match GrowthSettings.drawingMode settings with
  | electric => electricColors
  | organic => organicColors
  | neural =>
      if (generation =? 0)%Z then [GrowthSettings.selectedColor settings]
      else if (generation =? 1)%Z then ["#FF2CFB"%string]
      else colors
  end.

(** [maxGenerations], [branchLengthMultiplier] and [angleVariation] of a
    mode. *)
Definition maxGenerations (m : DrawingMode) : Z := snd (fst (growthParams m)).

Definition branchLengthMultiplier (m : DrawingMode) : R :=
  snd (fst (seedParams m)).

Definition angleVariation (m : DrawingMode) : R := snd (seedParams m).

(** [b] is a branch that [generateBranches] may create on a stroke: it
    starts at a point of the stroke that has a successor, points to the
    successor up to a random deviation, and its other fields are drawn from
    random numbers of [[0, 1)] and a reading of the clock. *)
Definition seedOf (strokePoints : list Point.t) (settings : GrowthSettings.t)
  (b : Branch.t) : Prop :=
  exists (i : nat) (point next : Point.t) (now : Z) (r1 r2 r3 r4 r5 : R),
    nth_error strokePoints i = Some point
    /\ nth_error strokePoints (S i) = Some next
    /\ (0 <= r1 < 1 /\ 0 <= r2 < 1 /\ 0 <= r3 < 1 /\ 0 <= r4 < 1
        /\ 0 <= r5 < 1)
    /\ Branch.startX b = Point.x point
    /\ Branch.startY b = Point.y point
    /\ (Branch.endX b, Branch.endY b) = endpoint b
    /\ Branch.angle b
       = atan2 (Point.y next - Point.y point) (Point.x next - Point.x point)
         + (r1 - 0.5) * PI
           * angleVariation (GrowthSettings.drawingMode settings)
    /\ Branch.length b
       = (30 + r2 * 50)
         * branchLengthMultiplier (GrowthSettings.drawingMode settings)
    /\ Branch.generation b = 0%Z
    /\ Branch.progress b = 0
    /\ Branch.maxProgress b = 60 + r3 * 40
    /\ In (Branch.color b) (palette 0 settings)
    /\ Branch.opacity b = 0.8 + r4 * 0.2
    /\ Branch.lastGrowth b = IZR now + r5 * 2000.

(** [child] is a branch that [animateBranches] creates from [parent]: the
    parent is fully grown and below the generation limit of the mode. *)
Definition bornOf (now : Z) (settings : GrowthSettings.t)
  (parent child : Branch.t) : Prop :=
  grown parent
  /\ (Branch.generation parent
      < maxGenerations (GrowthSettings.drawingMode settings))%Z
  /\ childOf now settings parent child.

(** The settings an operation is run with. *)
Definition settingsOf (op : Canvas.Op) : GrowthSettings.t :=
  match op with
  | Canvas.Seed _ settings => settings
  | Canvas.Step _ settings _ => settings
  end.

(** The callback of a step, if any, leaves [Math.random] alone. *)
Definition steadyOp (op : Canvas.Op) : Prop :=
  match op with
  | Canvas.Seed _ _ => True
  | Canvas.Step _ _ cb => saneCallback cb
  end.

(** A property of branches that holds of every seed and of every child of
    a branch that has it, under settings that satisfy [S], and that no
    write of [animateBranches] to [progress], [lastGrowth] or [opacity]
    breaks. *)
Definition hereditary (S : GrowthSettings.t -> Prop) (P : Branch.t -> Prop)
  : Prop :=
  (forall strokePoints settings b,
     S settings -> seedOf strokePoints settings b -> P b)
  /\ (forall now settings parent child,
        S settings -> P parent -> bornOf now settings parent child -> P child)
  /\ (forall b v, P b -> P (Branch.set_progress v b))
  /\ (forall b v, P b -> P (Branch.set_lastGrowth v b))
  /\ (forall b v, P b -> P (Branch.set_opacity (Rmax 0.3 v) b)).

(** The bounds on the shape of a branch. *)
Definition shapely (b : Branch.t) : Prop :=
  (Branch.endX b, Branch.endY b) = endpoint b
  /\ 0.3 <= Branch.opacity b
  /\ 40 <= Branch.maxProgress b < 100
  /\ (0 <= Branch.generation b)%Z
  /\ 24 * 0.6 ^ Z.to_nat (Branch.generation b)
     <= Branch.length b
     < 120 * 0.9 ^ Z.to_nat (Branch.generation b).

(** What the loops of [generateBranches] keep true, [h] being the store the
    call started from. *)
Definition seeded (strokePoints : list Point.t) (settings : GrowthSettings.t)
  (h : Heap) (st : Loop) : Prop :=
  exists seeds,
    heap st = h ++ seeds
    /\ newBranches st = seq (List.length h) (List.length seeds)
    /\ Forall (seedOf strokePoints settings) seeds
    /\ calls st = []
    /\ sane (world st).

(** The progress of a branch after a call of [animateBranches] at time
    [now]: one tick of [speedMultiplier], if the branch is not fully grown
    and its last growth is more than 16 ms old. *)
Definition progressAfter (now : Z) (speedMultiplier : R) (b : Branch.t) : R :=
  if lt (Branch.progress b) (Branch.maxProgress b)
     && gt (IZR now - Branch.lastGrowth b) 16
  then Rmin (Branch.maxProgress b) (Branch.progress b + speedMultiplier)
  else Branch.progress b.

(** A branch that a visit at time [now] does not make grow. *)
Definition settled (now : Z) (b : Branch.t) : Prop :=
  lt (Branch.progress b) (Branch.maxProgress b)
  && gt (IZR now - Branch.lastGrowth b) 16 = false.

(** What the loop of [animateBranches] keeps true of the branch [b] that
    the store [h] holds at address [a], [done] being the addresses visited
    so far. *)
Definition tickedOnce (now : Z) (speedMultiplier : R) (h : Heap) (a : addr)
  (b : Branch.t) (done : list addr) (st : Loop) : Prop :=
  (List.length h <= List.length (heap st))%nat
  /\ (forall x, In x (newBranches st) -> In x done \/ (List.length h <= x)%nat)
  /\ (~ In a done -> nth_error (heap st) a = Some b)
  /\ (In a done ->
      exists b2,
        nth_error (heap st) a = Some b2
        /\ Branch.progress b2 = progressAfter now speedMultiplier b
        /\ settled now b2).

(** A branch one tenth of the way to its target, last touched at time 0. *)
Definition youngBranch : Branch.t :=
  Branch.mk 0 0 30 0 0 30 0 10 60 "#00E0FF" 1 0.

(** A particle as [generateParticles(x, y, color)] makes them. *)
Definition freshParticle (x y : R) (color : string) (p : Particle.t) : Prop :=
  Rabs (Particle.x p - x) <= 5 /\ Rabs (Particle.y p - y) <= 5
  /\ Rabs (Particle.vx p) <= 1 /\ Rabs (Particle.vy p) <= 1
  /\ Particle.life p = 0
  /\ 60 <= Particle.maxLife p < 100
  /\ Particle.color p = color
  /\ 1 <= Particle.size p < 3.

(** A particle of the state: it has frames left to live, and the opacity it
    is drawn with is a proper one. *)
Definition liveParticle (p : Particle.t) : Prop :=
  0 <= Particle.life p < Particle.maxLife p
  /\ 0 < Particles.alpha p <= 1.

(** A particle after [n] frames. *)
Definition agedParticle (n : nat) (p : Particle.t) : Particle.t :=
  Particle.mk
    (Particle.x p + Particle.vx p * (1 - 0.98 ^ n) / 0.02)
    (Particle.y p + Particle.vy p * (1 - 0.98 ^ n) / 0.02)
    (Particle.vx p * 0.98 ^ n)
    (Particle.vy p * 0.98 ^ n)
    (Particle.life p + INR n)
    (Particle.maxLife p)
    (Particle.color p)
    (Particle.size p).

(** What happens to the particles of the canvas over time. *)
Inductive ParticleEvent : Type :=
| Burst (settings : GrowthSettings.t) (x y : R) (color : string)
| Frame.

Definition particleStep (st : list Particle.t * World.t) (e : ParticleEvent)
  : list Particle.t * World.t :=
  match e with
  | Burst settings x y color =>
      Particles.generateParticles settings x y color (fst st) (snd st)
  | Frame => (Particles.updateParticles (fst st), snd st)
  end.

Definition particleRun (events : list ParticleEvent)
  (st : list Particle.t * World.t) : list Particle.t * World.t :=
  fold_left particleStep events st.

(** What the loop of [generateParticles] has made after [i] iterations,
    [w0] being the world it started in. *)
Definition pushed (x y : R) (color : string) (w0 : World.t)
  (i : nat) (st : list Particle.t * World.t) : Prop :=
  List.length (fst st) = i
  /\ Forall (freshParticle x y color) (fst st)
  /\ World.random (snd st) = World.random w0
  /\ World.drawn (snd st) = (World.drawn w0 + 6 * i)%nat
  /\ World.clock (snd st) = World.clock w0
  /\ World.elapsed (snd st) = World.elapsed w0.

(** The shapes that trigger an effect, with the type of the effect and the
    number of particles it starts with. *)
Definition effectTable : list (string * SpecialEffect.kind * nat) :=
  [("circle"%string, SpecialEffect.ripple, 20%nat);
   ("line"%string, SpecialEffect.lightning, 16%nat);
   ("triangle"%string, SpecialEffect.explosion, 24%nat);
   ("square"%string, SpecialEffect.pulse, 18%nat);
   ("spiral"%string, SpecialEffect.spiral_burst, 30%nat);
   ("star"%string, SpecialEffect.star_burst, 36%nat);
   ("wave"%string, SpecialEffect.sparkle, 22%nat)].

(** An effect as [createEffectForShape] makes them. *)
Definition tabledEffect (effect : SpecialEffect.t) : Prop :=
  0.8 <= SpecialEffect.intensity effect <= 1.8
  /\ 1500 <= SpecialEffect.duration effect <= 3000.

(** A particle as [createParticleForEffect] makes them for [effect]. *)
Definition freshEffectParticle (effect : SpecialEffect.t)
  (p : EffectParticle.t) : Prop :=
  Rabs (EffectParticle.x p - Point.x (SpecialEffect.center effect)) <= 5
  /\ Rabs (EffectParticle.y p - Point.y (SpecialEffect.center effect)) <= 5
  /\ EffectParticle.life p = 0
  /\ 52.5 <= EffectParticle.maxLife p < 340
  /\ 0 < EffectParticle.size p
  /\ EffectParticle.color p = SpecialEffect.color effect
  /\ EffectParticle.alpha p = 1
  /\ EffectParticle.effectType p = SpecialEffect.type effect.

(** A particle of the manager: it has frames left to live, fewer than 340
    in all, and its opacity is a proper one. *)
Definition liveEffectParticle (p : EffectParticle.t) : Prop :=
  0 <= EffectParticle.life p < EffectParticle.maxLife p
  /\ EffectParticle.maxLife p < 340
  /\ 0 < EffectParticle.alpha p <= 1.

(** What happens to the manager over time. *)
Inductive EffectEvent : Type :=
| Trigger (shapeType : string) (center : Point.t) (color : string)
| Tick
| ClearEffects.

Definition effectStep (st : SpecialEffectsManager.t * World.t)
  (e : EffectEvent) : SpecialEffectsManager.t * World.t :=
  match e with
  | Trigger shapeType center color =>
      SpecialEffectsManager.triggerShapeEffect shapeType center color
        (fst st) (snd st)
  | Tick => SpecialEffectsManager.updateEffects (fst st) (snd st)
  | ClearEffects => (SpecialEffectsManager.clearEffects (fst st), snd st)
  end.

Definition effectRun (events : list EffectEvent)
  (st : SpecialEffectsManager.t * World.t)
  : SpecialEffectsManager.t * World.t :=
  fold_left effectStep events st.

(** A world whose clock advances by a second at each reading and whose
    random numbers are all 0. *)
Definition tickingWorld : World.t :=
  World.mk (fun _ => 0) 0 (fun k => (1000 * Z.of_nat k)%Z) 0.

(** The short stroke is seeded, then one frame is animated at the growth
    speed [-50]. *)
Definition backwardRun : list Canvas.Op :=
  [Canvas.Seed shortStroke neuralSettings;
   Canvas.Step (-50) neuralSettings None].

End GrowthNotions.

(** ** Notions used to state the properties of the gesture recognizer *)

Module GestureNotions.

Import JS GestureRecognizer.

(** The point of the segment from [a] to [b] at the fraction [t] of the
    way. *)
Definition along (a b : Point.t) (t : R) : Point.t :=
  Point.mk (Point.x a + t * (Point.x b - Point.x a))
           (Point.y a + t * (Point.y b - Point.y a)).

(** [p] lies on the segment from [a] to [b]. *)
Definition onSegment (a b p : Point.t) : Prop :=
  exists t, 0 <= t <= 1 /\ p = along a b t.

(** [l] is [l'] with some elements left out. *)
Inductive subsequence {A : Type} : list A -> list A -> Prop :=
| subsequence_nil : subsequence [] []
| subsequence_keep (a : A) (l l' : list A) :
    subsequence l l' -> subsequence (a :: l) (a :: l')
| subsequence_skip (a : A) (l l' : list A) :
    subsequence l l' -> subsequence l (a :: l').

(** Every element of a chain of points is more than [tolerance] away from
    the element before it, [kept] being before the first. *)
Fixpoint spaced (tolerance : R) (kept : Point.t) (chain : list Point.t)
  : Prop :=
  match chain with
  | [] => True
  | p :: rest => tolerance < distance p kept /\ spaced tolerance p rest
  end.

(** What a result can be: for each type, the confidence it comes with. *)
Definition plausible (type : Gesture.kind) (confidence : R) : Prop :=
  match type with
  | Gesture.unknown => confidence = 0
  | Gesture.line => 0.85 < confidence <= 1
  | Gesture.square => 0.7 < confidence <= 0.95
  | Gesture.triangle => 0.7 < confidence <= 0.8
  | Gesture.circle => 0.75 < confidence <= 0.95
  | Gesture.spiral => 0.6 < confidence <= 1
  | Gesture.wave => 2 / 3 <= confidence <= 1
  | Gesture.star => 0.8 <= confidence <= 1
  | Gesture.zigzag => False
  end.

(** Five points on the segment from [(0, 0)] to [(40, 0)]. *)
Definition straightStroke : list Point.t :=
  [Point.mk 0 0; Point.mk 10 0; Point.mk 20 0; Point.mk 30 0; Point.mk 40 0].

(** [box] holds the point [p]. *)
Definition holds (box : Gesture.BoundingBox) (p : Point.t) : Prop :=
  Gesture.minX box <= Point.x p <= Gesture.maxX box
  /\ Gesture.minY box <= Point.y p <= Gesture.maxY box.

(** A detector's result: of its own type, with a confidence that is [NaN]
    or at most [cap]. *)
Definition capped (kind : Gesture.kind) (cap : R) (r : Gesture.Result)
  : Prop :=
  Gesture.type r = kind
  /\ match Gesture.confidence r with
     | Some c => c <= cap
     | None => True
     end.

End GestureNotions.

(** ** Notions used to state the properties of the pattern completion *)

Module PatternNotions.

Import JS PatternCompleter.

(** The templates that [findBestMatch] looks at in a drawing mode. *)
Definition eligible (drawingMode : string) (template : PatternTemplate.t)
  : Prop :=
  (drawingMode = "neural"%string ->
   PatternTemplate.type template = PatternTemplate.neural)
  /\ (drawingMode = "electric"%string ->
      PatternTemplate.type template = PatternTemplate.geometric)
  /\ (drawingMode = "organic"%string ->
      PatternTemplate.type template = PatternTemplate.organic).

(** What the loop of [findBestMatch] holds in [bestMatch] and [bestScore]
    after the templates [seen]. *)
Definition bestSoFar (userStroke : list Point.t) (drawingMode : string)
  (seen : list PatternTemplate.t) (best : option PatternTemplate.t * R)
  : Prop :=
  let score template :=
    calculateMatchScore userStroke (PatternTemplate.points template) in
  match fst best with
  | None =>
      snd best = 0
      /\ forall t, In t seen -> eligible drawingMode t -> score t <= 0.6
  | Some found =>
      snd best = score found
      /\ 0.6 < score found
      /\ eligible drawingMode found
      /\ exists before after,
           seen = before ++ found :: after
           /\ (forall t, In t before -> eligible drawingMode t ->
                         score t < score found)
           /\ (forall t, In t after -> eligible drawingMode t ->
                         score t <= score found)
  end.

(** The point [p] scaled by [k] and moved by [(ox, oy)]. *)
Definition transform (k ox oy : R) (p : Point.t) : Point.t :=
  Point.mk (k * Point.x p + ox) (k * Point.y p + oy).

(** The point [p] moved by [(ox, oy)]. *)
Definition shift (ox oy : R) (p : Point.t) : Point.t :=
  Point.mk (Point.x p + ox) (Point.y p + oy).

(** A vector of length one. *)
Definition unit (v : Point.t) : Prop :=
  Point.x v * Point.x v + Point.y v * Point.y v = 1.

(** The place of a point of a completion: the template's point [c], seen
    from the end of the template, scaled and put at the end of the
    stroke. *)
Definition continued (lastPoint templateEnd : Point.t) (scale : R)
  (c : Point.t) : Point.t :=
  Point.mk (Point.x lastPoint + scale * (Point.x c - Point.x templateEnd))
           (Point.y lastPoint + scale * (Point.y c - Point.y templateEnd)).

(** The points of the template [growth_pattern], as a stroke. *)
Definition growthStroke : list Point.t :=
  [Point.mk 0 0; Point.mk 20 5; Point.mk 40 15].

(** The template [growth_pattern]. *)
Definition growthPattern : PatternTemplate.t :=
  PatternTemplate.mk "growth_pattern" PatternTemplate.organic growthStroke
    [Point.mk 60 30; Point.mk 80 50; Point.mk 100 75; Point.mk 120 105].

(** What [generateCompletion] returns, moved by [(ox, oy)]. *)
Definition shifted (ox oy : R) (result : Exception + list Point.t)
  : Exception + list Point.t :=
  match result with
  | inr completion => inr (map (shift ox oy) completion)
  | inl e => inl e
  end.

End PatternNotions.

(** * Properties *)

(** ** Facts about the primitives *)

Section Primitives.

Import JS.

Lemma lt_true_iff (a b : R) : lt a b = true <-> a < b.
Proof. unfold lt; destruct (Rlt_dec a b); split; intros; try easy; congruence. Qed.

Lemma lt_false_iff (a b : R) : lt a b = false <-> b <= a.
Proof.
  unfold lt; destruct (Rlt_dec a b); split; intros; try easy; try lra.
Qed.

Lemma gt_true_iff (a b : R) : gt a b = true <-> b < a.
Proof. apply lt_true_iff. Qed.

Lemma gt_false_iff (a b : R) : gt a b = false <-> a <= b.
Proof. apply lt_false_iff. Qed.

Lemma le_true_iff (a b : R) : le a b = true <-> a <= b.
Proof. unfold le; destruct (Rle_dec a b); split; intros; try easy; congruence. Qed.

Lemma le_false_iff (a b : R) : le a b = false <-> b < a.
Proof.
  unfold le; destruct (Rle_dec a b); split; intros; try easy; try lra.
Qed.

Lemma ge_true_iff (a b : R) : ge a b = true <-> b <= a.
Proof. apply le_true_iff. Qed.

Lemma ge_false_iff (a b : R) : ge a b = false <-> a < b.
Proof. apply le_false_iff. Qed.

Lemma neq_false_iff (a b : R) : neq a b = false <-> a = b.
Proof.
  unfold neq; destruct (Req_dec_T a b); split; intros; try easy; congruence.
Qed.

Lemma neq_true_iff (a b : R) : neq a b = true <-> a <> b.
Proof.
  unfold neq; destruct (Req_dec_T a b); split; intros; try easy; congruence.
Qed.

Context {A : Type}.

Lemma length_modify (k : nat) (f : A -> A) (arr : list A) :
  List.length (modify k f arr) = List.length arr.
Proof.
  revert k; induction arr as [|a rest IH]; intros [|k]; simpl; auto.
Qed.

Lemma nth_error_modify_eq (k : nat) (f : A -> A) (arr : list A) :
  nth_error (modify k f arr) k = option_map f (nth_error arr k).
Proof.
  revert k; induction arr as [|a rest IH]; intros [|k]; simpl; auto.
Qed.

Lemma nth_error_modify_ne (k i : nat) (f : A -> A) (arr : list A) :
  i <> k -> nth_error (modify k f arr) i = nth_error arr i.
Proof.
  revert k i; induction arr as [|a rest IH]; intros [|k] [|i] H; simpl; auto;
    congruence.
Qed.

Lemma Forall_modify (P : A -> Prop) (k : nat) (f : A -> A) (arr : list A) :
  Forall P arr -> (forall a, P a -> P (f a)) -> Forall P (modify k f arr).
Proof.
  intros H Hf; revert k; induction H as [|a rest Ha Hr IH]; intros [|k];
    simpl; constructor; auto.
Qed.

Lemma index_Some (arr : list A) (k : Z) (a : A) :
  index arr k = Some a ->
  (0 <= k < Z.of_nat (List.length arr))%Z /\ nth_error arr (Z.to_nat k) = Some a.
Proof.
  unfold index; destruct (k <? 0)%Z eqn:E; [discriminate|].
  intros H; split; auto.
  apply Z.ltb_ge in E.
  assert (Z.to_nat k < List.length arr)%nat
    by (apply nth_error_Some; congruence).
  lia.
Qed.

Lemma index_in_range (arr : list A) (k : Z) :
  (0 <= k < Z.of_nat (List.length arr))%Z -> exists a, index arr k = Some a.
Proof.
  intros H; unfold index.
  destruct (k <? 0)%Z eqn:E; [apply Z.ltb_lt in E; lia|].
  destruct (nth_error arr (Z.to_nat k)) eqn:N; eauto.
  apply nth_error_None in N; lia.
Qed.

End Primitives.

(** Decides the comparisons of a goal whose operands are numerals. *)
Ltac decide_comparisons :=
  repeat match goal with
    | |- context [JS.lt ?a ?b] =>
        (rewrite (proj2 (lt_true_iff a b)) by lra)
        || (rewrite (proj2 (lt_false_iff a b)) by lra)
    | |- context [JS.gt ?a ?b] =>
        (rewrite (proj2 (gt_true_iff a b)) by lra)
        || (rewrite (proj2 (gt_false_iff a b)) by lra)
    | |- context [JS.le ?a ?b] =>
        (rewrite (proj2 (le_true_iff a b)) by lra)
        || (rewrite (proj2 (le_false_iff a b)) by lra)
    | |- context [JS.ge ?a ?b] =>
        (rewrite (proj2 (ge_true_iff a b)) by lra)
        || (rewrite (proj2 (ge_false_iff a b)) by lra)
    | |- context [JS.neq ?a ?b] =>
        (rewrite (proj2 (neq_true_iff a b)) by lra)
        || (rewrite (proj2 (neq_false_iff a b)) by lra)
    end.

(** ** Physics engine: references to points that do not exist *)

Section DanglingReferences.

Import JS PhysicsSimulation PhysicsNotions.

(** [addSpring] returns without storing anything when an index is at or
    above the number of points. *)
Lemma addSpring_above_range (point1 point2 : Z) (stiffness damping : R) (s : t) :
  (Z.of_nat (List.length (points s)) <= point1
   \/ Z.of_nat (List.length (points s)) <= point2)%Z ->
  addSpring point1 point2 stiffness damping s = Returned s.
Proof.
  intros H; unfold addSpring.
  destruct ((point1 >=? _) || (point2 >=? _))%Z eqn:E; auto.
  apply orb_false_iff in E; destruct E as [E1 E2].
  rewrite Z.geb_leb in E1, E2. apply Z.leb_gt in E1, E2. lia.
Qed.

(** A negative index passes the guard of [addSpring]; the read of the
    coordinates then throws. *)
Lemma addSpring_negative_throws (point2 : Z) (stiffness damping : R) (s : t) :
  (point2 < Z.of_nat (List.length (points s)))%Z ->
  addSpring (-1) point2 stiffness damping s = Threw TypeError s.
Proof.
  intros H; unfold addSpring.
  destruct ((-1 >=? _) || (point2 >=? _))%Z eqn:E.
  - apply orb_true_iff in E; rewrite !Z.geb_leb in E.
    destruct E as [E|E]; apply Z.leb_le in E; lia.
  - reflexivity.
Qed.

(** [addDistanceConstraint] stores the constraint whatever the indices. *)
Lemma addDistanceConstraint_stores (point1 point2 : Z) (distance strength : R)
  (s : t) :
  constraints (addDistanceConstraint point1 point2 distance strength s)
  = constraints s
    ++ [PhysicsConstraint.mk PhysicsConstraint.distance [point1; point2]
          distance strength].
Proof. reflexivity. Qed.

(** C4, at the failing input [addPoint(0, 0); addDistanceConstraint(0, 1, 10)]:
    the constraint whose second index names no point is stored, and the next
    [update()] throws a [TypeError] instead of skipping it. *)
Theorem C4_dangling_constraint_throws :
  constraints danglingConstraint
  = [PhysicsConstraint.mk PhysicsConstraint.distance [0%Z; 1%Z] 10 0.5]
  /\ update 1 danglingConstraint = Threw TypeError danglingConstraint.
Proof.
  split; [reflexivity|].
  unfold update, forcePass, danglingConstraint; simpl.
  assert (G : gt 0 0 = false) by (apply gt_false_iff; lra).
  assert (N : neq 0 0 = false) by (apply neq_false_iff; reflexivity).
  rewrite G, N; simpl. reflexivity.
Qed.

End DanglingReferences.

(** ** Physics engine: the [damping] field of a spring *)

Section SpringDamping.

Import JS PhysicsSimulation PhysicsNotions.

(** The loop body reads every field of the spring but [damping]. *)
Lemma applySpring_ignores_damping (a b : PhysicsSpring.t)
  (pts : list PhysicsPoint.t) :
  sameButDamping a b -> applySpring a pts = applySpring b pts.
Proof.
  intros (H1 & H2 & H3 & H4); unfold applySpring.
  rewrite H1, H2, H3, H4; reflexivity.
Qed.

Lemma forEach_applySpring_ignores_damping (l1 l2 : list PhysicsSpring.t) :
  Forall2 sameButDamping l1 l2 ->
  forall pts, forEach applySpring l1 pts = forEach applySpring l2 pts.
Proof.
  induction 1 as [|a b l1 l2 Hab Hl IH]; intros pts; simpl; auto.
  rewrite (applySpring_ignores_damping a b pts Hab).
  destruct (applySpring b pts); auto.
Qed.

(** C10: two engines that differ only in the [damping] fields of their
    springs come out of [update] with the same point array (and throw in the
    same cases): the coefficient applied is the constant of the loop body. *)
Theorem C10_spring_damping_never_read (deltaTime : R) (s1 s2 : t) :
  sameButSpringDamping s1 s2 ->
  pointsOf (update deltaTime s1) = pointsOf (update deltaTime s2).
Proof.
  intros (Hp & Hs & Hc & Hw & Hg & Hcw & Hch).
  unfold update, forcePass.
  rewrite Hp, Hc, Hw, Hg, Hcw, Hch.
  rewrite (forEach_applySpring_ignores_damping _ _ Hs).
  destruct (forEach applySpring (springs s2) _) as [pts|e pts]; simpl; auto.
  destruct (forEach applyConstraint (constraints s2) _) as [pts'|e pts'];
    reflexivity.
Qed.

(** The theorem at two engines whose only spring has damping [0.99] in one
    and [0] in the other. *)
Lemma C10_spring_damping_never_read_witness :
  let pts := [PhysicsPoint.mk 0 0 0 0 0 0 1 true;
              PhysicsPoint.mk 0 20 0 1 0 0 1 false] in
  let s1 := mk pts [PhysicsSpring.mk 0 1 10 0.1 0.99] [] (0, 0) 0 800 600 in
  let s2 := mk pts [PhysicsSpring.mk 0 1 10 0.1 0] [] (0, 0) 0 800 600 in
  pointsOf (update 1 s1) = pointsOf (update 1 s2).
Proof.
  intros pts s1 s2.
  apply (C10_spring_damping_never_read 1 s1 s2).
  unfold sameButSpringDamping, sameButDamping; simpl.
  repeat split; auto.
Defined.

End SpringDamping.

(** ** Physics engine: the force of a spring *)

Section SpringForce.

Import JS PhysicsSimulation PhysicsNotions.

Lemma dist_value (a b v : R) : 0 <= v -> a * a + b * b = v * v -> dist a b = v.
Proof. intros Hv H; unfold dist; rewrite H; apply sqrt_square; exact Hv. Qed.

Lemma dist_0_0 : dist 0 0 = 0.
Proof. apply dist_value; lra. Qed.

(** Two indices at which the separation is positive are different. *)
Lemma positive_separation_distinct (pts : list PhysicsPoint.t) (i j : nat)
  (p1 p2 : PhysicsPoint.t) :
  nth_error pts i = Some p1 -> nth_error pts j = Some p2 ->
  0 < dist (PhysicsPoint.x p2 - PhysicsPoint.x p1)
           (PhysicsPoint.y p2 - PhysicsPoint.y p1) ->
  i <> j.
Proof.
  intros H1 H2 Hd ->. rewrite H1 in H2; injection H2 as ->.
  rewrite !Rminus_diag in Hd. rewrite dist_0_0 in Hd; lra.
Qed.

(** What the loop body does to the array, spring by spring. *)
Lemma applySpring_effect (spring : PhysicsSpring.t) (pts : list PhysicsPoint.t)
  (p1 p2 : PhysicsPoint.t) :
  index pts (PhysicsSpring.point1 spring) = Some p1 ->
  index pts (PhysicsSpring.point2 spring) = Some p2 ->
  let i := Z.to_nat (PhysicsSpring.point1 spring) in
  let j := Z.to_nat (PhysicsSpring.point2 spring) in
  let dx := PhysicsPoint.x p2 - PhysicsPoint.x p1 in
  let dy := PhysicsPoint.y p2 - PhysicsPoint.y p1 in
  let distance := dist dx dy in
  let force :=
    (distance - PhysicsSpring.restLength spring)
    * PhysicsSpring.stiffness spring in
  let fx := (dx / distance) * force in
  let fy := (dy / distance) * force in
  let dvx := PhysicsPoint.vx p2 - PhysicsPoint.vx p1 in
  let dvy := PhysicsPoint.vy p2 - PhysicsPoint.vy p1 in
  exists pts',
    applySpring spring pts = Returned pts'
    /\ List.length pts' = List.length pts
    /\ (distance = 0 -> pts' = pts)
    /\ (0 < distance ->
        nth_error pts' i
        = Some (if PhysicsPoint.fixed p1 then p1
                else PhysicsPoint.set_acc
                       (PhysicsPoint.ax p1 + fx / PhysicsPoint.mass p1
                        + dvx * 0.05)
                       (PhysicsPoint.ay p1 + fy / PhysicsPoint.mass p1
                        + dvy * 0.05) p1)
        /\ nth_error pts' j
           = Some (if PhysicsPoint.fixed p2 then p2
                   else PhysicsPoint.set_acc
                          (PhysicsPoint.ax p2 - fx / PhysicsPoint.mass p2
                           - dvx * 0.05)
                          (PhysicsPoint.ay p2 - fy / PhysicsPoint.mass p2
                           - dvy * 0.05) p2)
        /\ forall k, k <> i -> k <> j -> nth_error pts' k = nth_error pts k).
Proof.
  intros H1 H2 i j dx dy distance force fx fy dvx dvy.
  destruct (index_Some _ _ _ H1) as [_ N1].
  destruct (index_Some _ _ _ H2) as [_ N2].
  fold i in N1; fold j in N2.
  unfold applySpring; rewrite H1, H2.
  fold i j dx dy distance force fx fy dvx dvy.
  destruct (gt distance 0) eqn:G.
  - apply gt_true_iff in G.
    assert (Hij : i <> j)
      by (eapply positive_separation_distinct; eauto).
    eexists; split; [reflexivity|].
    split.
    { destruct (PhysicsPoint.fixed p1), (PhysicsPoint.fixed p2);
        rewrite ?length_modify; reflexivity. }
    split; [intros; lra|]. intros _.
    destruct (PhysicsPoint.fixed p1), (PhysicsPoint.fixed p2);
      (split; [|split]);
      try (intros k Hk1 Hk2);
      repeat (rewrite nth_error_modify_eq
              || rewrite nth_error_modify_ne by congruence);
      rewrite ?N1, ?N2; reflexivity.
  - apply gt_false_iff in G.
    exists pts; repeat split; auto; intros; lra.
Qed.

(** C3, as the code has it: for a spring between two existing points at
    positive distance, the loop body of [update] adds to the acceleration of
    the first endpoint the spring force [(distance - restLength) * stiffness]
    along the normalized separation divided by that endpoint's mass, plus
    [0.05] times the relative velocity vector [(dvx, dvy)] itself (not its
    projection on the spring, and not divided by the mass); the second
    endpoint gets the opposite; a fixed endpoint and every other point are
    left alone; at zero distance nothing changes. *)
Theorem C3_spring_force_and_damping (spring : PhysicsSpring.t)
  (pts : list PhysicsPoint.t) (p1 p2 : PhysicsPoint.t) :
  index pts (PhysicsSpring.point1 spring) = Some p1 ->
  index pts (PhysicsSpring.point2 spring) = Some p2 ->
  let i := Z.to_nat (PhysicsSpring.point1 spring) in
  let j := Z.to_nat (PhysicsSpring.point2 spring) in
  let dx := PhysicsPoint.x p2 - PhysicsPoint.x p1 in
  let dy := PhysicsPoint.y p2 - PhysicsPoint.y p1 in
  let distance := dist dx dy in
  let force :=
    (distance - PhysicsSpring.restLength spring)
    * PhysicsSpring.stiffness spring in
  let fx := (dx / distance) * force in
  let fy := (dy / distance) * force in
  let dvx := PhysicsPoint.vx p2 - PhysicsPoint.vx p1 in
  let dvy := PhysicsPoint.vy p2 - PhysicsPoint.vy p1 in
  exists pts',
    applySpring spring pts = Returned pts'
    /\ List.length pts' = List.length pts
    /\ (distance = 0 -> pts' = pts)
    /\ (0 < distance ->
        nth_error pts' i
        = Some (if PhysicsPoint.fixed p1 then p1
                else PhysicsPoint.set_acc
                       (PhysicsPoint.ax p1 + fx / PhysicsPoint.mass p1
                        + dvx * 0.05)
                       (PhysicsPoint.ay p1 + fy / PhysicsPoint.mass p1
                        + dvy * 0.05) p1)
        /\ nth_error pts' j
           = Some (if PhysicsPoint.fixed p2 then p2
                   else PhysicsPoint.set_acc
                          (PhysicsPoint.ax p2 - fx / PhysicsPoint.mass p2
                           - dvx * 0.05)
                          (PhysicsPoint.ay p2 - fy / PhysicsPoint.mass p2
                           - dvy * 0.05) p2)
        /\ forall k, k <> i -> k <> j -> nth_error pts' k = nth_error pts k).
Proof. exact (applySpring_effect spring pts p1 p2). Qed.

(** The theorem at a fixed root and a free point hanging 20 below it, joined
    by a spring of rest length 10. *)
Lemma C3_spring_force_and_damping_witness :
  let p1 := PhysicsPoint.mk 0 0 0 0 0 0 1 true in
  let p2 := PhysicsPoint.mk 0 20 0 1 0 0 2 false in
  let spring := PhysicsSpring.mk 0 1 10 0.1 0.99 in
  exists pts',
    applySpring spring [p1; p2] = Returned pts'
    /\ List.length pts' = 2%nat.
Proof.
  intros p1 p2 spring.
  destruct (C3_spring_force_and_damping spring [p1; p2] p1 p2
              eq_refl eq_refl) as (pts' & H & L & _).
  exists pts'; split; [exact H | exact L].
Defined.

(** Two free points on a horizontal line, 10 apart, joined by a spring at
    rest; the second moves vertically, across the spring.  The code gives
    the first point the vertical acceleration [0.05]; a damping force along
    the spring would give it none. *)
Lemma C3_counterexample :
  let p1 := PhysicsPoint.mk 0 0 0 0 0 0 1 false in
  let p2 := PhysicsPoint.mk 10 0 0 1 0 0 1 false in
  let spring := PhysicsSpring.mk 0 1 10 0.1 0.99 in
  applySpring spring [p1; p2]
  = Returned [PhysicsPoint.mk 0 0 0 0 0 0.05 1 false;
              PhysicsPoint.mk 10 0 0 1 0 (-0.05) 1 false]
  /\ snd (statedSpringAcceleration spring p1 p2) = 0
  /\ 0.05 - PhysicsPoint.ay p1 <> snd (statedSpringAcceleration spring p1 p2).
Proof.
  intros p1 p2 spring.
  assert (D : dist (10 - 0) (0 - 0) = 10) by (apply dist_value; lra).
  assert (G : gt 10 0 = true) by (apply gt_true_iff; lra).
  assert (C : snd (statedSpringAcceleration spring p1 p2) = 0).
  { unfold statedSpringAcceleration; simpl. rewrite D. lra. }
  split; [|split; [exact C | rewrite C; simpl; lra]].
  unfold applySpring; simpl. rewrite D, G; simpl.
  unfold PhysicsPoint.sub_acc, PhysicsPoint.add_acc, PhysicsPoint.set_acc; simpl.
  repeat f_equal; lra.
Qed.

End SpringForce.

(** ** Physics engine: when [update] returns *)

Section UpdateReturns.

Import JS PhysicsSimulation PhysicsNotions.

Lemma length_resolvePair (i j : nat) (pts : list PhysicsPoint.t) :
  List.length (resolvePair i j pts) = List.length pts.
Proof.
  unfold resolvePair.
  destruct (nth_error pts i) as [p1|]; auto.
  destruct (nth_error pts j) as [p2|]; auto.
  destruct (lt _ _ && gt _ _); auto.
  destruct (PhysicsPoint.fixed p1), (PhysicsPoint.fixed p2);
    rewrite ?length_modify; reflexivity.
Qed.

(** An invariant of the loop body is an invariant of the collision pass. *)
Lemma collisionPass_invariant (P : list PhysicsPoint.t -> Prop)
  (pts : list PhysicsPoint.t) :
  (forall i j l, P l -> P (resolvePair i j l)) -> P pts -> P (collisionPass pts).
Proof.
  intros Hstep. unfold collisionPass.
  generalize (List.length pts) as n. intros n.
  generalize (seq 0 n) as outer. intros outer; revert pts.
  induction outer as [|i outer IH]; intros pts HP; simpl; auto.
  apply IH.
  generalize (seq (S i) (n - S i)) as inner. intros inner; revert pts HP.
  induction inner as [|j inner IHi]; intros pts HP; simpl; auto.
Qed.

Lemma length_collisionPass (pts : list PhysicsPoint.t) :
  List.length (collisionPass pts) = List.length pts.
Proof.
  apply (collisionPass_invariant
           (fun l => List.length l = List.length pts)); auto.
  intros i j l H; rewrite length_resolvePair; exact H.
Qed.

Lemma length_forcePass (s : t) :
  List.length (forcePass s) = List.length (points s).
Proof.
  unfold forcePass.
  destruct (gt (gravity s) 0), (neq _ _ || neq _ _);
    rewrite ?length_map; reflexivity.
Qed.

(** An invariant of a loop body that returns is an invariant of the loop. *)
Lemma forEach_returns {A S : Type} (body : A -> S -> Outcome S)
  (P : S -> Prop) (arr : list A) :
  (forall a s, In a arr -> P s -> exists s', body a s = Returned s' /\ P s') ->
  forall s, P s -> exists s', forEach body arr s = Returned s' /\ P s'.
Proof.
  induction arr as [|a rest IH]; intros Hbody s Hs; simpl.
  - eauto.
  - destruct (Hbody a s (or_introl eq_refl) Hs) as (s1 & E & H1).
    rewrite E. apply IH; auto.
    intros a' s' Hin; apply Hbody; right; exact Hin.
Qed.

Lemma applySpring_returns (n : nat) (spring : PhysicsSpring.t)
  (pts : list PhysicsPoint.t) :
  (0 <= PhysicsSpring.point1 spring < Z.of_nat n)%Z ->
  (0 <= PhysicsSpring.point2 spring < Z.of_nat n)%Z ->
  List.length pts = n ->
  exists pts', applySpring spring pts = Returned pts' /\ List.length pts' = n.
Proof.
  intros H1 H2 L. subst n.
  destruct (index_in_range pts _ H1) as [p1 E1].
  destruct (index_in_range pts _ H2) as [p2 E2].
  destruct (applySpring_effect spring pts p1 p2 E1 E2) as (pts' & E & L' & _).
  eauto.
Qed.

Lemma applyConstraint_returns (n : nat) (c : PhysicsConstraint.t)
  (pts : list PhysicsPoint.t) :
  Forall (fun k => (0 <= k < Z.of_nat n)%Z) (PhysicsConstraint.points c) ->
  List.length pts = n ->
  exists pts', applyConstraint c pts = Returned pts' /\ List.length pts' = n.
Proof.
  intros V L. subst n. unfold applyConstraint.
  destruct (PhysicsConstraint.type c); [|eauto].
  destruct (PhysicsConstraint.points c) as [|c0 [|c1 [|c2 rest]]]; eauto.
  inversion V as [|? ? V0 V']; subst. inversion V' as [|? ? V1 _]; subst.
  destruct (index_in_range pts _ V0) as [p1 ->].
  destruct (index_in_range pts _ V1) as [p2 ->].
  destruct (gt _ 0); [|eauto].
  eexists; split; [reflexivity|].
  destruct (PhysicsPoint.fixed p1), (PhysicsPoint.fixed p2);
    rewrite ?length_modify; reflexivity.
Qed.

(** [update] returns when every spring and constraint names existing points;
    the points it returns are the integration of the array that the force,
    collision and constraint passes have produced. *)
Lemma update_returns (deltaTime : R) (s : t) :
  wellFormed s ->
  exists pts1 pts2,
    forEach applySpring (springs s) (forcePass s) = Returned pts1
    /\ forEach applyConstraint (constraints s) (collisionPass pts1)
       = Returned pts2
    /\ List.length pts1 = List.length (points s)
    /\ List.length pts2 = List.length (points s)
    /\ update deltaTime s
       = Returned
           (set_points
              (map (integratePoint deltaTime (canvasWidth s) (canvasHeight s))
                   pts2) s).
Proof.
  intros [Hs Hc].
  set (n := List.length (points s)).
  destruct (forEach_returns applySpring (fun l => List.length l = n)
              (springs s)) with (s := forcePass s) as (pts1 & E1 & L1).
  { intros a l Hin Hl.
    rewrite Forall_forall in Hs. destruct (Hs a Hin) as [V1 V2].
    apply applySpring_returns; auto. }
  { apply length_forcePass. }
  destruct (forEach_returns applyConstraint (fun l => List.length l = n)
              (constraints s)) with (s := collisionPass pts1)
    as (pts2 & E2 & L2).
  { intros a l Hin Hl.
    rewrite Forall_forall in Hc.
    apply applyConstraint_returns; auto. apply (Hc a Hin). }
  { rewrite length_collisionPass; exact L1. }
  exists pts1, pts2. unfold update. rewrite E1, E2. auto.
Qed.

End UpdateReturns.

(** ** Physics engine: the boundary *)

Section Boundary.

Import JS PhysicsSimulation PhysicsNotions.

Lemma bounce_below (size pos vel : R) :
  10 <= size -> pos < 5 -> bounce size pos vel = (5, vel * -0.3).
Proof.
  intros Hs Hp; unfold bounce.
  assert (L : lt pos 5 = true) by (apply lt_true_iff; exact Hp).
  assert (G : gt 5 (size - 5) = false) by (apply gt_false_iff; lra).
  rewrite L, G; reflexivity.
Qed.

Lemma bounce_above (size pos vel : R) :
  5 <= pos -> size - 5 < pos -> bounce size pos vel = (size - 5, vel * -0.3).
Proof.
  intros Hp Hs; unfold bounce.
  assert (L : lt pos 5 = false) by (apply lt_false_iff; exact Hp).
  assert (G : gt pos (size - 5) = true) by (apply gt_true_iff; exact Hs).
  rewrite L, G; reflexivity.
Qed.

Lemma bounce_inside (size pos vel : R) :
  5 <= pos <= size - 5 -> bounce size pos vel = (pos, vel).
Proof.
  intros [Hp Hs]; unfold bounce.
  assert (L : lt pos 5 = false) by (apply lt_false_iff; exact Hp).
  assert (G : gt pos (size - 5) = false) by (apply gt_false_iff; exact Hs).
  rewrite L, G; reflexivity.
Qed.

Lemma bounce_in_range (size pos vel : R) :
  10 <= size -> 5 <= fst (bounce size pos vel) <= size - 5.
Proof.
  intros Hs.
  destruct (Rlt_dec pos 5) as [H|H].
  - rewrite bounce_below by assumption; simpl; lra.
  - destruct (Rlt_dec (size - 5) pos) as [H'|H'].
    + rewrite bounce_above by lra; simpl; lra.
    + rewrite bounce_inside by lra; simpl; lra.
Qed.


Lemma integratePoint_fixed (deltaTime width height : R) (p : PhysicsPoint.t) :
  PhysicsPoint.fixed (integratePoint deltaTime width height p)
  = PhysicsPoint.fixed p.
Proof.
  unfold integratePoint.
  destruct (PhysicsPoint.fixed p) eqn:F; auto.
  destruct (bounce width _ _), (bounce height _ _); simpl; auto.
Qed.

(** The four fields that integration writes, for a free point. *)
Lemma integratePoint_free (deltaTime width height : R) (p : PhysicsPoint.t) :
  PhysicsPoint.fixed p = false ->
  let vx1 := (PhysicsPoint.vx p + PhysicsPoint.ax p * deltaTime) * 0.999 in
  let vy1 := (PhysicsPoint.vy p + PhysicsPoint.ay p * deltaTime) * 0.999 in
  let bx := bounce width (PhysicsPoint.x p + vx1 * deltaTime) vx1 in
  let by_ := bounce height (PhysicsPoint.y p + vy1 * deltaTime) vy1 in
  let p' := integratePoint deltaTime width height p in
  PhysicsPoint.x p' = fst bx /\ PhysicsPoint.vx p' = snd bx
  /\ PhysicsPoint.y p' = fst by_ /\ PhysicsPoint.vy p' = snd by_.
Proof.
  intros F; unfold integratePoint; rewrite F; simpl.
  destruct (bounce width _ _), (bounce height _ _); simpl; auto.
Qed.

(** C5, as the code has it: on a canvas of at least two margins each way,
    [update] leaves every point that is not fixed inside
    [[5, canvasWidth - 5] x [5, canvasHeight - 5]] (a fixed point is never
    clamped); and when integration carries a coordinate of such a point past
    a bound, the coordinate is set to the bound and the velocity component is
    multiplied by [-0.3]. *)
Theorem C5_free_points_clamped (deltaTime : R) (s : t) :
  wellFormed s -> 10 <= canvasWidth s -> 10 <= canvasHeight s ->
  exists s' pre,
    update deltaTime s = Returned s'
    /\ points s'
       = map (integratePoint deltaTime (canvasWidth s) (canvasHeight s)) pre
    /\ (forall p', In p' (points s') -> PhysicsPoint.fixed p' = false ->
          5 <= PhysicsPoint.x p' <= canvasWidth s - 5
          /\ 5 <= PhysicsPoint.y p' <= canvasHeight s - 5)
    /\ (forall p, In p pre -> PhysicsPoint.fixed p = false ->
          let vx1 := (PhysicsPoint.vx p + PhysicsPoint.ax p * deltaTime) * 0.999 in
          let vy1 := (PhysicsPoint.vy p + PhysicsPoint.ay p * deltaTime) * 0.999 in
          let x1 := PhysicsPoint.x p + vx1 * deltaTime in
          let y1 := PhysicsPoint.y p + vy1 * deltaTime in
          let p' := integratePoint deltaTime (canvasWidth s) (canvasHeight s) p in
          (x1 < 5 -> PhysicsPoint.x p' = 5 /\ PhysicsPoint.vx p' = vx1 * -0.3)
          /\ (canvasWidth s - 5 < x1 ->
              PhysicsPoint.x p' = canvasWidth s - 5
              /\ PhysicsPoint.vx p' = vx1 * -0.3)
          /\ (5 <= x1 <= canvasWidth s - 5 ->
              PhysicsPoint.x p' = x1 /\ PhysicsPoint.vx p' = vx1)
          /\ (y1 < 5 -> PhysicsPoint.y p' = 5 /\ PhysicsPoint.vy p' = vy1 * -0.3)
          /\ (canvasHeight s - 5 < y1 ->
              PhysicsPoint.y p' = canvasHeight s - 5
              /\ PhysicsPoint.vy p' = vy1 * -0.3)
          /\ (5 <= y1 <= canvasHeight s - 5 ->
              PhysicsPoint.y p' = y1 /\ PhysicsPoint.vy p' = vy1)).
Proof.
  intros W Hw Hh.
  destruct (update_returns deltaTime s W) as (pts1 & pre & _ & _ & _ & _ & E).
  exists (set_points
            (map (integratePoint deltaTime (canvasWidth s) (canvasHeight s)) pre)
            s), pre.
  split; [exact E|]. split; [reflexivity|]. split.
  - simpl. intros p' Hin F.
    apply in_map_iff in Hin. destruct Hin as (p & <- & _).
    rewrite integratePoint_fixed in F.
    destruct (integratePoint_free deltaTime (canvasWidth s) (canvasHeight s)
                p F) as (Ex & _ & Ey & _).
    rewrite Ex, Ey. split; apply bounce_in_range; assumption.
  - intros p _ F vx1 vy1 x1 y1 p'.
    destruct (integratePoint_free deltaTime (canvasWidth s) (canvasHeight s)
                p F) as (Ex & Evx & Ey & Evy).
    fold vx1 vy1 x1 y1 p' in Ex, Evx, Ey, Evy.
    rewrite Ex, Evx, Ey, Evy.
    repeat split; intros;
      try (rewrite bounce_below by assumption; reflexivity);
      try (rewrite bounce_above by lra; reflexivity);
      try (rewrite bounce_inside by assumption; reflexivity).
Qed.

(** The theorem on the empty engine with a single free point that flies out
    through the left edge. *)
Lemma C5_free_points_clamped_witness :
  let s := mk [PhysicsPoint.mk 6 300 (-10) 0 0 0 1 false] [] [] (0, 0) 0 800 600 in
  exists s' pre,
    update 1 s = Returned s'
    /\ points s' = map (integratePoint 1 800 600) pre
    /\ (forall p', In p' (points s') -> PhysicsPoint.fixed p' = false ->
          5 <= PhysicsPoint.x p' <= 800 - 5 /\ 5 <= PhysicsPoint.y p' <= 600 - 5).
Proof.
  intros s.
  destruct (C5_free_points_clamped 1 s) as (s' & pre & E & P & B & _).
  - split; constructor.
  - simpl; lra.
  - simpl; lra.
  - exists s', pre. split; [exact E|]. split; [exact P|]. exact B.
Defined.

(** A fixed point created outside the margin stays where it is: after
    [addPoint(0, 0, 1, true)] and [update()], its position is still [(0, 0)],
    outside [[5, 795] x [5, 595]]. *)
Lemma C5_counterexample :
  let s := snd (addPoint 0 0 1 true new) in
  update 1 s = Returned s
  /\ points s = [PhysicsPoint.mk 0 0 0 0 0 0 1 true]
  /\ ~ (5 <= 0 <= canvasWidth s - 5).
Proof.
  intros s. split; [|split; [reflexivity | simpl; lra]].
  unfold update, forcePass, s; simpl.
  assert (G : gt 0 0 = false) by (apply gt_false_iff; lra).
  assert (N : neq 0 0 = false) by (apply neq_false_iff; reflexivity).
  rewrite G, N; simpl. reflexivity.
Qed.

End Boundary.

(** ** Physics engine: the collision pass *)

Section Collisions.

Import JS PhysicsSimulation PhysicsNotions.

Lemma dist_scale (k a b : R) : 0 <= k -> dist (k * a) (k * b) = k * dist a b.
Proof.
  intros Hk; unfold dist.
  replace (k * a * (k * a) + k * b * (k * b)) with (k * k * (a * a + b * b))
    by ring.
  rewrite sqrt_mult; [|nra|nra].
  rewrite sqrt_square by exact Hk. reflexivity.
Qed.

(** What the loop body does to a pair in range, and where it leaves it. *)
Lemma resolvePair_effect (i j : nat) (pts : list PhysicsPoint.t)
  (p1 p2 : PhysicsPoint.t) :
  nth_error pts i = Some p1 -> nth_error pts j = Some p2 ->
  let d := separation p1 p2 in
  0 < d < 10 ->
  let fx := ((PhysicsPoint.x p2 - PhysicsPoint.x p1) / d) * ((10 - d) / 2) in
  let fy := ((PhysicsPoint.y p2 - PhysicsPoint.y p1) / d) * ((10 - d) / 2) in
  let q1 := if PhysicsPoint.fixed p1 then p1 else PhysicsPoint.sub_pos fx fy p1 in
  let q2 := if PhysicsPoint.fixed p2 then p2 else PhysicsPoint.add_pos fx fy p2 in
  let pts' := resolvePair i j pts in
  nth_error pts' i = Some q1
  /\ nth_error pts' j = Some q2
  /\ (forall k, k <> i -> k <> j -> nth_error pts' k = nth_error pts k)
  /\ separation q1 q2
     = (if PhysicsPoint.fixed p1
        then if PhysicsPoint.fixed p2 then d else (d + 10) / 2
        else if PhysicsPoint.fixed p2 then (d + 10) / 2 else 10).
Proof.
  intros N1 N2 d Hd fx fy q1 q2 pts'.
  assert (Hij : i <> j).
  { eapply positive_separation_distinct; eauto. apply Hd. }
  assert (E : pts' = (if PhysicsPoint.fixed p2
                      then (if PhysicsPoint.fixed p1 then pts
                            else modify i (PhysicsPoint.sub_pos fx fy) pts)
                      else modify j (PhysicsPoint.add_pos fx fy)
                             (if PhysicsPoint.fixed p1 then pts
                              else modify i (PhysicsPoint.sub_pos fx fy) pts))).
  { unfold pts', resolvePair; rewrite N1, N2.
    fold (separation p1 p2); fold d.
    rewrite (proj2 (lt_true_iff d 10)) by lra.
    rewrite (proj2 (gt_true_iff d 0)) by lra.
    simpl. fold fx fy. reflexivity. }
  rewrite E; clear E.
  set (dx := PhysicsPoint.x p2 - PhysicsPoint.x p1) in *.
  set (dy := PhysicsPoint.y p2 - PhysicsPoint.y p1) in *.
  assert (Dd : dist dx dy = d) by reflexivity.
  unfold q1, q2.
  destruct (PhysicsPoint.fixed p1), (PhysicsPoint.fixed p2);
    (split; [|split; [|split]]);
    try (intros k Hk1 Hk2);
    repeat (rewrite nth_error_modify_eq
            || rewrite nth_error_modify_ne by congruence);
    rewrite ?N1, ?N2; try reflexivity.
  - (* only the second point moves *)
    unfold separation; simpl.
    replace (PhysicsPoint.x p2 + fx - PhysicsPoint.x p1)
      with ((d + 10) / (2 * d) * dx) by (unfold fx, dx; field; lra).
    replace (PhysicsPoint.y p2 + fy - PhysicsPoint.y p1)
      with ((d + 10) / (2 * d) * dy) by (unfold fy, dy; field; lra).
    rewrite dist_scale, Dd.
    + field; lra.
    + apply Rlt_le, Rdiv_lt_0_compat; lra.
  - (* only the first point moves *)
    unfold separation; simpl.
    replace (PhysicsPoint.x p2 - (PhysicsPoint.x p1 - fx))
      with ((d + 10) / (2 * d) * dx) by (unfold fx, dx; field; lra).
    replace (PhysicsPoint.y p2 - (PhysicsPoint.y p1 - fy))
      with ((d + 10) / (2 * d) * dy) by (unfold fy, dy; field; lra).
    rewrite dist_scale, Dd.
    + field; lra.
    + apply Rlt_le, Rdiv_lt_0_compat; lra.
  - (* both move *)
    unfold separation; simpl.
    replace (PhysicsPoint.x p2 + fx - (PhysicsPoint.x p1 - fx))
      with (10 / d * dx) by (unfold fx, dx; field; lra).
    replace (PhysicsPoint.y p2 + fy - (PhysicsPoint.y p1 - fy))
      with (10 / d * dy) by (unfold fy, dy; field; lra).
    rewrite dist_scale, Dd.
    + field; lra.
    + apply Rlt_le, Rdiv_lt_0_compat; lra.
Qed.

(** C6, as the code has it: when the collision pass visits a pair whose
    current separation [d] is positive and below 10, it moves each point of
    the pair that is not fixed by half the overlap, [(10 - d) / 2], along
    the separation vector, away from the other, and touches no other point.
    Right after the visit the separation is 10 if both are free, [(d + 10) / 2]
    if exactly one is free, and still [d] if both are fixed: it has strictly
    grown, without exceeding 10, unless both points are fixed. *)
Theorem C6_pair_pushed_apart (i j : nat) (pts : list PhysicsPoint.t)
  (p1 p2 : PhysicsPoint.t) :
  nth_error pts i = Some p1 -> nth_error pts j = Some p2 ->
  let d := separation p1 p2 in
  0 < d < 10 ->
  let fx := ((PhysicsPoint.x p2 - PhysicsPoint.x p1) / d) * ((10 - d) / 2) in
  let fy := ((PhysicsPoint.y p2 - PhysicsPoint.y p1) / d) * ((10 - d) / 2) in
  let q1 := if PhysicsPoint.fixed p1 then p1 else PhysicsPoint.sub_pos fx fy p1 in
  let q2 := if PhysicsPoint.fixed p2 then p2 else PhysicsPoint.add_pos fx fy p2 in
  let pts' := resolvePair i j pts in
  nth_error pts' i = Some q1
  /\ nth_error pts' j = Some q2
  /\ (forall k, k <> i -> k <> j -> nth_error pts' k = nth_error pts k)
  /\ separation q1 q2
     = (if PhysicsPoint.fixed p1
        then if PhysicsPoint.fixed p2 then d else (d + 10) / 2
        else if PhysicsPoint.fixed p2 then (d + 10) / 2 else 10)
  /\ (PhysicsPoint.fixed p1 && PhysicsPoint.fixed p2 = false ->
      d < separation q1 q2 <= 10)
  /\ (PhysicsPoint.fixed p1 && PhysicsPoint.fixed p2 = true ->
      separation q1 q2 = d).
Proof.
  intros N1 N2 d Hd fx fy q1 q2 pts'.
  destruct (resolvePair_effect i j pts p1 p2 N1 N2 Hd) as (E1 & E2 & E3 & E4).
  fold d fx fy q1 q2 pts' in E1, E2, E3, E4.
  repeat (split; [assumption|]).
  rewrite E4.
  destruct (PhysicsPoint.fixed p1), (PhysicsPoint.fixed p2); simpl;
    split; intros; try discriminate; try reflexivity; lra.
Qed.

(** The theorem at two free points 5 apart (the scenario "two points at
    distance 5, both free"): after the visit they are 10 apart. *)
Lemma C6_pair_pushed_apart_witness :
  let p1 := PhysicsPoint.mk 100 100 0 0 0 0 1 false in
  let p2 := PhysicsPoint.mk 105 100 0 0 0 0 1 false in
  exists q1 q2,
    nth_error (resolvePair 0 1 [p1; p2]) 0 = Some q1
    /\ nth_error (resolvePair 0 1 [p1; p2]) 1 = Some q2
    /\ separation q1 q2 = 10.
Proof.
  intros p1 p2.
  assert (D : separation p1 p2 = 5)
    by (unfold separation; simpl; apply dist_value; lra).
  destruct (C6_pair_pushed_apart 0 1 [p1; p2] p1 p2 eq_refl eq_refl)
    as (E1 & E2 & _ & E4 & _).
  - rewrite D; lra.
  - do 2 eexists. split; [exact E1|]. split; [exact E2|]. exact E4.
Defined.

(** Evaluates one visit of the collision loop on points given by numerals;
    [d] is the separation of the visited pair. *)
Ltac visit_pair d :=
  unfold resolvePair; simpl;
  rewrite (dist_value _ _ d) by lra;
  decide_comparisons; simpl;
  unfold PhysicsPoint.sub_pos, PhysicsPoint.add_pos, PhysicsPoint.set_pos;
  simpl; try reflexivity; repeat f_equal; lra.

(** Two pairs in range whose separation does not grow in the collision pass.
    Two fixed points 5 apart stay 5 apart.  Three free points at 0, 6 and 7
    on a line: the visits of (0,1) and (0,2) push the first to -2.5 and the
    third to 7.5, the visit of (1,2) then throws the third back to 2.75, so
    the pair (0,2), 7 apart before the pass, is 5.25 apart after it. *)
Lemma C6_counterexample :
  (let a := PhysicsPoint.mk 0 0 0 0 0 0 1 true in
   let b := PhysicsPoint.mk 5 0 0 0 0 0 1 true in
   separation a b = 5 /\ collisionPass [a; b] = [a; b])
  /\ (let a := PhysicsPoint.mk 0 0 0 0 0 0 1 false in
      let b := PhysicsPoint.mk 6 0 0 0 0 0 1 false in
      let c := PhysicsPoint.mk 7 0 0 0 0 0 1 false in
      let a' := PhysicsPoint.mk (-2.5) 0 0 0 0 0 1 false in
      let b' := PhysicsPoint.mk 12.75 0 0 0 0 0 1 false in
      let c' := PhysicsPoint.mk 2.75 0 0 0 0 0 1 false in
      separation a c = 7
      /\ collisionPass [a; b; c] = [a'; b'; c']
      /\ separation a' c' = 5.25).
Proof.
  split.
  - cbv zeta. split.
    + unfold separation; simpl; apply dist_value; lra.
    + unfold collisionPass; simpl. visit_pair 5.
  - cbv zeta.
    split; [unfold separation; simpl; apply dist_value; lra|].
    split; [|unfold separation; simpl; apply dist_value; lra].
    unfold collisionPass; simpl.
    assert (V1 : resolvePair 0 1
                   [PhysicsPoint.mk 0 0 0 0 0 0 1 false;
                    PhysicsPoint.mk 6 0 0 0 0 0 1 false;
                    PhysicsPoint.mk 7 0 0 0 0 0 1 false]
                 = [PhysicsPoint.mk (-2) 0 0 0 0 0 1 false;
                    PhysicsPoint.mk 8 0 0 0 0 0 1 false;
                    PhysicsPoint.mk 7 0 0 0 0 0 1 false])
      by visit_pair 6.
    rewrite V1.
    assert (V2 : resolvePair 0 2
                   [PhysicsPoint.mk (-2) 0 0 0 0 0 1 false;
                    PhysicsPoint.mk 8 0 0 0 0 0 1 false;
                    PhysicsPoint.mk 7 0 0 0 0 0 1 false]
                 = [PhysicsPoint.mk (-2.5) 0 0 0 0 0 1 false;
                    PhysicsPoint.mk 8 0 0 0 0 0 1 false;
                    PhysicsPoint.mk 7.5 0 0 0 0 0 1 false])
      by visit_pair 9.
    rewrite V2.
    visit_pair 0.5.
Qed.

End Collisions.

(** ** Physics engine: a point on which no force acts *)

Section AirResistance.

Import JS PhysicsSimulation PhysicsNotions.

Lemma map_modify_same {A B : Type} (f : A -> B) (g : A -> A) (k : nat)
  (l : list A) :
  (forall a, f (g a) = f a) -> map f (modify k g l) = map f l.
Proof.
  intros H; revert k; induction l as [|a l IH]; intros [|k]; simpl; auto.
  - rewrite H; reflexivity.
  - rewrite IH; reflexivity.
Qed.



(** Where every pair is out of reach, the collision pass changes nothing. *)
Lemma collisionPass_allApart (pts : list PhysicsPoint.t) :
  allApart pts -> collisionPass pts = pts.
Proof.
  intros H.
  apply (collisionPass_invariant (fun l => l = pts)); auto.
  intros i j l ->. unfold resolvePair.
  destruct (nth_error pts i) as [p1|] eqn:N1; auto.
  destruct (nth_error pts j) as [p2|] eqn:N2; auto.
  specialize (H i j p1 p2 N1 N2). fold (separation p1 p2).
  destruct H as [H|H].
  - rewrite (proj2 (gt_false_iff (separation p1 p2) 0)) by lra.
    rewrite andb_false_r; reflexivity.
  - rewrite (proj2 (lt_false_iff (separation p1 p2) 10)) by lra.
    reflexivity.
Qed.













End AirResistance.

(** ** Growth engine: the world and the store *)

Section WorldAndStore.

Import JS GrowthAlgorithm GrowthNotions.

Lemma sane_getRandomColor (generation : Z) (settings : GrowthSettings.t)
  (w : World.t) :
  sane w -> sane (snd (getRandomColor generation settings w)).
Proof.
  intros H; unfold getRandomColor.
  destruct (GrowthSettings.drawingMode settings); simpl; auto.
  destruct (generation =? 0)%Z; auto.
  destruct (generation =? 1)%Z; auto.
Qed.

(** Each generator of a branch relation gives a relation on stores. *)
Lemma heapRel_refl (R : Branch.t -> Branch.t -> Prop) (h : Heap) :
  (forall b, R b b) -> heapRel R h h.
Proof. intros HR; split; eauto. Qed.

Lemma heapRel_trans (R : Branch.t -> Branch.t -> Prop) (h1 h2 h3 : Heap) :
  (forall a b c, R a b -> R b c -> R a c) ->
  heapRel R h1 h2 -> heapRel R h2 h3 -> heapRel R h1 h3.
Proof.
  intros HR [L12 H12] [L23 H23]; split; [lia|].
  intros a b N. destruct (H12 a b N) as (b2 & N2 & R12).
  destruct (H23 a b2 N2) as (b3 & N3 & R23). eauto.
Qed.

Lemma heapRel_modify (R : Branch.t -> Branch.t -> Prop) (h : Heap) (a : addr)
  (f : Branch.t -> Branch.t) :
  (forall b, R b b) ->
  (forall b, nth_error h a = Some b -> R b (f b)) ->
  heapRel R h (modify a f h).
Proof.
  intros HR Hf; split; [rewrite length_modify; lia|].
  intros a' b N. destruct (Nat.eq_dec a' a) as [->|Hne].
  - rewrite nth_error_modify_eq, N; simpl. eauto.
  - rewrite nth_error_modify_ne by exact Hne. eauto.
Qed.

Lemma heapRel_app (R : Branch.t -> Branch.t -> Prop) (h : Heap)
  (l : list Branch.t) :
  (forall b, R b b) -> heapRel R h (h ++ l).
Proof.
  intros HR; split; [rewrite length_app; lia|].
  intros a b N. exists b; split; auto.
  rewrite nth_error_app1; auto. apply nth_error_Some; congruence.
Qed.

Lemma frozen_refl (b : Branch.t) : frozen b b.
Proof. unfold frozen; repeat split. Qed.

Lemma frozen_trans (a b c : Branch.t) : frozen a b -> frozen b c -> frozen a c.
Proof. unfold frozen; intuition congruence. Qed.

Lemma growsTo_refl (b : Branch.t) : growsTo b b.
Proof. split; [apply frozen_refl|]; auto. Qed.

Lemma growsTo_trans (a b c : Branch.t) : growsTo a b -> growsTo b c -> growsTo a c.
Proof.
  intros (F1 & O1 & G1) (F2 & O2 & G2).
  split; [eapply frozen_trans; eauto|]. split; [congruence|].
  intros G. rewrite <- (G1 G). apply G2.
  unfold grown in *. destruct F1 as (_ & _ & _ & _ & _ & _ & _ & M & _).
  rewrite M, (G1 G). exact G.
Qed.

Lemma evolvesTo_refl (b : Branch.t) : evolvesTo b b.
Proof. split; [apply frozen_refl|]; auto. Qed.

Lemma evolvesTo_trans (a b c : Branch.t) :
  evolvesTo a b -> evolvesTo b c -> evolvesTo a c.
Proof.
  intros (F1 & G1) (F2 & G2).
  split; [eapply frozen_trans; eauto|].
  intros G. rewrite <- (G1 G). apply G2.
  unfold grown in *. destruct F1 as (_ & _ & _ & _ & _ & _ & _ & M & _).
  rewrite M, (G1 G). exact G.
Qed.

Lemma growsTo_evolvesTo (a b : Branch.t) : growsTo a b -> evolvesTo a b.
Proof. intros (F & _ & G); split; assumption. Qed.

Lemma heapRel_weaken (R R' : Branch.t -> Branch.t -> Prop) (h h' : Heap) :
  (forall a b, R a b -> R' a b) -> heapRel R h h' -> heapRel R' h h'.
Proof.
  intros HR [L H]; split; auto.
  intros a b N. destruct (H a b N) as (b' & N' & Hb). eauto.
Qed.

(** A fully grown branch stays fully grown. *)
Lemma evolvesTo_grown (b b' : Branch.t) : evolvesTo b b' -> grown b -> grown b'.
Proof.
  intros (F & G) Hg. unfold grown in *.
  destruct F as (_ & _ & _ & _ & _ & _ & _ & M & _).
  rewrite M, (G Hg). exact Hg.
Qed.

Lemma heapRel_grownAt (h h' : Heap) (a : addr) :
  heapRel evolvesTo h h' -> grownAt h a -> grownAt h' a.
Proof.
  intros [_ H] (b & N & G). destruct (H a b N) as (b' & N' & E).
  exists b'; split; auto. eapply evolvesTo_grown; eauto.
Qed.

End WorldAndStore.

(** ** Growth engine: the invariant of a branch *)

Section BranchInvariant.

Import JS GrowthAlgorithm GrowthNotions.

Lemma validArray_grow (h h' : Heap) (arr : list addr) :
  (List.length h <= List.length h')%nat -> validArray h arr -> validArray h' arr.
Proof.
  intros L V. unfold validArray in *. rewrite Forall_forall in *.
  intros a Ha. specialize (V a Ha). lia.
Qed.

Lemma loopOK_push_new (b : Branch.t) (w : World.t) (st : Loop) :
  loopOK st -> inv b -> sane w -> loopOK (push_new b w st).
Proof.
  intros (Hi & _ & Hv) Hb Hw. unfold loopOK, push_new; simpl.
  split; [apply Forall_app; split; auto|]. split; [exact Hw|].
  unfold validArray. apply Forall_app; split.
  - apply (validArray_grow (heap st)); [rewrite length_app; lia | exact Hv].
  - constructor; [rewrite length_app; simpl; lia | constructor].
Qed.

Lemma loopOK_set_world (w : World.t) (st : Loop) :
  loopOK st -> sane w -> loopOK (set_world w st).
Proof.
  intros (Hi & _ & Hv) Hw. split; [exact Hi | split; [exact Hw | exact Hv]].
Qed.

Lemma seedOne_loopOK (settings : GrowthSettings.t)
  (point : Point.t) (strokeAngle angleVariation branchLengthMultiplier : R)
  (st : Loop) :
  loopOK st ->
  loopOK (seedOne settings point strokeAngle angleVariation
            branchLengthMultiplier st).
Proof.
  intros H. unfold seedOne; simpl.
  destruct (getRandomColor 0 settings _) as [color w'] eqn:E. simpl.
  destruct H as (Hi & Hw & Hv).
  apply loopOK_push_new.
  - split; [exact Hi | split; [exact Hw | exact Hv]].
  - unfold inv; simpl. pose proof (Hw (S (S (World.drawn (world st))))).
    split; [lra | lia].
  - change w' with (snd (color, w')). rewrite <- E.
    apply sane_getRandomColor. exact Hw.
Qed.

Lemma seedBranches_loopOK (n : nat) (settings : GrowthSettings.t)
  (point : Point.t) (strokeAngle angleVariation branchLengthMultiplier : R) :
  forall st, loopOK st ->
  loopOK (seedBranches n settings point strokeAngle angleVariation
            branchLengthMultiplier st).
Proof.
  induction n as [|n IH]; intros st H; simpl; auto.
  apply IH, seedOne_loopOK, H.
Qed.

Lemma seedAt_loopOK (strokePoints : list Point.t) (settings : GrowthSettings.t)
  (i : nat) (st : Loop) :
  loopOK st -> loopOK (seedAt strokePoints settings i st).
Proof.
  intros H. unfold seedAt.
  destruct (seedParams _) as [[factor blm] av].
  destruct (index strokePoints _) as [point|]; auto.
  simpl. apply seedBranches_loopOK.
  apply loopOK_set_world; auto. apply H.
Qed.

(** An invariant of the body is an invariant of a [fold_left]. *)
Lemma fold_left_invariant {A S : Type} (P : S -> Prop) (f : S -> A -> S)
  (l : list A) :
  (forall s a, In a l -> P s -> P (f s a)) ->
  forall s, P s -> P (fold_left f l s).
Proof.
  induction l as [|a l IH]; intros Hf s Hs; simpl; auto.
  apply IH; [intros; apply Hf; simpl; auto | apply Hf; simpl; auto].
Qed.

Lemma generateBranches_loopOK (strokePoints : list Point.t)
  (settings : GrowthSettings.t) (h : Heap) (w : World.t) :
  Forall inv h -> sane w ->
  loopOK (generateBranches strokePoints settings h w).
Proof.
  intros Hh Hw. unfold generateBranches.
  assert (H0 : loopOK (mkLoop h [] [] w))
    by (split; [exact Hh | split; [exact Hw | constructor]]).
  destruct (_ <? 2)%nat; auto.
  apply fold_left_invariant; auto.
  intros st i _ Hst. apply seedAt_loopOK; exact Hst.
Qed.

End BranchInvariant.

(** ** Growth engine: what one visit of [animateBranches] does *)

Section VisitFootprint.

Import JS GrowthAlgorithm GrowthNotions.

Variable now : Z.
Variable settings : GrowthSettings.t.

(** The body of the loop that creates children appends at most one child
    to the store and its address to the array, and none once the array holds
    500 addresses. *)
Lemma spawnOne_footprint (branch : Branch.t) (st : Loop) :
  exists children,
    heap (spawnOne now settings branch st) = heap st ++ children
    /\ newBranches (spawnOne now settings branch st)
       = newBranches st ++ seq (List.length (heap st)) (List.length children)
    /\ calls (spawnOne now settings branch st) = calls st
    /\ (sane (world st) -> sane (world (spawnOne now settings branch st)))
    /\ (sane (world st) -> Forall (childOf now settings branch) children)
    /\ (children <> [] ->
        (List.length (newBranches st) + List.length children
         <= maxBranches)%nat).
Proof.
  unfold spawnOne; simpl.
  destruct (List.length (newBranches st) <? maxBranches)%nat eqn:C.
  - destruct (getRandomColor _ settings _) as [color w'] eqn:E. simpl.
    eexists [_]. split; [reflexivity|]. split; [reflexivity|].
    split; [reflexivity|].
    assert (S1 : sane (world st) -> sane w').
    { intros Hs. change w' with (snd (color, w')). rewrite <- E.
      apply sane_getRandomColor. exact Hs. }
    split; [exact S1|]. split.
    + intros Hs. constructor; [|constructor].
      exists (World.random (world st) (World.drawn (world st))),
             (World.random (world st) (S (World.drawn (world st)))),
             (World.random (world st) (S (S (World.drawn (world st))))),
             (World.random w' (World.drawn w')).
      split.
      { split; [apply Hs|]. split; [apply Hs|]. split; [apply Hs|].
        apply (S1 Hs). }
      simpl. destruct (GrowthSettings.drawingMode settings); repeat split.
    + intros _. apply Nat.ltb_lt in C. simpl. lia.
  - exists []. simpl. rewrite !app_nil_r.
    split; [reflexivity|]. split; [reflexivity|]. split; [reflexivity|].
    split; [auto|]. split; [constructor|]. intros H; congruence.
Qed.

Lemma spawn_footprint (n : nat) (branch : Branch.t) :
  forall st,
  exists children,
    heap (spawn n now settings branch st) = heap st ++ children
    /\ newBranches (spawn n now settings branch st)
       = newBranches st ++ seq (List.length (heap st)) (List.length children)
    /\ calls (spawn n now settings branch st) = calls st
    /\ (sane (world st) -> sane (world (spawn n now settings branch st)))
    /\ (sane (world st) -> Forall (childOf now settings branch) children)
    /\ (children <> [] ->
        (List.length (newBranches st) + List.length children
         <= maxBranches)%nat).
Proof.
  induction n as [|n IH]; intros st.
  - exists []. simpl. rewrite !app_nil_r.
    split; [reflexivity|]. split; [reflexivity|]. split; [reflexivity|].
    split; [auto|]. split; [constructor|]. intros H; congruence.
  - simpl.
    destruct (spawnOne_footprint branch st)
      as (c1 & Hh1 & Hn1 & Hc1 & Hw1 & Hch1 & Hcap1).
    destruct (IH (spawnOne now settings branch st))
      as (cs & Hh & Hn & Hc & Hw & Hch & Hcap).
    exists (c1 ++ cs).
    split; [rewrite Hh, Hh1, app_assoc; reflexivity|].
    split.
    { rewrite Hn, Hn1, Hh1, !length_app, seq_app, app_assoc. reflexivity. }
    split; [congruence|].
    split; [auto|].
    split; [intros Hs; apply Forall_app; auto|].
    intros Hne. rewrite length_app.
    destruct cs as [|c cs'].
    + simpl. rewrite Nat.add_0_r. apply Hcap1.
      intros ->. apply Hne. reflexivity.
    + assert (Hne' : c :: cs' <> []) by congruence.
      specialize (Hcap Hne'). rewrite Hn1, length_app, length_seq in Hcap.
      lia.
Qed.

Variable speedMultiplier : R.
Variable onParticleGeneration : option Callback.

Lemma modify_id {A : Type} (k : nat) (l : list A) : modify k (fun x => x) l = l.
Proof.
  revert k; induction l as [|a l IH]; intros [|k]; simpl; auto.
  rewrite IH; reflexivity.
Qed.

(** The growth tick: what it writes, and when it calls back. *)
Lemma grow_spec (hasCallback : bool) (b : Branch.t) :
  let b' := fst (grow now speedMultiplier settings hasCallback b) in
  let fire := snd (grow now speedMultiplier settings hasCallback b) in
  growsTo b b'
  /\ (0 <= speedMultiplier -> inv b -> inv b')
  /\ (fire = true <->
      GrowthSettings.particleEffects settings && hasCallback = true
      /\ ~ grown b /\ grown b').
Proof.
  unfold grow.
  destruct (lt (Branch.progress b) (Branch.maxProgress b)) eqn:L; simpl.
  - apply lt_true_iff in L.
    destruct (gt (IZR now - Branch.lastGrowth b) 16) eqn:G; simpl.
    + split.
      { split; [unfold frozen; simpl; repeat split|]. split; [reflexivity|].
        unfold grown; intros; lra. }
      split.
      { intros Hs [[H0 H1] Hg]. unfold inv; simpl. split; [|exact Hg].
        unfold Rmin; destruct (Rle_dec _ _); lra. }
      rewrite (proj2 (lt_true_iff _ _) L), andb_true_r.
      unfold grown; simpl. rewrite andb_true_iff, ge_true_iff.
      intuition lra.
    + split; [apply growsTo_refl|]. split; [auto|].
      unfold grown. split; [discriminate|]. intros (_ & H1 & H2); lra.
  - apply lt_false_iff in L.
    split; [apply growsTo_refl|]. split; [auto|].
    unfold grown. split; [discriminate|]. intros (_ & H1 & H2); lra.
Qed.

(** The tick writes the object and logs a call when it fires. *)
Lemma tick_footprint (a : addr) (b : Branch.t) (st : Loop) :
  let b' := fst (grow now speedMultiplier settings (given onParticleGeneration) b) in
  let fire := snd (grow now speedMultiplier settings (given onParticleGeneration) b) in
  let r := tick now speedMultiplier settings onParticleGeneration a b st in
  fst r = b'
  /\ heap (snd r) = modify a (fun _ => b') (heap st)
  /\ newBranches (snd r) = newBranches st
  /\ calls (snd r) = calls st ++ (if fire then [(a, payload b')] else [])
  /\ (sane (world st) -> saneCallback onParticleGeneration ->
      sane (world (snd r))).
Proof.
  intros b' fire r.
  assert (Hfire : fire = true -> exists cb, onParticleGeneration = Some cb).
  { intros Hf. apply (grow_spec (given onParticleGeneration) b) in Hf.
    destruct Hf as (Hg & _). apply andb_true_iff in Hg.
    destruct onParticleGeneration; [eauto | destruct Hg; discriminate]. }
  unfold r, tick. fold (given onParticleGeneration).
  unfold b', fire in *.
  destruct (grow now speedMultiplier settings (given onParticleGeneration) b)
    as [b1 f1]. simpl in *.
  destruct f1.
  - destruct (Hfire eq_refl) as [cb ->]. simpl.
    repeat (split; [reflexivity|]). intros Hs Hcb. eapply Hcb; eauto.
  - simpl. rewrite app_nil_r. auto.
Qed.

(** The second half of a visit leaves the store as it is or appends the
    children and writes [lastGrowth]. *)
Lemma branching_footprint (a : addr) (b : Branch.t) (st : Loop) :
  let st' := branching now speedMultiplier settings a b st in
  exists children f,
    (f = (fun x => x) \/ f = Branch.set_lastGrowth (IZR now))
    /\ heap st' = modify a f (heap st ++ children)
    /\ newBranches st'
       = newBranches st ++ seq (List.length (heap st)) (List.length children)
    /\ calls st' = calls st
    /\ (sane (world st) -> sane (world st'))
    /\ (sane (world st) -> Forall (childOf now settings b) children)
    /\ (children <> [] ->
        (List.length (newBranches st) + List.length children
         <= maxBranches)%nat).
Proof.
  intros st'.
  assert (NoChild :
    forall w, (sane (world st) -> sane w) ->
    let st2 := set_world w st in
    exists children f,
      (f = (fun x => x) \/ f = Branch.set_lastGrowth (IZR now))
      /\ heap st2 = modify a f (heap st ++ children)
      /\ newBranches st2
         = newBranches st ++ seq (List.length (heap st)) (List.length children)
      /\ calls st2 = calls st
      /\ (sane (world st) -> sane (world st2))
      /\ (sane (world st) -> Forall (childOf now settings b) children)
      /\ (children <> [] ->
          (List.length (newBranches st) + List.length children
           <= maxBranches)%nat)).
  { intros w Hw st2. exists [], (fun x => x). simpl.
    rewrite !app_nil_r, modify_id.
    split; [auto|]. repeat (split; [reflexivity|]).
    split; [auto|]. split; [constructor|]. intros H; congruence. }
  unfold st', branching.
  destruct (growthParams _) as [[bp mg] gd].
  destruct (ge (Branch.progress b) (Branch.maxProgress b)
            && (Branch.generation b <? mg)%Z).
  2: { destruct st as [h nb cs w]. apply (NoChild w); auto. }
  simpl.
  destruct (lt _ (bp * speedMultiplier) && gt _ gd && (_ <? maxBranches)%nat).
  2: { apply NoChild; auto. }
  assert (Spawned :
    forall n w, (sane (world st) -> sane w) ->
    let st3 := spawn n now settings b (set_world w st) in
    let st4 := mkLoop (modify a (Branch.set_lastGrowth (IZR now)) (heap st3))
                 (newBranches st3) (calls st3) (world st3) in
    exists children f,
      (f = (fun x => x) \/ f = Branch.set_lastGrowth (IZR now))
      /\ heap st4 = modify a f (heap st ++ children)
      /\ newBranches st4
         = newBranches st ++ seq (List.length (heap st)) (List.length children)
      /\ calls st4 = calls st
      /\ (sane (world st) -> sane (world st4))
      /\ (sane (world st) -> Forall (childOf now settings b) children)
      /\ (children <> [] ->
          (List.length (newBranches st) + List.length children
           <= maxBranches)%nat)).
  { intros n w Hw st3 st4.
    destruct (spawn_footprint n b (set_world w st))
      as (children & Hh & Hn & Hc & Hw3 & Hch & Hcap).
    fold st3 in Hh, Hn, Hc, Hw3. simpl in *.
    exists children, (Branch.set_lastGrowth (IZR now)).
    split; [auto|]. split; [rewrite Hh; reflexivity|].
    split; [exact Hn|]. split; [exact Hc|]. auto. }
  destruct (GrowthSettings.drawingMode settings);
    cbv beta iota zeta delta [World.Math_random];
    refine (Spawned _ _ _); auto.
Qed.

(** One visit of the loop of [animateBranches]: the visited object gets its
    growth tick, its address is appended, then come the addresses of the
    children created, if any; a call is logged when the tick fires. *)
Lemma visit_footprint (a : addr) (st : Loop) (b : Branch.t) :
  nth_error (heap st) a = Some b ->
  let st' := visit now speedMultiplier settings onParticleGeneration a st in
  let b' := fst (grow now speedMultiplier settings (given onParticleGeneration) b) in
  let fire := snd (grow now speedMultiplier settings (given onParticleGeneration) b) in
  exists children f,
    (f = (fun x => x) \/ f = Branch.set_lastGrowth (IZR now))
    /\ heap st' = modify a f (modify a (fun _ => b') (heap st) ++ children)
    /\ newBranches st'
       = newBranches st ++ a :: seq (List.length (heap st)) (List.length children)
    /\ calls st' = calls st ++ (if fire then [(a, payload b')] else [])
    /\ (sane (world st) -> saneCallback onParticleGeneration ->
        sane (world st'))
    /\ (sane (world st) -> saneCallback onParticleGeneration ->
        Forall (childOf now settings b') children)
    /\ (children <> [] ->
        (List.length (newBranches st) + 1 + List.length children
         <= maxBranches)%nat).
Proof.
  intros N st' b' fire.
  destruct (tick_footprint a b st) as (Eb & Hh1 & Hn1 & Hc1 & Hw1).
  fold b' fire in Eb, Hh1, Hc1.
  unfold st', visit. rewrite N.
  destruct (tick now speedMultiplier settings onParticleGeneration a b st)
    as [b1 st1].
  simpl in Eb, Hh1, Hn1, Hc1, Hw1. subst b1.
  match goal with
  | |- context [branching now speedMultiplier settings a b' ?s] =>
      destruct (branching_footprint a b' s)
        as (children & f & Hf & Hh & Hn & Hc & Hw & Hch & Hcap)
  end.
  simpl in Hh, Hn, Hc, Hw, Hch, Hcap.
  exists children, f.
  split; [exact Hf|].
  split; [rewrite Hh, Hh1; reflexivity|].
  split.
  { rewrite Hn, Hh1, Hn1, length_modify, <- app_assoc. reflexivity. }
  split; [rewrite Hc; exact Hc1|].
  split; [auto|]. split; [auto|].
  intros Hne. specialize (Hcap Hne).
  rewrite length_app, Hn1 in Hcap. simpl in Hcap. lia.
Qed.

Lemma visit_dangling (a : addr) (st : Loop) :
  nth_error (heap st) a = None ->
  visit now speedMultiplier settings onParticleGeneration a st = st.
Proof. intros N; unfold visit; rewrite N; reflexivity. Qed.

End VisitFootprint.

(** ** Growth engine: the log of calls over one call of [animateBranches] *)

Section CallsOfOneStep.

Import JS GrowthAlgorithm GrowthNotions.

Variable now : Z.
Variable settings : GrowthSettings.t.
Variable speedMultiplier : R.
Variable onParticleGeneration : option Callback.
Variable h0 : Heap.

Lemma NoDup_snoc {A : Type} (l : list A) (a : A) :
  NoDup l -> ~ In a l -> NoDup (l ++ [a]).
Proof.
  induction 1 as [|x l Hx Hl IH]; simpl; intros Ha.
  - constructor; [intros []|constructor].
  - constructor.
    + rewrite in_app_iff; simpl. intuition.
    + apply IH. intuition.
Qed.

Lemma payload_frozen (b b' : Branch.t) : frozen b b' -> payload b' = payload b.
Proof.
  intros (E1 & E2 & _ & _ & E5 & E6 & _ & _ & E9).
  unfold payload, endpoint; simpl. rewrite E1, E2, E5, E6, E9. reflexivity.
Qed.

Lemma growsTo_set_lastGrowth (v : R) (b : Branch.t) :
  growsTo b (Branch.set_lastGrowth v b).
Proof.
  split; [unfold frozen; simpl; repeat split|]. split; [reflexivity|].
  intros _; reflexivity.
Qed.

(** The store after a visit, seen from the store before it. *)
Lemma visit_heapRel (a : addr) (st : Loop) :
  heapRel growsTo (heap st)
    (heap (visit now speedMultiplier settings onParticleGeneration a st)).
Proof.
  destruct (nth_error (heap st) a) as [b|] eqn:N.
  - destruct (visit_footprint now settings speedMultiplier
                onParticleGeneration a st b N)
      as (children & f & Hf & Hh & _).
    rewrite Hh.
    apply (heapRel_trans _ _ (modify a (fun _ => fst (grow now speedMultiplier
             settings (given onParticleGeneration) b)) (heap st)));
      [apply growsTo_trans| |].
    + apply heapRel_modify; [apply growsTo_refl|].
      intros b0 N0. rewrite N in N0; injection N0 as <-.
      apply (grow_spec now settings speedMultiplier).
    + eapply heapRel_trans; [apply growsTo_trans| |].
      * apply heapRel_app with (l := children). apply growsTo_refl.
      * apply heapRel_modify; [apply growsTo_refl|].
        intros b0 _. destruct Hf as [-> | ->];
          [apply growsTo_refl | apply growsTo_set_lastGrowth].
  - rewrite visit_dangling by exact N. apply heapRel_refl, growsTo_refl.
Qed.

(** The object at the visited address after the visit. *)
Lemma visit_visited (a : addr) (st : Loop) (b : Branch.t) :
  nth_error (heap st) a = Some b ->
  let b' := fst (grow now speedMultiplier settings (given onParticleGeneration) b) in
  exists b'',
    nth_error
      (heap (visit now speedMultiplier settings onParticleGeneration a st)) a
    = Some b''
    /\ (b'' = b' \/ b'' = Branch.set_lastGrowth (IZR now) b')
    /\ growsTo b' b''
    /\ (grown b'' <-> grown b').
Proof.
  intros N b'.
  destruct (visit_footprint now settings speedMultiplier
              onParticleGeneration a st b N)
    as (children & f & Hf & Hh & _).
  rewrite Hh. rewrite nth_error_modify_eq.
  rewrite nth_error_app1
    by (rewrite length_modify; apply nth_error_Some; congruence).
  rewrite nth_error_modify_eq, N. simpl. fold b'.
  eexists; split; [reflexivity|].
  destruct Hf as [-> | ->].
  - split; [auto|]. split; [apply growsTo_refl | reflexivity].
  - split; [auto|]. split; [apply growsTo_set_lastGrowth | reflexivity].
Qed.

(** Every other object of the store is left as it is. *)
Lemma visit_others (a x : addr) (st : Loop) :
  x <> a -> (x < List.length (heap st))%nat ->
  nth_error
    (heap (visit now speedMultiplier settings onParticleGeneration a st)) x
  = nth_error (heap st) x.
Proof.
  intros Hne Hx.
  destruct (nth_error (heap st) a) as [b|] eqn:N.
  - destruct (visit_footprint now settings speedMultiplier
                onParticleGeneration a st b N)
      as (children & f & Hf & Hh & _).
    rewrite Hh. rewrite nth_error_modify_ne by exact Hne.
    rewrite nth_error_app1 by (rewrite length_modify; exact Hx).
    apply nth_error_modify_ne; exact Hne.
  - rewrite visit_dangling by exact N. reflexivity.
Qed.

Lemma callsInv_visit (a : addr) (st : Loop) :
  callsInv (gate settings onParticleGeneration) h0 st ->
  callsInv (gate settings onParticleGeneration) h0
    (visit now speedMultiplier settings onParticleGeneration a st).
Proof.
  intros (Hrel & Hnd & Hlog & Hall & Hpl & Hoff).
  pose proof (visit_heapRel a st) as Hstep.
  destruct (nth_error (heap st) a) as [b|] eqn:N.
  2: { rewrite visit_dangling by exact N.
       split; [exact Hrel|]. split; [exact Hnd|]. split; [exact Hlog|].
       split; [exact Hall|]. split; [exact Hpl | exact Hoff]. }
  destruct (visit_footprint now settings speedMultiplier
              onParticleGeneration a st b N)
    as (children & f & Hf & Hh & Hn & Hc & _).
  destruct (visit_visited a st b N) as (b'' & N'' & _ & G'' & Gg'').
  destruct (grow_spec now settings speedMultiplier
              (given onParticleGeneration) b) as (Gb & _ & Gfire).
  set (st' := visit now speedMultiplier settings onParticleGeneration a st) in *.
  set (b' := fst (grow now speedMultiplier settings
                    (given onParticleGeneration) b)) in *.
  set (fire := snd (grow now speedMultiplier settings
                      (given onParticleGeneration) b)) in *.
  assert (Hstep' : heapRel evolvesTo (heap st) (heap st'))
    by (eapply heapRel_weaken; [apply growsTo_evolvesTo | exact Hstep]).
  assert (Hrel0 : heapRel evolvesTo h0 (heap st))
    by (eapply heapRel_weaken; [apply growsTo_evolvesTo | exact Hrel]).
  split; [eapply heapRel_trans; [apply growsTo_trans | exact Hrel | exact Hstep]|].
  (* the new entry of the log, if any *)
  assert (Hnew : fire = true ->
                 ~ In a (map fst (calls st))
                 /\ grownAt (heap st') a /\ ~ grownAt h0 a).
  { intros Hf1. apply Gfire in Hf1. destruct Hf1 as (_ & Hng & Hg).
    assert (Hn0 : ~ grownAt (heap st) a).
    { intros (b0 & N0 & G0). rewrite N in N0; injection N0 as <-. auto. }
    split; [intros Hin; apply Hn0, (Hlog a Hin)|].
    split.
    - exists b''; split; [exact N''|].
      eapply evolvesTo_grown; [apply growsTo_evolvesTo; exact G'' | exact Hg].
    - intros H0. apply Hn0. eapply heapRel_grownAt; eauto. }
  split.
  { rewrite Hc, map_app. destruct fire; simpl.
    - apply NoDup_snoc; [exact Hnd|]. apply (Hnew eq_refl).
    - rewrite app_nil_r. exact Hnd. }
  split.
  { intros x Hx. rewrite Hc, map_app in Hx. apply in_app_or in Hx.
    destruct Hx as [Hx|Hx].
    - destruct (Hlog x Hx) as (Hg & Hng). split; [|exact Hng].
      eapply heapRel_grownAt; eauto.
    - destruct fire; simpl in Hx; [|contradiction].
      destruct Hx as [<-|[]]. destruct (Hnew eq_refl) as (_ & Hg & Hng).
      split; assumption. }
  split.
  { intros Hgate x bx Nx Hgx.
    destruct (Nat.eq_dec x a) as [->|Hne].
    - destruct (Rle_dec (Branch.maxProgress b) (Branch.progress b))
        as [Hgb|Hngb]; fold (grown b) in *.
      + destruct (Hall Hgate a bx Nx) as [H|H]; auto.
        * exists b; auto.
        * right. rewrite Hc, map_app. apply in_or_app; auto.
      + right. rewrite Hc, map_app. apply in_or_app; right.
        assert (Hf1 : fire = true).
        { apply Gfire. split; [exact Hgate|]. split; [exact Hngb|].
          destruct Hgx as (bb & Nb & Gbb). rewrite N'' in Nb.
          injection Nb as <-. apply Gg''. exact Gbb. }
        rewrite Hf1; simpl; auto.
    - assert (Hx : (x < List.length (heap st))%nat).
      { destruct Hrel as [L _].
        assert (x < List.length h0)%nat by (apply nth_error_Some; congruence).
        lia. }
      destruct Hgx as (bb & Nb & Gbb).
      unfold st' in Nb. rewrite visit_others in Nb by assumption.
      destruct (Hall Hgate x bx Nx) as [H|H]; auto.
      + exists bb; auto.
      + right. rewrite Hc, map_app. apply in_or_app; auto. }
  split.
  { intros x pl Hin. rewrite Hc in Hin. apply in_app_or in Hin.
    destruct Hin as [Hin|Hin].
    - destruct (Hpl x pl Hin) as (bx & Nx & ->).
      destruct Hstep as [_ Hs]. destruct (Hs x bx Nx) as (bx' & Nx' & Gx).
      exists bx'; split; [exact Nx'|].
      symmetry; apply payload_frozen, Gx.
    - destruct fire; simpl in Hin; [|contradiction].
      destruct Hin as [Hin|[]]. injection Hin as <- <-.
      exists b''; split; [exact N''|].
      symmetry; apply payload_frozen, G''. }
  intros Hgate. rewrite Hc, (Hoff Hgate).
  destruct fire; [|reflexivity].
  destruct (proj1 Gfire eq_refl) as (Hg & _).
  unfold gate in Hgate. rewrite Hgate in Hg. discriminate.
Qed.

Lemma callsInv_init (w : World.t) :
  callsInv (gate settings onParticleGeneration) h0 (mkLoop h0 [] [] w).
Proof.
  split; [apply heapRel_refl, growsTo_refl|]. simpl.
  split; [constructor|]. split; [intros a []|].
  split; [intros _ a b N (b1 & N1 & G1); left; congruence|].
  split; [intros a pl []|reflexivity].
Qed.

Lemma callsInv_loop (l : list addr) (w : World.t) :
  callsInv (gate settings onParticleGeneration) h0
    (fold_left
       (fun st a => visit now speedMultiplier settings onParticleGeneration a st)
       l (mkLoop h0 [] [] w)).
Proof.
  apply fold_left_invariant; [|apply callsInv_init].
  intros st a _ H. apply callsInv_visit; exact H.
Qed.

Lemma pulsesTo_refl (b : Branch.t) : pulsesTo b b.
Proof. split; [apply frozen_refl|]; auto. Qed.

Lemma pulsesTo_trans (a b c : Branch.t) :
  pulsesTo a b -> pulsesTo b c -> pulsesTo a c.
Proof.
  intros (F1 & P1 & L1) (F2 & P2 & L2).
  split; [eapply frozen_trans; eauto|]. split; congruence.
Qed.

Lemma pulsesTo_evolvesTo (a b : Branch.t) : pulsesTo a b -> evolvesTo a b.
Proof. intros (F & P & _); split; auto. Qed.

Lemma pulsesTo_grown (a b : Branch.t) : pulsesTo a b -> (grown b <-> grown a).
Proof.
  intros ((_ & _ & _ & _ & _ & _ & _ & M & _) & P & _).
  unfold grown. rewrite M, P. reflexivity.
Qed.

Lemma pulsesTo_inv (a b : Branch.t) : pulsesTo a b -> inv a -> inv b.
Proof.
  intros ((_ & _ & _ & _ & _ & _ & G & M & _) & P & _).
  unfold inv. rewrite M, P, G. auto.
Qed.

(** The pulse writes the opacity of fully grown branches only. *)
Lemma pulse_footprint (h : Heap) (a : addr) :
  heapRel pulsesTo h (pulse now settings h a)
  /\ List.length (pulse now settings h a) = List.length h
  /\ (forall x bx, nth_error h x = Some bx -> ~ grown bx ->
      nth_error (pulse now settings h a) x = Some bx).
Proof.
  unfold pulse.
  destruct (nth_error h a) as [b|] eqn:N.
  2: { split; [apply heapRel_refl, pulsesTo_refl|]. auto. }
  destruct (ge (Branch.progress b) (Branch.maxProgress b)) eqn:G; simpl.
  2: { split; [apply heapRel_refl, pulsesTo_refl|]. auto. }
  destruct (Z.rem now 100 <? 16)%Z.
  2: { split; [apply heapRel_refl, pulsesTo_refl|]. auto. }
  split.
  { apply heapRel_modify; [apply pulsesTo_refl|].
    intros b0 _. split; [unfold frozen; simpl; repeat split|]. auto. }
  split; [apply length_modify|].
  intros x bx Nx Hng.
  destruct (Nat.eq_dec x a) as [->|Hne].
  - exfalso. rewrite N in Nx; injection Nx as <-.
    apply ge_true_iff in G. exact (Hng G).
  - rewrite nth_error_modify_ne by exact Hne. exact Nx.
Qed.

Lemma pulses_footprint (l : list addr) (h : Heap) :
  heapRel pulsesTo h (fold_left (pulse now settings) l h)
  /\ List.length (fold_left (pulse now settings) l h) = List.length h
  /\ (forall x bx, nth_error h x = Some bx -> ~ grown bx ->
      nth_error (fold_left (pulse now settings) l h) x = Some bx).
Proof.
  apply (fold_left_invariant
           (fun h' => heapRel pulsesTo h h'
                      /\ List.length h' = List.length h
                      /\ (forall x bx, nth_error h x = Some bx -> ~ grown bx ->
                          nth_error h' x = Some bx))).
  - intros h' a _ (Hr & Hl & Hk).
    destruct (pulse_footprint h' a) as (Hr' & Hl' & Hk').
    split; [eapply heapRel_trans; [apply pulsesTo_trans | exact Hr | exact Hr']|].
    split; [congruence|].
    intros x bx Nx Hng. apply Hk'; auto.
  - split; [apply heapRel_refl, pulsesTo_refl|]. auto.
Qed.

End CallsOfOneStep.

(** ** Growth engine: the completion callback *)

Section CompletionCallback.

Import JS GrowthAlgorithm GrowthNotions.

(** What one call of [animateBranches] does to the store, whatever it is
    given. *)
Lemma animateBranches_evolves (branches : list addr) (growthSpeed : R)
  (settings : GrowthSettings.t) (cb : option Callback) (h : Heap)
  (w : World.t) :
  heapRel evolvesTo h
    (heap (animateBranches branches growthSpeed settings cb h w)).
Proof.
  unfold animateBranches; simpl.
  match goal with
  | |- context [fold_left (pulse ?n settings) (newBranches ?s) (heap ?s)] =>
      pose proof (callsInv_loop n settings (growthSpeed / 50) cb h
                    (firstn maxBranches branches)
                    (World.mk (World.random w) (World.drawn w) (World.clock w)
                       (S (World.elapsed w)))) as (Hrel & _);
      destruct (pulses_footprint n settings (newBranches s) (heap s))
        as (Hp & _)
  end.
  eapply heapRel_trans; [apply evolvesTo_trans | |].
  - eapply heapRel_weaken; [apply growsTo_evolvesTo | exact Hrel].
  - eapply heapRel_weaken; [apply pulsesTo_evolvesTo | exact Hp].
Qed.

(** The calls of one call of [animateBranches]. *)
Lemma animateBranches_calls (branches : list addr) (growthSpeed : R)
  (settings : GrowthSettings.t) (cb : option Callback) (h : Heap)
  (w : World.t) :
  let r := animateBranches branches growthSpeed settings cb h w in
  (gate settings cb = false -> calls r = [])
  /\ NoDup (map fst (calls r))
  /\ (forall a pl, In (a, pl) (calls r) ->
      ~ grownAt h a
      /\ exists b, nth_error (heap r) a = Some b /\ grown b /\ pl = payload b)
  /\ (gate settings cb = true ->
      forall a b, nth_error h a = Some b -> ~ grown b -> grownAt (heap r) a ->
      In a (map fst (calls r))).
Proof.
  unfold animateBranches; simpl.
  match goal with
  | |- context [fold_left (pulse ?n settings) (newBranches ?s) (heap ?s)] =>
      pose proof (callsInv_loop n settings (growthSpeed / 50) cb h
                    (firstn maxBranches branches)
                    (World.mk (World.random w) (World.drawn w) (World.clock w)
                       (S (World.elapsed w))))
        as (Hrel & Hnd & Hlog & Hall & Hpl & Hoff);
      destruct (pulses_footprint n settings (newBranches s) (heap s))
        as ([_ Hp] & _ & _);
      set (st := s) in *
  end.
  split; [exact Hoff|]. split; [exact Hnd|]. split.
  - intros a pl Hin.
    destruct (Hlog a) as ((b & Nb & Gb) & Hng).
    { apply in_map_iff. exists (a, pl); auto. }
    split; [exact Hng|].
    destruct (Hpl a pl Hin) as (b1 & N1 & ->).
    rewrite Nb in N1; injection N1 as <-.
    destruct (Hp a b Nb) as (b2 & N2 & P2).
    exists b2. split; [exact N2|].
    split; [apply (pulsesTo_grown _ _ P2); exact Gb|].
    symmetry; apply payload_frozen, P2.
  - intros Hgate a b Nb Hng (b2 & N2 & G2).
    destruct (Hall Hgate a b Nb) as [H|H]; [|contradiction|exact H].
    destruct Hrel as [_ Hr]. destruct (Hr a b Nb) as (b1 & N1 & _).
    destruct (Hp a b1 N1) as (b2' & N2' & P2).
    rewrite N2 in N2'; injection N2' as <-.
    exists b1. split; [exact N1|]. apply (pulsesTo_grown _ _ P2); exact G2.
Qed.

(** What [generateBranches] does to the store: it appends. *)
Lemma generateBranches_appends (strokePoints : list Point.t)
  (settings : GrowthSettings.t) (h : Heap) (w : World.t) :
  exists seeds,
    heap (generateBranches strokePoints settings h w) = h ++ seeds
    /\ calls (generateBranches strokePoints settings h w) = [].
Proof.
  unfold generateBranches.
  destruct (_ <? 2)%nat.
  { exists []. simpl. rewrite app_nil_r. auto. }
  apply (fold_left_invariant
           (fun st => exists seeds, heap st = h ++ seeds /\ calls st = [])).
  2: { exists []. simpl. rewrite app_nil_r. auto. }
  intros st i _ (seeds & Hh & Hc). unfold seedAt.
  destruct (seedParams _) as [[factor blm] av].
  destruct (index strokePoints _) as [point|]; [|eauto].
  simpl.
  match goal with
  | |- context [seedBranches ?n settings point ?sa av blm ?s] =>
      generalize n; generalize sa;
      assert (H0 : exists seeds, heap s = h ++ seeds /\ calls s = [])
        by (simpl; eauto);
      generalize dependent s
  end.
  intros s H0 sa n. revert s H0.
  induction n as [|n IH]; intros s H0; simpl; auto.
  apply IH. destruct H0 as (l & Hl & Hcl).
  unfold seedOne; simpl.
  destruct (getRandomColor 0 settings _) as [color w'].
  simpl. rewrite Hl, <- app_assoc. eauto.
Qed.

(** Over a run of the engine, no branch is logged twice, and the logged
    branches are fully grown. *)
Lemma run_log_invariant (ops : list Canvas.Op) :
  forall c,
  NoDup (map fst (Canvas.log c)) ->
  (forall a, In a (map fst (Canvas.log c)) -> grownAt (Canvas.heap c) a) ->
  NoDup (map fst (Canvas.log (Canvas.run ops c)))
  /\ (forall a, In a (map fst (Canvas.log (Canvas.run ops c))) ->
      grownAt (Canvas.heap (Canvas.run ops c)) a).
Proof.
  induction ops as [|op ops IH]; intros c Hnd Hg; simpl; [auto|].
  destruct op as [stroke settings | speed settings cb]; apply IH; simpl.
  - exact Hnd.
  - intros a Ha.
    destruct (generateBranches_appends stroke settings (Canvas.heap c)
                (Canvas.world c)) as (seeds & -> & _).
    apply (heapRel_grownAt (Canvas.heap c)); [|exact (Hg a Ha)].
    apply heapRel_app. apply evolvesTo_refl.
  - destruct (animateBranches_calls (Canvas.branches c) speed settings cb
                (Canvas.heap c) (Canvas.world c)) as (_ & Hnd' & Hlog & _).
    rewrite map_app. apply NoDup_app; auto.
    intros a Ha Ha'. apply in_map_iff in Ha'.
    destruct Ha' as ([a' pl] & <- & Hin).
    destruct (Hlog a' pl Hin) as (Hng & _). apply Hng, Hg, Ha.
  - intros a Ha.
    pose proof (animateBranches_evolves (Canvas.branches c) speed settings cb
                  (Canvas.heap c) (Canvas.world c)) as Hev.
    destruct (animateBranches_calls (Canvas.branches c) speed settings cb
                (Canvas.heap c) (Canvas.world c)) as (_ & _ & Hlog & _).
    rewrite map_app in Ha. apply in_app_or in Ha. destruct Ha as [Ha|Ha].
    + eapply heapRel_grownAt; eauto.
    + apply in_map_iff in Ha. destruct Ha as ([a' pl] & <- & Hin).
      destruct (Hlog a' pl Hin) as (_ & b & Nb & Gb & _).
      exists b; auto.
Qed.

(** C2, as the code has it.  The callback is called only when
    [settings.particleEffects] is on and a callback is given; then, in every
    call of [animateBranches], it is called exactly for the branches whose
    progress reaches [maxProgress] in that call (not fully grown before,
    fully grown after), once each, with the end and the color of the
    branch; a fully grown branch stays fully grown, so over any run of the
    engine no branch is ever logged twice.  With particle effects off or
    without a callback it is never called. *)
Theorem C2_callback_once_when_enabled :
  (forall branches growthSpeed settings cb h w,
     let r := animateBranches branches growthSpeed settings cb h w in
     (gate settings cb = false -> calls r = [])
     /\ NoDup (map fst (calls r))
     /\ (forall a pl, In (a, pl) (calls r) ->
         ~ grownAt h a
         /\ exists b,
             nth_error (heap r) a = Some b /\ grown b /\ pl = payload b)
     /\ (gate settings cb = true ->
         forall a b, nth_error h a = Some b -> ~ grown b ->
         grownAt (heap r) a -> In a (map fst (calls r)))
     /\ (forall a, grownAt h a -> grownAt (heap r) a))
  /\ (forall ops w,
        NoDup (map fst (Canvas.log (Canvas.run ops (Canvas.init w))))).
Proof.
  split.
  - intros branches growthSpeed settings cb h w r.
    destruct (animateBranches_calls branches growthSpeed settings cb h w)
      as (H1 & H2 & H3 & H4).
    repeat (split; [assumption|]).
    intros a. apply heapRel_grownAt, animateBranches_evolves.
  - intros ops w. apply run_log_invariant; simpl.
    + constructor.
    + intros a [].
Qed.

(** A branch one tick from its target, stepped with particle effects off:
    its progress reaches [maxProgress] in this call, and the callback that
    was handed over is not called. *)
Lemma C2_counterexample :
  let b := Branch.mk 0 0 30 0 0 30 0 59.5 60 "#00E0FF" 1 0 in
  let settings := GrowthSettings.mk 50 15 "#00E0FF" neural false in
  let w := World.mk (fun _ => 0.5) 0 (fun _ => 5050%Z) 0 in
  let r := animateBranches [0%nat] 50 settings (Some (fun _ _ _ w' => w')) [b] w in
  Branch.progress b < Branch.maxProgress b
  /\ heap r = [Branch.mk 0 0 30 0 0 30 0 60 60 "#00E0FF" 1 5050]
  /\ calls r = [].
Proof.
  cbv zeta. split; [simpl; lra|].
  unfold animateBranches, maxBranches; simpl.
  unfold visit; simpl. unfold tick, grow; simpl.
  decide_comparisons; simpl.
  unfold branching; simpl.
  assert (M : Rmin 60 (59.5 + 50 / 50) = 60)
    by (unfold Rmin; destruct (Rle_dec _ _); lra).
  rewrite M. decide_comparisons; simpl.
  unfold pulse; simpl. decide_comparisons; simpl.
  split; [|reflexivity].
  unfold Branch.set_lastGrowth, Branch.set_progress; simpl.
  reflexivity.
Qed.

End CompletionCallback.

(** ** Growth engine: the store and the array over one call of
    [animateBranches] *)

Section StoreOfOneStep.

Import JS GrowthAlgorithm GrowthNotions.

Variable now : Z.
Variable settings : GrowthSettings.t.
Variable speedMultiplier : R.
Variable onParticleGeneration : option Callback.
Variable h0 : Heap.
Hypothesis callback_sane : saneCallback onParticleGeneration.

Lemma filter_none {A : Type} (f : A -> bool) (l : list A) :
  (forall x, In x l -> f x = false) -> filter f l = [].
Proof.
  induction l as [|x l IH]; intros H; simpl; auto.
  rewrite (H x) by (simpl; auto). apply IH. intros; apply H; simpl; auto.
Qed.

Lemma childOf_growsTo (P b C : Branch.t) :
  growsTo P b -> childOf now settings b C -> childOf now settings P C.
Proof.
  intros ((E1 & E2 & _ & _ & E5 & E6 & E7 & _ & _) & Eo & _).
  intros (r1 & r2 & r3 & r4 & Hr & H).
  exists r1, r2, r3, r4. split; [exact Hr|].
  unfold endpoint in *. rewrite E1, E2, E5, E6, E7, Eo in H. exact H.
Qed.

Lemma childOf_inv (P C : Branch.t) :
  (0 <= Branch.generation P)%Z -> childOf now settings P C -> inv C.
Proof.
  intros Hg (r1 & r2 & r3 & r4 & (_ & _ & Hr3 & _) & H).
  destruct H as (_ & _ & _ & G & _ & _ & _ & Pg & Mp & _).
  unfold inv. rewrite Pg, Mp, G. split; [lra | lia].
Qed.

Lemma childOf_not_grown (P C : Branch.t) :
  childOf now settings P C -> ~ grown C.
Proof.
  intros (r1 & r2 & r3 & r4 & (_ & _ & Hr3 & _) & H).
  destruct H as (_ & _ & _ & _ & _ & _ & _ & Pg & Mp & _).
  unfold grown. rewrite Pg, Mp. lra.
Qed.

Lemma structInv_visit (done : list addr) (a : addr) (st : Loop) :
  (a < List.length h0)%nat ->
  structInv now settings speedMultiplier h0 done st ->
  structInv now settings speedMultiplier h0 (done ++ [a])
    (visit now speedMultiplier settings onParticleGeneration a st).
Proof.
  intros Ha (Hrel & Hsane & Hval & Hinv & Hchild & Hcap & Hfilt).
  destruct (nth_error h0 a) as [P|] eqn:NP;
    [|apply nth_error_None in NP; lia].
  destruct (proj2 Hrel a P NP) as (b & N & GP).
  pose proof (proj1 Hrel) as Hlen.
  destruct (visit_footprint now settings speedMultiplier
              onParticleGeneration a st b N)
    as (children & f & Hf & Hh & Hn & _ & Hw & Hch & Hcap').
  destruct (grow_spec now settings speedMultiplier
              (given onParticleGeneration) b) as (Gb & Gi & _).
  set (st' := visit now speedMultiplier settings onParticleGeneration a st) in *.
  set (b' := fst (grow now speedMultiplier settings
                    (given onParticleGeneration) b)) in *.
  assert (La : (a < List.length (heap st))%nat)
    by (apply nth_error_Some; congruence).
  assert (Lh : List.length (heap st')
               = (List.length (heap st) + List.length children)%nat).
  { rewrite Hh, length_modify, length_app, length_modify. reflexivity. }
  assert (Hfinv : forall x, inv x -> inv (f x)).
  { intros x Hx. destruct Hf as [-> | ->]; [exact Hx|].
    unfold inv in *; simpl; exact Hx. }
  split.
  { eapply heapRel_trans; [apply growsTo_trans | exact Hrel|].
    apply visit_heapRel. }
  split; [apply Hw; assumption|].
  split.
  { unfold validArray. rewrite Hn, Lh. apply Forall_app; split.
    - unfold validArray in Hval. rewrite Forall_forall in *.
      intros x Hx. specialize (Hval x Hx). lia.
    - constructor; [lia|]. apply Forall_forall. intros x Hx.
      apply in_seq in Hx. lia. }
  split.
  { intros Hs H0. specialize (Hinv Hs H0).
    assert (Ib : inv b).
    { rewrite Forall_forall in Hinv. apply Hinv.
      eapply nth_error_In; eauto. }
    assert (Ib' : inv b') by (apply Gi; assumption).
    rewrite Hh. apply Forall_modify; [|exact Hfinv].
    apply Forall_app; split.
    - apply Forall_modify; [exact Hinv | intros; exact Ib'].
    - specialize (Hch Hsane callback_sane).
      rewrite Forall_forall in *. intros C HC.
      apply (childOf_inv b'); [apply Ib'|]. apply Hch, HC. }
  split.
  { intros c [Hc1 Hc2]. rewrite Lh in Hc2.
    destruct (Nat.lt_ge_cases c (List.length (heap st))) as [Hold|Hnew].
    - destruct (Hchild c (conj Hc1 Hold)) as (p & Pp & C & Hp & Np & Nc & Hin & HC).
      exists p, Pp, C.
      split; [apply in_or_app; auto|]. split; [exact Np|].
      split.
      { unfold st'. rewrite visit_others; [exact Nc | lia | exact Hold]. }
      split; [rewrite Hn; apply in_or_app; auto | exact HC].
    - destruct (nth_error children (c - List.length (heap st))) as [C|] eqn:NC;
        [|apply nth_error_None in NC; lia].
      exists a, P, C.
      split; [apply in_or_app; right; simpl; auto|]. split; [exact NP|].
      split.
      { rewrite Hh, nth_error_modify_ne by lia.
        rewrite nth_error_app2 by (rewrite length_modify; lia).
        rewrite length_modify. exact NC. }
      split.
      { rewrite Hn. apply in_or_app; right. right. apply in_seq. lia. }
      apply (childOf_growsTo P b').
      + eapply growsTo_trans; eauto.
      + specialize (Hch Hsane callback_sane).
        rewrite Forall_forall in Hch. apply Hch.
        eapply nth_error_In; eauto. }
  split.
  { intros i c Ni Hc. rewrite Hn in Ni.
    destruct (Nat.lt_ge_cases i (List.length (newBranches st))) as [Hi|Hi].
    - rewrite nth_error_app1 in Ni by exact Hi. eapply Hcap; eauto.
    - rewrite nth_error_app2 in Ni by exact Hi.
      destruct (i - List.length (newBranches st))%nat as [|j] eqn:Ej;
        simpl in Ni.
      + injection Ni as <-. lia.
      + assert (Hj : (j < List.length children)%nat).
        { unfold addr in *.
          assert (Hsome : nth_error (seq (List.length (heap st))
                                       (List.length children)) j <> None)
            by (rewrite Ni; discriminate).
          apply nth_error_Some in Hsome. rewrite length_seq in Hsome.
          exact Hsome. }
        assert (Hne : children <> [])
          by (intros ->; simpl in Hj; lia).
        specialize (Hcap' Hne). lia. }
  unfold addr in *. rewrite Hn, filter_app, Hfilt. f_equal. simpl.
  rewrite (proj2 (Nat.ltb_lt a (List.length h0)) Ha). f_equal.
  apply filter_none. intros x Hx. apply in_seq in Hx.
  apply Nat.ltb_ge. lia.
Qed.

End StoreOfOneStep.

(** ** Growth engine: one call of [animateBranches] as a whole *)

Section OneStep.

Import JS GrowthAlgorithm GrowthNotions.

(** A [fold_left] whose invariant speaks of the elements already visited. *)
Lemma fold_left_prefix {A S : Type} (P : list A -> S -> Prop) (Q : A -> Prop)
  (f : S -> A -> S) :
  (forall done a s, Q a -> P done s -> P (done ++ [a]) (f s a)) ->
  forall l done s, Forall Q l -> P done s -> P (done ++ l) (fold_left f l s).
Proof.
  intros Hf l; induction l as [|a l IH]; intros done s HQ HP; simpl.
  - rewrite app_nil_r; exact HP.
  - inversion HQ as [|? ? Ha Hl]; subst.
    replace (done ++ a :: l) with ((done ++ [a]) ++ l)
      by (rewrite <- app_assoc; reflexivity).
    apply IH; auto.
Qed.

Lemma validArray_firstn (h : Heap) (n : nat) (arr : list addr) :
  validArray h arr -> validArray h (firstn n arr).
Proof.
  unfold validArray. intros H.
  rewrite <- (firstn_skipn n arr) in H. apply Forall_app in H. apply H.
Qed.

Lemma structInv_loop (now : Z) (settings : GrowthSettings.t)
  (speedMultiplier : R) (cb : option Callback) (h : Heap) (w : World.t)
  (l : list addr) :
  saneCallback cb -> sane w -> validArray h l ->
  structInv now settings speedMultiplier h l
    (fold_left (fun st a => visit now speedMultiplier settings cb a st) l
       (mkLoop h [] [] w)).
Proof.
  intros Hcb Hw Hv.
  apply (fold_left_prefix
           (structInv now settings speedMultiplier h)
           (fun a => (a < List.length h)%nat)
           (fun st a => visit now speedMultiplier settings cb a st)
           (fun done a s Ha Hs =>
              structInv_visit now settings speedMultiplier cb h Hcb
                done a s Ha Hs)
           l [] (mkLoop h [] [] w) Hv).
  split; [apply heapRel_refl, growsTo_refl|]. simpl.
  split; [exact Hw|]. split; [constructor|]. split; [auto|].
  split; [intros c Hc; lia|].
  split; [intros [|i] c Hn; discriminate | reflexivity].
Qed.

(** One call of [animateBranches] on an array of addresses of the store,
    with [now] the time it reads. *)
Lemma animateBranches_struct (branches : list addr) (growthSpeed : R)
  (settings : GrowthSettings.t) (cb : option Callback) (h : Heap)
  (w : World.t) :
  saneCallback cb -> sane w -> validArray h branches ->
  let r := animateBranches branches growthSpeed settings cb h w in
  let now := World.clock w (World.elapsed w) in
  sane (world r)
  /\ validArray (heap r) (newBranches r)
  /\ (0 <= growthSpeed -> Forall inv h -> Forall inv (heap r))
  /\ (forall c, (List.length h <= c < List.length (heap r))%nat ->
      exists p P C,
        In p (firstn maxBranches branches) /\ nth_error h p = Some P
        /\ nth_error (heap r) c = Some C
        /\ In c (newBranches r)
        /\ childOf now settings P C)
  /\ (forall i c, nth_error (newBranches r) i = Some c ->
      (List.length h <= c)%nat -> (i < maxBranches)%nat)
  /\ filter (fun a => a <? List.length h)%nat (newBranches r)
     = firstn maxBranches branches.
Proof.
  intros Hcb Hw Hv r now.
  pose proof (structInv_loop now settings (growthSpeed / 50) cb h
                (World.mk (World.random w) (World.drawn w) (World.clock w)
                   (S (World.elapsed w)))
                (firstn maxBranches branches) Hcb Hw
                (validArray_firstn h maxBranches branches Hv))
    as (Hrel & Hsane & Hval & Hinv & Hchild & Hcap & Hfilt).
  unfold r, animateBranches. simpl. fold now.
  match goal with
  | |- context [fold_left (pulse now settings) (newBranches ?s) (heap ?s)] =>
      set (st := s) in *;
      destruct (pulses_footprint now settings (newBranches st) (heap st))
        as (Hp & Hpl & Hpk)
  end.
  split; [exact Hsane|].
  split; [unfold validArray; rewrite Hpl; exact Hval|].
  split.
  { intros Hs H0.
    assert (Hs' : 0 <= growthSpeed / 50) by lra.
    specialize (Hinv Hs' H0).
    apply Forall_forall. intros b Hb.
    apply In_nth_error in Hb. destruct Hb as [x Nx].
    assert (Hx : (x < List.length (heap st))%nat).
    { rewrite <- Hpl. apply nth_error_Some. congruence. }
    destruct (nth_error (heap st) x) as [b0|] eqn:N0;
      [|apply nth_error_None in N0; lia].
    destruct (proj2 Hp x b0 N0) as (b1 & N1 & P1).
    rewrite Nx in N1; injection N1 as <-.
    apply (pulsesTo_inv b0); [exact P1|].
    rewrite Forall_forall in Hinv. apply Hinv. eapply nth_error_In; eauto. }
  split.
  { intros c Hc. rewrite Hpl in Hc.
    destruct (Hchild c Hc) as (p & P & C & Hp1 & Np & Nc & Hin & HC).
    exists p, P, C. repeat (split; [assumption|]).
    split; [|split; [exact Hin | exact HC]].
    apply Hpk; [exact Nc|]. eapply childOf_not_grown; eauto. }
  split; [exact Hcap | exact Hfilt].
Qed.

End OneStep.

(** ** Growth engine: the children *)

Section Children.

Import JS GrowthAlgorithm GrowthNotions.

(** C9, as the code has it.  Every branch object that a call of
    [animateBranches] creates is the child of one of the first 500 branches
    of the array, and is in the returned array.  With [P] the parent as it
    was when the call began: the child starts at the end of [P]
    ([start + (cos angle, sin angle) * length]); its generation is that of
    [P] plus one; its angle is the angle of [P] plus [(r - 0.5) * PI * 0.6]
    ([0.4] in organic mode); its length is the length of [P] times
    [0.6 + r * 0.3]; its opacity is [max(0.3, opacity of P - 0.15 *
    generation of P)]; its progress is 0, its [maxProgress] is [40 + r * 30]
    and its [lastGrowth] is [now + r * 1000], each [r] a random number of
    [[0, 1)] (seeding uses [60 + r * 40] and [Date.now() + r * 2000]). *)
Theorem C9_child_of_parent (branches : list addr) (growthSpeed : R)
  (settings : GrowthSettings.t) (cb : option Callback) (h : Heap)
  (w : World.t) :
  saneCallback cb -> sane w -> validArray h branches ->
  let r := animateBranches branches growthSpeed settings cb h w in
  let now := World.clock w (World.elapsed w) in
  forall c, (List.length h <= c < List.length (heap r))%nat ->
  exists p P C,
    In p (firstn maxBranches branches) /\ nth_error h p = Some P
    /\ nth_error (heap r) c = Some C
    /\ In c (newBranches r)
    /\ childOf now settings P C.
Proof.
  intros Hcb Hw Hv r now.
  apply (animateBranches_struct branches growthSpeed settings cb h w Hcb Hw Hv).
Qed.

Lemma sane_ripeWorld : sane ripeWorld.
Proof. intros n; simpl; lra. Qed.

Lemma saneCallback_None : saneCallback None.
Proof. intros f H; discriminate. Qed.

(** What [animateBranches] returns for the ripe branch: the branch, touched,
    and one child. *)
Lemma ripeBranch_step :
  let r := animateBranches [0%nat] 50 neuralSettings None [ripeBranch] ripeWorld in
  heap r
  = [Branch.mk 0 0 30 0 0 30 0 60 60 "#00E0FF" 1 5050;
     Branch.mk 30 0
       (30 + cos (0 + (0 - 0.5) * PI * 0.6) * (30 * (0.6 + 0 * 0.3)))
       (0 + sin (0 + (0 - 0.5) * PI * 0.6) * (30 * (0.6 + 0 * 0.3)))
       (0 + (0 - 0.5) * PI * 0.6) (30 * (0.6 + 0 * 0.3)) 1 0 (40 + 0 * 30)
       "#FF2CFB" (Rmax 0.3 (1 - 0 * 0.15)) (5050 + 0 * 1000)]
  /\ newBranches r = [0%nat; 1%nat].
Proof.
  cbv zeta.
  unfold animateBranches, maxBranches; simpl.
  unfold visit; simpl. unfold tick, grow; simpl.
  decide_comparisons; simpl.
  unfold branching; simpl.
  decide_comparisons; simpl.
  unfold spawnOne, maxBranches; simpl.
  unfold pulse; simpl. decide_comparisons; simpl.
  decide_comparisons; simpl.
  split; [|reflexivity].
  unfold Branch.set_lastGrowth; simpl.
  rewrite cos_0, sin_0.
  repeat f_equal; lra.
Qed.

(** The theorem at the ripe branch, which gets a child in this step: the
    object at address 1. *)
Lemma C9_child_of_parent_witness :
  let r := animateBranches [0%nat] 50 neuralSettings None [ripeBranch] ripeWorld in
  exists p P C,
    In p (firstn maxBranches [0%nat]) /\ nth_error [ripeBranch] p = Some P
    /\ nth_error (heap r) 1 = Some C
    /\ In 1%nat (newBranches r)
    /\ childOf 5050 neuralSettings P C.
Proof.
  intros r.
  apply (C9_child_of_parent [0%nat] 50 neuralSettings None [ripeBranch]
           ripeWorld saneCallback_None sane_ripeWorld).
  - constructor; [simpl; lia | constructor].
  - pose proof ripeBranch_step as E. cbv zeta in E. destruct E as [E _].
    unfold r. rewrite E. simpl. lia.
Defined.

(** The child of the ripe branch has [maxProgress = 40] and
    [lastGrowth = now]: a growth target that no branch gets at seeding,
    where it is [60 + r * 40]. *)
Lemma C9_counterexample :
  let r := animateBranches [0%nat] 50 neuralSettings None [ripeBranch] ripeWorld in
  exists C,
    nth_error (heap r) 1 = Some C
    /\ Branch.generation C = 1%Z
    /\ Branch.maxProgress C = 40
    /\ ~ (exists x, 0 <= x < 1 /\ Branch.maxProgress C = 60 + x * 40).
Proof.
  cbv zeta. destruct ripeBranch_step as [-> _]. simpl.
  eexists; split; [reflexivity|]. simpl.
  split; [reflexivity|]. split; [lra|].
  intros (x & Hx & E). lra.
Qed.

End Children.

(** ** Growth engine: the size of a seed set *)

Section SeedSize.

Import JS GrowthAlgorithm GrowthNotions.

(** The random numbers to come are the same before and after every
    operation of the engine on the world. *)
Lemma random_getRandomColor (generation : Z) (settings : GrowthSettings.t)
  (w : World.t) :
  World.random (snd (getRandomColor generation settings w)) = World.random w.
Proof.
  unfold getRandomColor.
  destruct (GrowthSettings.drawingMode settings); simpl; auto.
  destruct (generation =? 0)%Z; auto.
  destruct (generation =? 1)%Z; auto.
Qed.

Lemma seedOne_count (settings : GrowthSettings.t) (point : Point.t)
  (strokeAngle angleVariation branchLengthMultiplier : R) (st : Loop) :
  let st' := seedOne settings point strokeAngle angleVariation
               branchLengthMultiplier st in
  List.length (newBranches st') = S (List.length (newBranches st))
  /\ World.random (world st') = World.random (world st).
Proof.
  unfold seedOne; simpl.
  pose proof (random_getRandomColor 0 settings
                (World.mk (World.random (world st))
                   (S (S (S (World.drawn (world st)))))
                   (World.clock (world st)) (World.elapsed (world st)))) as Hc.
  destruct (getRandomColor 0 settings _) as [color w']. simpl in *.
  rewrite length_app; simpl. split; [lia | exact Hc].
Qed.

Lemma seedBranches_count (n : nat) (settings : GrowthSettings.t)
  (point : Point.t) (strokeAngle angleVariation branchLengthMultiplier : R) :
  forall st,
  let st' := seedBranches n settings point strokeAngle angleVariation
               branchLengthMultiplier st in
  List.length (newBranches st') = (List.length (newBranches st) + n)%nat
  /\ World.random (world st') = World.random (world st).
Proof.
  induction n as [|n IH]; intros st; simpl; [split; [lia | reflexivity]|].
  destruct (seedOne_count settings point strokeAngle angleVariation
              branchLengthMultiplier st) as (L1 & R1).
  destruct (IH (seedOne settings point strokeAngle angleVariation
                  branchLengthMultiplier st)) as (L2 & R2).
  split; [rewrite L2, L1; lia | rewrite R2; exact R1].
Qed.

Lemma numBranches_pos (strokePoints : list Point.t)
  (settings : GrowthSettings.t) :
  (1 <= numBranches strokePoints settings)%Z.
Proof.
  unfold numBranches. destruct (seedParams _) as [[f b] a]. lia.
Qed.

(** The point that the outer loop of [generateBranches] samples is a point of
    the stroke. *)
Lemma pointIndex_in_range (len n : Z) (i : nat) :
  (2 <= len)%Z -> (1 <= n)%Z -> (Z.of_nat i < n)%Z ->
  (0 <= floor (IZR (len - 1) * (INR i / IZR n)) < len - 1)%Z.
Proof.
  intros Hlen Hn Hi.
  set (x := IZR (len - 1) * (INR i / IZR n)).
  assert (Hn' : 0 < IZR n) by (apply IZR_lt; lia).
  assert (Hl' : 1 <= IZR (len - 1)) by (apply IZR_le; lia).
  assert (Hq : 0 <= INR i / IZR n < 1).
  { split.
    - apply Rmult_le_pos; [apply pos_INR | apply Rlt_le, Rinv_0_lt_compat, Hn'].
    - apply (Rmult_lt_reg_r (IZR n)); [exact Hn'|].
      unfold Rdiv. rewrite Rmult_assoc, Rinv_l, Rmult_1_r, Rmult_1_l by lra.
      rewrite INR_IZR_INZ. apply IZR_lt. exact Hi. }
  assert (Hx : 0 <= x < IZR (len - 1)) by (unfold x; split; nra).
  destruct (base_Int_part x) as [B1 B2]. unfold floor.
  split.
  - assert (H : (-1 < Int_part x)%Z) by (apply lt_IZR; lra). lia.
  - apply lt_IZR. lra.
Qed.

Lemma floor_bounds (x : R) (n : Z) : 0 <= x < IZR n -> (0 <= floor x < n)%Z.
Proof.
  intros Hx. destruct (base_Int_part x) as [B1 B2]. unfold floor. split.
  - assert (H : (-1 < Int_part x)%Z) by (apply lt_IZR; lra). lia.
  - apply lt_IZR. lra.
Qed.

(** The body of the outer loop of [generateBranches] appends one to three
    branches. *)
Lemma seedAt_bounds (strokePoints : list Point.t) (settings : GrowthSettings.t)
  (i : nat) (st : Loop) :
  (2 <= List.length strokePoints)%nat ->
  (i < Z.to_nat (numBranches strokePoints settings))%nat ->
  sane (world st) ->
  let st' := seedAt strokePoints settings i st in
  (List.length (newBranches st) + 1 <= List.length (newBranches st')
   <= List.length (newBranches st) + 3)%nat
  /\ World.random (world st') = World.random (world st).
Proof.
  intros Hlen Hi Hw. unfold seedAt.
  pose proof (numBranches_pos strokePoints settings) as Hn.
  destruct (seedParams _) as [[factor blm] av].
  destruct (pointIndex_in_range (Z.of_nat (List.length strokePoints))
              (numBranches strokePoints settings) i) as [P1 P2];
    [lia | exact Hn | lia |].
  destruct (index_in_range strokePoints
              (floor (IZR (Z.of_nat (List.length strokePoints) - 1)
                      * (INR i / IZR (numBranches strokePoints settings)))))
    as [point ->]; [lia|].
  simpl.
  match goal with
  | |- context [seedBranches ?n settings point ?sa av blm ?s] =>
      destruct (seedBranches_count n settings point sa av blm s) as (L & R0)
  end.
  simpl in L, R0. rewrite L, R0. split; [|reflexivity].
  pose proof (Hw (World.drawn (world st))) as Hr.
  destruct (GrowthSettings.drawingMode settings).
  - destruct (floor_bounds (World.random (world st) (World.drawn (world st)) * 2)
                2) as [F1 F2]; [simpl; lra | lia].
  - destruct (floor_bounds (World.random (world st) (World.drawn (world st)) * 3)
                3) as [F1 F2]; [simpl; lra | lia].
  - destruct (floor_bounds (World.random (world st) (World.drawn (world st)) * 2)
                2) as [F1 F2]; [simpl; lra | lia].
Qed.

(** [generateBranches] returns one to three branches for each of the
    [numBranches] points it samples, whatever their number. *)
Lemma generateBranches_bounds (strokePoints : list Point.t)
  (settings : GrowthSettings.t) (h : Heap) (w : World.t) :
  (2 <= List.length strokePoints)%nat -> sane w ->
  let n := Z.to_nat (numBranches strokePoints settings) in
  (n <= List.length (newBranches (generateBranches strokePoints settings h w))
   <= 3 * n)%nat.
Proof.
  intros Hlen Hw n. unfold generateBranches.
  rewrite (proj2 (Nat.ltb_ge _ _) Hlen). fold n.
  enough (H : (List.length (seq 0 n)
               <= List.length
                    (newBranches
                       (fold_left
                          (fun st i => seedAt strokePoints settings i st)
                          (seq 0 n) (mkLoop h [] [] w)))
               <= 3 * List.length (seq 0 n))%nat
              /\ World.random
                   (world
                      (fold_left
                         (fun st i => seedAt strokePoints settings i st)
                         (seq 0 n) (mkLoop h [] [] w)))
                 = World.random w).
  { destruct H as [H _]. rewrite length_seq in H. exact H. }
  apply (fold_left_prefix
           (fun done st =>
              (List.length done <= List.length (newBranches st)
               <= 3 * List.length done)%nat
              /\ World.random (world st) = World.random w)
           (fun i => (i < n)%nat)
           (fun st i => seedAt strokePoints settings i st))
    with (done := []).
  - intros done i st Hi (L & R0).
    destruct (seedAt_bounds strokePoints settings i st Hlen Hi) as (L' & R').
    { intros k. rewrite R0. apply Hw. }
    split; [|rewrite R'; exact R0].
    rewrite length_app. simpl. lia.
  - apply Forall_forall. intros i Hi. apply in_seq in Hi. lia.
  - simpl. split; [lia | reflexivity].
Qed.

End SeedSize.

(** ** Growth engine: the invariant over a run *)

Section RunInvariant.

Import JS GrowthAlgorithm GrowthNotions.

(** What every state of the canvas satisfies. *)
Lemma run_invariant (ops : list Canvas.Op) :
  forall c,
  Forall okOp ops ->
  Forall inv (Canvas.heap c) -> sane (Canvas.world c) ->
  validArray (Canvas.heap c) (Canvas.branches c) ->
  Forall inv (Canvas.heap (Canvas.run ops c))
  /\ sane (Canvas.world (Canvas.run ops c))
  /\ validArray (Canvas.heap (Canvas.run ops c))
       (Canvas.branches (Canvas.run ops c)).
Proof.
  induction ops as [|op ops IH]; intros c Hops Hi Hw Hv; simpl; [auto|].
  inversion Hops as [|? ? Hop Hrest]; subst.
  destruct op as [stroke settings | speed settings cb]; simpl in *.
  - destruct (generateBranches_loopOK stroke settings (Canvas.heap c)
                (Canvas.world c) Hi Hw) as (Hi' & Hw' & Hv').
    destruct (generateBranches_appends stroke settings (Canvas.heap c)
                (Canvas.world c)) as (seeds & Hh & _).
    apply IH; simpl; auto.
    unfold validArray. apply Forall_app; split; [|exact Hv'].
    eapply validArray_grow; [|exact Hv].
    rewrite Hh, length_app; lia.
  - destruct Hop as [Hs Hcb].
    destruct (animateBranches_struct (Canvas.branches c) speed settings cb
                (Canvas.heap c) (Canvas.world c) Hcb Hw Hv)
      as (Hw' & Hv' & Hi' & _).
    apply IH; simpl; auto.
Qed.

(** C8: over any run of the engine from the empty canvas (strokes seeded
    and frames animated in any order, with a growth speed that is not
    negative and [Math.random] in [[0, 1)]), every branch object ever
    created satisfies [0 <= progress <= maxProgress] and [generation >= 0],
    and every address of the live array names such an object. *)
Theorem C8_progress_and_generation_bounds (ops : list Canvas.Op) (w : World.t) :
  sane w -> Forall okOp ops ->
  let c := Canvas.run ops (Canvas.init w) in
  Forall inv (Canvas.heap c)
  /\ (forall a, In a (Canvas.branches c) ->
      exists b, nth_error (Canvas.heap c) a = Some b /\ inv b).
Proof.
  intros Hw Hops c.
  assert (H0 : Forall inv (Canvas.heap (Canvas.init w))) by constructor.
  assert (V0 : validArray (Canvas.heap (Canvas.init w))
                 (Canvas.branches (Canvas.init w))) by constructor.
  destruct (run_invariant ops (Canvas.init w) Hops H0 Hw V0) as (Hi & _ & Hv).
  fold c in Hi, Hv. split; [exact Hi|].
  intros a Ha. unfold validArray in Hv. rewrite Forall_forall in Hv, Hi.
  specialize (Hv a Ha).
  destruct (nth_error (Canvas.heap c) a) as [b|] eqn:N;
    [|apply nth_error_None in N; lia].
  exists b; split; [reflexivity|]. apply Hi. eapply nth_error_In; eauto.
Qed.

(** What the two guards [newBranches.length < maxBranches] of
    [animateBranches] do ensure, short of a cap on the returned array: the
    call visits only the first 500 branches of the array it is given and
    appends each of them, and it creates a child only while the array it is
    building holds fewer than 500 branches, so that every new branch of the
    returned array sits at an index below 500.  [generateBranches] has no
    guard at all: it returns one to three branches for each of the points
    it samples on the stroke. *)
Theorem animateBranches_guards_children_only (branches : list addr) (growthSpeed : R)
  (settings : GrowthSettings.t) (cb : option Callback) (h : Heap)
  (w : World.t) :
  saneCallback cb -> sane w -> validArray h branches ->
  let r := animateBranches branches growthSpeed settings cb h w in
  filter (fun a => a <? List.length h)%nat (newBranches r)
  = firstn 500 branches
  /\ (forall i c, nth_error (newBranches r) i = Some c ->
      (List.length h <= c)%nat -> (i < 500)%nat)
  /\ (forall strokePoints,
      (2 <= List.length strokePoints)%nat ->
      let n := Z.to_nat (numBranches strokePoints settings) in
      (n <= List.length
              (newBranches (generateBranches strokePoints settings h w))
       <= 3 * n)%nat).
Proof.
  intros Hcb Hw Hv r.
  destruct (animateBranches_struct branches growthSpeed settings cb h w
              Hcb Hw Hv) as (_ & _ & _ & _ & Hcap & Hfilt).
  split; [exact Hfilt|]. split; [exact Hcap|].
  intros strokePoints Hlen.
  apply generateBranches_bounds; assumption.
Qed.

(** The guards at the ripe branch. *)
Lemma animateBranches_guards_children_only_example :
  let r := animateBranches [0%nat] 50 neuralSettings None [ripeBranch] ripeWorld in
  filter (fun a => a <? 1)%nat (newBranches r) = firstn 500 [0%nat]
  /\ (forall i c, nth_error (newBranches r) i = Some c ->
      (1 <= c)%nat -> (i < 500)%nat).
Proof.
  intros r.
  destruct (animateBranches_guards_children_only [0%nat] 50 neuralSettings None
              [ripeBranch] ripeWorld saneCallback_None sane_ripeWorld)
    as (H1 & H2 & _).
  - constructor; [simpl; lia | constructor].
  - split; [exact H1 | exact H2].
Defined.

End RunInvariant.

(** ** Growth engine: more than 500 branches *)

Section BeyondTheCap.

Import JS GrowthAlgorithm GrowthNotions.

Lemma modify_same {A : Type} (k : nat) (a : A) (l : list A) :
  nth_error l k = Some a -> modify k (fun _ => a) l = l.
Proof.
  revert k; induction l as [|x l IH]; intros [|k] H; simpl in *;
    try discriminate.
  - congruence.
  - rewrite IH by exact H. reflexivity.
Qed.

(** The visit of an idle branch appends its address and nothing else. *)
Lemma visit_idle (a : addr) (st : Loop) :
  nth_error (heap st) a = Some idleBranch ->
  visit 5050 (50 / 50) neuralSettings None a st
  = mkLoop (heap st) (newBranches st ++ [a]) (calls st) (world st).
Proof.
  intros N. unfold visit. rewrite N.
  unfold tick, grow; simpl. decide_comparisons; simpl.
  unfold branching; simpl. decide_comparisons; simpl.
  rewrite modify_same by exact N. reflexivity.
Qed.

Lemma visit_idle_all (l : list addr) :
  forall st,
  (forall a, In a l -> nth_error (heap st) a = Some idleBranch) ->
  newBranches
    (fold_left (fun st a => visit 5050 (50 / 50) neuralSettings None a st) l st)
  = newBranches st ++ l.
Proof.
  induction l as [|a l IH]; intros st H; simpl.
  - rewrite app_nil_r; reflexivity.
  - rewrite visit_idle by (apply H; simpl; auto).
    rewrite IH by (intros; simpl; apply H; simpl; auto).
    simpl. rewrite <- app_assoc. reflexivity.
Qed.

(** The visit of the ripe branch, first of its array: it gets a child. *)
Lemma visit_ripe (tail : list Branch.t) (w : World.t) :
  World.random w = (fun _ => 0) ->
  exists child,
    heap (visit 5050 (50 / 50) neuralSettings None 0%nat
            (mkLoop (ripeBranch :: tail) [] [] w))
    = Branch.set_lastGrowth 5050 ripeBranch :: tail ++ [child]
    /\ newBranches (visit 5050 (50 / 50) neuralSettings None 0%nat
                      (mkLoop (ripeBranch :: tail) [] [] w))
       = [0%nat; S (List.length tail)].
Proof.
  intros Hw. unfold visit. cbn [nth_error heap].
  unfold tick, grow; simpl. decide_comparisons; simpl.
  unfold branching; simpl. rewrite Hw. decide_comparisons.
  unfold maxBranches; simpl.
  unfold spawnOne, maxBranches; simpl.
  eexists; split; reflexivity.
Qed.

(** The array that [animateBranches] returns is the one its loop built. *)
Lemma animateBranches_newBranches (branches : list addr) (growthSpeed : R)
  (settings : GrowthSettings.t) (cb : option Callback) (h : Heap)
  (w : World.t) :
  newBranches (animateBranches branches growthSpeed settings cb h w)
  = newBranches
      (fold_left
         (fun st a =>
            visit (fst (World.Date_now w)) (growthSpeed / 50) settings cb a st)
         (firstn maxBranches branches)
         (mkLoop h [] [] (snd (World.Date_now w)))).
Proof. reflexivity. Qed.

(** With the array full and a child for the first branch, the remaining
    branches are still appended: one more comes back than went in. *)
Lemma full_array_overflows (tail : list Branch.t) (l : list addr)
  (w : World.t) :
  World.random w = (fun _ => 0) ->
  World.clock w (World.elapsed w) = 5050%Z ->
  (S (List.length l) <= maxBranches)%nat ->
  (forall a, In a l -> (1 <= a <= List.length tail)%nat) ->
  (forall b, In b tail -> b = idleBranch) ->
  List.length
    (newBranches
       (animateBranches (0%nat :: l) 50 neuralSettings None
          (ripeBranch :: tail) w))
  = S (S (List.length l)).
Proof.
  intros Hr Hc Hl Hin Hidle.
  rewrite animateBranches_newBranches.
  rewrite firstn_all2 by (simpl; exact Hl).
  unfold World.Date_now. cbn [fst snd]. rewrite Hc.
  cbn [fold_left].
  match goal with
  | |- context [visit 5050 (50 / 50) neuralSettings None 0%nat
                  (mkLoop _ [] [] ?w1)] =>
      destruct (visit_ripe tail w1 Hr) as (child & Hh & Hn)
  end.
  rewrite visit_idle_all.
  - rewrite Hn, length_app. reflexivity.
  - intros a Ha. specialize (Hin a Ha). rewrite Hh.
    destruct a as [|k]; [lia|]. cbn [nth_error].
    rewrite nth_error_app1 by lia.
    destruct (nth_error tail k) as [b|] eqn:N;
      [|apply nth_error_None in N; lia].
    f_equal. apply Hidle. eapply nth_error_In; eauto.
Qed.

(** The crowd: 500 branches go in, 501 come back. *)
Lemma crowd_overflows :
  List.length
    (newBranches
       (animateBranches crowdArray 50 neuralSettings None crowd ripeWorld))
  = 501%nat.
Proof.
  change crowdArray with (0%nat :: seq 1 499).
  unfold crowd.
  rewrite full_array_overflows.
  - rewrite length_seq. reflexivity.
  - reflexivity.
  - reflexivity.
  - rewrite length_seq. unfold maxBranches. lia.
  - intros a Ha. apply in_seq in Ha. rewrite repeat_length. lia.
  - intros b Hb. apply repeat_spec in Hb. exact Hb.
Qed.

(** With every random number equal to [r0], the body of the outer loop
    appends as many branches as the mode draws from [r0]. *)
Lemma seedAt_count (strokePoints : list Point.t) (settings : GrowthSettings.t)
  (i : nat) (st : Loop) (r0 : R) :
  (2 <= List.length strokePoints)%nat ->
  (i < Z.to_nat (numBranches strokePoints settings))%nat ->
  World.random (world st) = (fun _ => r0) ->
  let st' := seedAt strokePoints settings i st in
  List.length (newBranches st')
  = (List.length (newBranches st)
     + Z.to_nat match GrowthSettings.drawingMode settings with
                | electric => floor (r0 * 3) + 1
                | _ => floor (r0 * 2) + 1
                end)%nat
  /\ World.random (world st') = (fun _ => r0).
Proof.
  intros Hlen Hi Hr. unfold seedAt.
  pose proof (numBranches_pos strokePoints settings) as Hn.
  destruct (seedParams _) as [[factor blm] av].
  destruct (pointIndex_in_range (Z.of_nat (List.length strokePoints))
              (numBranches strokePoints settings) i) as [P1 P2];
    [lia | exact Hn | lia |].
  destruct (index_in_range strokePoints
              (floor (IZR (Z.of_nat (List.length strokePoints) - 1)
                      * (INR i / IZR (numBranches strokePoints settings)))))
    as [point ->]; [lia|].
  simpl. rewrite Hr.
  match goal with
  | |- context [seedBranches ?n settings point ?sa av blm ?s] =>
      destruct (seedBranches_count n settings point sa av blm s) as (L & R0)
  end.
  simpl in L, R0. split.
  - rewrite L. destruct (GrowthSettings.drawingMode settings); reflexivity.
  - rewrite R0. reflexivity.
Qed.

Lemma generateBranches_count (strokePoints : list Point.t)
  (settings : GrowthSettings.t) (h : Heap) (w : World.t) (r0 : R) :
  (2 <= List.length strokePoints)%nat ->
  World.random w = (fun _ => r0) ->
  List.length (newBranches (generateBranches strokePoints settings h w))
  = (Z.to_nat (numBranches strokePoints settings)
     * Z.to_nat match GrowthSettings.drawingMode settings with
                | electric => floor (r0 * 3) + 1
                | _ => floor (r0 * 2) + 1
                end)%nat.
Proof.
  intros Hlen Hr. unfold generateBranches.
  rewrite (proj2 (Nat.ltb_ge _ _) Hlen).
  set (k := Z.to_nat match GrowthSettings.drawingMode settings with
                     | electric => floor (r0 * 3) + 1
                     | _ => floor (r0 * 2) + 1
                     end).
  set (n := Z.to_nat (numBranches strokePoints settings)).
  enough (H : List.length
                (newBranches
                   (fold_left (fun st i => seedAt strokePoints settings i st)
                      (seq 0 n) (mkLoop h [] [] w)))
              = (List.length (seq 0 n) * k)%nat
              /\ World.random
                   (world
                      (fold_left (fun st i => seedAt strokePoints settings i st)
                         (seq 0 n) (mkLoop h [] [] w)))
                 = (fun _ => r0)).
  { destruct H as [H _]. rewrite H, length_seq. reflexivity. }
  apply (fold_left_prefix
           (fun done st =>
              List.length (newBranches st) = (List.length done * k)%nat
              /\ World.random (world st) = (fun _ => r0))
           (fun i => (i < n)%nat)
           (fun st i => seedAt strokePoints settings i st))
    with (done := []).
  - intros done i st Hi (L & R0).
    destruct (seedAt_count strokePoints settings i st r0 Hlen Hi R0)
      as (L' & R').
    split; [|exact R'].
    rewrite L', L, length_app. fold k. simpl. lia.
  - apply Forall_forall. intros i Hi. apply in_seq in Hi. lia.
  - simpl. auto.
Qed.

Lemma floor_value (x : R) (z : Z) : IZR z <= x < IZR z + 1 -> floor x = z.
Proof. intros H. unfold floor. symmetry. apply Int_part_spec. lra. Qed.

Lemma length_longStroke : List.length longStroke = (167 * 50 + 25)%nat.
Proof. unfold longStroke. rewrite length_map, length_seq. reflexivity. Qed.

Lemma numBranches_longStroke : numBranches longStroke electricSettings = 167%Z.
Proof.
  unfold numBranches, electricSettings.
  cbn [GrowthSettings.drawingMode GrowthSettings.branchComplexity seedParams].
  rewrite length_longStroke, plus_INR, mult_INR, !INR_IZR_INZ.
  simpl Z.of_nat.
  assert (M : Rmin (25 / 100) 0.25 = 0.25)
    by (unfold Rmin; destruct (Rle_dec _ _); lra).
  rewrite M. rewrite (floor_value _ 167) by lra. reflexivity.
Qed.

(** Seeding is not capped: the long stroke gives 167 sampled points with
    three branches each. *)
Lemma longStroke_overflows :
  List.length
    (newBranches (generateBranches longStroke electricSettings [] greedyWorld))
  = 501%nat.
Proof.
  rewrite (generateBranches_count longStroke electricSettings [] greedyWorld 0.9).
  - rewrite numBranches_longStroke. simpl GrowthSettings.drawingMode.
    cbv iota. rewrite (floor_value _ 2) by lra. reflexivity.
  - rewrite length_longStroke. lia.
  - reflexivity.
Qed.

(** C1: the population is not capped at 500.  [animateBranches] overruns
    the cap that it sets itself ([maxBranches = 500], the slice of the
    first 500, the two guards [newBranches.length < maxBranches]): given an
    array of 500 branches whose first, fully grown, gets a child, it
    appends the child and still appends the other 499, since
    [newBranches.push(branch)] has no guard, and it returns 501 branches.
    [generateBranches] has no cap at all: a stroke of 8375 points seeded in
    electric mode at complexity 25 is sampled at 167 points, each drawing
    three branches, and 501 branches come back. *)
Theorem C1_cap_is_overrun :
  (List.length crowdArray = 500%nat
   /\ validArray crowd crowdArray
   /\ List.length
        (newBranches
           (animateBranches crowdArray 50 neuralSettings None crowd
              ripeWorld))
      = 501%nat)
  /\ (List.length longStroke = (167 * 50 + 25)%nat
      /\ List.length
           (newBranches
              (generateBranches longStroke electricSettings [] greedyWorld))
         = 501%nat).
Proof.
  split; [|split; [exact length_longStroke|exact longStroke_overflows]].
  split; [unfold crowdArray; apply length_seq|].
  split; [|exact crowd_overflows].
  unfold validArray, crowdArray, crowd. apply Forall_forall.
  intros a Ha. apply in_seq in Ha.
  cbn [List.length]. rewrite repeat_length. lia.
Qed.

End BeyondTheCap.

(** ** Growth engine: runs in a world whose clock ticks *)

Section TickingRuns.

Import JS GrowthAlgorithm GrowthNotions.

Lemma sane_tickingWorld : sane tickingWorld.
Proof. intros n; simpl; lra. Qed.

(** One frame on a canvas whose only branch is growing and stays below its
    target: the branch gets its tick, and nothing else happens. *)
Lemma lone_branch_ticks (b : Branch.t) (growthSpeed : R) (w : World.t) :
  Branch.progress b < Branch.maxProgress b ->
  16 < IZR (World.clock w (World.elapsed w)) - Branch.lastGrowth b ->
  Branch.progress b + growthSpeed / 50 < Branch.maxProgress b ->
  Canvas.animate growthSpeed neuralSettings None (Canvas.mk [b] [0%nat] w [])
  = Canvas.mk
      [Branch.set_lastGrowth (IZR (World.clock w (World.elapsed w)))
         (Branch.set_progress (Branch.progress b + growthSpeed / 50) b)]
      [0%nat]
      (World.mk (World.random w) (World.drawn w) (World.clock w)
         (S (World.elapsed w)))
      [].
Proof.
  intros P T Q.
  unfold Canvas.animate, animateBranches, World.Date_now.
  cbn [Canvas.heap Canvas.branches Canvas.world Canvas.log].
  cbv beta iota zeta. unfold maxBranches. cbn [firstn fold_left].
  unfold visit. cbn [heap nth_error].
  unfold tick, grow. cbv beta iota zeta.
  rewrite (proj2 (lt_true_iff _ _) P), (proj2 (gt_true_iff _ _) T).
  cbn [andb].
  assert (M : Rmin (Branch.maxProgress b) (Branch.progress b + growthSpeed / 50)
              = Branch.progress b + growthSpeed / 50)
    by (apply Rmin_right; lra).
  rewrite M.
  cbn [Branch.progress Branch.maxProgress Branch.set_progress
       Branch.set_lastGrowth GrowthSettings.particleEffects neuralSettings
       andb].
  destruct (endpoint _) as [ex ey] eqn:EP. cbv beta iota zeta.
  cbn [heap newBranches calls world modify app].
  unfold branching. simpl.
  rewrite (proj2 (ge_false_iff _ _)) by exact Q.
  simpl. unfold pulse. simpl.
  rewrite (proj2 (ge_false_iff _ _)) by exact Q.
  reflexivity.
Qed.

(** Seeding the short stroke on the empty canvas makes one branch. *)
Lemma shortStroke_generated :
  exists b w,
    generateBranches shortStroke neuralSettings [] tickingWorld
    = mkLoop [b] [0%nat] [] w
    /\ Branch.progress b = 0 /\ Branch.maxProgress b = 60
    /\ Branch.lastGrowth b = 0
    /\ World.clock w = World.clock tickingWorld
    /\ World.elapsed w = 1%nat.
Proof.
  assert (N : numBranches shortStroke neuralSettings = 1%Z).
  { unfold numBranches, neuralSettings, shortStroke.
    cbn [GrowthSettings.drawingMode GrowthSettings.branchComplexity
         seedParams List.length].
    assert (M : Rmin (15 / 100) 0.25 = 15 / 100)
      by (apply Rmin_left; lra).
    rewrite M. change (INR 2) with (1 + 1).
    rewrite (floor_value _ 0) by (simpl; lra). reflexivity. }
  unfold generateBranches.
  change (List.length shortStroke <? 2)%nat with false. cbv iota.
  rewrite N. change (Z.to_nat 1) with 1%nat. cbn [seq fold_left].
  unfold seedAt. rewrite N.
  cbn [GrowthSettings.drawingMode neuralSettings seedParams].
  cbv beta iota zeta.
  change (Z.of_nat (List.length shortStroke)) with 2%Z.
  assert (F0 : floor (IZR (2 - 1) * (INR 0 / IZR 1)) = 0%Z).
  { apply floor_value. simpl. lra. }
  rewrite F0.
  change (index shortStroke 0) with (Some (Point.mk 0 0)).
  change (index shortStroke (0 + 1)) with (Some (Point.mk 100 0)).
  cbv beta iota zeta.
  change (0 <? 2 - 1)%Z with true. cbv iota.
  cbn [world set_world heap newBranches calls].
  unfold World.Math_random at 1.
  cbn [tickingWorld World.random World.drawn World.clock World.elapsed].
  cbv beta iota zeta.
  assert (F1 : (floor (0 * 2) + 1)%Z = 1%Z).
  { rewrite (floor_value _ 0) by (simpl; lra). reflexivity. }
  rewrite F1. change (Z.to_nat 1) with 1%nat. cbn [seedBranches].
  unfold seedOne, getRandomColor, World.Math_random, World.Date_now, push_new.
  cbn [world set_world heap newBranches calls World.random World.drawn
       World.clock World.elapsed GrowthSettings.drawingMode neuralSettings
       Z.eqb GrowthSettings.selectedColor List.length app].
  cbv beta iota zeta.
  cbn [world set_world heap newBranches calls World.random World.drawn
       World.clock World.elapsed List.length app].
  eexists. eexists. split; [reflexivity|].
  cbn [Branch.progress Branch.maxProgress Branch.lastGrowth World.clock
       World.elapsed].
  split; [reflexivity|]. split; [lra|]. split; [simpl; lra|].
  split; reflexivity.
Qed.

Lemma shortStroke_seeded :
  exists b w,
    Canvas.stopDrawing shortStroke neuralSettings (Canvas.init tickingWorld)
    = Canvas.mk [b] [0%nat] w []
    /\ Branch.progress b = 0 /\ Branch.maxProgress b = 60
    /\ Branch.lastGrowth b = 0
    /\ World.clock w = World.clock tickingWorld
    /\ World.elapsed w = 1%nat.
Proof.
  destruct shortStroke_generated as (b & w & E & H).
  exists b, w. split; [|exact H].
  unfold Canvas.stopDrawing.
  cbn [Canvas.init Canvas.heap Canvas.world Canvas.branches Canvas.log].
  rewrite E. reflexivity.
Qed.

(** In the ticking world, a frame makes the lone branch grow whenever it
    stays below its target. *)
Lemma ticking_frame (b : Branch.t) (w : World.t) (k : nat) (growthSpeed : R) :
  World.clock w = World.clock tickingWorld ->
  World.elapsed w = S k ->
  Branch.lastGrowth b = IZR (1000 * Z.of_nat k) ->
  Branch.progress b < Branch.maxProgress b ->
  Branch.progress b + growthSpeed / 50 < Branch.maxProgress b ->
  exists b' w',
    Canvas.animate growthSpeed neuralSettings None
      (Canvas.mk [b] [0%nat] w [])
    = Canvas.mk [b'] [0%nat] w' []
    /\ Branch.progress b' = Branch.progress b + growthSpeed / 50
    /\ Branch.maxProgress b' = Branch.maxProgress b
    /\ Branch.lastGrowth b' = IZR (1000 * Z.of_nat (S k))
    /\ World.clock w' = World.clock tickingWorld
    /\ World.elapsed w' = S (S k).
Proof.
  intros C E L P Q.
  assert (Now : IZR (World.clock w (World.elapsed w))
                = IZR (1000 * Z.of_nat k) + 1000).
  { rewrite C, E. cbn [tickingWorld World.clock].
    rewrite Nat2Z.inj_succ.
    replace (1000 * Z.succ (Z.of_nat k))%Z
      with (1000 * Z.of_nat k + 1000)%Z by lia.
    rewrite plus_IZR. reflexivity. }
  rewrite lone_branch_ticks; [|exact P|rewrite Now, L; lra|exact Q].
  eexists. eexists. split; [reflexivity|].
  cbn [Branch.progress Branch.maxProgress Branch.lastGrowth
       Branch.set_progress Branch.set_lastGrowth World.clock World.elapsed].
  split; [reflexivity|]. split; [reflexivity|].
  split; [rewrite C, E; reflexivity|].
  split; [exact C|rewrite E; reflexivity].
Qed.

(** The short run in the ticking world: the branch that the stroke seeds
    grows at each of the three frames. *)
Lemma shortRun_grows :
  exists b,
    Canvas.heap (Canvas.run shortRun (Canvas.init tickingWorld)) = [b]
    /\ Branch.progress b = 3 /\ Branch.maxProgress b = 60.
Proof.
  unfold shortRun, Canvas.run. cbn [fold_left Canvas.apply].
  destruct shortStroke_seeded as (b & w & -> & P & M & L & C & E).
  destruct (ticking_frame b w 0 50 C E)
    as (b1 & w1 & -> & P1 & M1 & L1 & C1 & E1);
    [rewrite L; reflexivity|lra|lra|].
  destruct (ticking_frame b1 w1 1 50 C1 E1 L1)
    as (b2 & w2 & -> & P2 & M2 & L2 & C2 & E2); [lra|lra|].
  destruct (ticking_frame b2 w2 2 50 C2 E2 L2)
    as (b3 & w3 & -> & P3 & M3 & L3 & C3 & E3); [lra|lra|].
  exists b3. split; [reflexivity|]. split; lra.
Qed.

(** C8: a frame animated at a negative growth speed takes the progress of
    a growing branch below 0.  The short stroke is seeded on the empty
    canvas, which makes one branch, of progress 0; one frame at the growth
    speed [-50] leaves it with the progress [-1]. *)
Lemma C8_counterexample :
  let c := Canvas.run backwardRun (Canvas.init tickingWorld) in
  sane tickingWorld
  /\ exists b,
       Canvas.heap c = [b]
       /\ Canvas.branches c = [0%nat]
       /\ Branch.progress b = -1
       /\ Branch.maxProgress b = 60
       /\ ~ inv b.
Proof.
  cbv zeta. split; [exact sane_tickingWorld|].
  unfold backwardRun, Canvas.run. cbn [fold_left Canvas.apply].
  destruct shortStroke_seeded as (b & w & -> & P & M & L & C & E).
  destruct (ticking_frame b w 0 (-50) C E)
    as (b1 & w1 & -> & P1 & M1 & _); [rewrite L; reflexivity|lra|lra|].
  exists b1. split; [reflexivity|]. split; [reflexivity|].
  split; [lra|]. split; [lra|].
  unfold inv. lra.
Qed.

(** C8 on the short run in the ticking world: the stroke seeds one branch,
    which grows at each of the three frames and has the progress 3 at the
    end. *)
Lemma C8_progress_and_generation_bounds_witness :
  let c := Canvas.run shortRun (Canvas.init tickingWorld) in
  (exists b,
     Canvas.heap c = [b]
     /\ Branch.progress b = 3 /\ Branch.maxProgress b = 60)
  /\ Forall inv (Canvas.heap c)
  /\ (forall a, In a (Canvas.branches c) ->
      exists b, nth_error (Canvas.heap c) a = Some b /\ inv b).
Proof.
  split; [exact shortRun_grows|].
  apply (C8_progress_and_generation_bounds shortRun tickingWorld).
  - exact sane_tickingWorld.
  - assert (S : okOp (Canvas.Step 50 neuralSettings None))
      by (split; [lra | exact saneCallback_None]).
    unfold shortRun.
    apply Forall_cons; [exact I|].
    apply Forall_cons; [exact S|].
    apply Forall_cons; [exact S|].
    apply Forall_cons; [exact S|].
    apply Forall_nil.
Defined.

End TickingRuns.

(** ** Physics engine: what a step leaves alone *)

Section FixedPoints.

Import JS PhysicsSimulation PhysicsNotions.

Lemma stays_refl (p : PhysicsPoint.t) : stays p p.
Proof. unfold stays; repeat split; auto. Qed.

Lemma stays_trans (p q r : PhysicsPoint.t) : stays p q -> stays q r -> stays p r.
Proof.
  unfold stays; intros (M1 & F1 & K1) (M2 & F2 & K2).
  split; [congruence|]. split; [congruence|].
  intros F. destruct (K1 F) as (A & B & C & D).
  rewrite F in F1. destruct (K2 F1) as (A' & B' & C' & D').
  repeat split; congruence.
Qed.

Lemma Forall2_stays_refl (l : list PhysicsPoint.t) : Forall2 stays l l.
Proof. induction l; constructor; auto using stays_refl. Qed.

(** A loop body that only touches free points, applied at one index. *)
Lemma Forall2_stays_modify (f : PhysicsPoint.t -> PhysicsPoint.t) (k : nat)
  (l0 l : list PhysicsPoint.t) :
  (forall q, nth_error l k = Some q -> stays q (f q)) ->
  Forall2 stays l0 l -> Forall2 stays l0 (modify k f l).
Proof.
  intros Hf H; revert k Hf.
  induction H as [|p q l0 l Hpq Hl IH]; intros [|k] Hf; simpl;
    constructor; auto.
  eapply stays_trans; [exact Hpq|]. apply Hf; reflexivity.
Qed.

Lemma Forall2_stays_map (f : PhysicsPoint.t -> PhysicsPoint.t)
  (l0 l : list PhysicsPoint.t) :
  (forall q, stays q (f q)) ->
  Forall2 stays l0 l -> Forall2 stays l0 (map f l).
Proof.
  intros Hf H; induction H; simpl; constructor; auto.
  eapply stays_trans; eauto.
Qed.

Lemma stays_acc (a b : R) (q : PhysicsPoint.t) :
  stays q (PhysicsPoint.set_acc a b q).
Proof. unfold stays; simpl; repeat split; auto. Qed.

Lemma stays_pos (a b : R) (q : PhysicsPoint.t) :
  PhysicsPoint.fixed q = false -> stays q (PhysicsPoint.set_pos a b q).
Proof.
  unfold stays; simpl; intros F. repeat split; auto; congruence.
Qed.

(** The flag of the point at an index, after other points have changed. *)
Lemma stays_free_at (l0 l : list PhysicsPoint.t) (k : nat) (p q : PhysicsPoint.t) :
  Forall2 stays l0 l -> nth_error l0 k = Some p -> nth_error l k = Some q ->
  PhysicsPoint.fixed q = PhysicsPoint.fixed p.
Proof.
  intros H; revert k; induction H as [|a b l0 l Hab Hl IH]; intros [|k];
    simpl; try discriminate.
  - intros [= ->] [= ->]. apply Hab.
  - apply IH.
Qed.

(** Moving two points that are both free when the loop body starts. *)
Lemma Forall2_stays_move (f g : PhysicsPoint.t -> PhysicsPoint.t) (i j : nat)
  (l0 l : list PhysicsPoint.t) (p1 p2 : PhysicsPoint.t) :
  (forall q, PhysicsPoint.fixed q = false -> stays q (f q)) ->
  (forall q, PhysicsPoint.fixed q = false -> stays q (g q)) ->
  nth_error l i = Some p1 -> nth_error l j = Some p2 ->
  Forall2 stays l0 l ->
  Forall2 stays l0
    (let l1 := if PhysicsPoint.fixed p1 then l else modify i f l in
     if PhysicsPoint.fixed p2 then l1 else modify j g l1).
Proof.
  intros Hf Hg E1 E2 H. cbv zeta.
  assert (H1 : Forall2 stays l0
                 (if PhysicsPoint.fixed p1 then l else modify i f l)).
  { destruct (PhysicsPoint.fixed p1) eqn:F1; auto.
    apply Forall2_stays_modify; auto.
    intros q Eq. rewrite E1 in Eq; injection Eq as <-. auto. }
  destruct (PhysicsPoint.fixed p2) eqn:F2; auto.
  apply Forall2_stays_modify; auto.
  intros q Eq. apply Hg.
  assert (L : Forall2 stays l
                (if PhysicsPoint.fixed p1 then l else modify i f l)).
  { destruct (PhysicsPoint.fixed p1) eqn:F1; [apply Forall2_stays_refl|].
    apply Forall2_stays_modify; [|apply Forall2_stays_refl].
    intros q' Eq'. rewrite E1 in Eq'; injection Eq' as <-. auto. }
  rewrite (stays_free_at _ _ j p2 q L E2 Eq). exact F2.
Qed.

Lemma applySpring_stays (spring : PhysicsSpring.t) (l0 l : list PhysicsPoint.t) :
  Forall2 stays l0 l ->
  Forall2 stays l0
    (match applySpring spring l with Returned l' => l' | Threw _ l' => l' end).
Proof.
  intros H. unfold applySpring.
  destruct (index l (PhysicsSpring.point1 spring)) as [p1|]; auto.
  destruct (index l (PhysicsSpring.point2 spring)) as [p2|]; auto.
  destruct (gt _ 0); auto.
  destruct (PhysicsPoint.fixed p1), (PhysicsPoint.fixed p2); auto;
    repeat (apply Forall2_stays_modify;
            [intros; apply stays_acc|]); auto.
Qed.

Lemma resolvePair_stays (i j : nat) (l0 l : list PhysicsPoint.t) :
  Forall2 stays l0 l -> Forall2 stays l0 (resolvePair i j l).
Proof.
  intros H. unfold resolvePair.
  destruct (nth_error l i) as [p1|] eqn:E1; auto.
  destruct (nth_error l j) as [p2|] eqn:E2; auto.
  destruct (lt _ _ && gt _ _); auto.
  apply (Forall2_stays_move _ _ i j l0 l p1 p2); auto;
    intros q F; apply stays_pos; exact F.
Qed.

Lemma applyConstraint_stays (c : PhysicsConstraint.t)
  (l0 l : list PhysicsPoint.t) :
  Forall2 stays l0 l ->
  Forall2 stays l0
    (match applyConstraint c l with Returned l' => l' | Threw _ l' => l' end).
Proof.
  intros H. unfold applyConstraint.
  destruct (PhysicsConstraint.type c); auto.
  destruct (PhysicsConstraint.points c) as [|c0 [|c1 [|c2 rest]]]; auto.
  destruct (index l c0) as [p1|] eqn:E1; auto.
  destruct (index l c1) as [p2|] eqn:E2; auto.
  destruct (gt _ 0); auto.
  apply index_Some in E1, E2. destruct E1 as [_ E1], E2 as [_ E2].
  apply (Forall2_stays_move _ _ _ _ l0 l p1 p2); auto;
    intros q F; apply stays_pos; exact F.
Qed.

(** An invariant of a loop body, thrown or returned, is one of the loop. *)
Lemma forEach_any {A S : Type} (body : A -> S -> Outcome S) (P : S -> Prop)
  (arr : list A) :
  (forall a s, P s ->
     P (match body a s with Returned s' => s' | Threw _ s' => s' end)) ->
  forall s, P s ->
    P (match forEach body arr s with Returned s' => s' | Threw _ s' => s' end).
Proof.
  intros Hbody; induction arr as [|a rest IH]; intros s Hs; simpl; auto.
  specialize (Hbody a s Hs). destruct (body a s); auto.
Qed.

Lemma forcePass_stays (s : t) : Forall2 stays (points s) (forcePass s).
Proof.
  unfold forcePass.
  assert (H0 : Forall2 stays (points s) (map resetAcceleration (points s))).
  { apply Forall2_stays_map; [|apply Forall2_stays_refl].
    intros q; apply stays_acc. }
  assert (H1 : Forall2 stays (points s)
                 (if gt (gravity s) 0
                  then map (applyGravity (gravity s))
                         (map resetAcceleration (points s))
                  else map resetAcceleration (points s))).
  { destruct (gt (gravity s) 0); auto.
    apply Forall2_stays_map; auto.
    intros q; unfold applyGravity.
    destruct (PhysicsPoint.fixed q); [apply stays_refl|apply stays_acc]. }
  destruct (neq _ _ || neq _ _); auto.
  apply Forall2_stays_map; auto.
  intros q; unfold applyWind.
  destruct (PhysicsPoint.fixed q); [apply stays_refl|apply stays_acc].
Qed.

Lemma integratePoint_stays (deltaTime width height : R) (q : PhysicsPoint.t) :
  stays q (integratePoint deltaTime width height q).
Proof.
  unfold integratePoint.
  destruct (PhysicsPoint.fixed q) eqn:F; [apply stays_refl|].
  destruct (bounce width _ _) as [x vx], (bounce height _ _) as [y vy].
  unfold stays; simpl. repeat split; auto; congruence.
Qed.

(** Whether it returns or throws, [update] keeps the springs, the
    constraints, the wind, the gravity and the canvas as they are, neither
    adds nor removes a point, changes no mass and no [fixed] flag, and
    leaves the position and the velocity of every fixed point alone. *)
Theorem update_leaves_fixed_points_alone (deltaTime : R) (s : t) :
  let s' := engineOf (update deltaTime s) in
  springs s' = springs s
  /\ constraints s' = constraints s
  /\ wind s' = wind s
  /\ gravity s' = gravity s
  /\ canvasWidth s' = canvasWidth s
  /\ canvasHeight s' = canvasHeight s
  /\ Forall2 stays (points s) (points s').
Proof.
  cbv zeta. unfold update.
  pose proof (forEach_any applySpring (Forall2 stays (points s)) (springs s)
                (fun a l H => applySpring_stays a (points s) l H)
                (forcePass s) (forcePass_stays s)) as H1.
  destruct (forEach applySpring (springs s) (forcePass s)) as [l1|e l1];
    [|simpl; repeat split; auto].
  assert (H2 : Forall2 stays (points s) (collisionPass l1)).
  { apply (collisionPass_invariant (Forall2 stays (points s))); auto.
    intros i j l H; apply resolvePair_stays; exact H. }
  pose proof (forEach_any applyConstraint (Forall2 stays (points s))
                (constraints s)
                (fun a l H => applyConstraint_stays a (points s) l H)
                (collisionPass l1) H2) as H3.
  destruct (forEach applyConstraint (constraints s) (collisionPass l1))
    as [l2|e l2]; simpl; repeat split; auto.
  apply Forall2_stays_map; auto.
  intros q; apply integratePoint_stays.
Qed.

End FixedPoints.

(** ** Physics engine: forces applied from outside *)

Section AppliedForce.

Import JS PhysicsSimulation PhysicsNotions.

Lemma update_set_points (deltaTime : R) (l : list PhysicsPoint.t) (s : t) :
  map resetAcceleration l = map resetAcceleration (points s) ->
  update deltaTime (set_points l s) = update deltaTime s.
Proof.
  intros H. unfold update, forcePass; simpl. rewrite H. reflexivity.
Qed.

(** A force handed to [applyForceToPoint] is lost: the method adds to the
    acceleration of the point, and the first loop of [update] sets every
    acceleration back to zero, so the step that follows is the step the
    engine would have made without the call. *)
Theorem applied_force_is_lost (k : Z) (fx fy deltaTime : R) (s : t) :
  update deltaTime (applyForceToPoint k fx fy s) = update deltaTime s.
Proof.
  unfold applyForceToPoint.
  destruct ((k >=? 0) && (k <? _))%Z; auto.
  destruct (index (points s) k) as [p|]; auto.
  destruct (PhysicsPoint.fixed p); auto.
  apply update_set_points. apply map_modify_same. reflexivity.
Qed.

End AppliedForce.

(** ** Physics engine: the three cases of [addSpring] *)

Section AddSpring.

Import JS PhysicsSimulation PhysicsNotions.

Lemma pow2_dist (a b : R) : sqrt (pow a 2 + pow b 2) = dist a b.
Proof. unfold dist. f_equal. ring. Qed.

Lemma addSpring_in_range (point1 point2 : Z) (stiffness damping : R) (s : t)
  (p1 p2 : PhysicsPoint.t) :
  index (points s) point1 = Some p1 -> index (points s) point2 = Some p2 ->
  addSpring point1 point2 stiffness damping s
  = Returned
      (mk (points s)
          (springs s
           ++ [PhysicsSpring.mk point1 point2 (separation p1 p2)
                 stiffness damping])
          (constraints s) (wind s) (gravity s)
          (canvasWidth s) (canvasHeight s)).
Proof.
  intros E1 E2. unfold addSpring.
  destruct (index_Some _ _ _ E1) as [H1 _].
  destruct (index_Some _ _ _ E2) as [H2 _].
  replace ((point1 >=? Z.of_nat (List.length (points s)))
           || (point2 >=? Z.of_nat (List.length (points s))))%Z with false.
  - rewrite E1, E2. cbv zeta. rewrite pow2_dist. reflexivity.
  - symmetry. apply orb_false_iff. rewrite !Z.geb_leb.
    split; apply Z.leb_gt; lia.
Qed.

(** [addSpring] silently does nothing when an index is at or above the
    number of points; it throws a [TypeError] when both are below and one
    is negative; otherwise it stores one spring between the two points,
    whose rest length is their present distance. *)
Theorem addSpring_cases (point1 point2 : Z) (stiffness damping : R) (s : t) :
  let n := Z.of_nat (List.length (points s)) in
  ((n <= point1 \/ n <= point2)%Z ->
   addSpring point1 point2 stiffness damping s = Returned s)
  /\ ((point1 < n)%Z -> (point2 < n)%Z -> (point1 < 0 \/ point2 < 0)%Z ->
      addSpring point1 point2 stiffness damping s = Threw TypeError s)
  /\ ((0 <= point1 < n)%Z -> (0 <= point2 < n)%Z ->
      exists p1 p2,
        index (points s) point1 = Some p1
        /\ index (points s) point2 = Some p2
        /\ addSpring point1 point2 stiffness damping s
           = Returned
               (mk (points s)
                   (springs s
                    ++ [PhysicsSpring.mk point1 point2 (separation p1 p2)
                          stiffness damping])
                   (constraints s) (wind s) (gravity s)
                   (canvasWidth s) (canvasHeight s))).
Proof.
  cbv zeta. split; [apply addSpring_above_range|].
  assert (G : (point1 < Z.of_nat (List.length (points s)))%Z ->
              (point2 < Z.of_nat (List.length (points s)))%Z ->
              ((point1 >=? Z.of_nat (List.length (points s)))
               || (point2 >=? Z.of_nat (List.length (points s))))%Z = false).
  { intros H1 H2. apply orb_false_iff. rewrite !Z.geb_leb.
    split; apply Z.leb_gt; lia. }
  split.
  - intros H1 H2 N. unfold addSpring. rewrite (G H1 H2).
    destruct N as [N|N].
    + unfold index at 1. rewrite (proj2 (Z.ltb_lt point1 0) N). reflexivity.
    + destruct (index (points s) point1); [|reflexivity].
      unfold index. rewrite (proj2 (Z.ltb_lt point2 0) N). reflexivity.
  - intros H1 H2.
    destruct (index_in_range (points s) _ H1) as [p1 E1].
    destruct (index_in_range (points s) _ H2) as [p2 E2].
    exists p1, p2. split; [exact E1|]. split; [exact E2|].
    apply addSpring_in_range; assumption.
Qed.

End AddSpring.

(** ** Physics engine: removing a point *)

Section RemovePoint.

Import JS JSArray PhysicsSimulation PhysicsNotions.

Lemma length_splice1 {A : Type} (k : nat) (l : list A) :
  (k < List.length l)%nat ->
  List.length (splice1 k l) = (List.length l - 1)%nat.
Proof.
  intros H. unfold splice1.
  rewrite length_app, length_firstn, length_skipn. lia.
Qed.

Lemma nth_error_splice1 {A : Type} (k i : nat) (l : list A) :
  nth_error (splice1 k l) i
  = if (i <? k)%nat then nth_error l i else nth_error l (S i).
Proof.
  unfold splice1. rewrite nth_error_app, length_firstn.
  destruct (Nat.lt_ge_cases k (List.length l)) as [H|H].
  - rewrite Nat.min_l by lia.
    destruct (i <? k)%nat eqn:E.
    + rewrite nth_error_firstn, E. reflexivity.
    + apply Nat.ltb_ge in E. rewrite nth_error_skipn. f_equal. lia.
  - rewrite Nat.min_r by lia.
    destruct (i <? List.length l)%nat eqn:E.
    + apply Nat.ltb_lt in E.
      rewrite (proj2 (Nat.ltb_lt i k)) by lia.
      rewrite nth_error_firstn, (proj2 (Nat.ltb_lt i k)) by lia. reflexivity.
    + apply Nat.ltb_ge in E. rewrite nth_error_skipn.
      rewrite (proj2 (nth_error_None l _)) by lia.
      destruct (i <? k)%nat; symmetry; apply nth_error_None; lia.
Qed.

(** An index other than the removed one names the same point after the
    shift as before. *)
Lemma index_shiftIndex {A : Type} (removed k : Z) (l : list A) :
  (0 <= removed)%Z -> k <> removed ->
  index (splice1 (Z.to_nat removed) l) (shiftIndex removed k) = index l k.
Proof.
  intros H0 N. unfold shiftIndex, index.
  destruct (k >? removed)%Z eqn:G.
  - apply Z.gtb_lt in G.
    rewrite (proj2 (Z.ltb_ge (k - 1) 0)) by lia.
    rewrite (proj2 (Z.ltb_ge k 0)) by lia.
    rewrite nth_error_splice1.
    rewrite (proj2 (Nat.ltb_ge _ _)) by lia.
    f_equal. lia.
  - rewrite Z.gtb_ltb in G. apply Z.ltb_ge in G.
    destruct (k <? 0)%Z eqn:K; [reflexivity|].
    apply Z.ltb_ge in K.
    rewrite nth_error_splice1.
    rewrite (proj2 (Nat.ltb_lt _ _)) by lia. reflexivity.
Qed.

Lemma shiftIndex_valid (removed k n : Z) :
  (0 <= removed < n)%Z -> (0 <= k < n)%Z -> k <> removed ->
  (0 <= shiftIndex removed k < n - 1)%Z.
Proof.
  intros Hr Hk N. unfold shiftIndex.
  destruct (k >? removed)%Z eqn:G.
  - apply Z.gtb_lt in G. lia.
  - rewrite Z.gtb_ltb in G. apply Z.ltb_ge in G. lia.
Qed.

Lemma Forall2_map_filter {A : Type} (R : A -> A -> Prop) (f : A -> bool)
  (g : A -> A) (l : list A) :
  (forall a, In a l -> f a = true -> R a (g a)) ->
  Forall2 R (filter f l) (map g (filter f l)).
Proof.
  intros H. induction l as [|a l IH]; simpl; [constructor|].
  destruct (f a) eqn:E; simpl.
  - constructor; [apply H; simpl; auto|]. apply IH.
    intros b Hb; apply H; simpl; auto.
  - apply IH. intros b Hb; apply H; simpl; auto.
Qed.

Lemma untouched_spring (k : Z) (spring : PhysicsSpring.t) :
  negb (touchesSpring k spring) = true ->
  PhysicsSpring.point1 spring <> k /\ PhysicsSpring.point2 spring <> k.
Proof.
  unfold touchesSpring. rewrite negb_true_iff, orb_false_iff.
  intros [H1 H2]. apply Z.eqb_neq in H1, H2. auto.
Qed.

Lemma untouched_constraint (k : Z) (c : PhysicsConstraint.t) :
  negb (touchesConstraint k c) = true ->
  Forall (fun j => j <> k) (PhysicsConstraint.points c).
Proof.
  unfold touchesConstraint. rewrite negb_true_iff.
  induction (PhysicsConstraint.points c) as [|j l IH]; simpl; [constructor|].
  rewrite orb_false_iff. intros [H1 H2]. constructor; auto.
  apply Z.eqb_neq in H1. congruence.
Qed.

Lemma removePoint_wellFormed (k : Z) (s : t) :
  wellFormed s -> wellFormed (removePoint k s).
Proof.
  intros [Ws Wc]. unfold removePoint.
  destruct ((k >=? 0) && (k <? Z.of_nat (List.length (points s))))%Z eqn:G;
    [|split; assumption].
  apply andb_true_iff in G. rewrite Z.geb_leb in G.
  destruct G as [G1 G2]. apply Z.leb_le in G1. apply Z.ltb_lt in G2.
  cbv zeta.
  assert (Hlen : List.length (splice1 (Z.to_nat k) (points s))
                 = (List.length (points s) - 1)%nat)
    by (apply length_splice1; lia).
  unfold wellFormed, validSpring, validConstraint, validIndex; simpl.
  rewrite Hlen.
  replace (Z.of_nat (List.length (points s) - 1))
    with (Z.of_nat (List.length (points s)) - 1)%Z by lia.
  split.
  - apply Forall_map, Forall_forall. intros a Ha.
    apply filter_In in Ha. destruct Ha as [Ha U].
    apply andb_true_iff in U. rewrite !negb_true_iff in U.
    destruct U as [N1 N2]. apply Z.eqb_neq in N1, N2.
    rewrite Forall_forall in Ws. destruct (Ws a Ha) as [V1 V2].
    unfold validIndex in V1, V2. simpl.
    split; apply shiftIndex_valid; auto; lia.
  - apply Forall_map, Forall_forall. intros a Ha.
    apply filter_In in Ha. destruct Ha as [Ha U].
    pose proof (untouched_constraint k a U) as N.
    rewrite Forall_forall in Wc. specialize (Wc a Ha).
    unfold validConstraint, validIndex in Wc. simpl.
    apply Forall_map. clear U.
    induction N as [|j l Hj Hl IH]; [constructor|].
    inversion Wc as [|? ? V0 V']; subst. constructor; [|apply IH; exact V'].
    apply shiftIndex_valid; auto; lia.
Qed.

(** [removePoint] with an index that names no point does nothing.  With the
    index of a point, it takes that point out of the array together with
    the springs and the constraints that name it, and renumbers the others
    so that every spring and constraint that is left joins the very points
    it joined before, with the parameters it had; an engine whose springs
    and constraints all name existing points stays so. *)
Theorem removePoint_keeps_the_other_references (k : Z) (s : t) :
  let s' := removePoint k s in
  (~ validIndex s k -> s' = s)
  /\ (validIndex s k ->
      List.length (points s') = (List.length (points s) - 1)%nat
      /\ (forall j, j <> k ->
          index (points s') (shiftIndex k j) = index (points s) j)
      /\ Forall2 (sameSpring s s')
           (filter (fun spring => negb (touchesSpring k spring)) (springs s))
           (springs s')
      /\ Forall2 (sameConstraint s s')
           (filter (fun c => negb (touchesConstraint k c)) (constraints s))
           (constraints s')
      /\ wind s' = wind s /\ gravity s' = gravity s
      /\ canvasWidth s' = canvasWidth s /\ canvasHeight s' = canvasHeight s
      /\ (wellFormed s -> wellFormed s')).
Proof.
  cbv zeta. unfold validIndex, removePoint.
  destruct ((k >=? 0) && (k <? Z.of_nat (List.length (points s))))%Z eqn:G.
  2:{ split; [reflexivity|]. intros V.
      apply andb_false_iff in G. rewrite Z.geb_leb in G.
      destruct G as [G|G]; [apply Z.leb_gt in G|apply Z.ltb_ge in G]; lia. }
  apply andb_true_iff in G. rewrite Z.geb_leb in G.
  destruct G as [G1 G2]. apply Z.leb_le in G1. apply Z.ltb_lt in G2.
  split; [intros V; lia|]. intros _. cbv zeta; simpl.
  assert (Fs : forall l : list PhysicsSpring.t,
             filter (fun spring =>
                       negb (PhysicsSpring.point1 spring =? k)%Z
                       && negb (PhysicsSpring.point2 spring =? k)%Z) l
             = filter (fun spring => negb (touchesSpring k spring)) l).
  { intros l; apply filter_ext; intros a. unfold touchesSpring.
    rewrite negb_orb. reflexivity. }
  rewrite Fs. fold (touchesConstraint k).
  assert (Hlen : List.length (splice1 (Z.to_nat k) (points s))
                 = (List.length (points s) - 1)%nat)
    by (apply length_splice1; lia).
  split; [exact Hlen|].
  split; [intros j N; apply index_shiftIndex; auto|].
  split.
  { apply Forall2_map_filter. intros a _ U.
    destruct (untouched_spring k a U) as [N1 N2].
    unfold sameSpring; simpl.
    rewrite !index_shiftIndex by auto. repeat split; reflexivity. }
  split.
  { apply (Forall2_map_filter (sameConstraint s _)
             (fun c => negb (touchesConstraint k c))).
    intros a _ U. pose proof (untouched_constraint k a U) as N.
    unfold sameConstraint; simpl. split; [|repeat split; reflexivity].
    rewrite map_map.
    induction N as [|j l Hj Hl IH]; simpl; [reflexivity|].
    rewrite index_shiftIndex by auto. f_equal. exact IH. }
  repeat (split; [reflexivity|]).
  intros W. pose proof (removePoint_wellFormed k s W) as W'.
  unfold removePoint in W'.
  rewrite (proj2 (andb_true_iff _ _)) in W'; [rewrite Fs in W'; exact W'|].
  rewrite Z.geb_leb. split; [apply Z.leb_le|apply Z.ltb_lt]; lia.
Qed.

Lemma filter_all {A : Type} (f : A -> bool) (l : list A) :
  Forall (fun a => f a = true) l -> filter f l = l.
Proof.
  induction 1 as [|a l Ha Hl IH]; simpl; [reflexivity|].
  rewrite Ha, IH. reflexivity.
Qed.

Lemma map_id_on {A : Type} (g : A -> A) (l : list A) :
  Forall (fun a => g a = a) l -> map g l = l.
Proof.
  induction 1 as [|a l Ha Hl IH]; simpl; [reflexivity|].
  rewrite Ha, IH. reflexivity.
Qed.

Lemma splice1_last {A : Type} (l : list A) (a : A) :
  splice1 (List.length l) (l ++ [a]) = l.
Proof.
  unfold splice1. induction l as [|b l IH]; simpl; [reflexivity|].
  f_equal. exact IH.
Qed.

(** Removing the point that [addPoint] has just added gives the engine back
    as it was, when its springs and constraints name existing points. *)
Theorem removePoint_undoes_addPoint (x y mass : R) (fixed : bool) (s : t) :
  wellFormed s ->
  removePoint (fst (addPoint x y mass fixed s)) (snd (addPoint x y mass fixed s))
  = s.
Proof.
  intros [Ws Wc]. unfold addPoint, removePoint; simpl.
  rewrite length_app; simpl.
  set (n := List.length (points s)).
  replace ((Z.of_nat n >=? 0) && (Z.of_nat n <? Z.of_nat (n + 1)))%Z with true
    by (symmetry; apply andb_true_iff; rewrite Z.geb_leb;
        split; [apply Z.leb_le|apply Z.ltb_lt]; lia).
  rewrite Nat2Z.id. unfold n at 1. rewrite splice1_last. fold n.
  assert (S1 : forall j, (0 <= j < Z.of_nat n)%Z ->
               (j =? Z.of_nat n)%Z = false
               /\ shiftIndex (Z.of_nat n) j = j).
  { intros j Hj. split; [apply Z.eqb_neq; lia|].
    unfold shiftIndex. rewrite Z.gtb_ltb.
    rewrite (proj2 (Z.ltb_ge _ _)) by lia. reflexivity. }
  rewrite filter_all.
  2:{ eapply Forall_impl; [|exact Ws]. intros a [V1 V2].
      rewrite (proj1 (S1 _ V1)), (proj1 (S1 _ V2)). reflexivity. }
  rewrite filter_all.
  2:{ eapply Forall_impl; [|exact Wc]. intros a V.
      apply negb_true_iff. unfold validConstraint in V.
      induction V as [|j l Hj Hl IH]; simpl; [reflexivity|].
      rewrite IH, orb_false_r. rewrite Z.eqb_sym. apply (S1 _ Hj). }
  rewrite map_id_on.
  2:{ eapply Forall_impl; [|exact Ws]. intros a [V1 V2].
      rewrite (proj2 (S1 _ V1)), (proj2 (S1 _ V2)). destruct a; reflexivity. }
  rewrite map_id_on.
  2:{ eapply Forall_impl; [|exact Wc]. intros a V.
      rewrite map_id_on; [destruct a; reflexivity|].
      eapply Forall_impl; [|exact V]. intros j Hj. apply (S1 _ Hj). }
  destruct s; reflexivity.
Qed.

End RemovePoint.

(** ** Physics engine: chains of points *)

Section Chains.

Import JS PhysicsSimulation PhysicsNotions.

Lemma set_points_twice (l l' : list PhysicsPoint.t) (s : t) :
  set_points l (set_points l' s) = set_points l s.
Proof. reflexivity. Qed.

Lemma addBranchPoints_free (i : nat) (pts : list (R * R)) (mass : R)
  (indices : list Z) (s : t) :
  addBranchPoints (S i) pts mass indices s
  = (indices ++ map Z.of_nat (seq (List.length (points s)) (List.length pts)),
     set_points (points s ++ map (restingPoint mass false) pts) s).
Proof.
  revert i indices s.
  induction pts as [|p pts IH]; intros i indices s; simpl.
  - rewrite !app_nil_r. destruct s; reflexivity.
  - rewrite IH. simpl. rewrite length_app; simpl.
    rewrite Nat.add_1_r, <- !app_assoc. reflexivity.
Qed.

Lemma addBranchPoints_first (pts : list (R * R)) (mass : R) (s : t) :
  addBranchPoints 0 pts mass [] s
  = (map Z.of_nat (seq (List.length (points s)) (List.length pts)),
     set_points (points s ++ chainPoints pts mass) s).
Proof.
  destruct pts as [|p pts]; simpl.
  - rewrite app_nil_r. destruct s; reflexivity.
  - rewrite addBranchPoints_free. simpl. rewrite length_app; simpl.
    rewrite Nat.add_1_r, <- !app_assoc. reflexivity.
Qed.

Lemma index_app_middle {A : Type} (pre post : list A) (a : A) :
  index (pre ++ a :: post) (Z.of_nat (List.length pre)) = Some a.
Proof.
  unfold index. rewrite (proj2 (Z.ltb_ge _ _)) by lia.
  rewrite Nat2Z.id, nth_error_app2, Nat.sub_diag by lia. reflexivity.
Qed.

Lemma connectBranch_chain (ql pre : list PhysicsPoint.t) (s : t) :
  points s = pre ++ ql ->
  connectBranch (map Z.of_nat (seq (List.length pre) (List.length ql))) s
  = Returned
      (mk (points s)
          (springs s ++ chainSprings (List.length pre) (map coordinates ql))
          (constraints s) (wind s) (gravity s)
          (canvasWidth s) (canvasHeight s)).
Proof.
  revert pre s. induction ql as [|q1 ql IH]; intros pre s E.
  - simpl. rewrite app_nil_r. destruct s; reflexivity.
  - destruct ql as [|q2 ql].
    + simpl. rewrite app_nil_r. destruct s; reflexivity.
    + change (connectBranch _ s)
        with (match addSpring (Z.of_nat (List.length pre))
                      (Z.of_nat (S (List.length pre))) 0.2 0.98 s with
              | Returned s0 =>
                  connectBranch
                    (map Z.of_nat
                       (seq (S (List.length pre)) (List.length (q2 :: ql)))) s0
              | Threw e s0 => Threw e s0
              end).
      rewrite (addSpring_in_range _ _ _ _ s q1 q2).
      * specialize (IH (pre ++ [q1])).
        rewrite length_app, Nat.add_1_r in IH.
        rewrite IH by (simpl; rewrite E, <- app_assoc; reflexivity).
        simpl. rewrite <- app_assoc. simpl.
        unfold separation. rewrite <- pow2_dist. reflexivity.
      * rewrite E. apply index_app_middle.
      * rewrite E.
        replace (pre ++ q1 :: q2 :: ql) with ((pre ++ [q1]) ++ q2 :: ql)
          by (rewrite <- app_assoc; reflexivity).
        replace (S (List.length pre)) with (List.length (pre ++ [q1]))
          by (rewrite length_app; simpl; lia).
        apply index_app_middle.
Qed.

Lemma coordinates_chainPoints (pts : list (R * R)) (mass : R) :
  map coordinates (chainPoints pts mass) = pts.
Proof.
  destruct pts as [|[x y] pts]; simpl; [reflexivity|].
  unfold coordinates at 1; simpl. f_equal.
  rewrite map_map. induction pts as [|[x' y'] pts IH]; simpl; [reflexivity|].
  unfold coordinates at 1; simpl. f_equal. exact IH.
Qed.

Lemma length_chainPoints (pts : list (R * R)) (mass : R) :
  List.length (chainPoints pts mass) = List.length pts.
Proof. destruct pts; simpl; rewrite ?length_map; reflexivity. Qed.

Lemma createBranchFromPoints_value (pts : list (R * R)) (mass : R) (s : t) :
  createBranchFromPoints pts mass s
  = Returned
      (map Z.of_nat (seq (List.length (points s)) (List.length pts)),
       mk (points s ++ chainPoints pts mass)
          (springs s ++ chainSprings (List.length (points s)) pts)
          (constraints s) (wind s) (gravity s)
          (canvasWidth s) (canvasHeight s)).
Proof.
  unfold createBranchFromPoints. rewrite addBranchPoints_first.
  rewrite <- (length_chainPoints pts mass).
  rewrite (connectBranch_chain (chainPoints pts mass) (points s)) by reflexivity.
  rewrite coordinates_chainPoints. reflexivity.
Qed.

(** The springs of a chain join neighbours of the chain. *)
Lemma chainSprings_neighbours (k : nat) (pts : list (R * R)) :
  Forall (fun spring =>
            (Z.of_nat k <= PhysicsSpring.point1 spring)%Z
            /\ PhysicsSpring.point2 spring
               = (PhysicsSpring.point1 spring + 1)%Z
            /\ (PhysicsSpring.point2 spring
                < Z.of_nat (k + List.length pts))%Z)
         (chainSprings k pts).
Proof.
  revert k. induction pts as [|p pts IH]; intros k; [constructor|].
  destruct pts as [|q pts]; [constructor|].
  change (chainSprings k (p :: q :: pts))
    with (PhysicsSpring.mk (Z.of_nat k) (Z.of_nat (S k))
            (sqrt (pow (fst q - fst p) 2 + pow (snd q - snd p) 2)) 0.2 0.98
          :: chainSprings (S k) (q :: pts)).
  constructor.
  - simpl. lia.
  - eapply Forall_impl; [|apply IH]. simpl. intros a (A1 & A2 & A3). lia.
Qed.

Lemma wellFormed_more_points (s s' : t) :
  (List.length (points s) <= List.length (points s'))%nat ->
  springs s' = springs s -> constraints s' = constraints s ->
  wellFormed s -> wellFormed s'.
Proof.
  intros L Es Ec [Ws Wc]. unfold wellFormed. rewrite Es, Ec. split.
  - eapply Forall_impl; [|exact Ws].
    unfold validSpring, validIndex. intros a [V1 V2]. lia.
  - eapply Forall_impl; [|exact Wc].
    unfold validConstraint. intros a V.
    eapply Forall_impl; [|exact V]. unfold validIndex. intros; lia.
Qed.

Lemma createBranchFromPoints_wellFormed (pts : list (R * R)) (mass : R)
  (s : t) :
  wellFormed s ->
  wellFormed
    (mk (points s ++ chainPoints pts mass)
        (springs s ++ chainSprings (List.length (points s)) pts)
        (constraints s) (wind s) (gravity s)
        (canvasWidth s) (canvasHeight s)).
Proof.
  intros [Ws Wc]. unfold wellFormed, validSpring, validConstraint, validIndex.
  simpl. rewrite length_app, length_chainPoints. split.
  - apply Forall_app. split.
    + eapply Forall_impl; [|exact Ws].
      unfold validSpring, validIndex. intros a [V1 V2]. lia.
    + eapply Forall_impl; [|apply chainSprings_neighbours].
      simpl. intros a (A1 & A2 & A3). lia.
  - eapply Forall_impl; [|exact Wc].
    unfold validConstraint. intros a V.
    eapply Forall_impl; [|exact V]. unfold validIndex. intros; lia.
Qed.

(** The springs of a chain are at rest length. *)
Lemma chainSprings_relaxed (ql pre post : list PhysicsPoint.t) :
  Forall (relaxedSpring (pre ++ ql ++ post))
         (chainSprings (List.length pre) (map coordinates ql)).
Proof.
  revert pre. induction ql as [|q1 ql IH]; intros pre; [constructor|].
  destruct ql as [|q2 ql]; [constructor|].
  change (chainSprings _ _)
    with (PhysicsSpring.mk (Z.of_nat (List.length pre))
            (Z.of_nat (S (List.length pre)))
            (sqrt (pow (PhysicsPoint.x q2 - PhysicsPoint.x q1) 2
                   + pow (PhysicsPoint.y q2 - PhysicsPoint.y q1) 2)) 0.2 0.98
          :: chainSprings (S (List.length pre)) (map coordinates (q2 :: ql))).
  constructor.
  - exists q1, q2.
    cbn [PhysicsSpring.point1 PhysicsSpring.point2 PhysicsSpring.restLength
         app].
    split; [apply index_app_middle|]. split.
    + replace (pre ++ q1 :: q2 :: ql ++ post)
        with ((pre ++ [q1]) ++ q2 :: ql ++ post)
        by (rewrite <- app_assoc; reflexivity).
      replace (S (List.length pre)) with (List.length (pre ++ [q1]))
        by (rewrite length_app; simpl; lia).
      apply index_app_middle.
    + unfold separation. apply pow2_dist.
  - specialize (IH (pre ++ [q1])).
    rewrite length_app, Nat.add_1_r, <- app_assoc in IH. exact IH.
Qed.

(** [createBranchFromPoints] never throws.  It returns the indices
    [n, n + 1, ...] of the points it appends, [n] being the number of points
    before the call; the points are still, of the given mass, and only the
    first is fixed; it adds one spring between every two neighbours, of
    stiffness 0.2, at its rest length; and it keeps the references of the
    engine valid. *)
Theorem createBranchFromPoints_builds_a_chain (pts : list (R * R)) (mass : R)
  (s : t) :
  let n := List.length (points s) in
  let s' :=
    mk (points s ++ chainPoints pts mass)
       (springs s ++ chainSprings n pts)
       (constraints s) (wind s) (gravity s) (canvasWidth s) (canvasHeight s) in
  createBranchFromPoints pts mass s
  = Returned (map Z.of_nat (seq n (List.length pts)), s')
  /\ Forall (relaxedSpring (points s')) (chainSprings n pts)
  /\ (wellFormed s -> wellFormed s').
Proof.
  cbv zeta. split; [apply createBranchFromPoints_value|]. split.
  - simpl. rewrite <- (coordinates_chainPoints pts mass) at 2.
    rewrite <- (app_nil_r (chainPoints pts mass)) at 1.
    apply chainSprings_relaxed.
  - apply createBranchFromPoints_wellFormed.
Qed.

End Chains.

(** ** Physics engine: equilibrium *)

Section Equilibrium.

Import JS PhysicsSimulation PhysicsNotions.

Lemma modify_fixpoint {A : Type} (k : nat) (f : A -> A) (l : list A) (a : A) :
  nth_error l k = Some a -> f a = a -> modify k f l = l.
Proof.
  revert k; induction l as [|b l IH]; intros [|k]; simpl; try discriminate.
  - intros [= ->] ->. reflexivity.
  - intros E H. rewrite (IH k E H). reflexivity.
Qed.

Lemma set_acc_same (p : PhysicsPoint.t) (a b : R) :
  a = PhysicsPoint.ax p -> b = PhysicsPoint.ay p -> PhysicsPoint.set_acc a b p = p.
Proof. intros -> ->. destruct p; reflexivity. Qed.

Lemma set_pos_same (p : PhysicsPoint.t) (a b : R) :
  a = PhysicsPoint.x p -> b = PhysicsPoint.y p -> PhysicsPoint.set_pos a b p = p.
Proof. intros -> ->. destruct p; reflexivity. Qed.

Lemma still_at (l : list PhysicsPoint.t) (k : Z) (p : PhysicsPoint.t) :
  Forall still l -> index l k = Some p -> still p.
Proof.
  intros H E. apply index_Some in E. destruct E as [_ E].
  rewrite Forall_forall in H. apply H. eapply nth_error_In; eauto.
Qed.

(** A spring at rest length between still points exerts nothing. *)
Lemma applySpring_relaxed (spring : PhysicsSpring.t) (l : list PhysicsPoint.t) :
  Forall still l -> relaxedSpring l spring ->
  applySpring spring l = Returned l.
Proof.
  intros St (p1 & p2 & E1 & E2 & Er).
  destruct (still_at l _ p1 St E1) as (V1x & V1y & _).
  destruct (still_at l _ p2 St E2) as (V2x & V2y & _).
  unfold applySpring. rewrite E1, E2. cbv zeta.
  fold (separation p1 p2). rewrite Er.
  destruct (gt (separation p1 p2) 0); [|reflexivity].
  apply index_Some in E1, E2. destruct E1 as [_ E1], E2 as [_ E2].
  assert (F1 : forall a b, a = 0 -> b = 0 ->
               modify (Z.to_nat (PhysicsSpring.point1 spring))
                 (PhysicsPoint.add_acc a b) l = l).
  { intros a b -> ->. apply (modify_fixpoint _ _ _ p1 E1).
    apply set_acc_same; ring. }
  assert (F2 : forall a b, a = 0 -> b = 0 ->
               modify (Z.to_nat (PhysicsSpring.point2 spring))
                 (PhysicsPoint.sub_acc a b) l = l).
  { intros a b -> ->. apply (modify_fixpoint _ _ _ p2 E2).
    apply set_acc_same; ring. }
  rewrite V1x, V1y, V2x, V2y.
  destruct (PhysicsPoint.fixed p1), (PhysicsPoint.fixed p2);
    repeat (rewrite F1 by (unfold Rdiv; ring));
    repeat (rewrite F2 by (unfold Rdiv; ring));
    repeat (rewrite F1 by (unfold Rdiv; ring));
    repeat (rewrite F2 by (unfold Rdiv; ring));
    reflexivity.
Qed.

(** A distance constraint that is met moves nothing. *)
Lemma applyConstraint_relaxed (c : PhysicsConstraint.t)
  (l : list PhysicsPoint.t) :
  relaxedConstraint l c -> applyConstraint c l = Returned l.
Proof.
  unfold relaxedConstraint, applyConstraint.
  destruct (PhysicsConstraint.type c); [|reflexivity].
  destruct (PhysicsConstraint.points c) as [|c0 [|c1 [|c2 rest]]];
    try reflexivity.
  intros (p1 & p2 & E1 & E2 & Et). rewrite E1, E2. cbv zeta.
  fold (separation p1 p2). rewrite Et.
  destruct (gt (separation p1 p2) 0); [|reflexivity].
  apply index_Some in E1, E2. destruct E1 as [_ E1], E2 as [_ E2].
  assert (F1 : forall a b, a = 0 -> b = 0 ->
               modify (Z.to_nat c0) (PhysicsPoint.sub_pos a b) l = l).
  { intros a b -> ->. apply (modify_fixpoint _ _ _ p1 E1).
    apply set_pos_same; ring. }
  assert (F2 : forall a b, a = 0 -> b = 0 ->
               modify (Z.to_nat c1) (PhysicsPoint.add_pos a b) l = l).
  { intros a b -> ->. apply (modify_fixpoint _ _ _ p2 E2).
    apply set_pos_same; ring. }
  destruct (PhysicsPoint.fixed p1), (PhysicsPoint.fixed p2);
    repeat (rewrite F1 by (unfold Rdiv; ring));
    repeat (rewrite F2 by (unfold Rdiv; ring));
    reflexivity.
Qed.

Lemma forEach_unchanged {A S : Type} (body : A -> S -> Outcome S)
  (arr : list A) (s : S) :
  Forall (fun a => body a s = Returned s) arr -> forEach body arr s = Returned s.
Proof.
  induction 1 as [|a arr Ha Harr IH]; simpl; [reflexivity|].
  rewrite Ha. exact IH.
Qed.

Lemma integratePoint_still (deltaTime width height : R) (p : PhysicsPoint.t) :
  still p ->
  (PhysicsPoint.fixed p = false ->
   5 <= PhysicsPoint.x p <= width - 5 /\ 5 <= PhysicsPoint.y p <= height - 5) ->
  integratePoint deltaTime width height p = p.
Proof.
  intros (Vx & Vy & Ax & Ay) In. unfold integratePoint.
  destruct (PhysicsPoint.fixed p) eqn:F; [reflexivity|].
  destruct (In eq_refl) as [Ix Iy].
  rewrite Vx, Vy, Ax, Ay. cbv zeta.
  replace ((0 + 0 * deltaTime) * 0.999) with 0 by ring.
  replace (PhysicsPoint.x p + 0 * deltaTime) with (PhysicsPoint.x p) by ring.
  replace (PhysicsPoint.y p + 0 * deltaTime) with (PhysicsPoint.y p) by ring.
  rewrite !bounce_inside by assumption.
  destruct p; simpl in *; subst; reflexivity.
Qed.

Lemma map_unchanged {A : Type} (f : A -> A) (l : list A) :
  Forall (fun a => f a = a) l -> map f l = l.
Proof.
  induction 1 as [|a l Ha Hl IH]; simpl; [reflexivity|].
  rewrite Ha, IH. reflexivity.
Qed.

(** An engine in equilibrium is a fixed point of [update]: with no gravity
    above zero and no wind, points without velocity, free points within the
    margins, every pair at the same place or at least 10 apart, springs at
    rest length and distance constraints met, a step of any length returns
    the engine exactly as it was. *)
Theorem update_keeps_equilibrium (deltaTime : R) (s : t) :
  atRest s -> update deltaTime s = Returned s.
Proof.
  intros (G & Wd & St & In & Ap & Sp & Cs).
  assert (F : forcePass s = points s).
  { unfold forcePass. rewrite Wd; simpl.
    rewrite (proj2 (gt_false_iff (gravity s) 0)) by exact G.
    rewrite (proj2 (neq_false_iff 0 0)) by reflexivity. simpl.
    apply map_unchanged. eapply Forall_impl; [|exact St].
    intros p (_ & _ & Ax & Ay). apply set_acc_same; auto. }
  unfold update. rewrite F.
  rewrite forEach_unchanged.
  2:{ eapply Forall_impl; [|exact Sp]. intros a; apply applySpring_relaxed; exact St. }
  rewrite collisionPass_allApart by exact Ap.
  rewrite forEach_unchanged.
  2:{ eapply Forall_impl; [|exact Cs]. intros a; apply applyConstraint_relaxed. }
  rewrite map_unchanged.
  - destruct s; reflexivity.
  - rewrite Forall_forall in St, In. apply Forall_forall. intros p Hp.
    apply integratePoint_still; [apply St; exact Hp|apply In; exact Hp].
Qed.

End Equilibrium.

(** ** Physics engine: the points near a place *)

Section PointsNear.

Import JS PhysicsSimulation PhysicsNotions.

Lemma fold_left_push {A B : Type} (f : list B -> A -> list B) (g : A -> bool)
  (h : A -> B) (l : list A) (acc : list B) :
  (forall acc a, f acc a = if g a then acc ++ [h a] else acc) ->
  fold_left f l acc = acc ++ map h (filter g l).
Proof.
  intros Hf. revert acc. induction l as [|a l IH]; intros acc; simpl.
  - rewrite app_nil_r; reflexivity.
  - rewrite IH, Hf. destruct (g a); simpl; [rewrite <- app_assoc|]; reflexivity.
Qed.

Lemma StronglySorted_seq (a n : nat) : StronglySorted Nat.lt (seq a n).
Proof.
  revert a. induction n as [|n IH]; intros a; simpl; constructor; auto.
  apply Forall_forall. intros x Hx. apply in_seq in Hx. lia.
Qed.

Lemma StronglySorted_filter_map (g : nat -> bool) (l : list nat) :
  StronglySorted Nat.lt l -> StronglySorted Z.lt (map Z.of_nat (filter g l)).
Proof.
  induction 1 as [|a l Hl IH Ha]; simpl; [constructor|].
  destruct (g a); simpl; auto.
  constructor; auto.
  rewrite Forall_forall in *. intros z Hz.
  apply in_map_iff in Hz. destruct Hz as (x & <- & Hx).
  apply filter_In in Hx. destruct Hx as [Hx _].
  specialize (Ha x Hx). lia.
Qed.

(** [getPointsNear] returns, in increasing order and without repetition,
    exactly the indices of the points whose distance to [(x, y)] is at most
    [radius], the boundary included; a negative radius finds nothing. *)
Theorem getPointsNear_finds_the_points_in_reach (x y radius : R) (s : t) :
  let found := getPointsNear x y radius s in
  (forall k,
     In k found <->
     exists p, index (points s) k = Some p
               /\ dist (PhysicsPoint.x p - x) (PhysicsPoint.y p - y) <= radius)
  /\ StronglySorted Z.lt found
  /\ (radius < 0 -> found = []).
Proof.
  cbv zeta.
  set (g := fun i =>
              match nth_error (points s) i with
              | Some point =>
                  le (sqrt (pow (PhysicsPoint.x point - x) 2
                            + pow (PhysicsPoint.y point - y) 2)) radius
              | None => false
              end).
  assert (E : getPointsNear x y radius s
              = map Z.of_nat (filter g (seq 0 (List.length (points s))))).
  { unfold getPointsNear.
    rewrite (fold_left_push _ g Z.of_nat); [reflexivity|].
    intros acc i. unfold g.
    destruct (nth_error (points s) i); reflexivity. }
  rewrite E.
  assert (M : forall k,
            In k (map Z.of_nat (filter g (seq 0 (List.length (points s))))) <->
            exists p, index (points s) k = Some p
              /\ dist (PhysicsPoint.x p - x) (PhysicsPoint.y p - y) <= radius).
  { intros k. rewrite in_map_iff. split.
    - intros (i & <- & Hi). apply filter_In in Hi. destruct Hi as [_ Hi].
      unfold g in Hi. destruct (nth_error (points s) i) as [p|] eqn:N;
        [|discriminate].
      exists p. split.
      + unfold index. rewrite (proj2 (Z.ltb_ge _ _)) by lia.
        rewrite Nat2Z.id. exact N.
      + rewrite <- pow2_dist. apply le_true_iff. exact Hi.
    - intros (p & Ep & Hp). apply index_Some in Ep. destruct Ep as [Hk N].
      exists (Z.to_nat k). split; [lia|].
      apply filter_In. split; [apply in_seq; lia|].
      unfold g. rewrite N. apply le_true_iff. rewrite pow2_dist. exact Hp. }
  split; [exact M|]. split.
  - apply StronglySorted_filter_map, StronglySorted_seq.
  - intros Hr.
    destruct (map Z.of_nat (filter g (seq 0 (List.length (points s)))))
      as [|k rest] eqn:L; [reflexivity|].
    destruct (proj1 (M k) (or_introl eq_refl)) as (p & _ & Hp).
    unfold dist in Hp.
    pose proof (sqrt_pos
                  ((PhysicsPoint.x p - x) * (PhysicsPoint.x p - x)
                   + (PhysicsPoint.y p - y) * (PhysicsPoint.y p - y))).
    lra.
Qed.

End PointsNear.

(** ** Physics engine: distance constraints *)

Section DistanceConstraint.

Import JS PhysicsSimulation PhysicsNotions.

Lemma index_modify_eq {A : Type} (k : Z) (f : A -> A) (l : list A) :
  (0 <= k)%Z ->
  index (modify (Z.to_nat k) f l) k = option_map f (index l k).
Proof.
  intros H. unfold index. rewrite (proj2 (Z.ltb_ge _ _)) by lia.
  apply nth_error_modify_eq.
Qed.

Lemma index_modify_ne {A : Type} (k j : Z) (f : A -> A) (l : list A) :
  (0 <= k)%Z -> j <> k ->
  index (modify (Z.to_nat k) f l) j = index l j.
Proof.
  intros H N. unfold index. destruct (j <? 0)%Z eqn:E; [reflexivity|].
  apply Z.ltb_ge in E. apply nth_error_modify_ne. lia.
Qed.

(** A distance constraint between two existing points at positive distance
    [d], with a target that is not negative and a strength in [[0, 1]],
    moves exactly its endpoints that are not fixed, each by half the
    correction [(target - d) * strength] along the line that joins them: the
    first by [- half * u], the second by [+ half * u],
    [u] being the unit vector from the first to the second; a fixed
    endpoint and every other point stay as they are, and the moved ones
    keep all their other fields.  The distance of the two becomes
    [d + (target - d) * strength * m / 2], [m] being the number of free
    endpoints: it stays between [d] and the target, and with two free
    endpoints and strength 1 it is the target. *)
Theorem distance_constraint_moves_toward_target (c : PhysicsConstraint.t)
  (c0 c1 : Z) (pts : list PhysicsPoint.t) (p1 p2 : PhysicsPoint.t) :
  PhysicsConstraint.type c = PhysicsConstraint.distance ->
  PhysicsConstraint.points c = [c0; c1] ->
  index pts c0 = Some p1 -> index pts c1 = Some p2 ->
  let d := separation p1 p2 in
  let target := PhysicsConstraint.targetValue c in
  let k := PhysicsConstraint.strength c in
  0 < d -> 0 <= target -> 0 <= k <= 1 ->
  let ux := (PhysicsPoint.x p2 - PhysicsPoint.x p1) / d in
  let uy := (PhysicsPoint.y p2 - PhysicsPoint.y p1) / d in
  let half := (target - d) * k / 2 in
  let q1 :=
    if PhysicsPoint.fixed p1 then p1
    else PhysicsPoint.set_pos (PhysicsPoint.x p1 - half * ux)
                              (PhysicsPoint.y p1 - half * uy) p1 in
  let q2 :=
    if PhysicsPoint.fixed p2 then p2
    else PhysicsPoint.set_pos (PhysicsPoint.x p2 + half * ux)
                              (PhysicsPoint.y p2 + half * uy) p2 in
  let m :=
    (if PhysicsPoint.fixed p1 then 0 else 1)
    + (if PhysicsPoint.fixed p2 then 0 else 1) in
  exists pts',
    applyConstraint c pts = Returned pts'
    /\ List.length pts' = List.length pts
    /\ index pts' c0 = Some q1 /\ index pts' c1 = Some q2
    /\ (forall j, j <> c0 -> j <> c1 -> index pts' j = index pts j)
    /\ separation q1 q2 = d + (target - d) * k * m / 2
    /\ Rmin d target <= separation q1 q2 <= Rmax d target.
Proof.
  intros Ty Ps E1 E2 d target k Hd Ht Hk ux uy half q1 q2 m.
  destruct (index_Some _ _ _ E1) as [R1 N1].
  destruct (index_Some _ _ _ E2) as [R2 N2].
  assert (Hij : Z.to_nat c0 <> Z.to_nat c1).
  { eapply positive_separation_distinct; eauto. }
  assert (Hz : c0 <> c1) by congruence.
  set (dx := PhysicsPoint.x p2 - PhysicsPoint.x p1).
  set (dy := PhysicsPoint.y p2 - PhysicsPoint.y p1).
  assert (Dd : dist dx dy = d) by reflexivity.
  set (cx := dx / d * ((target - d) * k) * 0.5).
  set (cy := dy / d * ((target - d) * k) * 0.5).
  assert (Cx : cx = half * ux)
    by (unfold cx, half, ux; fold dx; replace 0.5 with (1 / 2) by lra;
        field; lra).
  assert (Cy : cy = half * uy)
    by (unfold cy, half, uy; fold dy; replace 0.5 with (1 / 2) by lra;
        field; lra).
  assert (Q1 : q1 = if PhysicsPoint.fixed p1 then p1
                    else PhysicsPoint.sub_pos cx cy p1).
  { unfold q1, PhysicsPoint.sub_pos. rewrite Cx, Cy. reflexivity. }
  assert (Q2 : q2 = if PhysicsPoint.fixed p2 then p2
                    else PhysicsPoint.add_pos cx cy p2).
  { unfold q2, PhysicsPoint.add_pos. rewrite Cx, Cy. reflexivity. }
  set (l1 := if PhysicsPoint.fixed p1 then pts
             else modify (Z.to_nat c0) (PhysicsPoint.sub_pos cx cy) pts).
  set (l2 := if PhysicsPoint.fixed p2 then l1
             else modify (Z.to_nat c1) (PhysicsPoint.add_pos cx cy) l1).
  assert (E : applyConstraint c pts = Returned l2).
  { unfold applyConstraint. rewrite Ty, Ps, E1, E2. cbv zeta.
    fold dx dy. rewrite Dd.
    rewrite (proj2 (gt_true_iff d 0)) by exact Hd. reflexivity. }
  assert (Len : List.length l2 = List.length pts).
  { unfold l2, l1.
    destruct (PhysicsPoint.fixed p1), (PhysicsPoint.fixed p2);
      rewrite ?length_modify; reflexivity. }
  assert (S : separation q1 q2 = d + (target - d) * k * m / 2).
  { assert (Sc : forall f, 0 <= f ->
                 dist (f / d * dx) (f / d * dy) = f).
    { intros f Hf. rewrite dist_scale, Dd.
      - field; lra.
      - apply Rmult_le_pos; [exact Hf|]. apply Rlt_le, Rinv_0_lt_compat, Hd. }
    rewrite Q1, Q2. unfold m, separation.
    destruct (PhysicsPoint.fixed p1), (PhysicsPoint.fixed p2); simpl;
      fold dx dy.
    - rewrite Dd. lra.
    - replace (PhysicsPoint.x p2 + cx - PhysicsPoint.x p1)
        with ((d + (target - d) * k * (0 + 1) / 2) / d * dx)
        by (unfold cx, dx; replace 0.5 with (1 / 2) by lra; field; lra).
      replace (PhysicsPoint.y p2 + cy - PhysicsPoint.y p1)
        with ((d + (target - d) * k * (0 + 1) / 2) / d * dy)
        by (unfold cy, dy; replace 0.5 with (1 / 2) by lra; field; lra).
      apply Sc. nra.
    - replace (PhysicsPoint.x p2 - (PhysicsPoint.x p1 - cx))
        with ((d + (target - d) * k * (1 + 0) / 2) / d * dx)
        by (unfold cx, dx; replace 0.5 with (1 / 2) by lra; field; lra).
      replace (PhysicsPoint.y p2 - (PhysicsPoint.y p1 - cy))
        with ((d + (target - d) * k * (1 + 0) / 2) / d * dy)
        by (unfold cy, dy; replace 0.5 with (1 / 2) by lra; field; lra).
      apply Sc. nra.
    - replace (PhysicsPoint.x p2 + cx - (PhysicsPoint.x p1 - cx))
        with ((d + (target - d) * k * (1 + 1) / 2) / d * dx)
        by (unfold cx, dx; replace 0.5 with (1 / 2) by lra; field; lra).
      replace (PhysicsPoint.y p2 + cy - (PhysicsPoint.y p1 - cy))
        with ((d + (target - d) * k * (1 + 1) / 2) / d * dy)
        by (unfold cy, dy; replace 0.5 with (1 / 2) by lra; field; lra).
      apply Sc. nra. }
  exists l2. split; [exact E|]. split; [exact Len|].
  assert (I1 : index l1 c0 = Some q1
               /\ index l1 c1 = Some p2
               /\ forall j, j <> c0 -> j <> c1 -> index l1 j = index pts j).
  { rewrite Q1. unfold l1. destruct (PhysicsPoint.fixed p1); [auto|].
    rewrite index_modify_eq, E1 by lia.
    rewrite index_modify_ne by (auto; lia).
    split; [reflexivity|]. split; [exact E2|].
    intros j J0 J1. apply index_modify_ne; [lia|exact J0]. }
  destruct I1 as (A & B & C).
  split; [|split; [|split; [|split; [exact S|]]]].
  - unfold l2. destruct (PhysicsPoint.fixed p2); [exact A|].
    rewrite index_modify_ne by (auto; lia). exact A.
  - rewrite Q2. unfold l2. destruct (PhysicsPoint.fixed p2); [exact B|].
    rewrite index_modify_eq, B by lia. reflexivity.
  - intros j J0 J1. unfold l2. destruct (PhysicsPoint.fixed p2); [auto|].
    rewrite index_modify_ne by (auto; lia). auto.
  - rewrite S. unfold m, Rmin, Rmax.
    destruct (Rle_dec d target);
      destruct (PhysicsPoint.fixed p1), (PhysicsPoint.fixed p2); nra.
Qed.

End DistanceConstraint.

(** ** Physics engine: sessions that cannot throw *)

Section Sessions.

Import JS PhysicsSimulation PhysicsNotions.

Lemma wellFormed_same_size (s s' : t) :
  List.length (points s') = List.length (points s) ->
  springs s' = springs s -> constraints s' = constraints s ->
  wellFormed s -> wellFormed s'.
Proof.
  intros L. apply wellFormed_more_points. lia.
Qed.

Lemma call_returns (m : Method) (s : t) :
  okMethod m -> wellFormed s ->
  exists s', call m s = Returned s' /\ wellFormed s'.
Proof.
  intros Ok W. destruct m; simpl.
  - eexists; split; [reflexivity|exact W].
  - eexists; split; [reflexivity|exact W].
  - eexists; split; [reflexivity|exact W].
  - eexists; split; [reflexivity|].
    apply (wellFormed_more_points s); auto.
    simpl. rewrite length_app; lia.
  - destruct Ok as [O1 O2].
    destruct (Z_lt_le_dec point1 (Z.of_nat (List.length (points s)))) as [L1|L1];
      [destruct (Z_lt_le_dec point2 (Z.of_nat (List.length (points s))))
        as [L2|L2]|].
    + destruct (index_in_range (points s) point1 (conj O1 L1)) as [p1 E1].
      destruct (index_in_range (points s) point2 (conj O2 L2)) as [p2 E2].
      rewrite (addSpring_in_range _ _ _ _ s p1 p2 E1 E2).
      eexists; split; [reflexivity|].
      destruct W as [Ws Wc]. split; [|exact Wc].
      simpl. apply Forall_app. split; [exact Ws|].
      constructor; [|constructor]. split; simpl; split; assumption.
    + rewrite addSpring_above_range by auto. eauto.
    + rewrite addSpring_above_range by auto. eauto.
  - rewrite createBranchFromPoints_value.
    eexists; split; [reflexivity|].
    apply createBranchFromPoints_wellFormed; exact W.
  - destruct (update_returns deltaTime s W) as (l1 & l2 & _ & _ & _ & L2 & E).
    rewrite E. eexists; split; [reflexivity|].
    apply (wellFormed_same_size s); auto.
    simpl. rewrite length_map. exact L2.
  - eexists; split; [reflexivity|]. split; constructor.
  - eexists; split; [reflexivity|]. apply removePoint_wellFormed; exact W.
  - eexists; split; [reflexivity|].
    unfold applyForceToPoint.
    destruct ((k >=? 0) && (k <? _))%Z; auto.
    destruct (index (points s) k) as [p|]; auto.
    destruct (PhysicsPoint.fixed p); auto.
    apply (wellFormed_same_size s); auto.
    simpl. apply length_modify.
Qed.

(** Every method of the engine other than [addDistanceConstraint] keeps the
    springs and the constraints pointing at existing points, and on such an
    engine no method throws as long as [addSpring] is given no negative
    index: a sequence of such calls, of any length and with any arguments,
    runs to its end, [update] included. *)
Theorem session_runs_to_its_end (ms : list Method) (s : t) :
  wellFormed s -> Forall okMethod ms ->
  exists s', session ms s = Returned s' /\ wellFormed s'.
Proof.
  intros W Ok. unfold session.
  apply (forEach_returns call wellFormed ms); auto.
  intros m s0 Hin W0. apply call_returns; auto.
  rewrite Forall_forall in Ok. apply Ok; exact Hin.
Qed.

End Sessions.

(** ** Physics engine: examples *)

Section EngineExamples.

Import JS PhysicsSimulation PhysicsNotions.

Lemma restingChain_created :
  createBranchFromPoints [(100, 100); (120, 100)] 1 new
  = Returned ([0%Z; 1%Z], restingChain).
Proof.
  rewrite createBranchFromPoints_value. unfold restingChain. simpl.
  repeat f_equal.
  match goal with
  | |- sqrt ?e = _ => replace e with (20 * 20) by lra
  end.
  apply sqrt_square; lra.
Qed.

Lemma restingChain_wellFormed : wellFormed restingChain.
Proof.
  split; [|constructor].
  constructor; [|constructor].
  split; unfold validIndex; simpl; lia.
Qed.

Lemma restingChain_atRest : atRest restingChain.
Proof.
  unfold atRest, restingChain; simpl.
  split; [lra|]. split; [reflexivity|].
  split; [repeat constructor|].
  split.
  { constructor; [|constructor; [|constructor]]; intros F; simpl in *;
      [discriminate|lra]. }
  split.
  { intros [|[|i]] [|[|j]] p q Ni Nj; simpl in *;
      try (destruct i; discriminate); try (destruct j; discriminate);
      injection Ni as <-; injection Nj as <-; unfold separation; simpl.
    - left. apply dist_value; lra.
    - right. rewrite (dist_value _ _ 20) by lra. lra.
    - right. rewrite (dist_value _ _ 20) by lra. lra.
    - left. apply dist_value; lra. }
  split; [|constructor].
  constructor; [|constructor].
  do 2 eexists. split; [reflexivity|]. split; [reflexivity|].
  unfold separation; simpl. symmetry. apply dist_value; lra.
Qed.

Lemma update_keeps_equilibrium_witness :
  update 1 restingChain = Returned restingChain.
Proof. apply (update_keeps_equilibrium 1 restingChain restingChain_atRest). Defined.

Lemma removePoint_undoes_addPoint_witness :
  removePoint (fst (addPoint 0 0 1 false restingChain))
    (snd (addPoint 0 0 1 false restingChain))
  = restingChain.
Proof.
  apply (removePoint_undoes_addPoint 0 0 1 false restingChain
           restingChain_wellFormed).
Defined.

Lemma distance_constraint_moves_toward_target_witness :
  let c := PhysicsConstraint.mk PhysicsConstraint.distance [0%Z; 1%Z] 10 1 in
  let p1 := PhysicsPoint.mk 100 100 0 0 0 0 1 false in
  let p2 := PhysicsPoint.mk 120 100 0 0 0 0 1 true in
  exists pts' q1,
    applyConstraint c [p1; p2] = Returned pts'
    /\ index pts' 0 = Some q1 /\ index pts' 1 = Some p2
    /\ PhysicsPoint.x q1 = 105 /\ PhysicsPoint.y q1 = 100
    /\ separation q1 p2 = 15.
Proof.
  intros c p1 p2.
  assert (D : separation p1 p2 = 20)
    by (unfold separation; simpl; apply dist_value; lra).
  destruct (distance_constraint_moves_toward_target c 0 1 [p1; p2] p1 p2
              eq_refl eq_refl eq_refl eq_refl)
    as (pts' & E & _ & E1 & E2 & _ & S & _).
  - rewrite D; lra.
  - simpl; lra.
  - simpl; lra.
  - rewrite D in E1, S. cbn [PhysicsPoint.fixed p1 p2] in E1, E2, S.
    eexists pts', _. split; [exact E|]. split; [exact E1|].
    split; [exact E2|].
    split; [simpl; lra|]. split; [simpl; lra|].
    rewrite S. simpl. lra.
Defined.

Lemma session_runs_to_its_end_witness :
  exists s', session sampleSession new = Returned s' /\ wellFormed s'.
Proof.
  apply (session_runs_to_its_end sampleSession new).
  - split; constructor.
  - unfold sampleSession. repeat constructor; simpl; lia.
Defined.

End EngineExamples.

(** ** Growth engine: colours *)

Section Colours.

Import JS GrowthAlgorithm GrowthNotions.

Lemma pick_in (arr : list string) (r : R) :
  arr <> [] -> 0 <= r < 1 -> In (pick arr r) arr.
Proof.
  intros Hne Hr. unfold pick.
  assert (L : (0 < List.length arr)%nat)
    by (destruct arr; [congruence|simpl; lia]).
  assert (B : (0 <= floor (r * INR (List.length arr))
               < Z.of_nat (List.length arr))%Z).
  { apply floor_bounds. rewrite <- INR_IZR_INZ.
    assert (0 < INR (List.length arr)) by (apply lt_0_INR; exact L).
    split; nra. }
  destruct (index_in_range arr _ B) as [c E]. rewrite E.
  apply index_Some in E. destruct E as [_ E].
  eapply nth_error_In; eauto.
Qed.

Lemma getRandomColor_in_palette (generation : Z) (settings : GrowthSettings.t)
  (w : World.t) :
  sane w ->
  In (fst (getRandomColor generation settings w)) (palette generation settings).
Proof.
  intros Hw. unfold getRandomColor, palette.
  destruct (GrowthSettings.drawingMode settings); simpl.
  - destruct (generation =? 0)%Z; [simpl; auto|].
    destruct (generation =? 1)%Z; [simpl; auto|].
    exact (pick_in colors _ ltac:(discriminate) (Hw _)).
  - exact (pick_in electricColors _ ltac:(discriminate) (Hw _)).
  - exact (pick_in organicColors _ ltac:(discriminate) (Hw _)).
Qed.

(** [getRandomColor] never reads outside its tables: with [Math.random] in
    [[0, 1)], the colour it returns is one of the four electric colours in
    the electric mode, one of the four organic colours in the organic mode,
    and in the neural mode the selected colour for generation 0, magenta
    for generation 1 and one of the five neural colours beyond; it draws at
    most one random number. *)
Theorem getRandomColor_stays_in_the_palette (generation : Z)
  (settings : GrowthSettings.t) (w : World.t) :
  sane w ->
  In (fst (getRandomColor generation settings w)) (palette generation settings)
  /\ (World.drawn (snd (getRandomColor generation settings w))
      <= S (World.drawn w))%nat
  /\ sane (snd (getRandomColor generation settings w)).
Proof.
  intros Hw. split; [|split; [|apply sane_getRandomColor; exact Hw]].
  - apply getRandomColor_in_palette; exact Hw.
  - unfold getRandomColor.
    destruct (GrowthSettings.drawingMode settings); simpl; try lia.
    destruct (generation =? 0)%Z; [simpl; lia|].
    destruct (generation =? 1)%Z; simpl; lia.
Qed.

End Colours.

(** ** Growth engine: the branches a stroke is seeded with *)

Section Seeds.

Import JS GrowthAlgorithm GrowthNotions.

Variable strokePoints : list Point.t.
Variable settings : GrowthSettings.t.

Lemma seedOne_seeded (h : Heap) (i : nat) (point next : Point.t) (st : Loop) :
  nth_error strokePoints i = Some point ->
  nth_error strokePoints (S i) = Some next ->
  seeded strokePoints settings h st ->
  seeded strokePoints settings h
    (seedOne settings point
       (atan2 (Point.y next - Point.y point) (Point.x next - Point.x point))
       (angleVariation (GrowthSettings.drawingMode settings))
       (branchLengthMultiplier (GrowthSettings.drawingMode settings)) st).
Proof.
  intros Ni Nn (seeds & Hh & Hn & Hs & Hc & Hw).
  unfold seedOne; simpl.
  set (w3 := World.mk (World.random (world st))
               (S (S (S (World.drawn (world st)))))
               (World.clock (world st)) (World.elapsed (world st))).
  assert (S3 : sane w3) by (intros n; apply Hw).
  pose proof (getRandomColor_in_palette 0 settings w3 S3) as Hcol.
  pose proof (sane_getRandomColor 0 settings w3 S3) as Hw'.
  destruct (getRandomColor 0 settings w3) as [color w'] eqn:E.
  simpl in Hcol, Hw'. unfold push_new. simpl.
  eexists (seeds ++ [_]).
  split; [rewrite Hh, <- app_assoc; reflexivity|].
  split.
  { rewrite Hn, Hh, !length_app, seq_app. simpl. reflexivity. }
  split.
  { apply Forall_app. split; [exact Hs|].
    constructor; [|constructor].
    exists i, point, next, (World.clock w' (World.elapsed w')),
      (World.random (world st) (World.drawn (world st))),
      (World.random (world st) (S (World.drawn (world st)))),
      (World.random (world st) (S (S (World.drawn (world st))))),
      (World.random w' (World.drawn w')),
      (World.random w' (S (World.drawn w'))).
    split; [exact Ni|]. split; [exact Nn|].
    split.
    { split; [apply Hw|]. split; [apply Hw|]. split; [apply Hw|].
      split; apply Hw'. }
    simpl. repeat (split; [reflexivity|]).
    split; [exact Hcol|]. split; reflexivity. }
  split; [exact Hc|].
  intros n; apply Hw'.
Qed.

Lemma seedBranches_seeded (h : Heap) (i : nat) (point next : Point.t) (n : nat) :
  nth_error strokePoints i = Some point ->
  nth_error strokePoints (S i) = Some next ->
  forall st, seeded strokePoints settings h st ->
  seeded strokePoints settings h
    (seedBranches n settings point
       (atan2 (Point.y next - Point.y point) (Point.x next - Point.x point))
       (angleVariation (GrowthSettings.drawingMode settings))
       (branchLengthMultiplier (GrowthSettings.drawingMode settings)) st).
Proof.
  intros Ni Nn. induction n as [|n IH]; intros st H; simpl; [exact H|].
  apply IH. apply (seedOne_seeded h i point next); assumption.
Qed.

Lemma seedAt_seeded (h : Heap) (i : nat) (st : Loop) :
  (2 <= List.length strokePoints)%nat ->
  (i < Z.to_nat (numBranches strokePoints settings))%nat ->
  seeded strokePoints settings h st -> seeded strokePoints settings h (seedAt strokePoints settings i st).
Proof.
  intros L Hi H. unfold seedAt.
  pose proof (numBranches_pos strokePoints settings) as Np.
  assert (B : (0 <= floor (IZR (Z.of_nat (List.length strokePoints) - 1)
                           * (INR i / IZR (numBranches strokePoints settings)))
               < Z.of_nat (List.length strokePoints) - 1)%Z)
    by (apply pointIndex_in_range; lia).
  set (pointIndex := floor _) in *.
  unfold angleVariation, branchLengthMultiplier in *.
  destruct (seedParams (GrowthSettings.drawingMode settings))
    as [[factor blm] av] eqn:SP.
  destruct (index_in_range strokePoints pointIndex) as [point E]; [lia|].
  destruct (index_in_range strokePoints (pointIndex + 1)) as [next En]; [lia|].
  rewrite E, En.
  rewrite (proj2 (Z.ltb_lt _ _)) by lia.
  apply index_Some in E, En. destruct E as [_ E], En as [_ En].
  replace (Z.to_nat (pointIndex + 1)) with (S (Z.to_nat pointIndex)) in En
    by lia.
  pose proof (seedBranches_seeded h (Z.to_nat pointIndex) point next) as SB.
  unfold angleVariation, branchLengthMultiplier in SB. rewrite SP in SB.
  simpl in SB.
  destruct H as (seeds & Hh & Hn & Hs & Hc & Hw).
  cbv beta iota zeta delta [World.Math_random].
  apply SB; auto.
  exists seeds. repeat (split; [assumption|]). intros n; apply Hw.
Qed.

Lemma generateBranches_seeded (h : Heap) (w : World.t) :
  sane w -> seeded strokePoints settings h (generateBranches strokePoints settings h w).
Proof.
  intros Hw.
  assert (H0 : seeded strokePoints settings h (mkLoop h [] [] w)).
  { exists []. simpl. rewrite app_nil_r.
    split; [reflexivity|]. split; [reflexivity|]. split; [constructor|].
    split; [reflexivity|exact Hw]. }
  unfold generateBranches.
  destruct (List.length strokePoints <? 2)%nat eqn:L; [exact H0|].
  apply Nat.ltb_ge in L.
  apply fold_left_invariant; [|exact H0].
  intros st i Hin H. apply in_seq in Hin.
  apply seedAt_seeded; auto. lia.
Qed.

(** With [Math.random] in [[0, 1)], every branch that [generateBranches]
    returns is new, of generation 0 and progress 0; it starts at a point of
    the stroke that is not the last one and points to the next point of the
    stroke up to [pi / 2] times the angle variation of the mode; its length
    is in [[30, 80)] times the length multiplier, its growth target in
    [[60, 100)], its opacity in [[0.8, 1)], its colour in the palette, and
    its first growth is at most two seconds away.  No callback is called,
    and a stroke of fewer than two points gives nothing. *)
Theorem generateBranches_seeds_lie_on_the_stroke (h : Heap) (w : World.t) :
  sane w ->
  let r := generateBranches strokePoints settings h w in
  exists seeds,
    heap r = h ++ seeds
    /\ newBranches r = seq (List.length h) (List.length seeds)
    /\ Forall (seedOf strokePoints settings) seeds
    /\ calls r = []
    /\ sane (world r)
    /\ ((List.length strokePoints < 2)%nat -> seeds = [] /\ world r = w).
Proof.
  intros Hw r.
  destruct (generateBranches_seeded h w Hw) as (seeds & Hh & Hn & Hs & Hc & Hw').
  exists seeds. fold r in Hh, Hn, Hc, Hw'.
  repeat (split; [assumption|]).
  intros L. unfold r, generateBranches in *.
  rewrite (proj2 (Nat.ltb_lt _ _) L) in *. simpl in *.
  split; [|reflexivity].
  destruct seeds; [reflexivity|].
  apply (f_equal (@List.length _)) in Hh. rewrite length_app in Hh.
  simpl in Hh. lia.
Qed.

End Seeds.

(** ** Growth engine: properties that every branch inherits *)

Section Heredity.

Import JS GrowthAlgorithm GrowthNotions.

Variable S : GrowthSettings.t -> Prop.
Variable P : Branch.t -> Prop.
Hypothesis heredity : hereditary S P.

Variable now : Z.
Variable settings : GrowthSettings.t.
Variable speedMultiplier : R.
Variable onParticleGeneration : option Callback.
Hypothesis settings_ok : S settings.
Hypothesis callback_sane : saneCallback onParticleGeneration.

Lemma grow_hereditary (hasCallback : bool) (b : Branch.t) :
  P b -> P (fst (grow now speedMultiplier settings hasCallback b)).
Proof.
  destruct heredity as (_ & _ & Hp & Hl & _).
  intros H. unfold grow. destruct (lt _ _ && gt _ _); simpl; auto.
Qed.

(** Without a fully grown branch below the generation limit, the second
    half of a visit does nothing. *)
Lemma branching_idle (a : addr) (b : Branch.t) (st : Loop) :
  ge (Branch.progress b) (Branch.maxProgress b)
  && (Branch.generation b
      <? maxGenerations (GrowthSettings.drawingMode settings))%Z = false ->
  branching now speedMultiplier settings a b st = st.
Proof.
  intros G. unfold branching, maxGenerations in *.
  destruct (growthParams _) as [[bp mg] gd]. simpl in G.
  rewrite G. reflexivity.
Qed.

Lemma visit_hereditary (a : addr) (st : Loop) :
  Forall P (heap st) -> sane (world st) ->
  Forall P (heap (visit now speedMultiplier settings onParticleGeneration a st))
  /\ sane (world (visit now speedMultiplier settings onParticleGeneration a st)).
Proof.
  intros Hp Hw.
  destruct (nth_error (heap st) a) as [b|] eqn:N;
    [|rewrite visit_dangling by exact N; auto].
  destruct heredity as (_ & Hchild & _ & Hl & _).
  destruct (visit_footprint now settings speedMultiplier onParticleGeneration
              a st b N) as (children & f & Hf & Hh & _ & _ & Hw' & Hch & _).
  split; [|apply Hw'; assumption].
  set (b' := fst (grow now speedMultiplier settings
                    (given onParticleGeneration) b)) in *.
  assert (Pb : P b').
  { apply grow_hereditary. rewrite Forall_forall in Hp. apply Hp.
    eapply nth_error_In; eauto. }
  assert (Pf : forall x, P x -> P (f x)).
  { intros x Hx. destruct Hf as [-> | ->]; auto. }
  destruct (ge (Branch.progress b') (Branch.maxProgress b')
            && (Branch.generation b'
                <? maxGenerations (GrowthSettings.drawingMode settings))%Z)
    eqn:G.
  - rewrite Hh. apply Forall_modify; [|exact Pf].
    apply Forall_app. split; [apply Forall_modify; auto|].
    eapply Forall_impl; [|apply Hch; assumption].
    intros c Hc. apply (Hchild now settings b' c settings_ok Pb).
    apply andb_true_iff in G. destruct G as [G1 G2].
    split; [apply ge_true_iff in G1; exact G1|].
    split; [apply Z.ltb_lt in G2; exact G2|exact Hc].
  - unfold visit. rewrite N.
    destruct (tick_footprint now settings speedMultiplier
                onParticleGeneration a b st) as (Eb & Hh1 & _).
    fold b' in Eb, Hh1.
    destruct (tick now speedMultiplier settings onParticleGeneration a b st)
      as [b1 st1]. simpl in Eb, Hh1. subst b1.
    rewrite branching_idle by exact G. simpl. rewrite Hh1.
    apply Forall_modify; auto.
Qed.

Lemma pulse_hereditary (h : Heap) (a : addr) :
  Forall P h -> Forall P (pulse now settings h a).
Proof.
  destruct heredity as (_ & _ & _ & _ & Ho).
  intros H. unfold pulse.
  destruct (nth_error h a) as [b|]; auto.
  destruct (ge _ _ && (_ <? 16)%Z); auto.
  apply Forall_modify; auto.
Qed.

End Heredity.

Section HeredityOverRuns.

Import JS GrowthAlgorithm GrowthNotions.

Variable S : GrowthSettings.t -> Prop.
Variable P : Branch.t -> Prop.
Hypothesis heredity : hereditary S P.

Lemma animateBranches_hereditary (branches : list addr) (growthSpeed : R)
  (settings : GrowthSettings.t) (cb : option Callback) (h : Heap)
  (w : World.t) :
  S settings -> saneCallback cb -> sane w -> Forall P h ->
  let r := animateBranches branches growthSpeed settings cb h w in
  Forall P (heap r) /\ sane (world r).
Proof.
  intros Hs Hcb Hw Hp r. unfold r, animateBranches, World.Date_now.
  cbv beta iota zeta.
  set (final := fold_left _ (firstn maxBranches branches) _).
  assert (H : Forall P (heap final) /\ sane (world final)).
  { apply (fold_left_invariant
             (fun st => Forall P (heap st) /\ sane (world st))).
    - intros st a _ [H1 H2].
      apply (visit_hereditary S P heredity _ settings _ cb Hs Hcb); assumption.
    - split; [exact Hp|]. intros n; apply Hw. }
  destruct H as [H1 H2]. simpl. split; [|exact H2].
  apply (fold_left_invariant (Forall P)); [|exact H1].
  intros hh a _ Hh. apply (pulse_hereditary S P heredity); exact Hh.
Qed.

(** A hereditary property holds of every branch over every run. *)
Lemma run_hereditary (ops : list Canvas.Op) :
  forall c,
  Forall steadyOp ops -> Forall (fun op => S (settingsOf op)) ops ->
  Forall P (Canvas.heap c) -> sane (Canvas.world c) ->
  Forall P (Canvas.heap (Canvas.run ops c))
  /\ sane (Canvas.world (Canvas.run ops c)).
Proof.
  induction ops as [|op ops IH]; intros c Hops Hset Hp Hw; simpl; [auto|].
  inversion Hops as [|? ? Hop Hrest]; subst.
  inversion Hset as [|? ? Hs Hsrest]; subst.
  destruct op as [stroke settings | speed settings cb]; simpl in *.
  - destruct (generateBranches_seeded stroke settings (Canvas.heap c)
                (Canvas.world c) Hw) as (seeds & Hh & _ & Hseed & _ & Hw').
    apply IH; simpl; auto.
    rewrite Hh. apply Forall_app. split; [exact Hp|].
    destruct heredity as (Hseeds & _).
    eapply Forall_impl; [|exact Hseed].
    intros b Hb. apply (Hseeds stroke settings b Hs Hb).
  - destruct (animateBranches_hereditary (Canvas.branches c) speed settings cb
                (Canvas.heap c) (Canvas.world c) Hs Hop Hw Hp) as [Hp' Hw'].
    apply IH; simpl; auto.
Qed.

End HeredityOverRuns.

(** ** Growth engine: how deep and how long branches get *)

Section Generations.

Import JS GrowthAlgorithm GrowthNotions.

Lemma maxGenerations_le_5 (m : DrawingMode) : (maxGenerations m <= 5)%Z.
Proof. destruct m; unfold maxGenerations; simpl; lia. Qed.

Lemma generation_hereditary (m : DrawingMode) :
  hereditary (fun settings => GrowthSettings.drawingMode settings = m)
    (fun b => (Branch.generation b <= maxGenerations m)%Z).
Proof.
  unfold hereditary. split; [|split; [|split; [|split]]]; simpl; auto.
  - intros stroke settings b _ Hb.
    destruct Hb as (i & point & next & now & r1 & r2 & r3 & r4 & r5 & Hb).
    destruct Hb as (_ & _ & _ & _ & _ & _ & _ & _ & G & _).
    rewrite G. destruct m; unfold maxGenerations; simpl; lia.
  - intros now settings parent child Hm _ (_ & G & C).
    destruct C as (r1 & r2 & r3 & r4 & _ & _ & _ & _ & Gc & _).
    rewrite Gc. rewrite Hm in G. lia.
Qed.

Lemma generation_hereditary_any :
  hereditary (fun _ => True) (fun b => (Branch.generation b <= 5)%Z).
Proof.
  unfold hereditary. split; [|split; [|split; [|split]]]; simpl; auto.
  - intros stroke settings b _ Hb.
    destruct Hb as (i & point & next & now & r1 & r2 & r3 & r4 & r5 & Hb).
    destruct Hb as (_ & _ & _ & _ & _ & _ & _ & _ & G & _).
    rewrite G. lia.
  - intros now settings parent child _ _ (_ & G & C).
    destruct C as (r1 & r2 & r3 & r4 & _ & _ & _ & _ & Gc & _).
    rewrite Gc.
    pose proof (maxGenerations_le_5 (GrowthSettings.drawingMode settings)).
    lia.
Qed.

(** Over any run of the engine from the empty canvas, with [Math.random]
    in [[0, 1)], no branch is ever deeper than the generation limit:
    generation 5 at most whatever the modes, and the limit of the mode, 3
    for neural, 4 for electric and 5 for organic, when the whole run stays
    in one mode. *)
Theorem generation_never_exceeds_the_limit (ops : list Canvas.Op)
  (w : World.t) :
  sane w -> Forall steadyOp ops ->
  let c := Canvas.run ops (Canvas.init w) in
  Forall (fun b => (Branch.generation b <= 5)%Z) (Canvas.heap c)
  /\ (forall m,
        Forall (fun op => GrowthSettings.drawingMode (settingsOf op) = m) ops ->
        Forall (fun b => (Branch.generation b <= maxGenerations m)%Z)
          (Canvas.heap c)).
Proof.
  intros Hw Hops c.
  assert (Any : Forall (fun op : Canvas.Op => True) ops)
    by (apply Forall_forall; auto).
  split.
  - apply (run_hereditary _ _ generation_hereditary_any ops (Canvas.init w)
             Hops Any (Forall_nil _) Hw).
  - intros m Hm.
    apply (run_hereditary _ _ (generation_hereditary m) ops (Canvas.init w)
             Hops Hm (Forall_nil _) Hw).
Qed.

Lemma shapely_hereditary : hereditary (fun _ => True) shapely.
Proof.
  unfold hereditary. split; [|split; [|split; [|split]]].
  - intros stroke settings b _ Hb.
    destruct Hb as (i & point & next & now & r1 & r2 & r3 & r4 & r5 & Hb).
    destruct Hb as (_ & _ & (R1 & R2 & R3 & R4 & R5) & _ & _ & He & _ & Hl
                    & Hg & _ & Hm & _ & Ho & _).
    unfold shapely. rewrite Hg, Hl, Hm, Ho. simpl.
    split; [exact He|]. split; [lra|]. split; [lra|]. split; [lia|].
    unfold branchLengthMultiplier.
    destruct (GrowthSettings.drawingMode settings); simpl; lra.
  - intros now settings parent child _ (He & Ho & Hm & Hg & Hl) (_ & _ & C).
    destruct C as (r1 & r2 & r3 & r4 & (R1 & R2 & R3 & R4) & _ & _ & Hce & Hcg
                   & _ & Hcl & Hco & _ & Hcm & _).
    unfold shapely. rewrite Hcg, Hcl, Hco, Hcm.
    split; [exact Hce|]. split; [apply Rmax_l|]. split; [lra|].
    split; [lia|].
    replace (Z.to_nat (Branch.generation parent + 1))
      with (Datatypes.S (Z.to_nat (Branch.generation parent))) by lia.
    simpl.
    assert (0 < 0.6 ^ Z.to_nat (Branch.generation parent))
      by (apply pow_lt; lra).
    assert (0 < 0.9 ^ Z.to_nat (Branch.generation parent))
      by (apply pow_lt; lra).
    split; nra.
  - intros b v H; exact H.
  - intros b v H; exact H.
  - intros b v (He & Ho & Hm & Hg & Hl). unfold shapely; simpl.
    split; [exact He|]. split; [apply Rmax_l|]. auto.
Qed.

(** Over any run of the engine from the empty canvas, with [Math.random]
    in [[0, 1)], every branch keeps its shape within bounds: its stored end
    is its start plus its length along its angle; its opacity never drops
    below 0.3; its growth target lies in [[40, 100)]; and its length lies
    between [24 * 0.6 ^ g] and [120 * 0.9 ^ g], [g] being its generation, so
    that a branch is always shorter than 120 and every generation is shorter
    than the one before. *)
Theorem branches_keep_their_shape (ops : list Canvas.Op) (w : World.t) :
  sane w -> Forall steadyOp ops ->
  Forall shapely (Canvas.heap (Canvas.run ops (Canvas.init w))).
Proof.
  intros Hw Hops.
  assert (Any : Forall (fun op : Canvas.Op => True) ops)
    by (apply Forall_forall; auto).
  apply (run_hereditary _ _ shapely_hereditary ops (Canvas.init w)
           Hops Any (Forall_nil _) Hw).
Qed.

End Generations.

(** ** Growth engine: the growth of one step *)

Section OneTick.

Import JS GrowthAlgorithm GrowthNotions.

Variable now : Z.
Variable settings : GrowthSettings.t.
Variable speedMultiplier : R.
Variable onParticleGeneration : option Callback.

Lemma grow_progress (hasCallback : bool) (b : Branch.t) :
  Branch.progress (fst (grow now speedMultiplier settings hasCallback b))
  = progressAfter now speedMultiplier b.
Proof.
  unfold grow, progressAfter.
  destruct (lt _ _ && gt _ _); reflexivity.
Qed.

Lemma grow_settles (hasCallback : bool) (b : Branch.t) :
  settled now (fst (grow now speedMultiplier settings hasCallback b)).
Proof.
  unfold grow, settled.
  destruct (lt (Branch.progress b) (Branch.maxProgress b)
            && gt (IZR now - Branch.lastGrowth b) 16) eqn:C; simpl; [|exact C].
  rewrite (proj2 (gt_false_iff _ 16)) by lra. apply andb_false_r.
Qed.

Lemma grow_settled (hasCallback : bool) (b : Branch.t) :
  settled now b -> fst (grow now speedMultiplier settings hasCallback b) = b.
Proof. unfold grow, settled. intros ->. reflexivity. Qed.

Lemma settled_touch (b : Branch.t) :
  settled now (Branch.set_lastGrowth (IZR now) b).
Proof.
  unfold settled; simpl.
  rewrite (proj2 (gt_false_iff _ 16)) by lra. apply andb_false_r.
Qed.

Variable h : Heap.
Variable a : addr.
Variable b : Branch.t.
Hypothesis at_a : nth_error h a = Some b.

Lemma tickedOnce_visit (done : list addr) (x : addr) (st : Loop) :
  tickedOnce now speedMultiplier h a b done st ->
  tickedOnce now speedMultiplier h a b (done ++ [x])
    (visit now speedMultiplier settings onParticleGeneration x st).
Proof.
  intros (Hlen & Hnew & Hfresh & Hdone).
  assert (La : (a < List.length h)%nat)
    by (apply nth_error_Some; congruence).
  pose proof (visit_heapRel now settings speedMultiplier onParticleGeneration
                x st) as [Hl' _].
  split; [lia|].
  split.
  { intros y Hy.
    destruct (nth_error (heap st) x) as [bx|] eqn:Nx.
    - destruct (visit_footprint now settings speedMultiplier
                  onParticleGeneration x st bx Nx)
        as (children & f & _ & _ & Hn & _).
      rewrite Hn in Hy. apply in_app_or in Hy. destruct Hy as [Hy|Hy].
      + destruct (Hnew y Hy) as [H1|H1]; [left; apply in_or_app; auto|auto].
      + destruct Hy as [<-|Hy]; [left; apply in_or_app; simpl; auto|].
        apply in_seq in Hy. right; lia.
    - rewrite visit_dangling in Hy by exact Nx.
      destruct (Hnew y Hy) as [H1|H1]; [left; apply in_or_app; auto|auto]. }
  destruct (Nat.eq_dec x a) as [->|Hx].
  - split; [intros H; exfalso; apply H; apply in_or_app; simpl; auto|].
    intros _.
    destruct (in_dec Nat.eq_dec a done) as [Hin|Hin].
    + destruct (Hdone Hin) as (b2 & N2 & P2 & S2).
      destruct (visit_visited now settings speedMultiplier
                  onParticleGeneration a st b2 N2)
        as (b'' & N'' & Hb'' & _).
      rewrite (grow_settled _ b2 S2) in Hb''.
      exists b''. split; [exact N''|].
      destruct Hb'' as [->| ->]; simpl; auto using settled_touch.
    + specialize (Hfresh Hin).
      destruct (visit_visited now settings speedMultiplier
                  onParticleGeneration a st b Hfresh)
        as (b'' & N'' & Hb'' & _).
      exists b''. split; [exact N''|].
      destruct Hb'' as [->| ->]; simpl;
        rewrite grow_progress; auto using grow_settles, settled_touch.
  - assert (Ea : nth_error
                   (heap (visit now speedMultiplier settings
                            onParticleGeneration x st)) a
                 = nth_error (heap st) a)
      by (apply visit_others; [congruence|lia]).
    rewrite Ea. split.
    + intros H. apply Hfresh. intros Hin. apply H. apply in_or_app; auto.
    + intros H. apply in_app_or in H. destruct H as [H|[H|[]]];
        [auto|congruence].
Qed.

Lemma tickedOnce_loop (l : list addr) (w : World.t) :
  tickedOnce now speedMultiplier h a b l
    (fold_left
       (fun st x => visit now speedMultiplier settings onParticleGeneration x st)
       l (mkLoop h [] [] w)).
Proof.
  apply (fold_left_prefix (tickedOnce now speedMultiplier h a b)
           (fun _ => True)
           (fun st x =>
              visit now speedMultiplier settings onParticleGeneration x st))
    with (done := []).
  - intros done x st _. apply tickedOnce_visit.
  - apply Forall_forall; auto.
  - split; [simpl; lia|]. split; [intros x []|]. split; [auto|intros []].
Qed.

Lemma pulses_elsewhere (l : list addr) (hh : Heap) (x : addr) :
  ~ In x l -> nth_error (fold_left (pulse now settings) l hh) x = nth_error hh x.
Proof.
  revert hh. induction l as [|y l IH]; intros hh Hx; simpl; [reflexivity|].
  rewrite IH by (intros H; apply Hx; simpl; auto).
  unfold pulse. destruct (nth_error hh y); [|reflexivity].
  destruct (ge _ _ && (_ <? 16)%Z); [|reflexivity].
  apply nth_error_modify_ne. intros ->. apply Hx; simpl; auto.
Qed.

End OneTick.

Section OneStepOfGrowth.

Import JS GrowthAlgorithm GrowthNotions.

(** One call of [animateBranches] makes a branch among the first 500 of the
    array grow at most once, whether or not the array names it twice: its
    progress becomes [min(maxProgress, progress + growthSpeed / 50)] if it
    was below [maxProgress] and the last growth more than 16 ms before the
    clock reading of the call, and stays what it was otherwise.  A branch of
    the store that is not among the first 500 of the array is not touched
    at all. *)
Theorem animateBranches_makes_one_tick (branches : list addr)
  (growthSpeed : R) (settings : GrowthSettings.t) (cb : option Callback)
  (h : Heap) (w : World.t) (a : addr) (b : Branch.t) :
  nth_error h a = Some b ->
  let r := animateBranches branches growthSpeed settings cb h w in
  let now := World.clock w (World.elapsed w) in
  (In a (firstn maxBranches branches) ->
   exists b',
     nth_error (heap r) a = Some b'
     /\ Branch.progress b' = progressAfter now (growthSpeed / 50) b)
  /\ (~ In a (firstn maxBranches branches) -> nth_error (heap r) a = Some b).
Proof.
  intros N r now.
  pose proof (tickedOnce_loop now settings (growthSpeed / 50) cb h a b N
                (firstn maxBranches branches)
                (World.mk (World.random w) (World.drawn w) (World.clock w)
                   (Datatypes.S (World.elapsed w))))
    as (Hlen & Hnew & Hfresh & Hdone).
  assert (La : (a < List.length h)%nat)
    by (apply nth_error_Some; congruence).
  unfold r, animateBranches, World.Date_now. cbv beta iota zeta.
  fold now.
  set (final := fold_left _ (firstn maxBranches branches) _) in *.
  simpl. split.
  - intros Hin. destruct (Hdone Hin) as (b2 & N2 & P2 & _).
    destruct (pulses_footprint now settings (newBranches final) (heap final))
      as ((_ & Hp) & _ & _).
    destruct (Hp a b2 N2) as (b' & N' & (_ & Pp & _)).
    exists b'. split; [exact N'|]. rewrite Pp. exact P2.
  - intros Hin. rewrite pulses_elsewhere; [apply Hfresh; exact Hin|].
    intros H. destruct (Hnew a H) as [H1|H1]; [auto|lia].
Qed.

End OneStepOfGrowth.

(** ** Growth engine: examples *)

Section GrowthExamples.

Import JS GrowthAlgorithm GrowthNotions.

Lemma getRandomColor_stays_in_the_palette_witness :
  In (fst (getRandomColor 2 neuralSettings ripeWorld)) (palette 2 neuralSettings)
  /\ (World.drawn (snd (getRandomColor 2 neuralSettings ripeWorld))
      <= Datatypes.S (World.drawn ripeWorld))%nat
  /\ sane (snd (getRandomColor 2 neuralSettings ripeWorld)).
Proof.
  apply (getRandomColor_stays_in_the_palette 2 neuralSettings ripeWorld
           sane_ripeWorld).
Defined.

Lemma generateBranches_seeds_lie_on_the_stroke_witness :
  let r := generateBranches shortStroke neuralSettings [] ripeWorld in
  exists seeds,
    heap r = [] ++ seeds
    /\ newBranches r = seq 0 (List.length seeds)
    /\ Forall (seedOf shortStroke neuralSettings) seeds
    /\ calls r = []
    /\ sane (world r)
    /\ ((List.length shortStroke < 2)%nat -> seeds = [] /\ world r = ripeWorld).
Proof.
  apply (generateBranches_seeds_lie_on_the_stroke shortStroke neuralSettings []
           ripeWorld sane_ripeWorld).
Defined.

Lemma shortRun_steady : Forall steadyOp shortRun.
Proof.
  unfold shortRun.
  repeat (apply Forall_cons; [first [exact I | exact saneCallback_None]|]).
  apply Forall_nil.
Qed.

Lemma generation_never_exceeds_the_limit_witness :
  let c := Canvas.run shortRun (Canvas.init ripeWorld) in
  Forall (fun b => (Branch.generation b <= 5)%Z) (Canvas.heap c)
  /\ (forall m,
        Forall (fun op => GrowthSettings.drawingMode (settingsOf op) = m)
          shortRun ->
        Forall (fun b => (Branch.generation b <= maxGenerations m)%Z)
          (Canvas.heap c)).
Proof.
  apply (generation_never_exceeds_the_limit shortRun ripeWorld sane_ripeWorld
           shortRun_steady).
Defined.

Lemma branches_keep_their_shape_witness :
  Forall shapely (Canvas.heap (Canvas.run shortRun (Canvas.init ripeWorld))).
Proof.
  apply (branches_keep_their_shape shortRun ripeWorld sane_ripeWorld
           shortRun_steady).
Defined.

Lemma animateBranches_makes_one_tick_witness :
  exists b',
    nth_error
      (heap (animateBranches [0%nat] 50 neuralSettings None [youngBranch]
               ripeWorld)) 0%nat
    = Some b'
    /\ Branch.progress b' = 11.
Proof.
  destruct (animateBranches_makes_one_tick [0%nat] 50 neuralSettings None
              [youngBranch] ripeWorld 0%nat youngBranch eq_refl) as [H _].
  destruct H as (b' & N & Pb); [unfold maxBranches; simpl; auto|].
  exists b'. split; [exact N|]. rewrite Pb.
  unfold progressAfter, youngBranch, ripeWorld; simpl.
  rewrite (proj2 (lt_true_iff 10 60)) by lra.
  rewrite (proj2 (gt_true_iff _ 16)) by lra. simpl.
  unfold Rmin. destruct (Rle_dec 60 (10 + 50 / 50)); lra.
Defined.

End GrowthExamples.

(** ** Particles: a burst *)

Section Bursts.

Import JS JSArray Particles GrowthNotions.

Lemma newParticle_fresh (x y : R) (color : string) (w : World.t) :
  sane w ->
  freshParticle x y color (fst (newParticle x y color w))
  /\ World.random (snd (newParticle x y color w)) = World.random w
  /\ World.drawn (snd (newParticle x y color w)) = (World.drawn w + 6)%nat
  /\ World.clock (snd (newParticle x y color w)) = World.clock w
  /\ World.elapsed (snd (newParticle x y color w)) = World.elapsed w.
Proof.
  intros Hw. unfold newParticle; simpl.
  split; [|repeat split; lia].
  pose proof (Hw (World.drawn w)).
  pose proof (Hw (S (World.drawn w))).
  pose proof (Hw (S (S (World.drawn w)))).
  pose proof (Hw (S (S (S (World.drawn w))))).
  pose proof (Hw (S (S (S (S (World.drawn w)))))).
  pose proof (Hw (S (S (S (S (S (World.drawn w))))))).
  unfold freshParticle; simpl.
  repeat split; try reflexivity; try lra; apply Rabs_le; lra.
Qed.

(** The loop ends by its test, not for lack of fuel. *)
Lemma pushParticles_pushed (particleCount x y : R) (color : string)
  (w0 : World.t) (fuel : nat) :
  sane w0 ->
  forall i acc w,
    pushed x y color w0 i (acc, w) ->
    INR i - 1 < particleCount < INR (i + fuel) ->
    exists n,
      pushed x y color w0 n
        (pushParticles fuel i particleCount x y color acc w)
      /\ INR n - 1 < particleCount <= INR n.
Proof.
  intros Hw0. induction fuel as [|fuel IH]; intros i acc w Hp Hi;
    cbn [pushParticles].
  - rewrite Nat.add_0_r in Hi. exists i. split; [exact Hp|lra].
  - destruct (lt (INR i) particleCount) eqn:T.
    + apply lt_true_iff in T.
      destruct Hp as (Hl & Hf & Hr & Hd & Hc & He).
      cbn [fst snd] in Hl, Hf, Hr, Hd, Hc, He.
      assert (Sw : sane w) by (intros k; rewrite Hr; apply Hw0).
      destruct (newParticle_fresh x y color w Sw) as (Pf & Pr & Pd & Pc & Pe).
      destruct (newParticle x y color w) as [p w'] eqn:E.
      cbn [fst snd] in Pf, Pr, Pd, Pc, Pe.
      apply IH.
      * unfold pushed; cbn [fst snd]. rewrite length_app. cbn [List.length].
        split; [lia|].
        split; [apply Forall_app; split;
                [exact Hf|constructor; [exact Pf|constructor]]|].
        split; [congruence|]. split; [lia|]. split; congruence.
      * rewrite S_INR. replace (S i + fuel)%nat with (i + S fuel)%nat by lia.
        lra.
    + apply lt_false_iff in T. exists i. split; [exact Hp|lra].
Qed.

Lemma length_slice_last {A : Type} (n : nat) (l : list A) :
  List.length (slice_last n l) = Nat.min n (List.length l).
Proof. unfold slice_last. rewrite length_skipn. lia. Qed.

Lemma Forall_slice_last {A : Type} (P : A -> Prop) (n : nat) (l : list A) :
  Forall P l -> Forall P (slice_last n l).
Proof.
  intros H. unfold slice_last.
  rewrite <- (firstn_skipn (List.length l - n) l) in H.
  apply Forall_app in H. apply H.
Qed.

Lemma generateParticles_on (settings : GrowthSettings.t) (x y : R)
  (color : string) (prev : list Particle.t) (w : World.t) :
  sane w -> GrowthSettings.particleEffects settings = true ->
  let particleCount := 3 + World.random w (World.drawn w) * 5 in
  exists newParticles,
    fst (generateParticles settings x y color prev w)
    = slice_last 200 (prev ++ newParticles)
    /\ (3 <= List.length newParticles <= 8)%nat
    /\ INR (List.length newParticles) - 1 < particleCount
       <= INR (List.length newParticles)
    /\ Forall (freshParticle x y color) newParticles
    /\ World.random (snd (generateParticles settings x y color prev w))
       = World.random w
    /\ World.drawn (snd (generateParticles settings x y color prev w))
       = (World.drawn w + 1 + 6 * List.length newParticles)%nat
    /\ World.clock (snd (generateParticles settings x y color prev w))
       = World.clock w
    /\ World.elapsed (snd (generateParticles settings x y color prev w))
       = World.elapsed w.
Proof.
  intros Hw On pc. unfold generateParticles. rewrite On. simpl. fold pc.
  set (w1 := World.mk (World.random w) (S (World.drawn w)) (World.clock w)
               (World.elapsed w)).
  pose proof (Hw (World.drawn w)) as Hr.
  assert (S1 : sane w1) by (intros k; apply Hw).
  destruct (archimed pc) as [U1 U2].
  assert (Up : (0 <= up pc)%Z).
  { apply le_IZR. unfold pc in *. lra. }
  destruct (pushParticles_pushed pc x y color w1 (Z.to_nat (up pc)) S1 0 [] w1)
    as (n & Hp & Hn).
  { unfold pushed; simpl. repeat split; auto; lia. }
  { simpl. rewrite INR_IZR_INZ, Z2Nat.id by exact Up. unfold pc in *. lra. }
  destruct (pushParticles (Z.to_nat (up pc)) 0 pc x y color [] w1)
    as [news w2] eqn:E.
  destruct Hp as (Hl & Hf & Hrn & Hd & Hc & He). simpl in *.
  exists news. subst n.
  split; [reflexivity|]. split.
  { assert (I3 : INR 3 = 3) by (simpl; lra).
    assert (I8 : INR 8 = 8) by (simpl; lra).
    unfold pc in Hn. split; apply INR_le; rewrite ?I3, ?I8.
    - lra.
    - assert (B : INR (List.length news) < INR 9)
        by (replace (INR 9) with 9 by (simpl; lra); lra).
      apply INR_lt in B. apply le_INR in B. rewrite S_INR in B.
      replace (INR 9) with 9 in B by (simpl; lra). lra. }
  split; [exact Hn|]. split; [exact Hf|].
  split; [exact Hrn|]. split; [lia|]. split; assumption.
Qed.

Lemma generateParticles_sane (settings : GrowthSettings.t) (x y : R)
  (color : string) (prev : list Particle.t) (w : World.t) :
  sane w -> sane (snd (generateParticles settings x y color prev w)).
Proof.
  intros Hw.
  destruct (GrowthSettings.particleEffects settings) eqn:On.
  - destruct (generateParticles_on settings x y color prev w Hw On)
      as (news & _ & _ & _ & _ & Hr & _).
    intros k. rewrite Hr. apply Hw.
  - unfold generateParticles. rewrite On. exact Hw.
Qed.

Lemma callback_sane (settings : GrowthSettings.t) :
  saneCallback (Some (callback settings)).
Proof.
  intros f [= <-] x y color w Hw. apply generateParticles_sane. exact Hw.
Qed.

(** With particle effects off, [generateParticles] does nothing and draws
    no random number.  With particle effects on and [Math.random] in
    [[0, 1)], it makes between 3 and 8 particles, as many as there are
    integers [i >= 0] below [3 + 5 r]; each is within 5 of [(x, y)] on both
    axes, with velocity components in [[-1, 1]], life 0, a life span in
    [[60, 100)], the given colour and a size in [[1, 3)]; they are appended
    to the state and the state is cut to its last 200 particles, so that
    the newest always survive; seven random numbers are drawn for the first
    particle and six for each other one, and [Math.random] is left as it
    was, which makes [generateParticles] a callback that the growth engine
    can be given. *)
Theorem generateParticles_makes_a_burst (settings : GrowthSettings.t)
  (x y : R) (color : string) (prev : list Particle.t) (w : World.t) :
  sane w ->
  let r := generateParticles settings x y color prev w in
  (GrowthSettings.particleEffects settings = false -> r = (prev, w))
  /\ (GrowthSettings.particleEffects settings = true ->
      exists newParticles,
        fst r = slice_last 200 (prev ++ newParticles)
        /\ (3 <= List.length newParticles <= 8)%nat
        /\ INR (List.length newParticles) - 1
           < 3 + World.random w (World.drawn w) * 5
           <= INR (List.length newParticles)
        /\ Forall (freshParticle x y color) newParticles
        /\ List.length (fst r)
           = Nat.min 200 (List.length prev + List.length newParticles)
        /\ World.drawn (snd r)
           = (World.drawn w + 1 + 6 * List.length newParticles)%nat)
  /\ sane (snd r)
  /\ saneCallback (Some (callback settings)).
Proof.
  intros Hw r. split; [|split; [|split]].
  - intros Off. unfold r, generateParticles. rewrite Off. reflexivity.
  - intros On.
    destruct (generateParticles_on settings x y color prev w Hw On)
      as (news & E & Hn & Hc & Hf & _ & Hd & _).
    exists news. fold r in E, Hd.
    repeat (split; [assumption|]).
    split; [|exact Hd].
    rewrite E, length_slice_last, length_app. reflexivity.
  - apply generateParticles_sane. exact Hw.
  - apply callback_sane.
Qed.

End Bursts.

(** ** Particles: frames *)

Section Frames.

Import JS JSArray Particles GrowthNotions.

Lemma filter_map_commute {A B : Type} (f : A -> B) (g : B -> bool)
  (l : list A) :
  filter g (map f l) = map f (filter (fun a => g (f a)) l).
Proof.
  induction l as [|a l IH]; simpl; [reflexivity|].
  destruct (g (f a)); simpl; rewrite IH; reflexivity.
Qed.

Lemma filter_filter {A : Type} (f g : A -> bool) (l : list A) :
  (forall a, f a = true -> g a = true) ->
  filter f (filter g l) = filter f l.
Proof.
  intros H. induction l as [|a l IH]; simpl; [reflexivity|].
  destruct (g a) eqn:G; simpl.
  - destruct (f a); rewrite IH; reflexivity.
  - destruct (f a) eqn:F; [rewrite (H a F) in G; discriminate|exact IH].
Qed.

Lemma age_agedParticle (n : nat) (p : Particle.t) :
  age (agedParticle n p) = agedParticle (S n) p.
Proof.
  unfold age, agedParticle.
  cbn [Particle.x Particle.y Particle.vx Particle.vy Particle.life
       Particle.maxLife Particle.color Particle.size].
  rewrite S_INR. change (0.98 ^ S n) with (0.98 * 0.98 ^ n).
  generalize (0.98 ^ n). intros k.
  replace 0.98 with (98 / 100) by lra. replace 0.02 with (2 / 100) by lra.
  f_equal; field.
Qed.

Lemma agedParticle_1 (p : Particle.t) : age p = agedParticle 1 p.
Proof.
  unfold age, agedParticle.
  change (0.98 ^ 1) with (0.98 * 1). change (INR 1) with 1.
  replace 0.98 with (98 / 100) by lra. replace 0.02 with (2 / 100) by lra.
  f_equal; field.
Qed.

(** [n] frames in a row. *)
Lemma frames_closed_form (n : nat) (prev : list Particle.t) :
  Nat.iter (S n) updateParticles prev
  = map (agedParticle (S n))
      (filter (fun p => lt (Particle.life p + INR (S n)) (Particle.maxLife p))
              prev).
Proof.
  induction n as [|n IH].
  - simpl Nat.iter. unfold updateParticles.
    rewrite filter_map_commute.
    rewrite (map_ext age (agedParticle 1)) by apply agedParticle_1.
    f_equal.
  - change (Nat.iter (S (S n)) updateParticles prev)
      with (updateParticles (Nat.iter (S n) updateParticles prev)).
    rewrite IH. unfold updateParticles.
    rewrite map_map, filter_map_commute.
    rewrite (map_ext (fun p => age (agedParticle (S n) p))
               (agedParticle (S (S n))))
      by (intros p; apply age_agedParticle).
    f_equal.
    rewrite (filter_ext
               (fun a => lt (Particle.life (age (agedParticle (S n) a)))
                            (Particle.maxLife (age (agedParticle (S n) a))))
               (fun p => lt (Particle.life p + INR (S (S n)))
                            (Particle.maxLife p))).
    + apply filter_filter. intros p Hp.
      apply lt_true_iff in Hp. apply lt_true_iff.
      rewrite (S_INR (S n)) in Hp. lra.
    + intros p. unfold age, agedParticle.
      cbn [Particle.life Particle.maxLife].
      rewrite (S_INR (S n)). f_equal. ring.
Qed.

(** After [n >= 1] calls of [updateParticles], the particles left are those
    whose life plus [n] is still below their life span, in their order;
    each has moved by its velocity times [(1 - 0.98 ^ n) / 0.02], which is
    less than 50 times its velocity however long it lives, and its velocity
    has been multiplied by [0.98 ^ n]: a particle lives for [maxLife - life]
    frames, rounded up, and the state is empty once every life span is
    used up. *)
Theorem updateParticles_after_n_frames (n : nat) (prev : list Particle.t) :
  Nat.iter (S n) updateParticles prev
  = map (agedParticle (S n))
      (filter (fun p => lt (Particle.life p + INR (S n)) (Particle.maxLife p))
              prev)
  /\ (forall p,
        Rabs (Particle.x (agedParticle (S n) p) - Particle.x p)
        <= 50 * Rabs (Particle.vx p)
        /\ Rabs (Particle.y (agedParticle (S n) p) - Particle.y p)
           <= 50 * Rabs (Particle.vy p))
  /\ (Forall (fun p => Particle.maxLife p <= Particle.life p + INR (S n)) prev ->
      Nat.iter (S n) updateParticles prev = []).
Proof.
  split; [apply frames_closed_form|]. split.
  - intros p. unfold agedParticle. cbn [Particle.x Particle.y].
    assert (P0 : 0 < 0.98 ^ S n) by (apply pow_lt; lra).
    assert (P1 : 0.98 ^ S n <= 1).
    { rewrite <- (pow1 (S n)). apply pow_incr; lra. }
    assert (K : forall v, Rabs (v * (1 - 0.98 ^ S n) / 0.02) <= 50 * Rabs v).
    { intros v.
      replace (v * (1 - 0.98 ^ S n) / 0.02)
        with (v * (50 * (1 - 0.98 ^ S n)))
        by (replace 0.02 with (2 / 100) by lra; field).
      rewrite Rabs_mult, (Rabs_pos_eq (50 * (1 - 0.98 ^ S n))) by lra.
      pose proof (Rabs_pos v). nra. }
    split.
    + replace (Particle.x p + Particle.vx p * (1 - 0.98 ^ S n) / 0.02
               - Particle.x p)
        with (Particle.vx p * (1 - 0.98 ^ S n) / 0.02) by ring.
      apply K.
    + replace (Particle.y p + Particle.vy p * (1 - 0.98 ^ S n) / 0.02
               - Particle.y p)
        with (Particle.vy p * (1 - 0.98 ^ S n) / 0.02) by ring.
      apply K.
  - intros H. rewrite frames_closed_form.
    induction H as [|p l Hp Hl IH]; [reflexivity|].
    cbn [filter]. rewrite (proj2 (lt_false_iff _ _) Hp). exact IH.
Qed.

Lemma age_live (p : Particle.t) :
  0 <= Particle.life p ->
  lt (Particle.life (age p)) (Particle.maxLife (age p)) = true ->
  liveParticle (age p).
Proof.
  intros H0 T. apply lt_true_iff in T. unfold liveParticle, alpha.
  simpl in *. split; [lra|].
  assert (M : 0 < Particle.maxLife p) by lra.
  assert (Q : 0 < (Particle.life p + 1) / Particle.maxLife p < 1).
  { split.
    - apply Rdiv_lt_0_compat; lra.
    - apply (Rmult_lt_reg_r (Particle.maxLife p)); [exact M|].
      unfold Rdiv. rewrite Rmult_assoc, Rinv_l by lra. lra. }
  lra.
Qed.

Lemma updateParticles_live (prev : list Particle.t) :
  Forall liveParticle prev -> Forall liveParticle (updateParticles prev).
Proof.
  intros H. unfold updateParticles. apply Forall_forall. intros q Hq.
  apply filter_In in Hq. destruct Hq as [Hq T].
  apply in_map_iff in Hq. destruct Hq as (p & <- & Hp).
  rewrite Forall_forall in H. destruct (H p Hp) as [[L0 _] _].
  apply age_live; assumption.
Qed.

Lemma length_updateParticles (prev : list Particle.t) :
  (List.length (updateParticles prev) <= List.length prev)%nat.
Proof.
  unfold updateParticles.
  etransitivity; [apply filter_length_le|]. rewrite length_map. lia.
Qed.

Lemma fresh_live (x y : R) (color : string) (p : Particle.t) :
  freshParticle x y color p -> liveParticle p.
Proof.
  intros (_ & _ & _ & _ & L & M & _). unfold liveParticle, alpha.
  rewrite L. split; [lra|]. unfold Rdiv. rewrite Rmult_0_l. lra.
Qed.

(** However bursts and frames follow each other from the empty state, with
    [Math.random] in [[0, 1)], the canvas never holds more than 200
    particles, and every particle it holds has [0 <= life < maxLife], so
    that the opacity [1 - life / maxLife] it is drawn with lies in
    [(0, 1]]. *)
Theorem particles_stay_few_and_alive (events : list ParticleEvent)
  (w : World.t) :
  sane w ->
  let st := particleRun events ([], w) in
  (List.length (fst st) <= 200)%nat
  /\ Forall liveParticle (fst st)
  /\ sane (snd st).
Proof.
  intros Hw. cbv zeta. unfold particleRun.
  apply (fold_left_invariant
           (fun st => (List.length (fst st) <= 200)%nat
                      /\ Forall liveParticle (fst st) /\ sane (snd st))).
  - intros [ps w'] e _ (Hl & Ha & Hs). simpl in *.
    destruct e as [settings x y color|]; simpl.
    + destruct (GrowthSettings.particleEffects settings) eqn:On.
      * destruct (generateParticles_on settings x y color ps w' Hs On)
          as (news & E & _ & _ & Hf & Hr & _).
        rewrite E, length_slice_last.
        split; [lia|]. split.
        -- apply Forall_slice_last, Forall_app. split; [exact Ha|].
           eapply Forall_impl; [|exact Hf]. intros p; apply fresh_live.
        -- apply generateParticles_sane. exact Hs.
      * unfold generateParticles. rewrite On. simpl. auto.
    + pose proof (length_updateParticles ps).
      split; [lia|]. split; [apply updateParticles_live; exact Ha|exact Hs].
  - simpl. split; [lia|]. split; [constructor|exact Hw].
Qed.

End Frames.

(** ** Particles: examples *)

Section ParticleExamples.

Import JS JSArray Particles GrowthNotions.

Lemma generateParticles_makes_a_burst_witness :
  exists newParticles,
    fst (generateParticles neuralSettings 100 100 "#00E0FF" [] ripeWorld)
    = slice_last 200 ([] ++ newParticles)
    /\ List.length newParticles = 3%nat
    /\ Forall (freshParticle 100 100 "#00E0FF") newParticles.
Proof.
  destruct (generateParticles_makes_a_burst neuralSettings 100 100 "#00E0FF"
              [] ripeWorld sane_ripeWorld) as (_ & On & _).
  destruct (On eq_refl) as (news & E & _ & C & F & _).
  exists news. split; [exact E|]. split; [|exact F].
  simpl in C.
  assert (L : INR (List.length news) < INR 4)
    by (replace (INR 4) with 4 by (simpl; lra); lra).
  assert (G : INR 3 <= INR (List.length news))
    by (replace (INR 3) with 3 by (simpl; lra); lra).
  apply INR_lt in L. apply INR_le in G. lia.
Defined.

Lemma particles_stay_few_and_alive_witness :
  let st :=
    particleRun [Burst neuralSettings 100 100 "#00E0FF"; Frame; Frame;
                 Burst neuralSettings 50 50 "#FF2CFB"; Frame]
      ([], ripeWorld) in
  (List.length (fst st) <= 200)%nat
  /\ Forall liveParticle (fst st)
  /\ sane (snd st).
Proof.
  apply (particles_stay_few_and_alive _ ripeWorld sane_ripeWorld).
Defined.

End ParticleExamples.

(** ** Special effects: triggering *)

Section Triggers.

Import JS SpecialEffectsManager GrowthNotions.

Lemma sane_drawn (w : World.t) (n : nat) :
  sane w ->
  sane (World.mk (World.random w) n (World.clock w) (World.elapsed w)).
Proof. intros H k; apply H. Qed.

Lemma customize_bounds (effect : SpecialEffect.t) (angle vx vy size maxLife : R)
  (w : World.t) :
  sane w -> 0 < SpecialEffect.intensity effect -> 0 < size -> 0 <= maxLife ->
  let '(vx', vy', size', maxLife', w') :=
    customize effect angle vx vy size maxLife w in
  0 < size' /\ maxLife * 0.7 <= maxLife' <= maxLife * 2
  /\ World.random w' = World.random w
  /\ World.clock w' = World.clock w /\ World.elapsed w' = World.elapsed w.
Proof.
  intros Hw Hi Hs Hm. unfold customize.
  pose proof (Hw (World.drawn w)) as R0.
  pose proof (Hw (S (World.drawn w))) as R1.
  pose proof (Hw (S (S (World.drawn w)))) as R2.
  destruct (SpecialEffect.type effect); simpl;
    (split; [nra|]); (split; [lra|]); repeat split.
Qed.

Lemma createParticleForEffect_fresh (effect : SpecialEffect.t) (w : World.t) :
  sane w -> tabledEffect effect ->
  freshEffectParticle effect (fst (createParticleForEffect effect w))
  /\ World.random (snd (createParticleForEffect effect w)) = World.random w
  /\ World.clock (snd (createParticleForEffect effect w)) = World.clock w
  /\ World.elapsed (snd (createParticleForEffect effect w)) = World.elapsed w.
Proof.
  intros Hw [Hi Hd]. unfold createParticleForEffect.
  cbv beta iota zeta delta [World.Math_random].
  cbn [World.random World.drawn World.clock World.elapsed].
  set (w4 := World.mk (World.random w) (S (S (S (S (World.drawn w)))))
               (World.clock w) (World.elapsed w)).
  pose proof (Hw (World.drawn w)) as R0.
  pose proof (Hw (S (World.drawn w))) as R1.
  pose proof (Hw (S (S (World.drawn w)))) as R2.
  pose proof (Hw (S (S (S (World.drawn w))))) as R3.
  set (angle := PI * 2 * World.random w (World.drawn w)).
  set (speed := (2 + World.random w (S (World.drawn w)) * 4)
                * SpecialEffect.intensity effect).
  set (size := (1 + World.random w (S (S (World.drawn w))) * 3)
               * SpecialEffect.intensity effect).
  set (maxLife := SpecialEffect.duration effect / 20
                  + World.random w (S (S (S (World.drawn w)))) * 20).
  assert (Hs : 0 < size) by (unfold size; nra).
  assert (Hm : 75 <= maxLife < 170) by (unfold maxLife; lra).
  pose proof (customize_bounds effect angle (cos angle * speed)
                (sin angle * speed) size maxLife w4
                (sane_drawn w _ Hw) ltac:(lra) Hs ltac:(lra)) as C.
  destruct (customize effect angle (cos angle * speed) (sin angle * speed)
              size maxLife w4) as [[[[vx' vy'] size'] maxLife'] w'].
  destruct C as (Cs & Cm & Cr & Cc & Ce).
  cbn [fst snd World.random World.drawn World.clock World.elapsed].
  assert (Sw' : sane w') by (intros k; rewrite Cr; apply Hw).
  pose proof (Sw' (World.drawn w')) as R5.
  pose proof (Sw' (S (World.drawn w'))) as R6.
  split; [|auto].
  unfold freshEffectParticle; cbn.
  split; [apply Rabs_le; lra|]. split; [apply Rabs_le; lra|].
  split; [reflexivity|]. split; [lra|]. split; [exact Cs|].
  repeat split.
Qed.

Lemma pushEffectParticles_fresh (n : nat) (effect : SpecialEffect.t) :
  tabledEffect effect ->
  forall particles w, sane w ->
  exists news,
    fst (pushEffectParticles n effect particles w) = particles ++ news
    /\ List.length news = n
    /\ Forall (freshEffectParticle effect) news
    /\ World.random (snd (pushEffectParticles n effect particles w))
       = World.random w
    /\ World.clock (snd (pushEffectParticles n effect particles w))
       = World.clock w
    /\ World.elapsed (snd (pushEffectParticles n effect particles w))
       = World.elapsed w.
Proof.
  intros Ht. induction n as [|n IH]; intros particles w Hw.
  - exists []. simpl. rewrite app_nil_r. repeat split; constructor.
  - cbn [pushEffectParticles].
    destruct (createParticleForEffect_fresh effect w Hw Ht)
      as (Pf & Pr & Pc & Pe).
    destruct (createParticleForEffect effect w) as [p w'].
    cbn [fst snd] in Pf, Pr, Pc, Pe.
    assert (Sw' : sane w') by (intros k; rewrite Pr; apply Hw).
    destruct (IH (particles ++ [p]) w' Sw') as (news & E & L & F & Hr & Hc & He).
    exists (p :: news). rewrite E, <- app_assoc. simpl.
    split; [reflexivity|]. split; [lia|]. split; [constructor; auto|].
    split; [congruence|]. split; congruence.
Qed.

(** What [triggerShapeEffect] does for an effect that the table gives. *)
Lemma trigger_effect (effect : SpecialEffect.t) (n : nat)
  (m : SpecialEffectsManager.t) (w : World.t) :
  sane w -> tabledEffect effect ->
  floor (20 * SpecialEffect.intensity effect) = Z.of_nat n ->
  exists news,
    fst (generateEffectParticles effect
           (mk (effects m ++ [effect]) (effectParticles m)) w)
    = mk (effects m ++ [effect]) (effectParticles m ++ news)
    /\ List.length news = n
    /\ Forall (freshEffectParticle effect) news
    /\ sane (snd (generateEffectParticles effect
                    (mk (effects m ++ [effect]) (effectParticles m)) w)).
Proof.
  intros Hw Ht Hn. unfold generateEffectParticles. rewrite Hn, Nat2Z.id.
  cbn [effectParticles effects].
  destruct (pushEffectParticles_fresh n effect Ht (effectParticles m) w Hw)
    as (news & E & L & F & Hr & _).
  destruct (pushEffectParticles n effect (effectParticles m) w) as [ps w'].
  cbn [fst snd] in *. exists news. rewrite E.
  split; [reflexivity|]. split; [exact L|]. split; [exact F|].
  intros k. rewrite Hr. apply Hw.
Qed.

(** [createEffectForShape] gives no effect or one within the bounds of
    the table. *)
Lemma createEffectForShape_cases (shapeType : string) (center : Point.t)
  (color : string) (w : World.t) :
  let w1 := World.mk (World.random w) (World.drawn w) (World.clock w)
              (S (World.elapsed w)) in
  createEffectForShape shapeType center color w = (None, w1)
  \/ exists effect n,
       createEffectForShape shapeType center color w = (Some effect, w1)
       /\ tabledEffect effect
       /\ floor (20 * SpecialEffect.intensity effect) = Z.of_nat n.
Proof.
  intros w1. unfold createEffectForShape.
  cbv beta iota zeta delta [World.Date_now]. fold w1.
  assert (Fl : forall x z, IZR z <= 20 * x < IZR z + 1 -> floor (20 * x) = z)
    by (intros x z H; apply floor_value; exact H).
  destruct (String.eqb shapeType "circle");
    [right; eexists; exists 20%nat; split; [reflexivity|];
     split; [split; simpl; lra|apply Fl; simpl; lra]|].
  destruct (String.eqb shapeType "line");
    [right; eexists; exists 16%nat; split; [reflexivity|];
     split; [split; simpl; lra|apply Fl; simpl; lra]|].
  destruct (String.eqb shapeType "triangle");
    [right; eexists; exists 24%nat; split; [reflexivity|];
     split; [split; simpl; lra|apply Fl; simpl; lra]|].
  destruct (String.eqb shapeType "square");
    [right; eexists; exists 18%nat; split; [reflexivity|];
     split; [split; simpl; lra|apply Fl; simpl; lra]|].
  destruct (String.eqb shapeType "spiral");
    [right; eexists; exists 30%nat; split; [reflexivity|];
     split; [split; simpl; lra|apply Fl; simpl; lra]|].
  destruct (String.eqb shapeType "star");
    [right; eexists; exists 36%nat; split; [reflexivity|];
     split; [split; simpl; lra|apply Fl; simpl; lra]|].
  destruct (String.eqb shapeType "wave");
    [right; eexists; exists 22%nat; split; [reflexivity|];
     split; [split; simpl; lra|apply Fl; simpl; lra]|].
  left. reflexivity.
Qed.

(** [triggerShapeEffect] keeps the manager as it is or adds one effect and
    its particles. *)
Lemma triggerShapeEffect_cases (shapeType : string) (center : Point.t)
  (color : string) (m : SpecialEffectsManager.t) (w : World.t) :
  sane w ->
  let r := triggerShapeEffect shapeType center color m w in
  (fst r = m /\ sane (snd r))
  \/ exists effect news,
       effects (fst r) = effects m ++ [effect]
       /\ effectParticles (fst r) = effectParticles m ++ news
       /\ tabledEffect effect
       /\ Forall (freshEffectParticle effect) news
       /\ sane (snd r).
Proof.
  intros Hw r. unfold r, triggerShapeEffect.
  assert (S1 : sane (World.mk (World.random w) (World.drawn w) (World.clock w)
                       (S (World.elapsed w)))) by (intros k; apply Hw).
  destruct (createEffectForShape_cases shapeType center color w)
    as [E|(effect & n & E & Ht & Hn)]; rewrite E.
  - left. split; [reflexivity|exact S1].
  - right. destruct (trigger_effect effect n m _ S1 Ht Hn)
      as (news & Eg & _ & F & Sg).
    exists effect, news. rewrite Eg. cbn [fst effects effectParticles].
    auto.
Qed.

(** [triggerShapeEffect] reads the clock once.  For a shape type other than
    the seven of the table it changes nothing.  For one of the seven, it
    adds one effect, of the type of the table, centred and coloured as
    asked and stamped with the clock reading, and with [Math.random] in
    [[0, 1)] it adds as many particles as the table says, which is
    [floor(20 * intensity)]: each is within 5 of the centre on both axes,
    with life 0, opacity 1, a positive size, the colour and the type of the
    effect, and a life span of at least 52.5 and less than 340 frames. *)
Theorem triggerShapeEffect_follows_the_table (shapeType : string)
  (center : Point.t) (color : string) (m : SpecialEffectsManager.t)
  (w : World.t) :
  sane w ->
  let r := triggerShapeEffect shapeType center color m w in
  (~ In shapeType (map (fun row => fst (fst row)) effectTable) -> fst r = m)
  /\ (forall type n, In (shapeType, type, n) effectTable ->
      exists effect news,
        effects (fst r) = effects m ++ [effect]
        /\ effectParticles (fst r) = effectParticles m ++ news
        /\ SpecialEffect.type effect = type
        /\ SpecialEffect.center effect = center
        /\ SpecialEffect.color effect = color
        /\ SpecialEffect.timestamp effect = World.clock w (World.elapsed w)
        /\ tabledEffect effect
        /\ List.length news = n
        /\ Z.of_nat n = floor (20 * SpecialEffect.intensity effect)
        /\ Forall (freshEffectParticle effect) news)
  /\ sane (snd r)
  /\ World.elapsed (snd r) = S (World.elapsed w).
Proof.
  intros Hw r.
  set (w1 := World.mk (World.random w) (World.drawn w) (World.clock w)
               (S (World.elapsed w))).
  assert (S1 : sane w1) by (intros k; apply Hw).
  assert (Known :
    forall type intensity duration n,
      createEffectForShape shapeType center color w
      = (Some (SpecialEffect.mk type center intensity color duration
                 (World.clock w (World.elapsed w))), w1) ->
      0.8 <= intensity <= 1.8 -> 1500 <= duration <= 3000 ->
      floor (20 * intensity) = Z.of_nat n ->
      (exists effect news,
         effects (fst r) = effects m ++ [effect]
         /\ effectParticles (fst r) = effectParticles m ++ news
         /\ SpecialEffect.type effect = type
         /\ SpecialEffect.center effect = center
         /\ SpecialEffect.color effect = color
         /\ SpecialEffect.timestamp effect = World.clock w (World.elapsed w)
         /\ tabledEffect effect
         /\ List.length news = n
         /\ Z.of_nat n = floor (20 * SpecialEffect.intensity effect)
         /\ Forall (freshEffectParticle effect) news)
      /\ sane (snd r)
      /\ World.elapsed (snd r) = S (World.elapsed w)).
  { intros type intensity duration n E Hi Hd Hn.
    set (effect := SpecialEffect.mk type center intensity color duration
                     (World.clock w (World.elapsed w))) in *.
    assert (Ht : tabledEffect effect) by (split; assumption).
    destruct (trigger_effect effect n m w1 S1 Ht Hn) as (news & Eg & L & F & Sg).
    assert (Ee : World.elapsed
                   (snd (generateEffectParticles effect
                           (mk (effects m ++ [effect]) (effectParticles m)) w1))
                 = S (World.elapsed w)).
    { unfold generateEffectParticles.
      destruct (pushEffectParticles_fresh
                  (Z.to_nat (floor (20 * SpecialEffect.intensity effect)))
                  effect Ht (effectParticles m) w1 S1)
        as (news' & _ & _ & _ & _ & _ & He).
      cbn [effectParticles].
      destruct (pushEffectParticles _ effect (effectParticles m) w1).
      exact He. }
    unfold r, triggerShapeEffect. rewrite E.
    split; [|split; [exact Sg|exact Ee]].
    exists effect, news. rewrite Eg. cbn [fst effects effectParticles].
    repeat (split; [reflexivity|]).
    split; [exact Ht|]. split; [exact L|]. split; [symmetry; exact Hn|exact F]. }
  assert (Fl : forall x z, IZR z <= 20 * x < IZR z + 1 -> floor (20 * x) = z)
    by (intros x z H; apply floor_value; exact H).
  unfold createEffectForShape in Known.
  cbv beta iota zeta delta [World.Date_now] in Known. fold w1 in Known.
  destruct (String.eqb shapeType "circle") eqn:E1.
  { apply String.eqb_eq in E1. subst shapeType.
    destruct (Known SpecialEffect.ripple 1.0 2000 20%nat eq_refl)
      as (K1 & K2 & K3); try lra; [apply Fl; simpl; lra|].
    split; [intros N; exfalso; apply N; simpl; auto|].
    split; [|auto].
    intros type n Hin. simpl in Hin.
    destruct Hin as [[= <- <-]|Hin]; [exact K1|].
    repeat (destruct Hin as [[=]|Hin]). destruct Hin. }
  destruct (String.eqb shapeType "line") eqn:E2.
  { apply String.eqb_eq in E2. subst shapeType.
    destruct (Known SpecialEffect.lightning 0.8 1500 16%nat eq_refl)
      as (K1 & K2 & K3); try lra; [apply Fl; simpl; lra|].
    split; [intros N; exfalso; apply N; simpl; auto|].
    split; [|auto].
    intros type n Hin. simpl in Hin.
    destruct Hin as [[=]|Hin].
    destruct Hin as [[= <- <-]|Hin]; [exact K1|].
    repeat (destruct Hin as [[=]|Hin]). destruct Hin. }
  destruct (String.eqb shapeType "triangle") eqn:E3.
  { apply String.eqb_eq in E3. subst shapeType.
    destruct (Known SpecialEffect.explosion 1.2 1800 24%nat eq_refl)
      as (K1 & K2 & K3); try lra; [apply Fl; simpl; lra|].
    split; [intros N; exfalso; apply N; simpl; auto|].
    split; [|auto].
    intros type n Hin. simpl in Hin.
    do 2 (destruct Hin as [[=]|Hin]).
    destruct Hin as [[= <- <-]|Hin]; [exact K1|].
    repeat (destruct Hin as [[=]|Hin]). destruct Hin. }
  destruct (String.eqb shapeType "square") eqn:E4.
  { apply String.eqb_eq in E4. subst shapeType.
    destruct (Known SpecialEffect.pulse 0.9 2500 18%nat eq_refl)
      as (K1 & K2 & K3); try lra; [apply Fl; simpl; lra|].
    split; [intros N; exfalso; apply N; simpl; auto 10|].
    split; [|auto].
    intros type n Hin. simpl in Hin.
    do 3 (destruct Hin as [[=]|Hin]).
    destruct Hin as [[= <- <-]|Hin]; [exact K1|].
    repeat (destruct Hin as [[=]|Hin]). destruct Hin. }
  destruct (String.eqb shapeType "spiral") eqn:E5.
  { apply String.eqb_eq in E5. subst shapeType.
    destruct (Known SpecialEffect.spiral_burst 1.5 3000 30%nat eq_refl)
      as (K1 & K2 & K3); try lra; [apply Fl; simpl; lra|].
    split; [intros N; exfalso; apply N; simpl; auto 10|].
    split; [|auto].
    intros type n Hin. simpl in Hin.
    do 4 (destruct Hin as [[=]|Hin]).
    destruct Hin as [[= <- <-]|Hin]; [exact K1|].
    repeat (destruct Hin as [[=]|Hin]). destruct Hin. }
  destruct (String.eqb shapeType "star") eqn:E6.
  { apply String.eqb_eq in E6. subst shapeType.
    destruct (Known SpecialEffect.star_burst 1.8 2200 36%nat eq_refl)
      as (K1 & K2 & K3); try lra; [apply Fl; simpl; lra|].
    split; [intros N; exfalso; apply N; simpl; auto 10|].
    split; [|auto].
    intros type n Hin. simpl in Hin.
    do 5 (destruct Hin as [[=]|Hin]).
    destruct Hin as [[= <- <-]|Hin]; [exact K1|].
    repeat (destruct Hin as [[=]|Hin]). destruct Hin. }
  destruct (String.eqb shapeType "wave") eqn:E7.
  { apply String.eqb_eq in E7. subst shapeType.
    destruct (Known SpecialEffect.sparkle 1.1 2800 22%nat eq_refl)
      as (K1 & K2 & K3); try lra; [apply Fl; simpl; lra|].
    split; [intros N; exfalso; apply N; simpl; auto 10|].
    split; [|auto].
    intros type n Hin. simpl in Hin.
    do 6 (destruct Hin as [[=]|Hin]).
    destruct Hin as [[= <- <-]|Hin]; [exact K1|].
    destruct Hin. }
  clear Known.
  assert (E : r = (m, w1)).
  { unfold r, triggerShapeEffect, createEffectForShape.
    cbv beta iota zeta delta [World.Date_now].
    rewrite E1, E2, E3, E4, E5, E6, E7. reflexivity. }
  rewrite E. cbn [fst snd].
  split; [reflexivity|]. split; [|split; [exact S1|reflexivity]].
  intros type n Hin. exfalso.
  apply String.eqb_neq in E1, E2, E3, E4, E5, E6, E7.
  simpl in Hin.
  repeat (destruct Hin as [[= H _ _]|Hin]; [congruence|]). destruct Hin.
Qed.

End Triggers.

(** ** Special effects: frames *)

Section EffectFrames.

Import JS SpecialEffectsManager GrowthNotions.

Lemma fresh_liveEffectParticle (effect : SpecialEffect.t) (p : EffectParticle.t) :
  freshEffectParticle effect p -> liveEffectParticle p.
Proof.
  intros (_ & _ & L & M & _ & _ & A & _). unfold liveEffectParticle.
  rewrite L, A. lra.
Qed.

Lemma age_liveEffectParticle (p : EffectParticle.t) :
  liveEffectParticle p ->
  lt (EffectParticle.life (age p)) (EffectParticle.maxLife (age p)) = true ->
  liveEffectParticle (age p).
Proof.
  intros ((L0 & L1) & M & _) T. apply lt_true_iff in T.
  unfold liveEffectParticle. simpl in *.
  split; [lra|]. split; [exact M|].
  assert (Q : 0 <= EffectParticle.life p / EffectParticle.maxLife p < 1).
  { split.
    - apply Rmult_le_pos; [exact L0|]. apply Rlt_le, Rinv_0_lt_compat. lra.
    - apply (Rmult_lt_reg_r (EffectParticle.maxLife p)); [lra|].
      unfold Rdiv. rewrite Rmult_assoc, Rinv_l by lra. lra. }
  lra.
Qed.

Lemma updateEffects_particles (m : SpecialEffectsManager.t) (w : World.t) :
  effectParticles (fst (updateEffects m w))
  = filter (fun p => lt (EffectParticle.life p) (EffectParticle.maxLife p))
           (map age (effectParticles m)).
Proof. reflexivity. Qed.

Lemma updateEffects_live (m : SpecialEffectsManager.t) (w : World.t) :
  Forall liveEffectParticle (effectParticles m) ->
  Forall liveEffectParticle (effectParticles (fst (updateEffects m w))).
Proof.
  intros H. rewrite updateEffects_particles. apply Forall_forall. intros q Hq.
  apply filter_In in Hq. destruct Hq as [Hq T].
  apply in_map_iff in Hq. destruct Hq as (p & <- & Hp).
  rewrite Forall_forall in H. apply age_liveEffectParticle; auto.
Qed.

Lemma effectRun_invariant (events : list EffectEvent) (w : World.t) :
  sane w ->
  Forall tabledEffect (effects (fst (effectRun events (new, w))))
  /\ Forall liveEffectParticle
       (effectParticles (fst (effectRun events (new, w))))
  /\ sane (snd (effectRun events (new, w))).
Proof.
  intros Hw. unfold effectRun.
  apply (fold_left_invariant
           (fun st => Forall tabledEffect (effects (fst st))
                      /\ Forall liveEffectParticle (effectParticles (fst st))
                      /\ sane (snd st))).
  - intros [m w'] e _ (He & Hp & Hs). cbn [fst snd] in *.
    destruct e as [shapeType center color| |]; cbn [effectStep fst snd].
    + destruct (triggerShapeEffect_cases shapeType center color m w' Hs)
        as [(E & S')|(effect & news & E1 & E2 & T & F & S')].
      * rewrite E. auto.
      * rewrite E1, E2. split; [apply Forall_app; auto|].
        split; [|exact S'].
        apply Forall_app. split; [exact Hp|].
        eapply Forall_impl; [|exact F].
        intros p; apply fresh_liveEffectParticle.
    + split; [|split].
      * unfold updateEffects. cbn.
        apply Forall_forall. intros x Hx. apply filter_In in Hx.
        rewrite Forall_forall in He. apply He, Hx.
      * apply updateEffects_live; exact Hp.
      * intros k. apply Hs.
    + split; [constructor|]. split; [constructor|exact Hs].
  - cbn. split; [constructor|]. split; [constructor|exact Hw].
Qed.

(** However triggers, frames and clears follow each other from the empty
    manager, with [Math.random] in [[0, 1)]: every effect has an intensity
    in [[0.8, 1.8]] and a duration in [[1500, 3000]]; every particle has
    [0 <= life < maxLife < 340] and an opacity in [(0, 1]], the opacity
    being computed from the life the particle had one frame earlier; and
    right after a frame no effect is left whose duration had run out at
    the clock reading of that frame. *)
Theorem effects_stay_alive (events : list EffectEvent) (w : World.t) :
  sane w ->
  let st := effectRun events (new, w) in
  Forall tabledEffect (effects (fst st))
  /\ Forall liveEffectParticle (effectParticles (fst st))
  /\ sane (snd st)
  /\ (forall m w',
        let now := World.clock w' (World.elapsed w') in
        Forall (fun effect =>
                  IZR (now - SpecialEffect.timestamp effect)
                  < SpecialEffect.duration effect)
               (effects (fst (updateEffects m w')))).
Proof.
  intros Hw. cbv zeta.
  destruct (effectRun_invariant events w Hw) as (I1 & I2 & I3).
  repeat (split; [assumption|]).
  intros m w'. unfold updateEffects. cbn.
  apply Forall_forall. intros x Hx. apply filter_In in Hx.
  destruct Hx as [_ Hx]. apply lt_true_iff in Hx. exact Hx.
Qed.

Lemma ticks_age (n : nat) :
  forall m w,
  Forall liveEffectParticle (effectParticles m) ->
  Forall (fun p => liveEffectParticle p /\ INR n <= EffectParticle.life p)
    (effectParticles (fst (effectRun (repeat Tick n) (m, w)))).
Proof.
  unfold effectRun.
  induction n as [|n IH]; intros m w H.
  - simpl. eapply Forall_impl; [|exact H].
    intros p Hp. split; [exact Hp|apply Hp].
  - replace (repeat Tick (S n)) with (repeat Tick n ++ [Tick])
      by (rewrite <- repeat_cons; reflexivity).
    rewrite fold_left_app. cbn [fold_left effectStep].
    specialize (IH m w H).
    destruct (fold_left effectStep (repeat Tick n) (m, w)) as [m' w'].
    cbn [fst snd] in *. rewrite updateEffects_particles.
    apply Forall_forall. intros q Hq.
    apply filter_In in Hq. destruct Hq as [Hq T].
    apply in_map_iff in Hq. destruct Hq as (p & <- & Hp).
    rewrite Forall_forall in IH. destruct (IH p Hp) as [Lp Np].
    split; [apply age_liveEffectParticle; assumption|].
    rewrite S_INR. simpl. lra.
Qed.

(** Left alone, the particles of the effects fade out: from a manager
    whose particles have [0 <= life < maxLife < 340], as every manager
    reached from the empty one has, 340 calls of [updateEffects] or more
    leave no particle. *)
Theorem effect_particles_fade_out (n : nat) (m : SpecialEffectsManager.t)
  (w : World.t) :
  Forall liveEffectParticle (effectParticles m) ->
  (340 <= n)%nat ->
  effectParticles (fst (effectRun (repeat Tick n) (m, w))) = [].
Proof.
  intros H Hn. pose proof (ticks_age n m w H) as A.
  destruct (effectParticles (fst (effectRun (repeat Tick n) (m, w))))
    as [|p l]; [reflexivity|].
  inversion A as [|? ? [((L0 & L1) & M & _) N] _]; subst.
  apply le_INR in Hn.
  replace (INR 340) with 340 in Hn by (simpl; lra). lra.
Qed.

End EffectFrames.

(** ** Special effects: examples *)

Section EffectExamples.

Import JS SpecialEffectsManager GrowthNotions.

Lemma triggerShapeEffect_follows_the_table_witness :
  exists effect news,
    fst (triggerShapeEffect "star" (Point.mk 100 100) "#00E0FF" new ripeWorld)
    = mk [effect] news
    /\ SpecialEffect.type effect = SpecialEffect.star_burst
    /\ List.length news = 36%nat.
Proof.
  destruct (triggerShapeEffect_follows_the_table "star" (Point.mk 100 100)
              "#00E0FF" new ripeWorld sane_ripeWorld) as (_ & K & _).
  destruct (K SpecialEffect.star_burst 36%nat)
    as (effect & news & E1 & E2 & T & _ & _ & _ & _ & L & _).
  - simpl. auto 10.
  - exists effect, news.
    destruct (fst (triggerShapeEffect "star" (Point.mk 100 100) "#00E0FF" new
                     ripeWorld)) as [es ps].
    simpl in E1, E2. subst. auto.
Defined.

Lemma effects_stay_alive_witness :
  let st :=
    effectRun [Trigger "circle" (Point.mk 100 100) "#00E0FF"; Tick;
               Trigger "hexagon" (Point.mk 0 0) "#FF2CFB"; Tick; Tick]
      (new, ripeWorld) in
  Forall tabledEffect (effects (fst st))
  /\ Forall liveEffectParticle (effectParticles (fst st))
  /\ sane (snd st).
Proof.
  destruct (effects_stay_alive
              [Trigger "circle" (Point.mk 100 100) "#00E0FF"; Tick;
               Trigger "hexagon" (Point.mk 0 0) "#FF2CFB"; Tick; Tick]
              ripeWorld sane_ripeWorld) as (H1 & H2 & H3 & _).
  auto.
Defined.

Lemma effect_particles_fade_out_witness :
  let m :=
    fst (effectRun [Trigger "spiral" (Point.mk 100 100) "#00E0FF"]
           (new, ripeWorld)) in
  effectParticles (fst (effectRun (repeat Tick 340) (m, ripeWorld))) = [].
Proof.
  intros m.
  apply (effect_particles_fade_out 340 m ripeWorld); [|lia].
  apply (effectRun_invariant
           [Trigger "spiral" (Point.mk 100 100) "#00E0FF"] ripeWorld
           sane_ripeWorld).
Defined.

End EffectExamples.

(** ** Gesture recognition: the distance to a segment *)

Section SegmentDistance.

Import JS GestureRecognizer GestureNotions.

Lemma distance_nonneg (p q : Point.t) : 0 <= distance p q.
Proof. unfold distance. apply sqrt_pos. Qed.

Lemma distance_self (p : Point.t) : distance p p = 0.
Proof.
  unfold distance. cbv zeta.
  replace ((Point.x p - Point.x p) * (Point.x p - Point.x p)
           + (Point.y p - Point.y p) * (Point.y p - Point.y p)) with 0 by ring.
  apply sqrt_0.
Qed.

Lemma sumsq_nonneg (u v : R) : 0 <= u * u + v * v.
Proof. nra. Qed.

Lemma sumsq_zero (u v : R) : u * u + v * v = 0 -> u = 0 /\ v = 0.
Proof.
  intros H.
  assert (Hu : 0 <= u * u) by nra. assert (Hv : 0 <= v * v) by nra.
  assert (Eu : u * u = 0) by lra. assert (Ev : v * v = 0) by lra.
  apply Rmult_integral in Eu, Ev. split; tauto.
Qed.

Lemma distance_le (p q q' : Point.t) :
  (Point.x p - Point.x q) * (Point.x p - Point.x q)
  + (Point.y p - Point.y q) * (Point.y p - Point.y q)
  <= (Point.x p - Point.x q') * (Point.x p - Point.x q')
     + (Point.y p - Point.y q') * (Point.y p - Point.y q') ->
  distance p q <= distance p q'.
Proof.
  intros H. unfold distance. cbv zeta. apply sqrt_le_1; [apply sumsq_nonneg|apply sumsq_nonneg|exact H].
Qed.

Lemma along_0 (a b : Point.t) : along a b 0 = a.
Proof.
  unfold along. destruct a as [ax ay]; simpl. f_equal; ring.
Qed.

Lemma along_1 (a b : Point.t) : along a b 1 = b.
Proof.
  unfold along. destruct a as [ax ay], b as [bx by_]; simpl. f_equal; ring.
Qed.

(** [pointToLineDistance] is the distance from the point to a point of the
    segment, and no point of the segment is nearer. *)
Lemma pointToLineDistance_nearest (point a b : Point.t) :
  (exists t, 0 <= t <= 1
             /\ pointToLineDistance point a b = distance point (along a b t))
  /\ (forall t, 0 <= t <= 1 ->
      pointToLineDistance point a b <= distance point (along a b t)).
Proof.
  unfold pointToLineDistance. cbv zeta.
  set (A := Point.x point - Point.x a).
  set (B := Point.y point - Point.y a).
  set (C := Point.x b - Point.x a).
  set (D := Point.y b - Point.y a).
  destruct (neq (C * C + D * D) 0) eqn:Z.
  - apply neq_true_iff in Z.
    assert (Lp : 0 < C * C + D * D) by nra.
    set (param := (A * C + B * D) / (C * C + D * D)).
    assert (Hp : param * (C * C + D * D) = A * C + B * D)
      by (unfold param; field; lra).
    destruct (lt param 0) eqn:P0; [|destruct (gt param 1) eqn:P1].
    + apply lt_true_iff in P0.
      assert (Hd : A * C + B * D < 0) by nra.
      split.
      * exists 0. split; [lra|]. rewrite along_0. reflexivity.
      * intros t Ht. apply distance_le. unfold along; simpl.
        fold A B C D.
        replace (Point.x point - (Point.x a + t * C)) with (A - t * C)
          by (unfold A; ring).
        replace (Point.y point - (Point.y a + t * D)) with (B - t * D)
          by (unfold B; ring).
        nra.
    + apply gt_true_iff in P1.
      assert (Hd : C * C + D * D < A * C + B * D) by nra.
      split.
      * exists 1. split; [lra|]. rewrite along_1. reflexivity.
      * intros t Ht. apply distance_le. unfold along; simpl.
        fold C D.
        replace (Point.x point - Point.x b) with (A - C)
          by (unfold A, C; ring).
        replace (Point.y point - Point.y b) with (B - D)
          by (unfold B, D; ring).
        replace (Point.x point - (Point.x a + t * C)) with (A - t * C)
          by (unfold A; ring).
        replace (Point.y point - (Point.y a + t * D)) with (B - t * D)
          by (unfold B; ring).
        assert (0 <= (1 - t) * (A * C + B * D - (C * C + D * D)))
          by (apply Rmult_le_pos; lra).
        assert (0 <= (1 - t) * (1 - t) * (C * C + D * D))
          by (apply Rmult_le_pos; [apply Rmult_le_pos|]; lra).
        nra.
    + apply lt_false_iff in P0. apply gt_false_iff in P1.
      split.
      * exists param. split; [lra|]. reflexivity.
      * intros t Ht. apply distance_le. unfold along; simpl.
        fold C D.
        replace (Point.x point - (Point.x a + param * C)) with (A - param * C)
          by (unfold A; ring).
        replace (Point.y point - (Point.y a + param * D)) with (B - param * D)
          by (unfold B; ring).
        replace (Point.x point - (Point.x a + t * C)) with (A - t * C)
          by (unfold A; ring).
        replace (Point.y point - (Point.y a + t * D)) with (B - t * D)
          by (unfold B; ring).
        assert (E : (A - t * C) * (A - t * C) + (B - t * D) * (B - t * D)
                    - ((A - param * C) * (A - param * C)
                       + (B - param * D) * (B - param * D))
                    = (t - param) * (t - param) * (C * C + D * D)).
        { replace ((A - t * C) * (A - t * C) + (B - t * D) * (B - t * D)
                   - ((A - param * C) * (A - param * C)
                      + (B - param * D) * (B - param * D)))
            with (2 * (param - t) * (A * C + B * D)
                  + (t * t - param * param) * (C * C + D * D)) by ring.
          rewrite <- Hp. ring. }
        assert (0 <= (t - param) * (t - param) * (C * C + D * D)).
        { apply Rmult_le_pos; [|lra].
          replace ((t - param) * (t - param)) with ((t - param) * (t - param) + 0 * 0)
            by ring.
          apply sumsq_nonneg. }
        lra.
  - apply neq_false_iff in Z.
    destruct (sumsq_zero C D Z) as [C0 D0].
    assert (Ea : forall t, along a b t = a).
    { intros t. unfold along. fold C D. rewrite C0, D0.
      destruct a as [ax ay]; simpl. f_equal; ring. }
    split.
    + exists 0. split; [lra|]. rewrite Ea. reflexivity.
    + intros t _. rewrite Ea. lra.
Qed.

Lemma pointToLineDistance_nonneg (point a b : Point.t) :
  0 <= pointToLineDistance point a b.
Proof.
  destruct (pointToLineDistance_nearest point a b) as [(t & _ & E) _].
  rewrite E. apply distance_nonneg.
Qed.

Lemma pointToLineDistance_on_segment (point a b : Point.t) :
  onSegment a b point -> pointToLineDistance point a b = 0.
Proof.
  intros (t & Ht & E).
  destruct (pointToLineDistance_nearest point a b) as [_ M].
  pose proof (M t Ht) as H. rewrite <- E, distance_self in H.
  pose proof (pointToLineDistance_nonneg point a b). lra.
Qed.

(** [pointToLineDistance(point, lineStart, lineEnd)] is the distance from
    the point to the segment, not to the line through its ends: it is the
    distance to some point of the segment, no point of the segment is
    nearer, and so it is zero exactly for the points of the segment and at
    most the distance to either end. *)
Theorem pointToLineDistance_is_the_distance_to_the_segment
  (point lineStart lineEnd : Point.t) :
  let d := pointToLineDistance point lineStart lineEnd in
  (exists t, 0 <= t <= 1 /\ d = distance point (along lineStart lineEnd t))
  /\ (forall t, 0 <= t <= 1 -> d <= distance point (along lineStart lineEnd t))
  /\ (d = 0 <-> onSegment lineStart lineEnd point)
  /\ d <= distance point lineStart
  /\ d <= distance point lineEnd.
Proof.
  cbv zeta.
  destruct (pointToLineDistance_nearest point lineStart lineEnd) as [At Min].
  split; [exact At|]. split; [exact Min|]. split; [|split].
  - split; [|apply pointToLineDistance_on_segment].
    intros Z. destruct At as (t & Ht & E). exists t. split; [exact Ht|].
    rewrite Z in E. unfold distance in E. cbv zeta in E.
    symmetry in E. apply sqrt_eq_0 in E; [|apply sumsq_nonneg].
    destruct point as [px py], (along lineStart lineEnd t) as [qx qy];
      simpl in E.
    apply sumsq_zero in E. f_equal; lra.
  - rewrite <- (along_0 lineStart lineEnd) at 2. apply Min; lra.
  - rewrite <- (along_1 lineStart lineEnd) at 2. apply Min; lra.
Qed.

End SegmentDistance.

(** ** Gesture recognition: the simplification of a stroke *)

Section Simplification.

Import JS GestureRecognizer GestureNotions.

Lemma subsequence_refl {A : Type} (l : list A) : subsequence l l.
Proof. induction l; constructor; auto. Qed.

Lemma subsequence_app {A : Type} (a b c d : list A) :
  subsequence a b -> subsequence c d -> subsequence (a ++ c) (b ++ d).
Proof.
  intros H K. induction H; simpl; [exact K| |]; constructor; auto.
Qed.

Lemma subsequence_Forall {A : Type} (P : A -> Prop) (l l' : list A) :
  subsequence l l' -> Forall P l' -> Forall P l.
Proof.
  intros H. induction H; intros F; auto.
  - inversion F; subst. constructor; auto.
  - inversion F; subst. auto.
Qed.


Lemma simplifyLoop_subsequence (tolerance : R) (middle : list Point.t) :
  forall kept, subsequence (simplifyLoop tolerance kept middle) middle.
Proof.
  induction middle as [|p rest IH]; intros kept; simpl; [constructor|].
  destruct (gt (distance p kept) tolerance); constructor; auto.
Qed.

Lemma simplifyLoop_spaced (tolerance : R) (middle : list Point.t) :
  forall kept, spaced tolerance kept (simplifyLoop tolerance kept middle).
Proof.
  induction middle as [|p rest IH]; intros kept; simpl; [exact I|].
  destruct (gt (distance p kept) tolerance) eqn:G; [|apply IH].
  apply gt_true_iff in G. simpl. split; [exact G|apply IH].
Qed.


(** The shape of a simplified stroke of more than two points. *)
Lemma simplifyPoints_shape (first second third : Point.t)
  (rest : list Point.t) (tolerance : R) :
  let others := second :: third :: rest in
  simplifyPoints (first :: others) tolerance
  = first :: simplifyLoop tolerance first (removelast others)
    ++ [last others first].
Proof. reflexivity. Qed.


(** What the simplification keeps, for any stroke. *)
Lemma simplifyPoints_keeps_the_ends (points : list Point.t) (tolerance : R) :
  subsequence (simplifyPoints points tolerance) points
  /\ hd_error (simplifyPoints points tolerance) = hd_error points
  /\ (forall d, last (simplifyPoints points tolerance) d = last points d).
Proof.
  destruct points as [|first [|second [|third rest]]].
  1-3: (split; [apply subsequence_refl|]; split; reflexivity).
  rewrite simplifyPoints_shape. cbv zeta.
  set (others := second :: third :: rest).
  set (kept := simplifyLoop tolerance first (removelast others)).
  assert (N : others <> []) by discriminate.
  split; [|split; [reflexivity|]].
  - constructor. rewrite (app_removelast_last first N) at 2.
    apply subsequence_app;
      [apply simplifyLoop_subsequence|apply subsequence_refl].
  - intros d. change (first :: kept ++ [last others first])
      with ((first :: kept) ++ [last others first]).
    rewrite last_last.
    change (last (first :: others) d) with (last others d).
    unfold others. generalize (third :: rest) second.
    intros l; induction l as [|a l IH]; intros s; [reflexivity|].
    change (last (s :: a :: l) first) with (last (a :: l) first).
    change (last (s :: a :: l) d) with (last (a :: l) d).
    apply IH.
Qed.

Lemma simplifyPoints_shape_of_long (points : list Point.t) (tolerance : R) :
  (2 < List.length points)%nat ->
  exists first kept final,
    simplifyPoints points tolerance = first :: kept ++ [final]
    /\ spaced tolerance first kept.
Proof.
  destruct points as [|first [|second [|third rest]]]; simpl List.length;
    try lia.
  intros _. rewrite simplifyPoints_shape. cbv zeta.
  eexists _, _, _. split; [reflexivity|apply simplifyLoop_spaced].
Qed.


End Simplification.

(** ** Gesture recognition: the bounding box *)

Section BoundingBoxes.

Import JS GestureRecognizer GestureNotions.

Lemma Math_min_spec (xs : list R) :
  forall x, (forall y, In y (x :: xs) -> Math_min x xs <= y)
            /\ In (Math_min x xs) (x :: xs).
Proof.
  unfold Math_min.
  induction xs as [|y ys IH]; intros x; simpl.
  - split; [intros z [<-|[]]; lra|auto].
  - destruct (IH (Rmin x y)) as [Lo At]. split.
    + intros z [<-|[<-|H]].
      * pose proof (Lo (Rmin x y) (or_introl eq_refl)).
        pose proof (Rmin_l x y). lra.
      * pose proof (Lo (Rmin x y) (or_introl eq_refl)).
        pose proof (Rmin_r x y). lra.
      * apply Lo. right. exact H.
    + destruct At as [E|H]; [|auto].
      rewrite <- E. unfold Rmin. destruct (Rle_dec x y); auto.
Qed.

Lemma Math_max_spec (xs : list R) :
  forall x, (forall y, In y (x :: xs) -> y <= Math_max x xs)
            /\ In (Math_max x xs) (x :: xs).
Proof.
  unfold Math_max.
  induction xs as [|y ys IH]; intros x; simpl.
  - split; [intros z [<-|[]]; lra|auto].
  - destruct (IH (Rmax x y)) as [Hi At]. split.
    + intros z [<-|[<-|H]].
      * pose proof (Hi (Rmax x y) (or_introl eq_refl)).
        pose proof (Rmax_l x y). lra.
      * pose proof (Hi (Rmax x y) (or_introl eq_refl)).
        pose proof (Rmax_r x y). lra.
      * apply Hi. right. exact H.
    + destruct At as [E|H]; [|auto].
      rewrite <- E. unfold Rmax. destruct (Rle_dec x y); auto.
Qed.

(** [getBoundingBox(points)] of a stroke that is not empty is the smallest
    box that holds the stroke: every point is in it, and each of its four
    sides goes through a point of the stroke. *)
Theorem getBoundingBox_is_the_smallest_box (points : list Point.t) :
  points <> [] ->
  let box := getBoundingBox points in
  Forall (holds box) points
  /\ (exists p, In p points /\ Point.x p = Gesture.minX box)
  /\ (exists p, In p points /\ Point.x p = Gesture.maxX box)
  /\ (exists p, In p points /\ Point.y p = Gesture.minY box)
  /\ (exists p, In p points /\ Point.y p = Gesture.maxY box).
Proof.
  intros N. destruct points as [|p rest]; [contradiction|]. cbv zeta.
  unfold getBoundingBox.
  destruct (Math_min_spec (map Point.x rest) (Point.x p)) as [Lx Ax].
  destruct (Math_max_spec (map Point.x rest) (Point.x p)) as [Hx Bx].
  destruct (Math_min_spec (map Point.y rest) (Point.y p)) as [Ly Ay].
  destruct (Math_max_spec (map Point.y rest) (Point.y p)) as [Hy By].
  change (Point.x p :: map Point.x rest) with (map Point.x (p :: rest))
    in Ax, Bx.
  change (Point.y p :: map Point.y rest) with (map Point.y (p :: rest))
    in Ay, By.
  apply in_map_iff in Ax, Bx, Ay, By.
  split; [|split; [|split; [|split]]].
  - apply Forall_forall. intros q Hq. unfold holds.
    cbn [Gesture.minX Gesture.maxX Gesture.minY Gesture.maxY].
    assert (Ix : In (Point.x q) (Point.x p :: map Point.x rest))
      by (apply (in_map Point.x (p :: rest)), Hq).
    assert (Iy : In (Point.y q) (Point.y p :: map Point.y rest))
      by (apply (in_map Point.y (p :: rest)), Hq).
    split; split; auto.
  - destruct Ax as (q & E & I). exists q. split; [exact I|exact E].
  - destruct Bx as (q & E & I). exists q. split; [exact I|exact E].
  - destruct Ay as (q & E & I). exists q. split; [exact I|exact E].
  - destruct By as (q & E & I). exists q. split; [exact I|exact E].
Qed.

Lemma getBoundingBox_is_the_smallest_box_witness :
  let box := getBoundingBox straightStroke in
  Forall (holds box) straightStroke
  /\ (exists p, In p straightStroke /\ Point.x p = Gesture.minX box)
  /\ (exists p, In p straightStroke /\ Point.x p = Gesture.maxX box)
  /\ (exists p, In p straightStroke /\ Point.y p = Gesture.minY box)
  /\ (exists p, In p straightStroke /\ Point.y p = Gesture.maxY box).
Proof.
  apply (getBoundingBox_is_the_smallest_box straightStroke).
  unfold straightStroke. discriminate.
Defined.

End BoundingBoxes.

(** ** Gesture recognition: the result *)

Section Recognition.

Import JS GestureRecognizer GestureNotions.

Lemma above_true (threshold : R) (r : Gesture.Result) :
  above threshold r = true ->
  exists c, Gesture.confidence r = Some c /\ threshold < c.
Proof.
  unfold above. destruct (Gesture.confidence r) as [c|]; [|discriminate].
  intros G. apply gt_true_iff in G. eauto.
Qed.

Lemma deviations_nonneg (start finish : Point.t) (points : list Point.t) :
  forall total, 0 <= total ->
  0 <= fold_left
         (fun total point => total + pointToLineDistance point start finish)
         points total.
Proof.
  induction points as [|p rest IH]; intros total H; simpl; [exact H|].
  apply IH. pose proof (pointToLineDistance_nonneg p start finish). lra.
Qed.

Lemma deviations_zero (start finish : Point.t) (points : list Point.t) :
  Forall (onSegment start finish) points ->
  fold_left
    (fun total point => total + pointToLineDistance point start finish)
    points 0 = 0.
Proof.
  intros F. induction F as [|p rest Hp F IH]; simpl; [reflexivity|].
  rewrite (pointToLineDistance_on_segment _ _ _ Hp), Rplus_0_l. exact IH.
Qed.

Lemma detectLine_capped (points : list Point.t) :
  capped Gesture.line 1 (detectLine points).
Proof.
  destruct points as [|s [|p rest]];
    try (split; [reflexivity|simpl; lra]).
  split; [reflexivity|].
  unfold detectLine. cbv beta iota zeta. cbn [Gesture.confidence].
  set (pts := s :: p :: rest).
  set (total := fold_left _ pts 0).
  assert (T : 0 <= total) by (apply deviations_nonneg; lra).
  assert (L : 0 < INR (List.length pts))
    by (apply lt_0_INR; unfold pts; simpl; lia).
  assert (A : 0 <= total / INR (List.length pts)).
  { apply Rmult_le_pos; [exact T|]. left. apply Rinv_0_lt_compat, L. }
  apply Rmax_lub; lra.
Qed.

Lemma detectSquare_capped (points : list Point.t)
  (boundingBox : Gesture.BoundingBox) :
  capped Gesture.square 0.95 (detectSquare points boundingBox).
Proof.
  unfold detectSquare. cbv zeta.
  destruct (below _ 0.7); [split; [reflexivity|simpl; lra]|].
  destruct (_ || _); [split; [reflexivity|simpl; lra]|].
  split; [reflexivity|]. cbn [Gesture.confidence].
  destruct (aspectRatioOf _ _); [|exact I].
  destruct (checkPerimeterDistribution _ _); [|exact I].
  apply Rmin_r.
Qed.

Lemma detectTriangle_capped (points : list Point.t) :
  capped Gesture.triangle 0.8 (detectTriangle points).
Proof.
  unfold detectTriangle. cbv zeta.
  destruct (_ <? 3)%nat; [split; [reflexivity|simpl; lra]|].
  split; [reflexivity|]. cbn [Gesture.confidence].
  destruct (sumAngles _) as [angleSum|]; [|exact I].
  pose proof (Rabs_pos (angleSum - 180)).
  apply Rmax_lub; lra.
Qed.

Lemma detectCircle_capped (points : list Point.t)
  (boundingBox : Gesture.BoundingBox) :
  capped Gesture.circle 0.95 (detectCircle points boundingBox).
Proof.
  unfold detectCircle. cbv zeta.
  destruct (below _ 0.8); [split; [reflexivity|simpl; lra]|].
  destruct (fold_left _ points (0, 0%nat)) as [totalDeviation validPoints].
  destruct (lt (INR validPoints) _); [split; [reflexivity|simpl; lra]|].
  split; [reflexivity|]. cbn [Gesture.confidence].
  destruct (aspectRatioOf _ _); [|exact I].
  destruct validPoints; [exact I|].
  apply Rmax_lub; [lra|apply Rmin_r].
Qed.

Lemma detectSpiral_capped (points : list Point.t) :
  capped Gesture.spiral 1 (detectSpiral points).
Proof.
  unfold detectSpiral. cbv zeta.
  destruct (_ <? 10)%nat; [split; [reflexivity|simpl; lra]|].
  destruct (fold_left _ (tl points) (0, 0)) as [totalAngleChange angle].
  split; [reflexivity|]. cbn [Gesture.confidence]. apply Rmin_l.
Qed.

Lemma wave_score (n : nat) :
  0.6 < Rmin 1 (if (3 <=? n)%nat then INR n / 6 else 0) ->
  2 / 3 <= Rmin 1 (if (3 <=? n)%nat then INR n / 6 else 0) <= 1.
Proof.
  intros G. split; [|apply Rmin_l].
  destruct (3 <=? n)%nat eqn:T.
  - pose proof (Rmin_r 1 (INR n / 6)) as M.
    assert (I3 : INR 3 < INR n).
    { replace (INR 3) with 3 by (simpl; ring). lra. }
    apply INR_lt in I3.
    assert (I4 : INR 4 <= INR n) by (apply le_INR; lia).
    replace (INR 4) with 4 in I4 by (simpl; ring).
    apply Rmin_glb; lra.
  - exfalso. pose proof (Rmin_r 1 0). lra.
Qed.

Lemma star_score (n : nat) :
  0.6 < Rmin 1 (if (3 <=? n)%nat then INR n / 5 else 0) ->
  0.8 <= Rmin 1 (if (3 <=? n)%nat then INR n / 5 else 0) <= 1.
Proof.
  intros G. split; [|apply Rmin_l].
  destruct (3 <=? n)%nat eqn:T.
  - pose proof (Rmin_r 1 (INR n / 5)) as M.
    assert (I3 : INR 3 < INR n).
    { replace (INR 3) with 3 by (simpl; ring). lra. }
    apply INR_lt in I3.
    assert (I4 : INR 4 <= INR n) by (apply le_INR; lia).
    replace (INR 4) with 4 in I4 by (simpl; ring).
    apply Rmin_glb; lra.
  - exfalso. pose proof (Rmin_r 1 0). lra.
Qed.

Lemma detectWave_plausible (points : list Point.t) :
  above 0.6 (detectWave points) = true ->
  exists c, Gesture.confidence (detectWave points) = Some c
            /\ Gesture.type (detectWave points) = Gesture.wave
            /\ 2 / 3 <= c <= 1.
Proof.
  unfold detectWave, above. cbv zeta.
  destruct (_ <? 8)%nat.
  { simpl. intros G. apply gt_true_iff in G. lra. }
  destruct (peaksAndValleys points) as [peaks valleys].
  cbn [Gesture.confidence Gesture.type]. intros G. apply gt_true_iff in G.
  eexists. split; [reflexivity|]. split; [reflexivity|].
  apply wave_score, G.
Qed.

Lemma detectStar_plausible (points : list Point.t) :
  above 0.6 (detectStar points) = true ->
  exists c, Gesture.confidence (detectStar points) = Some c
            /\ Gesture.type (detectStar points) = Gesture.star
            /\ 0.8 <= c <= 1.
Proof.
  unfold detectStar, above. cbv zeta.
  destruct (_ <? 5)%nat.
  { simpl. intros G. apply gt_true_iff in G. lra. }
  cbn [Gesture.confidence Gesture.type]. intros G. apply gt_true_iff in G.
  eexists. split; [reflexivity|]. split; [reflexivity|].
  apply star_score, G.
Qed.

Lemma capped_above (kind : Gesture.kind) (cap threshold : R)
  (r : Gesture.Result) :
  capped kind cap r -> above threshold r = true ->
  exists c, Gesture.confidence r = Some c
            /\ Gesture.type r = kind /\ threshold < c <= cap.
Proof.
  intros [T C] G. apply above_true in G. destruct G as (c & E & G).
  rewrite E in C. eauto.
Qed.

(** [recognizeGesture(points)] never returns [NaN] as the confidence, and
    the confidence tells the type: 0 for [unknown], above 0.85 for a line,
    in (0.7, 0.95] for a square, in (0.7, 0.8] for a triangle, in
    (0.75, 0.95] for a circle, in (0.6, 1] for a spiral, 2/3 at least for a
    wave and 0.8 at least for a star; the type [zigzag] is never returned.
    A stroke of fewer than five points is [unknown] and has no bounding
    box. *)
Theorem recognizeGesture_is_plausible (points : list Point.t) :
  let result := recognizeGesture points in
  (exists confidence,
     Gesture.confidence result = Some confidence
     /\ plausible (Gesture.type result) confidence)
  /\ ((List.length points < 5)%nat -> result = bare Gesture.unknown 0)
  /\ ((5 <= List.length points)%nat -> Gesture.boundingBox result <> None).
Proof.
  cbv zeta. unfold recognizeGesture, minPoints, lineThreshold, circleThreshold.
  cbv zeta.
  set (simplified := simplifyPoints points 5).
  set (boundingBox := getBoundingBox simplified).
  destruct (List.length points <? 5)%nat eqn:L.
  { apply Nat.ltb_lt in L. split; [|split; [reflexivity|lia]].
    exists 0. split; reflexivity. }
  apply Nat.ltb_ge in L.
  assert (K : forall r, (exists c, Gesture.confidence r = Some c
                                   /\ plausible (Gesture.type r) c) ->
                        Gesture.boundingBox r <> None ->
    (exists c, Gesture.confidence r = Some c /\ plausible (Gesture.type r) c)
    /\ ((List.length points < 5)%nat -> r = bare Gesture.unknown 0)
    /\ ((5 <= List.length points)%nat -> Gesture.boundingBox r <> None)).
  { intros r H B. split; [exact H|]. split; [lia|auto]. }
  assert (S2 : exists a b rest, simplified = a :: b :: rest).
  { destruct (simplifyPoints_shape_of_long points 5) as (a & k & f & E & _);
      [lia|].
    fold simplified in E. rewrite E.
    destruct k as [|b k]; simpl; eauto. }
  destruct (above 0.85 (detectLine simplified)) eqn:T1.
  { apply K.
    - destruct (capped_above _ _ _ _ (detectLine_capped simplified) T1)
        as (c & E & T & R).
      exists c. rewrite T. auto.
    - destruct S2 as (a & b & rest & ->). discriminate. }
  destruct (above 0.7 (detectSquare simplified boundingBox)) eqn:T2.
  { apply K.
    - destruct (capped_above _ _ _ _
                  (detectSquare_capped simplified boundingBox) T2)
        as (c & E & T & R).
      exists c. rewrite T. auto.
    - revert T2. unfold detectSquare, above. cbv zeta.
      destruct (below _ 0.7).
      { simpl. intros G. apply gt_true_iff in G. lra. }
      destruct (_ || _).
      { simpl. intros G. apply gt_true_iff in G. lra. }
      discriminate. }
  destruct (above 0.7 (detectTriangle simplified)) eqn:T3.
  { apply K.
    - destruct (capped_above _ _ _ _ (detectTriangle_capped simplified) T3)
        as (c & E & T & R).
      exists c. rewrite T. auto.
    - revert T3. unfold detectTriangle, above. cbv zeta.
      destruct (_ <? 3)%nat.
      { simpl. intros G. apply gt_true_iff in G. lra. }
      discriminate. }
  destruct (above 0.75 (detectCircle simplified boundingBox)) eqn:T4.
  { apply K.
    - destruct (capped_above _ _ _ _
                  (detectCircle_capped simplified boundingBox) T4)
        as (c & E & T & R).
      exists c. rewrite T. auto.
    - revert T4. unfold detectCircle, above. cbv zeta.
      destruct (below _ 0.8).
      { simpl. intros G. apply gt_true_iff in G. lra. }
      destruct (fold_left _ simplified (0, 0%nat)) as [total valid].
      destruct (lt (INR valid) _).
      { simpl. intros G. apply gt_true_iff in G. lra. }
      discriminate. }
  destruct (above 0.6 (detectSpiral simplified)) eqn:T5.
  { apply K.
    - destruct (capped_above _ _ _ _ (detectSpiral_capped simplified) T5)
        as (c & E & T & R).
      exists c. rewrite T. auto.
    - revert T5. unfold detectSpiral, above. cbv zeta.
      destruct (_ <? 10)%nat.
      { simpl. intros G. apply gt_true_iff in G. lra. }
      destruct (fold_left _ (tl simplified) (0, 0)) as [total angle].
      discriminate. }
  destruct (above 0.6 (detectWave simplified)) eqn:T6.
  { apply K.
    - destruct (detectWave_plausible simplified T6) as (c & E & T & R).
      exists c. rewrite T. auto.
    - revert T6. unfold detectWave, above. cbv zeta.
      destruct (_ <? 8)%nat.
      { simpl. intros G. apply gt_true_iff in G. lra. }
      destruct (peaksAndValleys simplified) as [peaks valleys].
      discriminate. }
  destruct (above 0.6 (detectStar simplified)) eqn:T7.
  { apply K.
    - destruct (detectStar_plausible simplified T7) as (c & E & T & R).
      exists c. rewrite T. auto.
    - revert T7. unfold detectStar, above. cbv zeta.
      destruct (_ <? 5)%nat.
      { simpl. intros G. apply gt_true_iff in G. lra. }
      discriminate. }
  apply K; [|discriminate].
  exists 0. split; reflexivity.
Qed.

(** A stroke of five points or more that all lie on the segment from its
    first point to its last is recognised as a line, with confidence 1 and
    the distance between its ends as the length; this includes the stroke
    that stays at one point. *)
Theorem straight_strokes_are_lines (points : list Point.t)
  (first final : Point.t) :
  (5 <= List.length points)%nat ->
  hd_error points = Some first ->
  last points first = final ->
  Forall (onSegment first final) points ->
  let result := recognizeGesture points in
  result = detectLine (simplifyPoints points 5)
  /\ Gesture.type result = Gesture.line
  /\ Gesture.confidence result = Some 1
  /\ (exists properties,
        Gesture.properties result = Some properties
        /\ Gesture.length properties = Some (distance first final)).
Proof.
  intros L Hd La F. cbv zeta.
  assert (D : let r := detectLine (simplifyPoints points 5) in
              Gesture.type r = Gesture.line
              /\ Gesture.confidence r = Some 1
              /\ (exists properties,
                    Gesture.properties r = Some properties
                    /\ Gesture.length properties
                       = Some (distance first final))).
  { cbv zeta.
    destruct (simplifyPoints_keeps_the_ends points 5) as (Sub & H & Ls).
    destruct (simplifyPoints_shape_of_long points 5) as (a & k & f & E & _);
      [lia|].
    assert (F' := subsequence_Forall _ _ _ Sub F).
    rewrite Hd in H. specialize (Ls first). rewrite La in Ls.
    revert H Ls F'. rewrite E. intros H Ls F'.
    injection H as ->.
    assert (S2 : exists b rest, k ++ [f] = b :: rest)
      by (destruct k; simpl; eauto).
    destruct S2 as (b & rest & E2). rewrite E2 in *.
    unfold detectLine. cbv beta iota zeta.
    cbn [Gesture.type Gesture.confidence Gesture.properties].
    rewrite Ls. rewrite (deviations_zero _ _ _ F').
    split; [reflexivity|]. split.
    - f_equal. unfold Rdiv. rewrite !Rmult_0_l, Rminus_0_r.
      apply Rmax_right. lra.
    - eexists. split; reflexivity. }
  cbv zeta in D.
  assert (A : above lineThreshold (detectLine (simplifyPoints points 5))
              = true).
  { unfold above. destruct D as (_ & -> & _). apply gt_true_iff.
    unfold lineThreshold. lra. }
  assert (R : recognizeGesture points = detectLine (simplifyPoints points 5)).
  { unfold recognizeGesture. cbv zeta.
    rewrite (proj2 (Nat.ltb_ge _ _)) by (unfold minPoints; lia).
    rewrite A. reflexivity. }
  rewrite R. split; [reflexivity|exact D].
Qed.

Lemma straightStroke_onSegment :
  Forall (onSegment (Point.mk 0 0) (Point.mk 40 0)) straightStroke.
Proof.
  unfold straightStroke.
  repeat constructor.
  - exists 0. split; [lra|]. unfold along; simpl. f_equal; lra.
  - exists (1 / 4). split; [lra|]. unfold along; simpl. f_equal; lra.
  - exists (1 / 2). split; [lra|]. unfold along; simpl. f_equal; lra.
  - exists (3 / 4). split; [lra|]. unfold along; simpl. f_equal; lra.
  - exists 1. split; [lra|]. unfold along; simpl. f_equal; lra.
Qed.

Lemma straight_strokes_are_lines_witness :
  let result := recognizeGesture straightStroke in
  result = detectLine (simplifyPoints straightStroke 5)
  /\ Gesture.type result = Gesture.line
  /\ Gesture.confidence result = Some 1
  /\ (exists properties,
        Gesture.properties result = Some properties
        /\ Gesture.length properties
           = Some (distance (Point.mk 0 0) (Point.mk 40 0))).
Proof.
  apply (straight_strokes_are_lines straightStroke
           (Point.mk 0 0) (Point.mk 40 0)).
  - simpl. lia.
  - reflexivity.
  - reflexivity.
  - exact straightStroke_onSegment.
Defined.

End Recognition.

(** ** Pattern completion: the choice of a template *)

Section BestMatch.

Import JS PatternCompleter PatternNotions.

Lemma filteredOut_false (drawingMode : string) (template : PatternTemplate.t) :
  filteredOut drawingMode (PatternTemplate.type template) = false
  <-> eligible drawingMode template.
Proof.
  unfold filteredOut, eligible.
  destruct (String.eqb_spec drawingMode "neural") as [N|N];
    destruct (String.eqb_spec drawingMode "electric") as [E|E];
    destruct (String.eqb_spec drawingMode "organic") as [O|O];
    try (rewrite N in E; discriminate E);
    try (rewrite N in O; discriminate O);
    try (rewrite E in O; discriminate O);
    destruct (PatternTemplate.type template); simpl;
    (split; [intros H; try discriminate H; repeat split; intros K;
             try reflexivity; try contradiction
            |intros (H1 & H2 & H3); try reflexivity;
             try (specialize (H1 N); discriminate H1);
             try (specialize (H2 E); discriminate H2);
             try (specialize (H3 O); discriminate H3)]).
Qed.

Lemma consider_bestSoFar (userStroke : list Point.t) (drawingMode : string)
  (seen : list PatternTemplate.t) (best : option PatternTemplate.t * R)
  (template : PatternTemplate.t) :
  bestSoFar userStroke drawingMode seen best ->
  bestSoFar userStroke drawingMode (seen ++ [template])
    (consider userStroke drawingMode best template).
Proof.
  unfold consider. cbv zeta.
  intros B.
  destruct (filteredOut drawingMode (PatternTemplate.type template)) eqn:F.
  - assert (NE : ~ eligible drawingMode template).
    { intros El. apply filteredOut_false in El. congruence. }
    unfold bestSoFar in *. cbv zeta in *.
    destruct (fst best) as [found|].
    + destruct B as (S & G & El & before & after & E & Lt & Le).
      split; [exact S|]. split; [exact G|]. split; [exact El|].
      exists before, (after ++ [template]). split; [|split; [exact Lt|]].
      * rewrite E, <- app_assoc. reflexivity.
      * intros t I. apply in_app_or in I. destruct I as [I|[<-|[]]];
          [apply Le, I|intros El'; contradiction].
    + destruct B as (S & Le). split; [exact S|].
      intros t I. apply in_app_or in I. destruct I as [I|[<-|[]]];
        [apply Le, I|intros El'; contradiction].
  - apply filteredOut_false in F.
    destruct (gt _ (snd best) && gt _ 0.6) eqn:T.
    + apply andb_true_iff in T. destruct T as [T1 T2].
      apply gt_true_iff in T1, T2.
      unfold bestSoFar in *. cbv zeta in *.
      cbn [fst snd].
      split; [reflexivity|]. split; [exact T2|]. split; [exact F|].
      exists seen, []. split; [reflexivity|]. split; [|intros t []].
      intros t I El. destruct (fst best) as [found|].
      * destruct B as (S & G & _ & before & after & E & Lt & Le).
        rewrite E in I. apply in_app_or in I.
        destruct I as [I|[<-|I]].
        -- specialize (Lt t I El). lra.
        -- lra.
        -- specialize (Le t I El). lra.
      * destruct B as (S & Le). specialize (Le t I El). lra.
    + apply andb_false_iff in T.
      unfold bestSoFar in *. cbv zeta in *.
      destruct (fst best) as [found|].
      * destruct B as (S & G & El & before & after & E & Lt & Le).
        split; [exact S|]. split; [exact G|]. split; [exact El|].
        exists before, (after ++ [template]). split; [|split; [exact Lt|]].
        -- rewrite E, <- app_assoc. reflexivity.
        -- intros t I. apply in_app_or in I. destruct I as [I|[<-|[]]];
             [apply Le, I|].
           intros _. destruct T as [T|T]; apply gt_false_iff in T; lra.
      * destruct B as (S & Le). split; [exact S|].
        intros t I. apply in_app_or in I. destruct I as [I|[<-|[]]];
          [apply Le, I|].
        intros _. destruct T as [T|T]; apply gt_false_iff in T; lra.
Qed.

Lemma loop_bestSoFar (userStroke : list Point.t) (drawingMode : string)
  (rest : list PatternTemplate.t) :
  forall seen best,
    bestSoFar userStroke drawingMode seen best ->
    bestSoFar userStroke drawingMode (seen ++ rest)
      (fold_left (consider userStroke drawingMode) rest best).
Proof.
  induction rest as [|template rest IH]; intros seen best B; simpl.
  - rewrite app_nil_r. exact B.
  - replace (seen ++ template :: rest) with ((seen ++ [template]) ++ rest)
      by (rewrite <- app_assoc; reflexivity).
    apply IH, consider_bestSoFar, B.
Qed.

Lemma findBestMatch_bestSoFar (self : list PatternTemplate.t)
  (userStroke : list Point.t) (drawingMode : string) :
  (3 <= List.length userStroke)%nat ->
  exists bestScore,
    bestSoFar userStroke drawingMode self
      (findBestMatch self userStroke drawingMode, bestScore).
Proof.
  intros L. unfold findBestMatch.
  rewrite (proj2 (Nat.ltb_ge _ _) L).
  pose proof (loop_bestSoFar userStroke drawingMode self [] (None, 0)) as B.
  destruct (fold_left _ self (None, 0)) as [bestMatch bestScore].
  exists bestScore. apply B. split; [reflexivity|intros t []].
Qed.

(** [findBestMatch(userStroke, drawingMode)] returns [null] for a stroke of
    fewer than three points.  Otherwise it looks only at the templates of
    the type that goes with the drawing mode (neural with 'neural',
    geometric with 'electric', organic with 'organic', all of them with any
    other mode) and returns the first of those with the highest score,
    provided that this score is above 0.6; it returns [null] when none of
    them scores above 0.6. *)
Theorem findBestMatch_returns_the_first_best_template
  (self : list PatternTemplate.t) (userStroke : list Point.t)
  (drawingMode : string) :
  let score template :=
    calculateMatchScore userStroke (PatternTemplate.points template) in
  match findBestMatch self userStroke drawingMode with
  | Some found =>
      (3 <= List.length userStroke)%nat
      /\ eligible drawingMode found
      /\ 0.6 < score found
      /\ exists before after,
           self = before ++ found :: after
           /\ (forall t, In t before -> eligible drawingMode t ->
                         score t < score found)
           /\ (forall t, In t after -> eligible drawingMode t ->
                         score t <= score found)
  | None =>
      (List.length userStroke < 3)%nat
      \/ (forall t, In t self -> eligible drawingMode t -> score t <= 0.6)
  end.
Proof.
  cbv zeta.
  destruct (Nat.lt_ge_cases (List.length userStroke) 3) as [L|L].
  - unfold findBestMatch. rewrite (proj2 (Nat.ltb_lt _ _) L). left. exact L.
  - destruct (findBestMatch_bestSoFar self userStroke drawingMode L)
      as (bestScore & B).
    unfold bestSoFar in B. cbv zeta in B. cbn [fst snd] in B.
    destruct (findBestMatch self userStroke drawingMode) as [found|].
    + destruct B as (_ & G & El & Ex). auto.
    + right. apply B.
Qed.

End BestMatch.

(** ** Pattern completion: the score of a template *)

Section MatchScore.

Import JS PatternCompleter PatternNotions.

Lemma sqrt_scaled (k s : R) : 0 <= k -> 0 <= s -> sqrt (k * k * s) = k * sqrt s.
Proof.
  intros K S. rewrite sqrt_mult; [|nra|exact S].
  rewrite sqrt_square by exact K. reflexivity.
Qed.

Lemma directionsFrom_transform (k ox oy : R) (rest : list Point.t) :
  0 < k ->
  forall prev,
    directionsFrom (transform k ox oy prev) (map (transform k ox oy) rest)
    = directionsFrom prev rest.
Proof.
  intros K. induction rest as [|curr rest IH]; intros prev; [reflexivity|].
  cbn [map directionsFrom]. cbv zeta. rewrite IH.
  set (dx := Point.x curr - Point.x prev).
  set (dy := Point.y curr - Point.y prev).
  assert (Ex : Point.x (transform k ox oy curr)
               - Point.x (transform k ox oy prev) = k * dx)
    by (unfold transform, dx; cbn [Point.x]; ring).
  assert (Ey : Point.y (transform k ox oy curr)
               - Point.y (transform k ox oy prev) = k * dy)
    by (unfold transform, dy; cbn [Point.y]; ring).
  rewrite !Ex, !Ey.
  replace (k * dx * (k * dx) + k * dy * (k * dy))
    with (k * k * (dx * dx + dy * dy)) by ring.
  assert (S : 0 <= dx * dx + dy * dy) by apply sumsq_nonneg.
  rewrite sqrt_scaled by lra.
  remember (sqrt (dx * dx + dy * dy)) as L eqn:EL.
  destruct (gt L 0) eqn:G.
  - apply gt_true_iff in G.
    rewrite (proj2 (gt_true_iff _ _)) by nra.
    replace (k * dx / (k * L)) with (dx / L) by (field; lra).
    replace (k * dy / (k * L)) with (dy / L) by (field; lra).
    reflexivity.
  - apply gt_false_iff in G.
    rewrite (proj2 (gt_false_iff _ _)) by nra.
    reflexivity.
Qed.

Lemma getDirectionVectors_transform (k ox oy : R) (points : list Point.t) :
  0 < k ->
  getDirectionVectors (map (transform k ox oy) points)
  = getDirectionVectors points.
Proof.
  intros K. destruct points as [|p rest]; [reflexivity|].
  apply directionsFrom_transform, K.
Qed.

(** A normalized stroke is the stroke scaled and moved. *)
Lemma normalizeStroke_transform (points : list Point.t) :
  exists k ox oy,
    0 < k /\ normalizeStroke points = map (transform k ox oy) points.
Proof.
  destruct points as [|p rest].
  { exists 1, 0, 0. split; [lra|reflexivity]. }
  unfold normalizeStroke. cbv zeta.
  set (minX := GestureRecognizer.Math_min _ (map Point.x rest)).
  set (minY := GestureRecognizer.Math_min _ (map Point.y rest)).
  set (maxX := GestureRecognizer.Math_max _ (map Point.x rest)).
  set (maxY := GestureRecognizer.Math_max _ (map Point.y rest)).
  set (scale := Rmax (maxX - minX) (maxY - minY)).
  destruct (neq scale 0) eqn:Z.
  - apply neq_true_iff in Z.
    assert (W : 0 <= maxX - minX).
    { pose proof (proj1 (Math_min_spec (map Point.x rest) (Point.x p))
                    (Point.x p) (or_introl eq_refl)).
      pose proof (proj1 (Math_max_spec (map Point.x rest) (Point.x p))
                    (Point.x p) (or_introl eq_refl)).
      unfold maxX, minX. lra. }
    assert (P : 0 < scale).
    { pose proof (Rmax_l (maxX - minX) (maxY - minY)). unfold scale in *.
      lra. }
    exists (1 / scale), (- minX / scale), (- minY / scale).
    split; [apply Rdiv_lt_0_compat; lra|].
    apply map_ext. intros q. unfold transform. f_equal; field; lra.
  - exists 1, 0, 0. split; [lra|].
    symmetry. erewrite map_ext; [apply map_id|].
    intros [qx qy]. unfold transform. simpl. f_equal; ring.
Qed.

Lemma getDirectionVectors_normalizeStroke (points : list Point.t) :
  getDirectionVectors (normalizeStroke points) = getDirectionVectors points.
Proof.
  destruct (normalizeStroke_transform points) as (k & ox & oy & K & ->).
  apply getDirectionVectors_transform, K.
Qed.

Lemma length_normalizeStroke (points : list Point.t) :
  List.length (normalizeStroke points) = List.length points.
Proof.
  destruct (normalizeStroke_transform points) as (k & ox & oy & K & ->).
  apply length_map.
Qed.

(** The score, without the normalization. *)
Lemma calculateMatchScore_directions (userStroke templatePoints : list Point.t) :
  calculateMatchScore userStroke templatePoints
  = if (List.length userStroke <? 2)%nat
       || (List.length templatePoints <? 2)%nat
    then 0
    else
      let userVectors := getDirectionVectors userStroke in
      let templateVectors := getDirectionVectors templatePoints in
      let minLength :=
        Nat.min (List.length userVectors) (List.length templateVectors) in
      if (0 <? minLength)%nat
      then addSimilarities userVectors templateVectors 0 / INR minLength
      else 0.
Proof.
  unfold calculateMatchScore. cbv zeta.
  rewrite !length_normalizeStroke, !getDirectionVectors_normalizeStroke.
  reflexivity.
Qed.

Lemma directionsFrom_unit (rest : list Point.t) :
  forall prev, Forall unit (directionsFrom prev rest).
Proof.
  induction rest as [|curr rest IH]; intros prev; [constructor|].
  cbn [directionsFrom]. cbv zeta.
  set (dx := Point.x curr - Point.x prev).
  set (dy := Point.y curr - Point.y prev).
  assert (S : 0 <= dx * dx + dy * dy) by apply sumsq_nonneg.
  pose proof (sqrt_sqrt _ S) as LL.
  remember (sqrt (dx * dx + dy * dy)) as L eqn:EL.
  destruct (gt L 0) eqn:G; [|apply IH].
  apply gt_true_iff in G. constructor; [|apply IH].
  unfold unit. cbn [Point.x Point.y].
  replace (dx / L * (dx / L) + dy / L * (dy / L))
    with ((dx * dx + dy * dy) / (L * L)) by (field; lra).
  rewrite <- LL. field. lra.
Qed.

Lemma getDirectionVectors_unit (points : list Point.t) :
  Forall unit (getDirectionVectors points).
Proof.
  destruct points as [|p rest]; [constructor|apply directionsFrom_unit].
Qed.

Lemma vectorSimilarity_range (u v : Point.t) :
  unit u -> unit v -> 0 <= vectorSimilarity u v <= 1.
Proof.
  unfold unit, vectorSimilarity. cbv zeta. intros U V.
  split; [apply Rmax_l|]. apply Rmax_lub; [lra|].
  assert (0 <= (Point.x u - Point.x v) * (Point.x u - Point.x v)
               + (Point.y u - Point.y v) * (Point.y u - Point.y v))
    by apply sumsq_nonneg.
  lra.
Qed.

Lemma vectorSimilarity_self (u : Point.t) : unit u -> vectorSimilarity u u = 1.
Proof.
  unfold unit, vectorSimilarity. cbv zeta. intros ->. apply Rmax_right. lra.
Qed.

Lemma addSimilarities_range (userVectors : list Point.t) :
  forall templateVectors total,
    Forall unit userVectors -> Forall unit templateVectors ->
    total <= addSimilarities userVectors templateVectors total
    <= total + INR (Nat.min (List.length userVectors)
                            (List.length templateVectors)).
Proof.
  induction userVectors as [|u us IH]; intros ts total U T.
  { simpl. lra. }
  destruct ts as [|t ts].
  { simpl. lra. }
  inversion U as [|? ? Hu U']; subst. inversion T as [|? ? Ht T']; subst.
  cbn [addSimilarities List.length Nat.min]. rewrite S_INR.
  pose proof (vectorSimilarity_range u t Hu Ht).
  pose proof (IH ts (total + vectorSimilarity u t) U' T'). lra.
Qed.

Lemma addSimilarities_self (vectors : list Point.t) :
  forall total,
    Forall unit vectors ->
    addSimilarities vectors vectors total = total + INR (List.length vectors).
Proof.
  induction vectors as [|u us IH]; intros total U.
  { simpl. lra. }
  inversion U as [|? ? Hu U']; subst.
  cbn [addSimilarities List.length]. rewrite S_INR.
  rewrite IH by exact U'. rewrite vectorSimilarity_self by exact Hu. lra.
Qed.

Lemma calculateMatchScore_range (userStroke templatePoints : list Point.t) :
  0 <= calculateMatchScore userStroke templatePoints <= 1.
Proof.
  rewrite calculateMatchScore_directions. cbv zeta.
  destruct (_ || _); [lra|].
  set (us := getDirectionVectors userStroke).
  set (ts := getDirectionVectors templatePoints).
  destruct (0 <? _)%nat eqn:M; [|lra].
  apply Nat.ltb_lt in M. apply lt_INR in M. change (INR 0) with 0 in M.
  pose proof (addSimilarities_range us ts 0
                (getDirectionVectors_unit _) (getDirectionVectors_unit _))
    as [Lo Hi].
  rewrite Rplus_0_l in Hi. split.
  - apply Rmult_le_pos; [exact Lo|]. left. apply Rinv_0_lt_compat, M.
  - apply Rmult_le_reg_r with (r := INR (Nat.min (List.length us)
                                                  (List.length ts)));
      [exact M|].
    unfold Rdiv. rewrite Rmult_assoc, Rinv_l by lra. lra.
Qed.

Lemma calculateMatchScore_self (stroke : list Point.t) :
  getDirectionVectors stroke <> [] -> calculateMatchScore stroke stroke = 1.
Proof.
  intros N. rewrite calculateMatchScore_directions. cbv zeta.
  assert (L : (2 <= List.length stroke)%nat).
  { destruct stroke as [|p [|q rest]]; simpl in *; try contradiction; lia. }
  rewrite (proj2 (Nat.ltb_ge _ _) L). cbn [orb].
  rewrite Nat.min_id.
  assert (P : (0 < List.length (getDirectionVectors stroke))%nat).
  { destruct (getDirectionVectors stroke); [contradiction|simpl; lia]. }
  rewrite (proj2 (Nat.ltb_lt _ _) P).
  rewrite addSimilarities_self by apply getDirectionVectors_unit.
  apply lt_INR in P. change (INR 0) with 0 in P.
  field. lra.
Qed.

(** [calculateMatchScore] is between 0 and 1.  It compares the directions
    of the steps of the two strokes only: the normalization changes
    nothing, and neither the size nor the place of a stroke counts.  A
    stroke that moves scores 1 against itself, and a stroke that does not
    move scores 0 against every template. *)
Theorem calculateMatchScore_compares_directions
  (userStroke templatePoints : list Point.t) :
  0 <= calculateMatchScore userStroke templatePoints <= 1
  /\ getDirectionVectors (normalizeStroke userStroke)
     = getDirectionVectors userStroke
  /\ (forall k ox oy, 0 < k ->
      calculateMatchScore (map (transform k ox oy) userStroke) templatePoints
      = calculateMatchScore userStroke templatePoints)
  /\ (forall k ox oy, 0 < k ->
      calculateMatchScore userStroke (map (transform k ox oy) templatePoints)
      = calculateMatchScore userStroke templatePoints)
  /\ (getDirectionVectors userStroke <> [] ->
      calculateMatchScore userStroke userStroke = 1)
  /\ (getDirectionVectors userStroke = [] ->
      calculateMatchScore userStroke templatePoints = 0).
Proof.
  split; [apply calculateMatchScore_range|].
  split; [apply getDirectionVectors_normalizeStroke|].
  split; [|split; [|split]].
  - intros k ox oy K. rewrite !calculateMatchScore_directions.
    rewrite length_map, getDirectionVectors_transform by exact K.
    reflexivity.
  - intros k ox oy K. rewrite !calculateMatchScore_directions.
    rewrite length_map, getDirectionVectors_transform by exact K.
    reflexivity.
  - apply calculateMatchScore_self.
  - intros E. rewrite calculateMatchScore_directions. cbv zeta.
    rewrite E. destruct (_ || _); reflexivity.
Qed.

End MatchScore.

(** ** Pattern completion: the completion of a stroke *)

Section Completion.

Import JS PatternCompleter PatternNotions.

Lemma Rmin_shift (a b o : R) : Rmin (a + o) (b + o) = Rmin a b + o.
Proof.
  unfold Rmin. destruct (Rle_dec (a + o) (b + o)), (Rle_dec a b); lra.
Qed.

Lemma Rmax_shift (a b o : R) : Rmax (a + o) (b + o) = Rmax a b + o.
Proof.
  unfold Rmax. destruct (Rle_dec (a + o) (b + o)), (Rle_dec a b); lra.
Qed.

Lemma Math_min_shift (o : R) (xs : list R) :
  forall x,
    GestureRecognizer.Math_min (x + o) (map (fun y => y + o) xs)
    = GestureRecognizer.Math_min x xs + o.
Proof.
  unfold GestureRecognizer.Math_min.
  induction xs as [|y ys IH]; intros x; [reflexivity|].
  cbn [map fold_left]. rewrite Rmin_shift. apply IH.
Qed.

Lemma Math_max_shift (o : R) (xs : list R) :
  forall x,
    GestureRecognizer.Math_max (x + o) (map (fun y => y + o) xs)
    = GestureRecognizer.Math_max x xs + o.
Proof.
  unfold GestureRecognizer.Math_max.
  induction xs as [|y ys IH]; intros x; [reflexivity|].
  cbn [map fold_left]. rewrite Rmax_shift. apply IH.
Qed.

Lemma getBounds_shift (ox oy : R) (points : list Point.t) :
  getBounds (map (shift ox oy) points) = getBounds points.
Proof.
  destruct points as [|p rest]; [reflexivity|].
  cbn [map getBounds]. cbv zeta. rewrite !map_map.
  unfold shift at 1 2 3 4 5 6 7 8. cbn [Point.x Point.y].
  rewrite <- (map_map Point.x (fun x => x + ox)),
          <- (map_map Point.y (fun y => y + oy)).
  rewrite !Math_min_shift, !Math_max_shift.
  f_equal; ring.
Qed.

Lemma getBounds_nonneg (points : list Point.t) :
  0 <= fst (getBounds points) /\ 0 <= snd (getBounds points).
Proof.
  destruct points as [|p rest]; [simpl; lra|].
  cbn [getBounds]. cbv zeta. cbn [fst snd].
  pose proof (proj1 (Math_min_spec (map Point.x rest) (Point.x p))
                (Point.x p) (or_introl eq_refl)).
  pose proof (proj1 (Math_max_spec (map Point.x rest) (Point.x p))
                (Point.x p) (or_introl eq_refl)).
  pose proof (proj1 (Math_min_spec (map Point.y rest) (Point.y p))
                (Point.y p) (or_introl eq_refl)).
  pose proof (proj1 (Math_max_spec (map Point.y rest) (Point.y p))
                (Point.y p) (or_introl eq_refl)).
  lra.
Qed.

Lemma calculateScale_nonneg (userStroke templatePoints : list Point.t) :
  0 <= calculateScale userStroke templatePoints.
Proof.
  unfold calculateScale. cbv zeta.
  destruct (getBounds_nonneg userStroke) as [W _].
  pose proof (Rmax_l (fst (getBounds userStroke))
                     (snd (getBounds userStroke))).
  destruct (gt _ 0) eqn:G; [|lra].
  apply gt_true_iff in G.
  apply Rmult_le_pos; [lra|]. left. apply Rinv_0_lt_compat, G.
Qed.

Lemma last_map {A B : Type} (f : A -> B) (l : list A) (d : A) :
  last (map f l) (f d) = f (last l d).
Proof.
  induction l as [|a [|b l] IH]; try reflexivity.
  exact IH.
Qed.

Lemma last_default {A : Type} (l : list A) (d d' : A) :
  l <> [] -> last l d = last l d'.
Proof.
  induction l as [|a [|b l] IH]; intros N; try reflexivity;
    [contradiction|].
  apply IH. discriminate.
Qed.

(** What [generateCompletion] returns when it returns. *)
Lemma generateCompletion_value (userStroke : list Point.t)
  (template : PatternTemplate.t) (d : Point.t) :
  userStroke <> [] ->
  PatternTemplate.points template <> [] ->
  generateCompletion userStroke template
  = inr (map (continued (last userStroke d)
                        (last (PatternTemplate.points template) d)
                        (calculateScale userStroke
                           (PatternTemplate.points template)))
             (PatternTemplate.completion template)).
Proof.
  intros U T. unfold generateCompletion.
  destruct userStroke as [|first rest] eqn:EU; [contradiction|].
  destruct (PatternTemplate.points template) as [|templateFirst rest'] eqn:ET;
    [contradiction|].
  cbv zeta. f_equal.
  rewrite (last_default _ d first U), (last_default _ d templateFirst T).
  apply map_ext. intros c. unfold continued. cbn [Point.x Point.y].
  f_equal; ring.
Qed.

(** [generateCompletion(userStroke, template)] returns the empty array for
    an empty stroke and throws for a template without points.  Otherwise
    it returns one point for each point of the template's completion: that
    point as seen from the last point of the template, scaled by a factor
    that is never negative, and put at the last point of the stroke.
    Moving the stroke moves the completion along. *)
Theorem generateCompletion_continues_the_stroke (userStroke : list Point.t)
  (template : PatternTemplate.t) :
  generateCompletion [] template = inr []
  /\ (userStroke <> [] -> PatternTemplate.points template = [] ->
      generateCompletion userStroke template = inl TypeError)
  /\ (userStroke <> [] -> PatternTemplate.points template <> [] ->
      forall d,
        generateCompletion userStroke template
        = inr (map (continued (last userStroke d)
                              (last (PatternTemplate.points template) d)
                              (calculateScale userStroke
                                 (PatternTemplate.points template)))
                   (PatternTemplate.completion template)))
  /\ 0 <= calculateScale userStroke (PatternTemplate.points template)
  /\ (forall ox oy,
        generateCompletion (map (shift ox oy) userStroke) template
        = shifted ox oy (generateCompletion userStroke template)).
Proof.
  split; [reflexivity|]. split; [|split; [|split]].
  - intros U T. unfold generateCompletion. rewrite T.
    destruct userStroke; [contradiction|reflexivity].
  - intros U T d. apply generateCompletion_value; assumption.
  - apply calculateScale_nonneg.
  - intros ox oy.
    destruct userStroke as [|first rest] eqn:EU; [reflexivity|].
    rewrite <- EU.
    assert (U : userStroke <> []) by (rewrite EU; discriminate).
    assert (U' : map (shift ox oy) userStroke <> [])
      by (rewrite EU; discriminate).
    destruct (PatternTemplate.points template) as [|tf tr] eqn:ET.
    + unfold generateCompletion. rewrite ET, EU. reflexivity.
    + assert (T : PatternTemplate.points template <> [])
        by (rewrite ET; discriminate).
      rewrite (generateCompletion_value _ _ (shift ox oy first) U' T).
      rewrite (generateCompletion_value _ _ first U T).
      unfold shifted. f_equal. rewrite map_map.
      rewrite last_map.
      rewrite (last_default (PatternTemplate.points template)
                 (shift ox oy first) first T).
      unfold calculateScale. rewrite getBounds_shift.
      apply map_ext. intros c. unfold continued, shift.
      cbn [Point.x Point.y]. f_equal; ring.
Qed.

Lemma templates_have_points (template : PatternTemplate.t) :
  In template patternCompleter ->
  PatternTemplate.points template <> []
  /\ (List.length (PatternTemplate.completion template) = 4%nat
      \/ List.length (PatternTemplate.completion template) = 6%nat)
  /\ match PatternTemplate.type template with
     | PatternTemplate.neural =>
         PatternTemplate.name template = "neural_branch"%string
         \/ PatternTemplate.name template = "neural_dendrite"%string
     | PatternTemplate.geometric =>
         PatternTemplate.name template = "spiral_completion"%string
     | PatternTemplate.organic =>
         PatternTemplate.name template = "growth_pattern"%string
     end.
Proof.
  unfold patternCompleter, templates.
  intros [<-|[<-|[<-|[<-|[]]]]]; cbn; (split; [discriminate|]); auto.
Qed.

(** A template that [findBestMatch] of the exported [patternCompleter]
    returns for a stroke is one of its four templates, of the type of the
    drawing mode, and [generateCompletion] of the stroke and this template
    does not throw: it returns four points, or six for the template
    [spiral_completion], the only one in the mode 'electric'. *)
Theorem found_templates_complete_the_stroke (userStroke : list Point.t)
  (drawingMode : string) (template : PatternTemplate.t) :
  findBestMatch patternCompleter userStroke drawingMode = Some template ->
  In template templates
  /\ eligible drawingMode template
  /\ (drawingMode = "electric"%string ->
      PatternTemplate.name template = "spiral_completion"%string)
  /\ (drawingMode = "organic"%string ->
      PatternTemplate.name template = "growth_pattern"%string)
  /\ exists completion,
       generateCompletion userStroke template = inr completion
       /\ List.length completion
          = List.length (PatternTemplate.completion template)
       /\ (List.length completion = 4%nat \/ List.length completion = 6%nat).
Proof.
  intros F.
  assert (L : (3 <= List.length userStroke)%nat).
  { unfold findBestMatch in F.
    destruct (List.length userStroke <? 3)%nat eqn:E; [discriminate|].
    apply Nat.ltb_ge, E. }
  destruct (findBestMatch_bestSoFar patternCompleter userStroke drawingMode L)
    as (bestScore & B).
  rewrite F in B. unfold bestSoFar in B. cbv zeta in B. cbn [fst snd] in B.
  destruct B as (_ & _ & El & before & after & E & _).
  assert (I : In template patternCompleter)
    by (rewrite E; apply in_or_app; right; left; reflexivity).
  destruct (templates_have_points template I) as (T & Len & Name).
  split; [exact I|]. split; [exact El|].
  destruct El as (E1 & E2 & E3).
  split; [intros M; rewrite (E2 M) in Name; exact Name|].
  split; [intros M; rewrite (E3 M) in Name; exact Name|].
  assert (U : userStroke <> []) by (destruct userStroke; simpl in L;
                                    [lia|discriminate]).
  eexists. split; [apply (generateCompletion_value _ _ (Point.mk 0 0) U T)|].
  rewrite length_map. split; [reflexivity|exact Len].
Qed.

Lemma growthStroke_moves : getDirectionVectors growthStroke <> [].
Proof.
  unfold growthStroke, getDirectionVectors. cbn [directionsFrom]. cbv zeta.
  cbn [Point.x Point.y].
  rewrite (proj2 (gt_true_iff _ _)); [discriminate|].
  apply sqrt_lt_R0. lra.
Qed.

Lemma growthStroke_found :
  findBestMatch patternCompleter growthStroke "organic" = Some growthPattern.
Proof.
  unfold findBestMatch, patternCompleter, templates.
  change (List.length growthStroke <? 3)%nat with false. cbv iota.
  cbn [fold_left].
  unfold consider at 4. change (filteredOut _ _) with true at 1. cbv iota.
  unfold consider at 3. change (filteredOut _ _) with true at 1. cbv iota.
  unfold consider at 2. change (filteredOut _ _) with true at 1. cbv iota.
  unfold consider. change (filteredOut _ _) with false. cbv iota zeta.
  cbn [PatternTemplate.points snd].
  change [Point.mk 0 0; Point.mk 20 5; Point.mk 40 15] with growthStroke.
  rewrite (calculateMatchScore_self _ growthStroke_moves).
  rewrite (proj2 (gt_true_iff 1 0)) by lra.
  rewrite (proj2 (gt_true_iff 1 0.6)) by lra.
  reflexivity.
Qed.

Lemma found_templates_complete_the_stroke_witness :
  In growthPattern templates
  /\ eligible "organic" growthPattern
  /\ ("organic"%string = "electric"%string ->
      PatternTemplate.name growthPattern = "spiral_completion"%string)
  /\ ("organic"%string = "organic"%string ->
      PatternTemplate.name growthPattern = "growth_pattern"%string)
  /\ exists completion,
       generateCompletion growthStroke growthPattern = inr completion
       /\ List.length completion
          = List.length (PatternTemplate.completion growthPattern)
       /\ (List.length completion = 4%nat \/ List.length completion = 6%nat).
Proof.
  apply (found_templates_complete_the_stroke growthStroke "organic"
           growthPattern).
  exact growthStroke_found.
Defined.

End Completion.
